(** * Ultra Log Manager (ULM): a shallow embedding of the logging core

    The development follows the C++ sources of the plugin:

    - [Channels/ULMChannel.{h,cpp}]: token bucket, inheritance of channel
      settings, channel registry;
    - [MemoryManagement/ULMMemoryBudget.{h,cpp}]: byte accounting;
    - [Core/ULMSubsystem.{h,cpp}]: ingestion queue, in-memory store,
      eviction;
    - [Logging/ULMLogProcessor.{h,cpp}]: the consumer thread;
    - [MemoryManagement/ULMLogRotation.{h,cpp}]: file tracker and rotator.

    Conventions of the embedding.

    - [int32], [int64] and [SIZE_T] values are integers of [Z]; the
      operations that can leave the range of their type carry their
      wrap-around ([wrap32], [wrap64], [wrapSZ]).
    - [float] and [double] values are rationals of [Q].  Where the source
      computes with them, in the token bucket ([ULMChannelFloat]), in the
      eviction pass and in the health checks, every operation rounds its
      result to the format, to nearest with ties to even ([RoundFloat],
      [RoundDouble]), and a decimal constant is the number of the format
      nearest to it; overflow, infinities and NaN are outside the model.
      [ULMChannel] reads the token bucket in exact arithmetic, which is
      what the rounded bucket computes on whole numbers of tokens up to
      [2^24] ([CanLog_readings_agree]).  The comparisons of the settings
      and the age of the cache of channel states are written on the exact
      values.
    - [FString] is [string].  Unreal's [FString::operator==] and the key
      functions of [TMap<FString, _>] ignore letter case; [FKey] is the
      canonical (upper case) form used for both.
    - [TMap<FString, V>] is [gmap string V] indexed by [FKey name].
    - Mutating member functions take the object and return the new one.
    - Locks are not modelled: a member function is one step.  The steps
      of [StoreLogEntryInternal], which takes no lock, are set out where
      its calls overlap ([producer_step]).
    - The lines that the member functions write with [ULM_LOG],
      [ULM_WARNING] and [UE_LOG] about their own work are not part of the
      functions of the embedding; those of [ULM_LOG] and [ULM_WARNING] go
      through [ULMLogMessage] to the channel registry and the ingestion
      queue, and touch neither the in-memory store nor the memory
      tracker. *)

From Stdlib Require Import ZArith QArith Qminmax Qround Qpower Lqa String Ascii List Lia Permutation Sorted.
From stdpp Require Import gmap strings list fin_maps.

Local Open Scope Z_scope.

(* ===================================================================== *)
(** * Part I: the embedding                                               *)
(* ===================================================================== *)

(** ** Engine types used by the plugin *)
Module Engine.

(** [FChar::ToUpper] on the ASCII range. *)
Definition ToUpper (c : ascii) : ascii :=
  let n := nat_of_ascii c in
  if ((97 <=? n) && (n <=? 122))%nat then ascii_of_nat (n - 32) else c.

(** Canonical form of an [FString] for comparison and hashing. *)
Fixpoint FKey (s : string) : string :=
  match s with
  | EmptyString => EmptyString
  | String c r => String (ToUpper c) (FKey r)
  end.

(** [FString::operator==]: comparison ignoring case. *)
Definition FString_eq (a b : string) : bool := String.eqb (FKey a) (FKey b).

(** [FString::IsEmpty]. *)
Definition IsEmpty (s : string) : bool :=
  match s with EmptyString => true | _ => false end.

(** Two's complement wrap-around of the fixed-width integer types. *)
Definition wrap32 (z : Z) : Z := (z + 2^31) mod 2^32 - 2^31.
Definition wrap64 (z : Z) : Z := (z + 2^63) mod 2^64 - 2^63.
(** [SIZE_T] is an unsigned 64-bit integer. *)
Definition wrapSZ (z : Z) : Z := z mod 2^64.

(** [FThreadSafeCounter] (32 bits) and [FThreadSafeCounter64]. *)
Definition Increment (c : Z) : Z := wrap32 (c + 1).
Definition Decrement (c : Z) : Z := wrap32 (c - 1).
Definition Add64 (c amount : Z) : Z := wrap64 (c + amount).
Definition Subtract64 (c amount : Z) : Z := wrap64 (c - amount).

(** Comparisons of floating-point values, read on the rationals. *)
Definition Qlt_bool (a b : Q) : bool := negb (Qle_bool b a).

(** [FMath::Min(A, B) = (A < B) ? A : B] and
    [FMath::Max(A, B) = (B < A) ? A : B]. *)
Definition FMath_MinQ (a b : Q) : Q := if Qlt_bool a b then a else b.
Definition FMath_MinZ (a b : Z) : Z := if a <? b then a else b.
Definition FMath_MaxZ (a b : Z) : Z := if b <? a then a else b.

(** Conversion of a floating-point value to an integer type truncates
    toward zero. *)
Definition Qtrunc (q : Q) : Z := Z.quot (Qnum q) (Zpos (Qden q)).

(** [FLinearColor], compared component by component. *)
Record FLinearColor := mkColor {
  ColorR : Q; ColorG : Q; ColorB : Q; ColorA : Q
}.
Definition White : FLinearColor := mkColor 1 1 1 1.
Definition FLinearColor_eqb (x y : FLinearColor) : bool :=
  Qeq_bool (ColorR x) (ColorR y) && Qeq_bool (ColorG x) (ColorG y)
  && Qeq_bool (ColorB x) (ColorB y) && Qeq_bool (ColorA x) (ColorA y).

End Engine.
Import Engine.

(** ** Binary floating point ([float], [double]) *)
Module IEEE754.

(** [2^e], for an exponent of either sign. *)
Definition pow2 (e : Z) : Q := (2 ^ e)%Q.

(** The exponent of the binade of a positive number: [ilog2 x] is the
    integer [l] with [2^l <= x < 2^(l+1)]. *)
Definition ilog2 (x : Q) : Z :=
  let n := Qnum x in
  let d := Zpos (Qden x) in
  let k := Z.log2 n - Z.log2 d in
  if 0 <=? k
  then (if d * 2 ^ k <=? n then k else k - 1)
  else (if d <=? n * 2 ^ (- k) then k else k - 1).

(** Rounding to the nearest integer, ties to the even one. *)
Definition Qround_even (x : Q) : Z :=
  let f := Qfloor x in
  match Qcompare (x - inject_Z f) (1 # 2) with
  | Lt => f
  | Gt => f + 1
  | Eq => if Z.even f then f else f + 1
  end.

(** The exponent of the unit in the last place of a positive number, in the
    format of precision [prec] whose least positive number is [2^emin]. *)
Definition ulp_exponent (prec emin : Z) (x : Q) : Z :=
  Z.max (ilog2 x - prec + 1) emin.

(** Rounding of a positive number to the format, to nearest, ties to
    even. *)
Definition RoundPositive (prec emin : Z) (x : Q) : Q :=
  let e := ulp_exponent prec emin x in
  Qred (inject_Z (Qround_even (x / pow2 e)) * pow2 e).

(** Rounding of a number to the format.  The format has no largest
    number here: a result beyond the largest finite number of the format,
    which the hardware replaces by an infinity, is outside the model. *)
Definition RoundTo (prec emin : Z) (x : Q) : Q :=
  match Qcompare x 0 with
  | Eq => 0
  | Gt => RoundPositive prec emin x
  | Lt => - RoundPositive prec emin (- x)
  end.

(** IEEE 754 binary32 ([float]) and binary64 ([double]). *)
Definition RoundFloat : Q -> Q := RoundTo 24 (-149).
Definition RoundDouble : Q -> Q := RoundTo 53 (-1074).

(** [static_cast<float>] and [static_cast<double>] of an integer. *)
Definition IntToFloat (z : Z) : Q := RoundFloat (inject_Z z).
Definition IntToDouble (z : Z) : Q := RoundDouble (inject_Z z).

(** [static_cast<int32>] of a floating-point value truncates toward zero.
    Outside the range of [int32] the language leaves the result
    undefined; the conversion instruction of x86-64 answers [INT_MIN]. *)
Definition FloatToInt32 (q : Q) : Z :=
  let z := Qtrunc q in
  if (- 2 ^ 31 <=? z) && (z <? 2 ^ 31) then z else - 2 ^ 31.

(** The conversion to [SIZE_T] truncates toward zero; outside the range
    of [SIZE_T] the language leaves the result undefined. *)
Definition FloatToSize (q : Q) : Z := wrapSZ (Qtrunc q).

End IEEE754.
Import IEEE754.

(** ** Channels/ULMChannel.h and Channels/ULMChannel.cpp *)
Module ULMChannel.

Inductive EULMVerbosity := Message | Warning | Error | Critical.

(** Underlying [uint8] value of the enumerators. *)
Definition verbosity_value (v : EULMVerbosity) : Z :=
  match v with Message => 0 | Warning => 1 | Error => 2 | Critical => 3 end.

Definition verbosity_lt (a b : EULMVerbosity) : bool :=
  verbosity_value a <? verbosity_value b.

Definition FMath_MaxV (a b : EULMVerbosity) : EULMVerbosity :=
  if verbosity_lt b a then a else b.

(** The master list [ULM_CHANNEL_LIST]: the channel strings, in order. *)
Definition ULM_CHANNEL_LIST : list string :=
  [ "ULM"; "Gameplay"; "Network"; "Performance"; "Debug"; "AI";
    "Physics"; "Audio"; "Animation"; "UI"; "Subsystem"; "Custom" ]%string.

Record FULMRateLimit := mkRateLimit {
  TokensPerSecond : Q;
  BurstCapacity : Z
}.

(** [FULMRateLimit() = default]. *)
Definition FULMRateLimit_default : FULMRateLimit := mkRateLimit 20 20.

(** [FULMRateLimit(float InTokensPerSecond, int32 InBurstCapacity = 0)]. *)
Definition FULMRateLimit_make (InTokensPerSecond : Q) (InBurstCapacity : Z)
  : FULMRateLimit :=
  mkRateLimit InTokensPerSecond
    (if 0 <? InBurstCapacity then InBurstCapacity
     else FloatToInt32 InTokensPerSecond).

Record FULMChannelConfig := mkConfig {
  bEnabled : bool;
  MinVerbosity : EULMVerbosity;
  DisplayColor : FLinearColor;
  RateLimit : FULMRateLimit;
  MaxLogEntries : Z;
  bInheritFromParent : bool
}.

(** [FULMChannelConfig() = default]. *)
Definition FULMChannelConfig_default : FULMChannelConfig :=
  mkConfig true Message White FULMRateLimit_default 1000 true.

Record FULMChannelState := mkState {
  bEffectiveEnabled : bool;
  EffectiveMinVerbosity : EULMVerbosity;
  EffectiveColor : FLinearColor;
  EffectiveRateLimit : FULMRateLimit;
  EffectiveMaxEntries : Z;
  CurrentTokens : Q;
  LastRefillTime : Q;
  ParentChannel : string;
  ChildChannels : list string
}.

(** [FULMChannelState() = default]. *)
Definition FULMChannelState_default : FULMChannelState :=
  mkState true Message White FULMRateLimit_default 1000 20 0 "" [].

Definition set_bucket (tokens last : Q) (s : FULMChannelState)
  : FULMChannelState :=
  mkState (bEffectiveEnabled s) (EffectiveMinVerbosity s) (EffectiveColor s)
          (EffectiveRateLimit s) (EffectiveMaxEntries s)
          tokens last (ParentChannel s) (ChildChannels s).

Definition set_effective (en : bool) (v : EULMVerbosity) (c : FLinearColor)
    (r : FULMRateLimit) (m : Z) (s : FULMChannelState) : FULMChannelState :=
  mkState en v c r m
          (CurrentTokens s) (LastRefillTime s)
          (ParentChannel s) (ChildChannels s).

Definition set_parent (p : string) (s : FULMChannelState) : FULMChannelState :=
  mkState (bEffectiveEnabled s) (EffectiveMinVerbosity s) (EffectiveColor s)
          (EffectiveRateLimit s) (EffectiveMaxEntries s)
          (CurrentTokens s) (LastRefillTime s) p (ChildChannels s).

Definition set_children (cs : list string) (s : FULMChannelState)
  : FULMChannelState :=
  mkState (bEffectiveEnabled s) (EffectiveMinVerbosity s) (EffectiveColor s)
          (EffectiveRateLimit s) (EffectiveMaxEntries s)
          (CurrentTokens s) (LastRefillTime s) (ParentChannel s) cs.

(** [FULMChannelState::RefillTokens], in exact arithmetic; with the
    roundings of [float] and [double] it is
    [ULMChannelFloat.RefillTokens]. *)
Definition RefillTokens (CurrentTime : Q) (s : FULMChannelState)
  : FULMChannelState :=
  if Qeq_bool (LastRefillTime s) 0 then
    set_bucket (inject_Z (BurstCapacity (EffectiveRateLimit s))) CurrentTime s
  else
    let DeltaTime := (CurrentTime - LastRefillTime s)%Q in
    if Qlt_bool 0 DeltaTime then
      let TokensToAdd :=
        (DeltaTime * TokensPerSecond (EffectiveRateLimit s))%Q in
      set_bucket
        (FMath_MinQ (CurrentTokens s + TokensToAdd)%Q
                    (inject_Z (BurstCapacity (EffectiveRateLimit s))))
        CurrentTime s
    else s.

(** [FULMChannelState::CanLog]: the answer and the state it leaves, in
    exact arithmetic; with the rounding of [float] it is
    [ULMChannelFloat.CanLog]. *)
Definition CanLog (Verbosity : EULMVerbosity) (CurrentTime : Q)
    (s : FULMChannelState) : bool * FULMChannelState :=
  if negb (bEffectiveEnabled s)
     || verbosity_lt Verbosity (EffectiveMinVerbosity s)
  then (false, s)
  else
    let s1 := RefillTokens CurrentTime s in
    if Qle_bool 1 (CurrentTokens s1) then
      (true, set_bucket (CurrentTokens s1 - 1)%Q (LastRefillTime s1) s1)
    else (false, s1).

(** [n] consecutive calls of [CanLog] at one instant. *)
Fixpoint CanLog_times (n : nat) (Verbosity : EULMVerbosity) (CurrentTime : Q)
    (s : FULMChannelState) : list bool * FULMChannelState :=
  match n with
  | O => ([], s)
  | S n' =>
      let r := CanLog Verbosity CurrentTime s in
      let rs := CanLog_times n' Verbosity CurrentTime (snd r) in
      (fst r :: fst rs, snd rs)
  end.

(** [FULMChannelState::UpdateEffectiveSettings]; [ParentState] is [None]
    for a null pointer. *)
Definition UpdateEffectiveSettings (Config : FULMChannelConfig)
    (ParentState : option FULMChannelState) (s : FULMChannelState)
  : FULMChannelState :=
  match bInheritFromParent Config, ParentState with
  | true, Some Parent =>
      set_effective
        (bEffectiveEnabled Parent && bEnabled Config)
        (FMath_MaxV (EffectiveMinVerbosity Parent) (MinVerbosity Config))
        (if negb (FLinearColor_eqb (DisplayColor Config) White)
         then DisplayColor Config else EffectiveColor Parent)
        (if Qlt_bool 0 (TokensPerSecond (RateLimit Config))
         then RateLimit Config else EffectiveRateLimit Parent)
        (MaxLogEntries Config)
        s
  | _, _ =>
      set_effective (bEnabled Config) (MinVerbosity Config)
                    (DisplayColor Config) (RateLimit Config)
                    (MaxLogEntries Config) s
  end.

(** *** The registry *)

Record FULMChannelRegistry := mkRegistry {
  ChannelConfigs : gmap string FULMChannelConfig;
  ChannelStates : gmap string FULMChannelState;
  DefaultConfig : FULMChannelConfig
}.

Definition set_states (m : gmap string FULMChannelState)
    (reg : FULMChannelRegistry) : FULMChannelRegistry :=
  mkRegistry (ChannelConfigs reg) m (DefaultConfig reg).

Definition set_configs (m : gmap string FULMChannelConfig)
    (reg : FULMChannelRegistry) : FULMChannelRegistry :=
  mkRegistry m (ChannelStates reg) (DefaultConfig reg).

(** [FString::FindLastChar], [Left] and [Mid]. *)
Fixpoint FindLastChar (c : ascii) (s : string) : option nat :=
  match s with
  | EmptyString => None
  | String a r =>
      match FindLastChar c r with
      | Some i => Some (S i)
      | None => if Ascii.eqb a c then Some O else None
      end
  end.

Definition Left (n : nat) (s : string) : string := substring 0 n s.
Definition Mid (n : nat) (s : string) : string :=
  substring n (String.length s - n) s.

(** [FULMChannelRegistry::ParseChannelHierarchy]: parent and local name. *)
Definition ParseChannelHierarchy (ChannelName : string) : string * string :=
  match FindLastChar "." ChannelName with
  | Some LastDotIndex =>
      (Left LastDotIndex ChannelName, Mid (LastDotIndex + 1) ChannelName)
  | None => (EmptyString, ChannelName)
  end.

(** [TArray<FString>::AddUnique] and [Remove]. *)
Definition AddUnique (x : string) (l : list string) : list string :=
  if existsb (FString_eq x) l then l else l ++ [x].
Definition RemoveAllEq (x : string) (l : list string) : list string :=
  List.filter (fun y => negb (FString_eq y x)) l.

(** [FULMChannelRegistry::RebuildEffectiveSettings].  The recursion
    follows the child lists; [fuel] bounds its depth. *)
Fixpoint RebuildEffectiveSettings_fuel (fuel : nat) (ChannelName : string)
    (reg : FULMChannelRegistry) : FULMChannelRegistry :=
  match fuel with
  | O => reg
  | S fuel' =>
      match ChannelStates reg !! FKey ChannelName,
            ChannelConfigs reg !! FKey ChannelName with
      | Some State, Some Config =>
          let ParentState :=
            if IsEmpty (ParentChannel State) then None
            else ChannelStates reg !! FKey (ParentChannel State) in
          let State' := UpdateEffectiveSettings Config ParentState State in
          let reg1 :=
            set_states (<[FKey ChannelName := State']> (ChannelStates reg))
                       reg in
          fold_left
            (fun r ChildChannel =>
               RebuildEffectiveSettings_fuel fuel' ChildChannel r)
            (ChildChannels State') reg1
      | _, _ => reg
      end
  end.

(** The depth of an acyclic hierarchy is at most the number of channels. *)
Definition RebuildEffectiveSettings (ChannelName : string)
    (reg : FULMChannelRegistry) : FULMChannelRegistry :=
  RebuildEffectiveSettings_fuel (S (size (ChannelStates reg)))
                                ChannelName reg.

(** [FULMChannelRegistry::UpdateChildChannels]. *)
Definition UpdateChildChannels (ParentChannel' : string)
    (reg : FULMChannelRegistry) : FULMChannelRegistry :=
  match ChannelStates reg !! FKey ParentChannel' with
  | Some ParentState =>
      match ChannelConfigs reg !! FKey ParentChannel' with
      | None => reg
      | Some _ =>
          fold_left (fun r ChildChannel =>
                       RebuildEffectiveSettings ChildChannel r)
                    (ChildChannels ParentState) reg
      end
  | None => reg
  end.

(** [FULMChannelRegistry::RegisterChannel]; the recursion registers the
    missing ancestors, whose names get shorter. *)
Fixpoint RegisterChannel_fuel (fuel : nat) (ChannelName : string)
    (Config : FULMChannelConfig) (reg : FULMChannelRegistry)
  : FULMChannelRegistry :=
  match fuel with
  | O => reg
  | S fuel' =>
      if IsEmpty ChannelName then reg
      else
        let ParentName := fst (ParseChannelHierarchy ChannelName) in
        let reg1 :=
          if negb (IsEmpty ParentName)
             && negb (bool_decide
                        (is_Some (ChannelConfigs reg !! FKey ParentName)))
          then RegisterChannel_fuel fuel' ParentName (DefaultConfig reg) reg
          else reg in
        let reg2 :=
          set_configs (<[FKey ChannelName := Config]> (ChannelConfigs reg1))
                      reg1 in
        let NewState := set_parent ParentName FULMChannelState_default in
        let ParentState :=
          if negb (IsEmpty ParentName)
          then ChannelStates reg2 !! FKey ParentName else None in
        let NewState' := UpdateEffectiveSettings Config ParentState NewState in
        let reg3 :=
          if negb (IsEmpty ParentName) then
            match ChannelStates reg2 !! FKey ParentName with
            | Some Parent =>
                set_states
                  (<[FKey ParentName :=
                       set_children (AddUnique ChannelName
                                               (ChildChannels Parent))
                                    Parent]> (ChannelStates reg2))
                  reg2
            | None => reg2
            end
          else reg2 in
        let reg4 :=
          set_states (<[FKey ChannelName := NewState']> (ChannelStates reg3))
                     reg3 in
        UpdateChildChannels ChannelName reg4
  end.

Definition RegisterChannel (ChannelName : string)
    (Config : FULMChannelConfig) (reg : FULMChannelRegistry)
  : FULMChannelRegistry :=
  RegisterChannel_fuel (S (String.length ChannelName)) ChannelName Config reg.

(** The constructor registers ["Default"]. *)
Definition FULMChannelRegistry_new : FULMChannelRegistry :=
  RegisterChannel "Default" FULMChannelConfig_default
                  (mkRegistry ∅ ∅ FULMChannelConfig_default).

(** [IsChannelRegistered], [GetChannelState], [GetChannelConfig]. *)
Definition IsChannelRegistered (ChannelName : string)
    (reg : FULMChannelRegistry) : bool :=
  bool_decide (is_Some (ChannelStates reg !! FKey ChannelName)).

Definition GetChannelState (ChannelName : string)
    (reg : FULMChannelRegistry) : option FULMChannelState :=
  ChannelStates reg !! FKey ChannelName.

Definition GetChannelConfig (ChannelName : string)
    (reg : FULMChannelRegistry) : FULMChannelConfig :=
  match ChannelConfigs reg !! FKey ChannelName with
  | Some Config => Config
  | None => DefaultConfig reg
  end.

(** [FULMChannelRegistry::CanChannelLog]; [CurrentTime] is the reading of
    [FPlatformTime::Seconds()]. *)
Definition CanChannelLog (ChannelName : string) (Verbosity : EULMVerbosity)
    (CurrentTime : Q) (reg : FULMChannelRegistry)
  : bool * FULMChannelRegistry :=
  match GetChannelState ChannelName reg with
  | None => (false, reg)
  | Some State =>
      let r := CanLog Verbosity CurrentTime State in
      (fst r,
       set_states (<[FKey ChannelName := snd r]> (ChannelStates reg)) reg)
  end.

(** [FULMChannelRegistry::UpdateChannelConfig]. *)
Definition UpdateChannelConfig (ChannelName : string)
    (Config : FULMChannelConfig) (reg : FULMChannelRegistry)
  : FULMChannelRegistry :=
  if bool_decide (is_Some (ChannelConfigs reg !! FKey ChannelName)) then
    RebuildEffectiveSettings ChannelName
      (set_configs (<[FKey ChannelName := Config]> (ChannelConfigs reg)) reg)
  else reg.

End ULMChannel.
Import ULMChannel.

(** ** Channels/ULMChannel.cpp: the token bucket in floating point

    [CurrentTokens] is a [float] and the clock a [double].  [CanLog] and
    [RefillTokens] of [ULMChannel] read the arithmetic of the bucket
    exactly; here every operation rounds its result as the hardware
    does: the difference of two clock readings and its product with the
    rate to a [double], the product again to a [float] on its way into
    [TokensToAdd], and the sum and the difference of tokens to a
    [float]. *)
Module ULMChannelFloat.

(** [FULMChannelState::RefillTokens]. *)
Definition RefillTokens (CurrentTime : Q) (s : FULMChannelState)
  : FULMChannelState :=
  if Qeq_bool (LastRefillTime s) 0 then
    set_bucket (IntToFloat (BurstCapacity (EffectiveRateLimit s)))
               CurrentTime s
  else
    let DeltaTime := RoundDouble (CurrentTime - LastRefillTime s) in
    if Qlt_bool 0 DeltaTime then
      let TokensToAdd :=
        RoundFloat
          (RoundDouble
             (DeltaTime * TokensPerSecond (EffectiveRateLimit s))) in
      set_bucket
        (FMath_MinQ (RoundFloat (CurrentTokens s + TokensToAdd))
                    (IntToFloat (BurstCapacity (EffectiveRateLimit s))))
        CurrentTime s
    else s.

(** [FULMChannelState::CanLog]: the answer and the state it leaves. *)
Definition CanLog (Verbosity : EULMVerbosity) (CurrentTime : Q)
    (s : FULMChannelState) : bool * FULMChannelState :=
  if negb (bEffectiveEnabled s)
     || verbosity_lt Verbosity (EffectiveMinVerbosity s)
  then (false, s)
  else
    let s1 := RefillTokens CurrentTime s in
    if Qle_bool 1 (CurrentTokens s1) then
      (true,
       set_bucket (RoundFloat (CurrentTokens s1 - 1)) (LastRefillTime s1) s1)
    else (false, s1).

(** [n] consecutive calls of [CanLog] at one instant. *)
Fixpoint CanLog_times (n : nat) (Verbosity : EULMVerbosity) (CurrentTime : Q)
    (s : FULMChannelState) : list bool * FULMChannelState :=
  match n with
  | O => ([], s)
  | S n' =>
      let r := CanLog Verbosity CurrentTime s in
      let rs := CanLog_times n' Verbosity CurrentTime (snd r) in
      (fst r :: fst rs, snd rs)
  end.

(** A run of [CanLog] calls, each with its severity and clock reading. *)
Fixpoint CanLog_calls (calls : list (EULMVerbosity * Q))
    (s : FULMChannelState) : list bool * FULMChannelState :=
  match calls with
  | [] => ([], s)
  | call :: rest =>
      let r := CanLog (fst call) (snd call) s in
      let rs := CanLog_calls rest (snd r) in
      (fst r :: fst rs, snd rs)
  end.

End ULMChannelFloat.

(** ** MemoryManagement/ULMMemoryBudget.h and ULMMemoryBudget.cpp *)
Module ULMMemoryBudget.

(** [FULMLogEntry] (declared in Core/ULMSubsystem.h).  [FDateTime] is its
    tick count. *)
Record FULMLogEntry := mkLogEntry {
  entry_Message : string;
  entry_Channel : string;
  entry_Verbosity : EULMVerbosity;
  entry_Timestamp : Z;
  entry_ThreadId : Z
}.

(** The sizes that the compiler gives to [sizeof(FULMLogEntry)],
    [sizeof(FString)] and [sizeof(TCHAR)]. *)
Record Platform := mkPlatform {
  sizeof_FULMLogEntry : Z;
  sizeof_FString : Z;
  sizeof_TCHAR : Z
}.

(** A 64-bit desktop target. *)
Definition desktop64 : Platform := mkPlatform 56 16 2.

(** [FULMMemoryTracker].  [LargestChannelName] and [LargestChannelUsage]
    are recomputed from [ChannelMemoryUsage] for the diagnostics only and
    are left out. *)
Record FULMMemoryTracker := mkTracker {
  TotalMemoryUsedCounter : Z;
  TotalEntriesCounter : Z;
  TrimmingEventsCounter : Z;
  MemoryBudget : Z;
  ChannelMemoryUsage : gmap string Z
}.

(** [FULMMemoryTracker()]: a budget of 50 MB. *)
Definition FULMMemoryTracker_new : FULMMemoryTracker :=
  mkTracker 0 0 0 52428800 ∅.

(** [FULMMemoryTracker::CalculateLogEntrySize]. *)
Definition CalculateLogEntrySize (P : Platform) (Entry : FULMLogEntry) : Z :=
  wrapSZ (sizeof_FULMLogEntry P
          + Z.of_nat (String.length (entry_Message Entry)) * sizeof_TCHAR P
          + Z.of_nat (String.length (entry_Channel Entry)) * sizeof_TCHAR P
          + sizeof_FString P * 2).

(** [FULMMemoryTracker::GetTotalMemoryUsage]: the 64-bit counter read as
    a [SIZE_T]. *)
Definition GetTotalMemoryUsage (t : FULMMemoryTracker) : Z :=
  wrapSZ (TotalMemoryUsedCounter t).

Definition GetMemoryBudget (t : FULMMemoryTracker) : Z := MemoryBudget t.

(** [FULMMemoryTracker::GetChannelMemoryUsage]. *)
Definition GetChannelMemoryUsage (ChannelName : string)
    (t : FULMMemoryTracker) : Z :=
  match ChannelMemoryUsage t !! FKey ChannelName with
  | Some Usage => Usage
  | None => 0
  end.

(** [FULMMemoryTracker::AddMemoryUsage]. *)
Definition AddMemoryUsage (ChannelName : string) (MemorySize : Z)
    (t : FULMMemoryTracker) : FULMMemoryTracker :=
  mkTracker
    (Add64 (TotalMemoryUsedCounter t) MemorySize)
    (Increment (TotalEntriesCounter t))
    (TrimmingEventsCounter t)
    (MemoryBudget t)
    (match ChannelMemoryUsage t !! FKey ChannelName with
     | Some ExistingUsage =>
         <[FKey ChannelName := wrapSZ (ExistingUsage + MemorySize)]>
           (ChannelMemoryUsage t)
     | None => <[FKey ChannelName := MemorySize]> (ChannelMemoryUsage t)
     end).

(** [FULMMemoryTracker::RemoveMemoryUsage]; the line that it writes with
    [ULM_LOG] at its end is not part of the function. *)
Definition RemoveMemoryUsage (ChannelName : string) (MemorySize : Z)
    (t : FULMMemoryTracker) : FULMMemoryTracker :=
  mkTracker
    (Subtract64 (TotalMemoryUsedCounter t) MemorySize)
    (Decrement (TotalEntriesCounter t))
    (TrimmingEventsCounter t)
    (MemoryBudget t)
    (match ChannelMemoryUsage t !! FKey ChannelName with
     | Some ExistingUsage =>
         let NewUsage :=
           if MemorySize <? ExistingUsage
           then ExistingUsage - MemorySize else 0 in
         if NewUsage =? 0
         then delete (FKey ChannelName) (ChannelMemoryUsage t)
         else <[FKey ChannelName := NewUsage]> (ChannelMemoryUsage t)
     | None => ChannelMemoryUsage t
     end).

(** [FULMMemoryTracker::WouldExceedBudget]. *)
Definition WouldExceedBudget (AdditionalMemory : Z) (t : FULMMemoryTracker)
  : bool :=
  MemoryBudget t <? wrapSZ (GetTotalMemoryUsage t + AdditionalMemory).

(** [FULMMemoryTracker::SetMemoryBudget]. *)
Definition SetMemoryBudget (NewBudget : Z) (t : FULMMemoryTracker)
  : FULMMemoryTracker :=
  mkTracker (TotalMemoryUsedCounter t) (TotalEntriesCounter t)
            (TrimmingEventsCounter t) NewBudget (ChannelMemoryUsage t).

Definition bump_TrimmingEvents (t : FULMMemoryTracker) : FULMMemoryTracker :=
  mkTracker (TotalMemoryUsedCounter t) (TotalEntriesCounter t)
            (Increment (TrimmingEventsCounter t)) (MemoryBudget t)
            (ChannelMemoryUsage t).

End ULMMemoryBudget.
Import ULMMemoryBudget.

(** ** Core/ULMSubsystem.h and Core/ULMSubsystem.cpp *)
Module ULMSubsystem.

Definition MAX_QUEUE_SIZE : Z := 10000.

(** [FULMLogQueueEntry]; the constructor stamps the entry with
    [FDateTime::Now()] and the calling thread. *)
Record FULMLogQueueEntry := mkQueueEntry {
  queue_Message : string;
  queue_Channel : string;
  queue_Verbosity : EULMVerbosity;
  queue_Timestamp : Z;
  queue_ThreadId : Z
}.

(** [FULMQueueDiagnostics]; the two accumulated times are left out. *)
Record FULMQueueDiagnostics := mkQueueDiagnostics {
  EnqueueCount : Z;
  DequeueCount : Z;
  DroppedCount : Z;
  ProcessedCount : Z
}.

(** The members of [UULMSubsystem] on the path from a log call to the
    in-memory store.  [ChannelRegistry] is [None] for a null pointer.
    The file writer and its queue are left out, and so are the
    diagnostics that the member functions emit with [ULM_LOG] and
    [UE_LOG]. *)
Record UULMSubsystem := mkSubsystem {
  ChannelRegistry : option FULMChannelRegistry;
  LogMessageQueue : list FULMLogQueueEntry;
  LogEntries : gmap string (list FULMLogEntry);
  QueueDiagnostics : FULMQueueDiagnostics;
  MemoryTracker : FULMMemoryTracker
}.

Definition with_registry (r : option FULMChannelRegistry) (s : UULMSubsystem)
  : UULMSubsystem :=
  mkSubsystem r (LogMessageQueue s) (LogEntries s) (QueueDiagnostics s)
              (MemoryTracker s).
Definition with_queue (q : list FULMLogQueueEntry) (s : UULMSubsystem)
  : UULMSubsystem :=
  mkSubsystem (ChannelRegistry s) q (LogEntries s) (QueueDiagnostics s)
              (MemoryTracker s).
Definition with_entries (m : gmap string (list FULMLogEntry))
    (s : UULMSubsystem) : UULMSubsystem :=
  mkSubsystem (ChannelRegistry s) (LogMessageQueue s) m (QueueDiagnostics s)
              (MemoryTracker s).
Definition with_diagnostics (d : FULMQueueDiagnostics) (s : UULMSubsystem)
  : UULMSubsystem :=
  mkSubsystem (ChannelRegistry s) (LogMessageQueue s) (LogEntries s) d
              (MemoryTracker s).
Definition with_tracker (t : FULMMemoryTracker) (s : UULMSubsystem)
  : UULMSubsystem :=
  mkSubsystem (ChannelRegistry s) (LogMessageQueue s) (LogEntries s)
              (QueueDiagnostics s) t.

(** [IsChannelInMasterList]: the macro expands to one comparison per
    line of [ULM_CHANNEL_LIST]. *)
Definition IsChannelInMasterList (ChannelName : string) : bool :=
  existsb (fun ChannelStr => FString_eq ChannelName ChannelStr)
          ULM_CHANNEL_LIST.

(** [UULMSubsystem::RegisterChannel]. *)
Definition RegisterChannel (ChannelName : string)
    (Config : FULMChannelConfig) (s : UULMSubsystem) : UULMSubsystem :=
  if negb (IsChannelInMasterList ChannelName) then s
  else
    match ChannelRegistry s with
    | None => s
    | Some reg =>
        let reg' := ULMChannel.RegisterChannel ChannelName Config reg in
        let s1 := with_registry (Some reg') s in
        match LogEntries s1 !! FKey ChannelName with
        | Some _ => s1
        | None => with_entries (<[FKey ChannelName := []]> (LogEntries s1)) s1
        end
    end.

(** [UULMSubsystem::GetQueueSize]. *)
Definition GetQueueSize (s : UULMSubsystem) : Z :=
  let Enqueued := EnqueueCount (QueueDiagnostics s) in
  let Dequeued := DequeueCount (QueueDiagnostics s) in
  FMath_MaxZ 0 (wrap32 (Enqueued - Dequeued)).

Definition bump_Dropped (d : FULMQueueDiagnostics) : FULMQueueDiagnostics :=
  mkQueueDiagnostics (EnqueueCount d) (DequeueCount d)
                     (Increment (DroppedCount d)) (ProcessedCount d).
Definition bump_Enqueue (d : FULMQueueDiagnostics) : FULMQueueDiagnostics :=
  mkQueueDiagnostics (Increment (EnqueueCount d)) (DequeueCount d)
                     (DroppedCount d) (ProcessedCount d).

(** What a call of [StoreLogEntryInternal] reads from its environment:
    the clock of the rate limiter, the time stamp and the thread of the
    queue entry, and whether [TQueue::Enqueue] could allocate its node. *)
Record CallContext := mkCallContext {
  ctx_Seconds : Q;
  ctx_Now : Z;
  ctx_ThreadId : Z;
  ctx_EnqueueSucceeds : bool
}.

(** [UULMSubsystem::StoreLogEntryInternal]. *)
Definition StoreLogEntryInternal (ctx : CallContext) (Message : string)
    (ChannelName : string) (Verbosity : EULMVerbosity) (s : UULMSubsystem)
  : UULMSubsystem :=
  let admission :=
    match ChannelRegistry s with
    | Some reg =>
        let r := CanChannelLog ChannelName Verbosity (ctx_Seconds ctx) reg in
        (fst r, with_registry (Some (snd r)) s)
    | None => (true, s)
    end in
  let s1 := snd admission in
  if negb (fst admission) then s1
  else if MAX_QUEUE_SIZE <=? GetQueueSize s1 then
    with_diagnostics (bump_Dropped (QueueDiagnostics s1)) s1
  else
    let QueueEntry :=
      mkQueueEntry Message ChannelName Verbosity
                   (ctx_Now ctx) (ctx_ThreadId ctx) in
    if ctx_EnqueueSucceeds ctx then
      with_diagnostics (bump_Enqueue (QueueDiagnostics s1))
        (with_queue (LogMessageQueue s1 ++ [QueueEntry]) s1)
    else
      with_diagnostics (bump_Dropped (QueueDiagnostics s1)) s1.

(** [UULMSubsystem::UpdateProcessingDiagnostics]. *)
Definition UpdateProcessingDiagnostics (s : UULMSubsystem) : UULMSubsystem :=
  let d := QueueDiagnostics s in
  with_diagnostics
    (mkQueueDiagnostics (EnqueueCount d) (Increment (DequeueCount d))
                        (DroppedCount d) (Increment (ProcessedCount d)))
    s.

Section Store.

Variable P : Platform.

(** The loop of [TrimChannelForMemory] that adds up the sizes. *)
Definition MemoryOf (Entries : list FULMLogEntry) : Z :=
  fold_left (fun MemoryToRemove e =>
               wrapSZ (MemoryToRemove + CalculateLogEntrySize P e))
            Entries 0.

(** [UULMSubsystem::TrimChannelForMemory]. *)
Definition TrimChannelForMemory (ChannelName : string)
    (EntriesToRemove : Z) (s : UULMSubsystem) : UULMSubsystem :=
  match LogEntries s !! FKey ChannelName with
  | None => s
  | Some ChannelEntries =>
      let Num := Z.of_nat (length ChannelEntries) in
      if (EntriesToRemove <=? 0) || (Num =? 0) then s
      else
        let EntriesToRemove' := FMath_MinZ EntriesToRemove Num in
        let n := Z.to_nat EntriesToRemove' in
        let MemoryToRemove := MemoryOf (firstn n ChannelEntries) in
        with_tracker
          (RemoveMemoryUsage ChannelName MemoryToRemove (MemoryTracker s))
          (with_entries
             (<[FKey ChannelName := skipn n ChannelEntries]> (LogEntries s))
             s)
  end.

(** The target fraction of [TrimMemoryBudget].  [OverageRatio] is the
    quotient of two [float]s; the decimal constants are the [float]s
    nearest to them.  Over a budget of zero the quotient is infinite, and
    not a number when the usage is zero too: every comparison with it is
    false. *)
Definition TargetPercent (CurrentUsage Budget : Z) : Q :=
  if Budget =? 0 then
    if CurrentUsage =? 0 then RoundFloat (75 # 100) else RoundFloat (5 # 10)
  else
    let OverageRatio :=
      RoundFloat (IntToFloat CurrentUsage / IntToFloat Budget) in
    if Qlt_bool (RoundFloat (12 # 10)) OverageRatio then RoundFloat (5 # 10)
    else if Qlt_bool (RoundFloat (11 # 10)) OverageRatio
         then RoundFloat (6 # 10)
         else RoundFloat (75 # 100).

(** The fraction of a channel that one visit removes; the two arguments
    are [float]s. *)
Definition RemovalPercent (RemainingReduction ChannelSize : Q) : Q :=
  if Qlt_bool (RoundFloat (ChannelSize * RoundFloat (5 # 10)))
              RemainingReduction
  then RoundFloat (75 # 100)
  else if Qlt_bool (RoundFloat (ChannelSize * RoundFloat (25 # 100)))
                   RemainingReduction
       then RoundFloat (5 # 10)
       else RoundFloat (25 # 100).

(** The list [ChannelsByUsage] before it is sorted. *)
Definition ChannelUsages (s : UULMSubsystem) : list (string * Z) :=
  map (fun LogEntryPair =>
         (fst LogEntryPair,
          GetChannelMemoryUsage (fst LogEntryPair) (MemoryTracker s)))
      (map_to_list (LogEntries s)).

(** [ChannelsByUsage.Sort] with the predicate [A.Value > B.Value].  The
    engine's sort does not fix the order of channels of equal usage; the
    insertion below keeps them in the order of the list. *)
Fixpoint insert_by_usage (x : string * Z) (l : list (string * Z))
  : list (string * Z) :=
  match l with
  | [] => [x]
  | y :: r => if snd y <? snd x then x :: l else y :: insert_by_usage x r
  end.

Definition SortByUsage (l : list (string * Z)) : list (string * Z) :=
  foldr insert_by_usage [] l.

(** One turn of the loop over [ChannelsByUsage]. *)
Definition TrimVisit (TargetReduction : Z) (ChannelPair : string * Z)
    (acc : UULMSubsystem * Z) : UULMSubsystem * Z :=
  let s := fst acc in
  let TotalReduced := snd acc in
  match LogEntries s !! FKey (fst ChannelPair) with
  | Some ChannelEntries =>
      let Num := Z.of_nat (length ChannelEntries) in
      if 0 <? Num then
        let RemainingReduction :=
          IntToFloat (wrapSZ (TargetReduction - TotalReduced)) in
        let ChannelSize := IntToFloat (snd ChannelPair) in
        let Percent := RemovalPercent RemainingReduction ChannelSize in
        let EntriesToRemove :=
          FMath_MinZ
            (FMath_MaxZ 1
               (FloatToInt32 (RoundFloat (IntToFloat Num * Percent))))
            Num in
        let MemoryBefore :=
          GetChannelMemoryUsage (fst ChannelPair) (MemoryTracker s) in
        let s' := TrimChannelForMemory (fst ChannelPair) EntriesToRemove s in
        let MemoryAfter :=
          GetChannelMemoryUsage (fst ChannelPair) (MemoryTracker s') in
        let ReducedThisChannel := wrapSZ (MemoryBefore - MemoryAfter) in
        (s', wrapSZ (TotalReduced + ReducedThisChannel))
      else acc
  | None => acc
  end.

(** The loop, with its [break]. *)
Fixpoint TrimLoop (TargetReduction : Z)
    (ChannelsByUsage : list (string * Z)) (acc : UULMSubsystem * Z)
  : UULMSubsystem * Z :=
  match ChannelsByUsage with
  | [] => acc
  | ChannelPair :: rest =>
      if TargetReduction <=? snd acc then acc
      else TrimLoop TargetReduction rest
                    (TrimVisit TargetReduction ChannelPair acc)
  end.

(** [ReasonableBuffer]: the product of the budget and the [double]
    nearest to 0.02, converted to a [SIZE_T]. *)
Definition ReasonableBuffer (Budget : Z) : Z :=
  FloatToSize (RoundDouble (IntToDouble Budget * RoundDouble (2 # 100))).

(** The test that ends [TrimMemoryBudget] before any trimming. *)
Definition SafelyWithinBudget (s : UULMSubsystem) : bool :=
  let CurrentUsage := GetTotalMemoryUsage (MemoryTracker s) in
  let Budget := GetMemoryBudget (MemoryTracker s) in
  CurrentUsage <=? wrapSZ (Budget - ReasonableBuffer Budget).

(** [TargetReduction]: the usage and the budget enter the subtraction and
    the product as [float]s, and the difference, a [float], is converted
    to a [SIZE_T]. *)
Definition TargetReduction (s : UULMSubsystem) : Z :=
  let CurrentUsage := GetTotalMemoryUsage (MemoryTracker s) in
  let Budget := GetMemoryBudget (MemoryTracker s) in
  FloatToSize
    (RoundFloat
       (IntToFloat CurrentUsage
        - RoundFloat (IntToFloat Budget * TargetPercent CurrentUsage Budget))).

(** [UULMSubsystem::TrimMemoryBudget].  The lines that it writes with
    [ULM_WARNING] and [ULM_LOG] go through the logging macros to the
    channel registry and the ingestion queue; they touch neither
    [LogEntries] nor [MemoryTracker] and are not part of this function of
    the store. *)
Definition TrimMemoryBudget (s : UULMSubsystem) : UULMSubsystem :=
  if SafelyWithinBudget s then s
  else
    let ChannelsByUsage := SortByUsage (ChannelUsages s) in
    let r := TrimLoop (TargetReduction s) ChannelsByUsage (s, 0) in
    with_tracker (bump_TrimmingEvents (MemoryTracker (fst r))) (fst r).

(** [UULMSubsystem::StoreProcessedLogEntry]. *)
Definition StoreProcessedLogEntry (Entry : FULMLogEntry)
    (s : UULMSubsystem) : UULMSubsystem :=
  if negb (IsChannelInMasterList (entry_Channel Entry)) then s
  else
    let EntryMemorySize := CalculateLogEntrySize P Entry in
    let exceeded := WouldExceedBudget EntryMemorySize (MemoryTracker s) in
    let s1 := if exceeded then TrimMemoryBudget s else s in
    if exceeded && WouldExceedBudget EntryMemorySize (MemoryTracker s1)
    then s1
    else
      let Key := FKey (entry_Channel Entry) in
      let s2 :=
        match LogEntries s1 !! Key with
        | Some _ => s1
        | None =>
            let s1' := with_entries (<[Key := []]> (LogEntries s1)) s1 in
            match ChannelRegistry s1' with
            | Some reg =>
                if negb (IsChannelRegistered (entry_Channel Entry) reg)
                then with_registry
                       (Some (ULMChannel.RegisterChannel
                                (entry_Channel Entry)
                                FULMChannelConfig_default reg))
                       s1'
                else s1'
            | None => s1'
            end
        end in
      let ChannelEntries :=
        default [] (LogEntries s2 !! Key) ++ [Entry] in
      let s3 :=
        with_tracker
          (AddMemoryUsage (entry_Channel Entry) EntryMemorySize
                          (MemoryTracker s2))
          (with_entries (<[Key := ChannelEntries]> (LogEntries s2)) s2) in
      match ChannelRegistry s3 with
      | Some reg =>
          let Config := GetChannelConfig (entry_Channel Entry) reg in
          let Num := Z.of_nat (length ChannelEntries) in
          if MaxLogEntries Config <? Num then
            let ElementsToRemove := wrap32 (Num - MaxLogEntries Config) in
            TrimChannelForMemory (entry_Channel Entry) ElementsToRemove s3
          else s3
      | None => s3
      end.

(** [UULMSubsystem::ProcessLogEntry]. *)
Definition ProcessLogEntry (QueueEntry : FULMLogQueueEntry)
    (s : UULMSubsystem) : UULMSubsystem :=
  StoreProcessedLogEntry
    (mkLogEntry (queue_Message QueueEntry) (queue_Channel QueueEntry)
                (queue_Verbosity QueueEntry) (queue_Timestamp QueueEntry)
                (queue_ThreadId QueueEntry))
    s.

End Store.

End ULMSubsystem.
Import ULMSubsystem.

(** ** Logging/ULMLogProcessor.h and Logging/ULMLogProcessor.cpp *)
Module ULMLogProcessor.

Definition BATCH_SIZE : nat := 64.

Section Processor.

Variable P : Platform.

(** The loop of [FULMLogProcessor::ProcessBatch]; [budget] is
    [BATCH_SIZE - ProcessedCount]. *)
Fixpoint ProcessBatch_loop (budget : nat) (s : UULMSubsystem)
  : UULMSubsystem :=
  match budget with
  | O => s
  | S budget' =>
      match LogMessageQueue s with
      | [] => s
      | Entry :: rest =>
          ProcessBatch_loop budget'
            (UpdateProcessingDiagnostics
               (ProcessLogEntry P Entry (with_queue rest s)))
      end
  end.

(** [FULMLogProcessor::ProcessBatch]; the processor is built with a
    subsystem, so the pointer is not null. *)
Definition ProcessBatch (s : UULMSubsystem) : UULMSubsystem :=
  ProcessBatch_loop BATCH_SIZE s.

(** [FULMLogProcessor::Run].  Each element of [others] is what the
    other threads do to the subsystem between two readings of
    [bStopRequested] by the processor that find it false; the reading
    after the last of them finds it true. *)
Fixpoint Run (others : list (UULMSubsystem -> UULMSubsystem))
    (s : UULMSubsystem) : UULMSubsystem :=
  match others with
  | [] => ProcessBatch s
  | other :: rest => Run rest (other (ProcessBatch s))
  end.

End Processor.

End ULMLogProcessor.
Import ULMLogProcessor.

(** ** MemoryManagement/ULMLogRotation.h and ULMLogRotation.cpp *)
Module ULMLogRotation.

(** *** Strings and paths of the engine *)

Definition is_slash (c : ascii) : bool :=
  Ascii.eqb c "/" || Ascii.eqb c "\".

Definition is_digit (c : ascii) : bool :=
  let n := nat_of_ascii c in ((48 <=? n) && (n <=? 57))%nat.

Definition digit_char (d : nat) : ascii := ascii_of_nat (48 + d).

(** The decimal digits of a natural number. *)
Fixpoint digits_fuel (fuel n : nat) (acc : string) : string :=
  match fuel with
  | O => acc
  | S fuel' =>
      let acc' := String (digit_char (n mod 10)) acc in
      if (n / 10 =? 0)%nat then acc' else digits_fuel fuel' (n / 10) acc'
  end.

Definition digits (n : nat) : string := digits_fuel (S n) n EmptyString.

Fixpoint zeros (k : nat) : string :=
  match k with O => EmptyString | S k' => String "0" (zeros k') end.

(** [FString::Printf(TEXT("%0wd"), n)]. *)
Definition Printf_0d (w : nat) (n : Z) : string :=
  if n <? 0 then
    let d := digits (Z.to_nat (- n)) in
    String "-" (zeros (w - 1 - String.length d) ++ d)
  else
    let d := digits (Z.to_nat n) in
    zeros (w - String.length d) ++ d.

(** [FCString::Atoi]: an optional sign and the digits that follow; what
    comes after them is ignored. *)
Fixpoint atoi_digits (s : string) (acc : Z) : Z :=
  match s with
  | EmptyString => acc
  | String c r =>
      if is_digit c
      then atoi_digits r (10 * acc + Z.of_nat (nat_of_ascii c - 48))
      else acc
  end.

Definition Atoi (s : string) : Z :=
  match s with
  | String "-" r => - atoi_digits r 0
  | String "+" r => atoi_digits r 0
  | _ => atoi_digits s 0
  end.

(** The position after the last character that satisfies [p]. *)
Fixpoint after_last (p : ascii -> bool) (s : string) : option string :=
  match s with
  | EmptyString => None
  | String c r =>
      match after_last p r with
      | Some t => Some t
      | None => if p c then Some r else None
      end
  end.

Fixpoint before_last (p : ascii -> bool) (s : string) : option string :=
  match s with
  | EmptyString => None
  | String c r =>
      match before_last p r with
      | Some t => Some (String c t)
      | None => if p c then Some EmptyString else None
      end
  end.

(** [FPaths::GetCleanFilename], [FPaths::GetPath] and
    [FPaths::GetBaseFilename]. *)
Definition GetCleanFilename (path : string) : string :=
  default path (after_last is_slash path).
Definition GetPath (path : string) : string :=
  default EmptyString (before_last is_slash path).
Definition GetBaseFilename (path : string) : string :=
  let f := GetCleanFilename path in
  default f (before_last (fun c => Ascii.eqb c ".") f).

Definition last_char (s : string) : option ascii :=
  match rev (list_ascii_of_string s) with
  | c :: _ => Some c
  | [] => None
  end.

(** [operator/] of [FString] ([FString::PathAppend]). *)
Definition PathAppend (a b : string) : string :=
  match last_char a, b with
  | Some c, String d _ =>
      if negb (is_slash c) && negb (Ascii.eqb d "/")
      then a ++ String "/" b else a ++ b
  | Some c, EmptyString => if negb (is_slash c) then a ++ "/" else a
  | None, _ => b
  end.

(** [FString::ParseIntoArray] on one delimiter character, culling the
    empty parts. *)
Fixpoint split_on (d : ascii) (s : string) (cur : string) : list string :=
  match s with
  | EmptyString => if IsEmpty cur then [] else [cur]
  | String c r =>
      if Ascii.eqb c d
      then (if IsEmpty cur then [] else [cur]) ++ split_on d r EmptyString
      else split_on d r (cur ++ String c EmptyString)
  end.

Definition ParseIntoArray (s : string) (d : ascii) : list string :=
  split_on d s EmptyString.

(** [FDateTime]: the calendar date and the ticks within the day. *)
Record FDateTime := mkDateTime {
  Year : Z;
  Month : Z;
  Day : Z;
  TicksOfDay : Z
}.

(** [FDateTime::ToString(TEXT("%Y%m%d"))]. *)
Definition ToString_Ymd (d : FDateTime) : string :=
  Printf_0d 4 (Year d) ++ Printf_0d 2 (Month d) ++ Printf_0d 2 (Day d).

(** *** The plugin's types *)

Record FULMRotationConfig := mkRotationConfig {
  MaxFileSizeBytes : Z;
  RetentionDays : Z;
  MaxFilesPerDay : Z;
  bAutoCleanupOnStartup : bool;
  bPeriodicCleanup : bool;
  CleanupIntervalHours : Q
}.

Definition FULMRotationConfig_default : FULMRotationConfig :=
  mkRotationConfig 104857600 7 10 true true 24.

Record FULMLogFileInfo := mkFileInfo {
  FilePath : string;
  ChannelName : string;
  CreationDate : FDateTime;
  FileSize : Z;
  FileIndex : Z;
  bIsActive : bool
}.

(** [FULMLogFileInfo(InFilePath, InChannelName, InDate, InIndex)]. *)
Definition FULMLogFileInfo_make (InFilePath InChannelName : string)
    (InDate : FDateTime) (InIndex : Z) : FULMLogFileInfo :=
  mkFileInfo InFilePath InChannelName InDate 0 InIndex false.

Definition set_active (b : bool) (f : FULMLogFileInfo) : FULMLogFileInfo :=
  mkFileInfo (FilePath f) (ChannelName f) (CreationDate f) (FileSize f)
             (FileIndex f) b.
Definition set_size (n : Z) (f : FULMLogFileInfo) : FULMLogFileInfo :=
  mkFileInfo (FilePath f) (ChannelName f) (CreationDate f) n
             (FileIndex f) (bIsActive f).
Definition set_date_index (d : FDateTime) (i : Z) (f : FULMLogFileInfo)
  : FULMLogFileInfo :=
  mkFileInfo (FilePath f) (ChannelName f) d (FileSize f) i (bIsActive f).

(** *** [FULMLogFileTracker] *)

Record FULMLogFileTracker := mkFileTracker {
  ChannelFiles : gmap string (list FULMLogFileInfo)
}.

Definition FULMLogFileTracker_new : FULMLogFileTracker := mkFileTracker ∅.

(** Apply [g] to the first element that satisfies [p]: a loop that ends
    with [return] or [break] at its first match. *)
Fixpoint update_first {X : Type} (p : X -> bool) (g : X -> X) (l : list X)
  : list X :=
  match l with
  | [] => []
  | x :: r => if p x then g x :: r else x :: update_first p g r
  end.

(** [FULMLogFileTracker::RegisterFile]. *)
Definition RegisterFile (ChannelName' FilePath' : string)
    (CreationDate' : FDateTime) (FileIndex' : Z) (t : FULMLogFileTracker)
  : FULMLogFileTracker :=
  let NewFile :=
    FULMLogFileInfo_make FilePath' ChannelName' CreationDate' FileIndex' in
  let Files := default [] (ChannelFiles t !! FKey ChannelName') in
  let same_path := fun f => FString_eq (FilePath f) FilePath' in
  mkFileTracker
    (<[FKey ChannelName' :=
         if existsb same_path Files
         then update_first same_path
                           (set_date_index CreationDate' FileIndex') Files
         else Files ++ [NewFile]]> (ChannelFiles t)).

(** [FULMLogFileTracker::UpdateFileSize]. *)
Definition UpdateFileSize (ChannelName' : string) (NewSize : Z)
    (t : FULMLogFileTracker) : FULMLogFileTracker :=
  match ChannelFiles t !! FKey ChannelName' with
  | None => t
  | Some Files =>
      mkFileTracker
        (<[FKey ChannelName' := update_first bIsActive (set_size NewSize) Files]>
           (ChannelFiles t))
  end.

(** [FULMLogFileTracker::GetActiveFile]. *)
Definition GetActiveFile (ChannelName' : string) (t : FULMLogFileTracker)
  : option FULMLogFileInfo :=
  match ChannelFiles t !! FKey ChannelName' with
  | None => None
  | Some Files => List.find bIsActive Files
  end.

(** [FULMLogFileTracker::ShouldRotateFile]. *)
Definition ShouldRotateFile (ChannelName' : string) (MaxSize : Z)
    (t : FULMLogFileTracker) : bool :=
  match ChannelFiles t !! FKey ChannelName' with
  | None => false
  | Some Files =>
      existsb (fun File => bIsActive File && (MaxSize <=? FileSize File))
              Files
  end.

(** The index that [GenerateRotatedFilePath] computes; [Now] is the
    reading of [FDateTime::Now()]. *)
Definition NextIndex (ChannelName' : string) (Now : FDateTime)
    (t : FULMLogFileTracker) : Z :=
  let DateString := ToString_Ymd Now in
  fold_left
    (fun NextIndex File =>
       if FString_eq (ToString_Ymd (CreationDate File)) DateString
          && (NextIndex <=? FileIndex File)
       then wrap32 (FileIndex File + 1) else NextIndex)
    (default [] (ChannelFiles t !! FKey ChannelName')) 1.

(** [FULMLogFileTracker::GenerateRotatedFilePath]. *)
Definition GenerateRotatedFilePath (ChannelName' BaseLogPath : string)
    (Now : FDateTime) (t : FULMLogFileTracker) : string :=
  let Filename :=
    ("ULM_" ++ ChannelName' ++ "_" ++ ToString_Ymd Now ++ "_"
     ++ Printf_0d 3 (NextIndex ChannelName' Now t) ++ ".json")%string in
  PathAppend BaseLogPath Filename.

(** [FULMLogFileTracker::SetFileActive]. *)
Definition SetFileActive (ChannelName' FilePath' : string)
    (t : FULMLogFileTracker) : FULMLogFileTracker :=
  match ChannelFiles t !! FKey ChannelName' with
  | None => t
  | Some Files =>
      mkFileTracker
        (<[FKey ChannelName' :=
             update_first (fun f => FString_eq (FilePath f) FilePath')
                          (set_active true)
                          (map (set_active false) Files)]>
           (ChannelFiles t))
  end.

(** [FULMLogFileTracker::RemoveFile]. *)
Definition RemoveFile (FilePath' : string) (t : FULMLogFileTracker)
  : FULMLogFileTracker :=
  mkFileTracker
    (List.filter (fun f => negb (FString_eq (FilePath f) FilePath'))
       <$> ChannelFiles t).

(** [FULMLogFileTracker::Clear]. *)
Definition Clear (t : FULMLogFileTracker) : FULMLogFileTracker :=
  mkFileTracker ∅.

(** [FULMLogFileTracker::ParseLogFileName]: the channel, the year, month
    and day, and the index, or [None] for [false]. *)
Definition ParseLogFileName (FileName : string)
  : option (string * (Z * Z * Z) * Z) :=
  match ParseIntoArray FileName "_" with
  | Part0 :: Part1 :: Part2 :: Part3 :: _ =>
      if negb (FString_eq Part0 "ULM") then None
      else if negb (String.length Part2 =? 8)%nat then None
      else
        let Year' := Atoi (substring 0 4 Part2) in
        let Month' := Atoi (substring 4 2 Part2) in
        let Day' := Atoi (substring 6 2 Part2) in
        let IndexPart := GetBaseFilename Part3 in
        Some (Part1, (Year', Month', Day'), Atoi IndexPart)
  | _ => None
  end.

(** *** [FULMLogRotator] *)

Record FULMLogRotator := mkRotator {
  Config : FULMRotationConfig;
  FileTracker : FULMLogFileTracker;
  TotalRotations : Z
}.

Definition FULMLogRotator_new : FULMLogRotator :=
  mkRotator FULMRotationConfig_default FULMLogFileTracker_new 0.

Definition with_file_tracker (t : FULMLogFileTracker) (r : FULMLogRotator)
  : FULMLogRotator :=
  mkRotator (Config r) t (TotalRotations r).

(** [FULMLogRotator::SetRotationConfig]. *)
Definition SetRotationConfig (NewConfig : FULMRotationConfig)
    (r : FULMLogRotator) : FULMLogRotator :=
  mkRotator NewConfig (FileTracker r) (TotalRotations r).

(** [FULMLogRotator::IsValidRotationConfig]. *)
Definition IsValidRotationConfig (r : FULMLogRotator) : bool :=
  (0 <? MaxFileSizeBytes (Config r)) && (0 <? RetentionDays (Config r)).

(** [FULMLogRotator::RotateFile]: the rotator it leaves and the path it
    returns. *)
Definition RotateFile (ChannelName' CurrentFilePath : string)
    (Now : FDateTime) (r : FULMLogRotator) : FULMLogRotator * string :=
  if negb (IsValidRotationConfig r) then (r, CurrentFilePath)
  else
    let BaseLogPath := GetPath CurrentFilePath in
    let NewFilePath :=
      GenerateRotatedFilePath ChannelName' BaseLogPath Now (FileTracker r) in
    let t1 := SetFileActive ChannelName' "" (FileTracker r) in
    let FileName := GetCleanFilename NewFilePath in
    let t2 :=
      match ParseLogFileName FileName with
      | Some (_, _, FileIndex') =>
          SetFileActive ChannelName' NewFilePath
            (RegisterFile ChannelName' NewFilePath Now FileIndex' t1)
      | None => t1
      end in
    (mkRotator (Config r) t2 (wrap32 (TotalRotations r + 1)), NewFilePath).

(** [FULMLogRotator::GetActiveFilePath]. *)
Definition GetActiveFilePath (ChannelName' BaseLogPath : string)
    (Now : FDateTime) (r : FULMLogRotator) : string :=
  match GetActiveFile ChannelName' (FileTracker r) with
  | Some ActiveFile => FilePath ActiveFile
  | None =>
      PathAppend BaseLogPath
        ("ULM_" ++ ChannelName' ++ "_" ++ ToString_Ymd Now ++ "_001.json")
  end.

(** [FULMLogRotator::RegisterNewFile]. *)
Definition RegisterNewFile (ChannelName' FilePath' : string)
    (Now : FDateTime) (r : FULMLogRotator) : FULMLogRotator :=
  match ParseLogFileName (GetCleanFilename FilePath') with
  | Some (_, _, FileIndex') =>
      with_file_tracker
        (SetFileActive ChannelName' FilePath'
           (RegisterFile ChannelName' FilePath' Now FileIndex'
                         (FileTracker r)))
        r
  | None => r
  end.

End ULMLogRotation.
Import ULMLogRotation.

(* ===================================================================== *)
(** * Part II: properties                                                 *)
(* ===================================================================== *)

Lemma Qlt_bool_iff (a b : Q) : Qlt_bool a b = true <-> (a < b)%Q.
Proof.
  unfold Qlt_bool. rewrite negb_true_iff. split.
  - intros H. apply Qnot_le_lt. intros Hle.
    apply Qle_bool_iff in Hle. congruence.
  - intros H. destruct (Qle_bool b a) eqn:E; [|done].
    apply Qle_bool_iff in E. lra.
Qed.


(** ** Rounding to a binary floating-point format *)

Section Pow2.

Lemma pow2_pos (e : Z) : (0 < pow2 e)%Q.
Proof. apply Qpower_0_lt. reflexivity. Qed.

Lemma pow2_add (a b : Z) : (pow2 (a + b) == pow2 a * pow2 b)%Q.
Proof. apply Qpower_plus. discriminate. Qed.

Lemma pow2_le (a b : Z) : a <= b -> (pow2 a <= pow2 b)%Q.
Proof. intros H. apply Qpower_le_compat_l; [done | discriminate]. Qed.

Lemma pow2_lt (a b : Z) : a < b -> (pow2 a < pow2 b)%Q.
Proof. intros H. apply Qpower_lt_compat_l; [done | reflexivity]. Qed.

Lemma pow2_lt_inv (a b : Z) : (pow2 a < pow2 b)%Q -> a < b.
Proof. intros H. apply (Qpower_lt_compat_l_inv 2); [done | reflexivity]. Qed.

Lemma pow2_Z (e : Z) : 0 <= e -> (pow2 e == inject_Z (2 ^ e))%Q.
Proof. intros H. unfold pow2. by rewrite Zpower_Qpower. Qed.

Lemma pow2_opp (e : Z) : (pow2 (- e) * pow2 e == 1)%Q.
Proof.
  rewrite <- pow2_add. replace (- e + e) with 0 by lia. reflexivity.
Qed.

Lemma pow2_sub (a b : Z) : (pow2 (a - b) == pow2 a / pow2 b)%Q.
Proof.
  pose proof (pow2_pos b) as Hb.
  replace (a - b) with (a + - b) by lia. rewrite pow2_add.
  pose proof (pow2_opp b) as Ho. unfold Qdiv.
  assert (pow2 (- b) == / pow2 b)%Q as ->; [|reflexivity].
  apply (Qmult_inj_r _ _ (pow2 b)); [lra|].
  rewrite Ho. field. lra.
Qed.

End Pow2.

Section Binade.

Lemma Qle_pow2_nonneg (e n : Z) (d : positive) :
  0 <= e -> (pow2 e <= n # d)%Q <-> 2 ^ e * Zpos d <= n.
Proof.
  intros He. rewrite (pow2_Z e He). unfold Qle, inject_Z. simpl. lia.
Qed.

Lemma Qlt_pow2_nonneg (e n : Z) (d : positive) :
  0 <= e -> (n # d < pow2 e)%Q <-> n < 2 ^ e * Zpos d.
Proof.
  intros He. rewrite (pow2_Z e He). unfold Qlt, inject_Z. simpl. lia.
Qed.

Lemma Qle_pow2_neg (e n : Z) (d : positive) :
  0 <= e -> (pow2 (- e) <= n # d)%Q <-> Zpos d <= n * 2 ^ e.
Proof.
  intros He. pose proof (pow2_pos e) as Hp. pose proof (pow2_opp e) as Ho.
  rewrite <- (Qmult_le_r _ _ (pow2 e)) by done. rewrite Ho.
  rewrite (pow2_Z e He). unfold Qle, Qmult, inject_Z. simpl. lia.
Qed.

Lemma Qlt_pow2_neg (e n : Z) (d : positive) :
  0 <= e -> (n # d < pow2 (- e))%Q <-> n * 2 ^ e < Zpos d.
Proof.
  intros He. pose proof (pow2_pos e) as Hp. pose proof (pow2_opp e) as Ho.
  rewrite <- (Qmult_lt_r _ _ (pow2 e)) by done. rewrite Ho.
  rewrite (pow2_Z e He). unfold Qlt, Qmult, inject_Z. simpl. lia.
Qed.

(** [ilog2 x] is the exponent of the binade of [x]. *)
Lemma ilog2_spec (x : Q) :
  (0 < x)%Q -> (pow2 (ilog2 x) <= x)%Q /\ (x < pow2 (ilog2 x + 1))%Q.
Proof.
  destruct x as [n d]. intros Hx.
  assert (0 < n) as Hn by (unfold Qlt in Hx; simpl in Hx; lia).
  unfold ilog2. cbn [Qnum Qden].
  destruct (Z.log2_spec n Hn) as [Ha1 Ha2].
  destruct (Z.log2_spec (Zpos d) ltac:(lia)) as [Hb1 Hb2].
  pose proof (Z.log2_nonneg n) as Ha0.
  pose proof (Z.log2_nonneg (Zpos d)) as Hb0.
  set (a := Z.log2 n) in *. set (b := Z.log2 (Zpos d)) in *.
  rewrite Z.pow_succ_r in Ha2, Hb2 by done.
  destruct (0 <=? a - b) eqn:Ek;
    [apply Z.leb_le in Ek | apply Z.leb_gt in Ek].
  - assert (2 ^ a = 2 ^ (a - b) * 2 ^ b) as Hab
      by (rewrite <- Z.pow_add_r by lia; f_equal; lia).
    pose proof (Z.pow_pos_nonneg 2 (a - b) ltac:(lia) Ek) as Hk0.
    destruct (Zpos d * 2 ^ (a - b) <=? n) eqn:Et;
      [apply Z.leb_le in Et | apply Z.leb_gt in Et].
    + split.
      * apply Qle_pow2_nonneg; lia.
      * apply Qlt_pow2_nonneg; [lia|].
        rewrite Z.pow_add_r by lia. change (2 ^ 1) with 2. nia.
    + replace (a - b - 1 + 1) with (a - b) by lia.
      split; [|apply Qlt_pow2_nonneg; lia].
      destruct (decide (a - b = 0)) as [E0|E0].
      * rewrite E0. change (0 - 1) with (- (1)).
        apply Qle_pow2_neg; [lia|]. change (2 ^ 1) with 2.
        assert (a = b) as Eab by lia. rewrite Eab in Ha1. lia.
      * apply Qle_pow2_nonneg; [lia|].
        assert (2 ^ (a - b) = 2 * 2 ^ (a - b - 1)) as Hs.
        { rewrite <- Z.pow_succ_r by lia. f_equal. lia. }
        nia.
  - set (j := - (a - b)) in *.
    assert (0 < j) as Hj by lia.
    assert (2 ^ b = 2 ^ j * 2 ^ a) as Hab
      by (rewrite <- Z.pow_add_r by lia; f_equal; lia).
    pose proof (Z.pow_pos_nonneg 2 j ltac:(lia) ltac:(lia)) as Hj0.
    assert (2 ^ j = 2 * 2 ^ (j - 1)) as Hs.
    { rewrite <- Z.pow_succ_r by lia. f_equal. lia. }
    pose proof (Z.pow_pos_nonneg 2 (j - 1) ltac:(lia) ltac:(lia)) as Hj1.
    destruct (Zpos d <=? n * 2 ^ j) eqn:Et;
      [apply Z.leb_le in Et | apply Z.leb_gt in Et].
    + replace (a - b) with (- j) by lia. split.
      * apply Qle_pow2_neg; lia.
      * replace (- j + 1) with (- (j - 1)) by lia.
        apply Qlt_pow2_neg; [lia|]. nia.
    + replace (a - b - 1) with (- (j + 1)) by lia.
      replace (- (j + 1) + 1) with (- j) by lia. split.
      * apply Qle_pow2_neg; [lia|]. rewrite Z.pow_add_r by lia.
        change (2 ^ 1) with 2. nia.
      * apply Qlt_pow2_neg; lia.
Qed.

Lemma ilog2_lt (x : Q) (t : Z) : (0 < x)%Q -> (x < pow2 t)%Q -> ilog2 x < t.
Proof.
  intros Hx Ht. destruct (ilog2_spec x Hx) as [Hl _].
  apply pow2_lt_inv. lra.
Qed.

Lemma ilog2_ge (x : Q) (t : Z) : (pow2 t <= x)%Q -> t <= ilog2 x.
Proof.
  intros Ht. pose proof (pow2_pos t) as Hp.
  destruct (ilog2_spec x ltac:(lra)) as [_ Hu].
  assert (t < ilog2 x + 1); [|lia]. apply pow2_lt_inv. lra.
Qed.

Lemma ilog2_le (x y : Q) : (0 < x)%Q -> (x <= y)%Q -> ilog2 x <= ilog2 y.
Proof.
  intros Hx Hxy. apply ilog2_ge.
  destruct (ilog2_spec x Hx) as [Hl _]. lra.
Qed.

End Binade.

Section Rounding.

Lemma Qround_even_cases (x : Q) :
  Qround_even x = Qfloor x \/ Qround_even x = Qfloor x + 1.
Proof.
  unfold Qround_even. destruct (_ ?= _)%Q; [|by left|by right].
  destruct (Z.even _); [by left | by right].
Qed.

(** The nearest integer is within one half. *)
Lemma Qround_even_near (x : Q) :
  (inject_Z (Qround_even x) - (1 # 2) <= x)%Q
  /\ (x <= inject_Z (Qround_even x) + (1 # 2))%Q.
Proof.
  pose proof (Qfloor_le x) as Hlo. pose proof (Qlt_floor x) as Hhi.
  rewrite inject_Z_plus in Hhi. change (inject_Z 1) with 1%Q in Hhi.
  unfold Qround_even.
  destruct (x - inject_Z (Qfloor x) ?= 1 # 2)%Q eqn:E.
  - apply Qeq_alt in E.
    destruct (Z.even _); [|rewrite inject_Z_plus; change (inject_Z 1) with 1%Q];
      lra.
  - apply Qlt_alt in E. lra.
  - apply Qgt_alt in E. rewrite inject_Z_plus.
    change (inject_Z 1) with 1%Q. lra.
Qed.

Lemma Qround_even_ge (x : Q) (n : Z) :
  (inject_Z n <= x)%Q -> n <= Qround_even x.
Proof.
  intros H. apply Qfloor_resp_le in H. rewrite Qfloor_Z in H.
  destruct (Qround_even_cases x); lia.
Qed.

Lemma Qround_even_le (x : Q) (n : Z) :
  (x <= inject_Z n)%Q -> Qround_even x <= n.
Proof.
  intros H. pose proof H as H'.
  apply Qfloor_resp_le in H'. rewrite Qfloor_Z in H'.
  destruct (decide (Qfloor x = n)) as [E|E].
  - unfold Qround_even.
    assert ((x - inject_Z (Qfloor x) ?= 1 # 2)%Q = Lt) as ->; [|lia].
    apply (proj1 (Qlt_alt _ _)). rewrite E. lra.
  - destruct (Qround_even_cases x); lia.
Qed.

Lemma Qround_even_Z (x : Q) (n : Z) :
  (x == inject_Z n)%Q -> Qround_even x = n.
Proof.
  intros H. apply Z.le_antisymm.
  - apply Qround_even_le. lra.
  - apply Qround_even_ge. lra.
Qed.

Variables prec emin : Z.
Hypothesis Hprec : 1 <= prec.

(** The numbers of the format: [m * 2^e] with [|m| < 2^prec] and
    [emin <= e]. *)
Definition format (x : Q) : Prop :=
  exists m e : Z,
    (x == inject_Z m * pow2 e)%Q /\ Z.abs m < 2 ^ prec /\ emin <= e.

Lemma RoundPositive_eq (x : Q) :
  let e := ulp_exponent prec emin x in
  (RoundPositive prec emin x
   == inject_Z (Qround_even (x / pow2 e)) * pow2 e)%Q.
Proof. cbn zeta. unfold RoundPositive. apply Qred_correct. Qed.

Lemma div_pow2_mul (x : Q) (e : Z) : (x / pow2 e * pow2 e == x)%Q.
Proof. pose proof (pow2_pos e). field. lra. Qed.

(** The result is within half a unit in the last place. *)
Lemma RoundPositive_near (x : Q) :
  let h := (pow2 (ulp_exponent prec emin x) * (1 # 2))%Q in
  (x - h <= RoundPositive prec emin x)%Q
  /\ (RoundPositive prec emin x <= x + h)%Q.
Proof.
  cbn zeta. rewrite RoundPositive_eq.
  set (e := ulp_exponent prec emin x).
  pose proof (pow2_pos e) as He.
  destruct (Qround_even_near (x / pow2 e)) as [H1 H2].
  pose proof (div_pow2_mul x e) as Hx.
  set (k := inject_Z (Qround_even (x / pow2 e))) in *.
  set (y := (x / pow2 e)%Q) in *.
  split.
  - assert (y * pow2 e - pow2 e * (1 # 2) <= k * pow2 e)%Q; [|lra].
    assert ((k + (1 # 2)) * pow2 e >= y * pow2 e)%Q as H
      by (apply Qmult_le_compat_r; lra).
    lra.
  - assert ((k - (1 # 2)) * pow2 e <= y * pow2 e)%Q as H
      by (apply Qmult_le_compat_r; lra).
    lra.
Qed.

(** In the normal range the error is at most [2^-prec] of the number. *)
Lemma RoundPositive_relative (x : Q) :
  (pow2 (emin + prec - 1) <= x)%Q ->
  (x * (1 - pow2 (- prec)) <= RoundPositive prec emin x)%Q
  /\ (RoundPositive prec emin x <= x * (1 + pow2 (- prec)))%Q.
Proof.
  intros Hn. pose proof (pow2_pos (emin + prec - 1)) as Hp.
  assert (0 < x)%Q as Hx by lra.
  pose proof (ilog2_ge _ _ Hn) as Hl.
  destruct (ilog2_spec x Hx) as [Hlo _].
  destruct (RoundPositive_near x) as [H1 H2]. cbn zeta in H1, H2.
  unfold ulp_exponent in H1, H2.
  rewrite Z.max_l in H1, H2 by lia.
  assert (pow2 (ilog2 x - prec + 1) * (1 # 2) == pow2 (ilog2 x) * pow2 (- prec))%Q
    as Hh.
  { replace (ilog2 x - prec + 1) with (ilog2 x + (- prec + 1)) by lia.
    rewrite !pow2_add. change (pow2 1) with 2%Q. ring. }
  rewrite Hh in H1, H2.
  pose proof (pow2_pos (- prec)) as Hu.
  assert (pow2 (ilog2 x) * pow2 (- prec) <= x * pow2 (- prec))%Q as Hm
    by (apply Qmult_le_compat_r; lra).
  split; lra.
Qed.

(** A number of the format is its own rounding. *)
Lemma RoundPositive_exact (x : Q) :
  (0 < x)%Q -> format x -> (RoundPositive prec emin x == x)%Q.
Proof using Hprec.
  intros Hx (m & e' & Hm & Hmr & He').
  rewrite RoundPositive_eq.
  set (e := ulp_exponent prec emin x).
  pose proof (pow2_pos e') as Hp'.
  assert (0 < m) as Hm0.
  { destruct (Z_lt_le_dec 0 m) as [H|H]; [done|]. exfalso.
    assert (inject_Z m <= 0)%Q as Hq
      by (change 0%Q with (inject_Z 0); by rewrite <- Zle_Qle).
    assert (inject_Z m * pow2 e' <= 0 * pow2 e')%Q
      by (apply Qmult_le_compat_r; lra).
    lra. }
  assert (e <= e') as Hee.
  { unfold e, ulp_exponent. apply Z.max_lub; [|done].
    assert (ilog2 x < e' + prec); [|lia].
    apply ilog2_lt; [done|]. rewrite Hm, Z.add_comm, pow2_add.
    apply Qmult_lt_r; [done|].
    rewrite (pow2_Z prec) by lia. rewrite <- Zlt_Qlt. lia. }
  assert (x / pow2 e == inject_Z (m * 2 ^ (e' - e)))%Q as Hy.
  { rewrite inject_Z_mult, <- (pow2_Z (e' - e)) by lia.
    rewrite pow2_sub, Hm. pose proof (pow2_pos e). field. lra. }
  rewrite (Qround_even_Z _ _ Hy), <- Hy. apply div_pow2_mul.
Qed.

(** The nearest number of the format is not on the other side of a number
    of the format. *)
Lemma RoundPositive_ge (c x : Q) :
  format c -> (0 < c)%Q -> (c <= x)%Q -> (c <= RoundPositive prec emin x)%Q.
Proof using Hprec.
  intros (m & ec & Hm & Hmr & Hec) Hc Hcx.
  assert (0 < x)%Q as Hx by lra.
  rewrite RoundPositive_eq.
  set (e := ulp_exponent prec emin x).
  pose proof (pow2_pos e) as He. pose proof (pow2_pos ec) as Hpc.
  pose proof (div_pow2_mul x e) as Hxe.
  destruct (Z_le_gt_dec e ec) as [Hle|Hgt].
  - assert (c / pow2 e == inject_Z (m * 2 ^ (ec - e)))%Q as Hy.
    { rewrite inject_Z_mult, <- (pow2_Z (ec - e)) by lia.
      rewrite pow2_sub, Hm. field. lra. }
    assert (inject_Z (m * 2 ^ (ec - e)) <= x / pow2 e)%Q as Hk.
    { rewrite <- Hy. unfold Qdiv. apply Qmult_le_compat_r; [done|].
      apply Qlt_le_weak, Qinv_lt_0_compat. done. }
    apply Qround_even_ge in Hk. rewrite Zle_Qle in Hk.
    assert (c == inject_Z (m * 2 ^ (ec - e)) * pow2 e)%Q as ->.
    { rewrite <- Hy. by rewrite div_pow2_mul. }
    apply Qmult_le_compat_r; lra.
  - assert (e = ilog2 x - prec + 1) as Ee by (unfold e, ulp_exponent in *; lia).
    destruct (ilog2_spec x Hx) as [Hlo _].
    assert (c <= pow2 (ilog2 x))%Q as Hcl.
    { rewrite Hm. replace (ilog2 x) with ((ilog2 x - ec) + ec) by lia.
      rewrite pow2_add. apply Qmult_le_compat_r; [|lra].
      rewrite (pow2_Z (ilog2 x - ec)) by lia. rewrite <- Zle_Qle.
      apply Z.le_trans with (2 ^ prec); [lia|].
      apply Z.pow_le_mono_r; lia. }
    assert (inject_Z (2 ^ (prec - 1)) <= x / pow2 e)%Q as Hk.
    { rewrite <- (pow2_Z (prec - 1)) by lia.
      replace (prec - 1) with (ilog2 x - e) by lia. rewrite pow2_sub.
      unfold Qdiv. apply Qmult_le_compat_r; [done|].
      apply Qlt_le_weak, Qinv_lt_0_compat. done. }
    apply Qround_even_ge in Hk. rewrite Zle_Qle in Hk.
    assert (pow2 (ilog2 x) == inject_Z (2 ^ (prec - 1)) * pow2 e)%Q as Hpl.
    { rewrite <- (pow2_Z (prec - 1)), <- pow2_add by lia. f_equiv. lia. }
    assert (inject_Z (2 ^ (prec - 1)) * pow2 e
            <= inject_Z (Qround_even (x / pow2 e)) * pow2 e)%Q
      by (apply Qmult_le_compat_r; lra).
    lra.
Qed.

Lemma RoundPositive_le (c x : Q) :
  format c -> (0 < x)%Q -> (x <= c)%Q -> (RoundPositive prec emin x <= c)%Q.
Proof using Hprec.
  intros (m & ec & Hm & Hmr & Hec) Hx Hxc.
  rewrite RoundPositive_eq.
  set (e := ulp_exponent prec emin x).
  pose proof (pow2_pos e) as He. pose proof (pow2_pos ec) as Hpc.
  destruct (Z_le_gt_dec e ec) as [Hle|Hgt].
  - assert (c / pow2 e == inject_Z (m * 2 ^ (ec - e)))%Q as Hy.
    { rewrite inject_Z_mult, <- (pow2_Z (ec - e)) by lia.
      rewrite pow2_sub, Hm. field. lra. }
    assert (x / pow2 e <= inject_Z (m * 2 ^ (ec - e)))%Q as Hk.
    { rewrite <- Hy. unfold Qdiv. apply Qmult_le_compat_r; [done|].
      apply Qlt_le_weak, Qinv_lt_0_compat. done. }
    apply Qround_even_le in Hk. rewrite Zle_Qle in Hk.
    assert (c == inject_Z (m * 2 ^ (ec - e)) * pow2 e)%Q as ->.
    { rewrite <- Hy. by rewrite div_pow2_mul. }
    apply Qmult_le_compat_r; lra.
  - exfalso.
    assert (e = ilog2 x - prec + 1) as Ee by (unfold e, ulp_exponent in *; lia).
    destruct (ilog2_spec x Hx) as [Hlo _].
    assert (c < pow2 (ilog2 x))%Q as Hcl; [|lra].
    rewrite Hm. replace (ilog2 x) with ((ilog2 x - ec) + ec) by lia.
    rewrite pow2_add. apply Qmult_lt_r; [done|].
    rewrite (pow2_Z (ilog2 x - ec)) by lia. rewrite <- Zlt_Qlt.
    apply Z.lt_le_trans with (2 ^ prec); [lia|].
    apply Z.pow_le_mono_r; lia.
Qed.

(** The result is a number of the format. *)
Lemma RoundPositive_format (x : Q) :
  (0 < x)%Q -> format (RoundPositive prec emin x).
Proof using Hprec.
  intros Hx.
  set (e := ulp_exponent prec emin x).
  pose proof (pow2_pos e) as He.
  destruct (ilog2_spec x Hx) as [_ Hhi].
  assert (0 <= Qround_even (x / pow2 e) <= 2 ^ prec) as [Hk0 Hk1].
  { split.
    - apply Qround_even_ge. change (inject_Z 0) with 0%Q.
      apply Qlt_le_weak, Qlt_shift_div_l; lra.
    - apply Qround_even_le. rewrite <- (pow2_Z prec) by lia.
      apply Qle_shift_div_r; [done|]. rewrite <- pow2_add.
      apply Qlt_le_weak, Qlt_le_trans with (pow2 (ilog2 x + 1)); [done|].
      apply pow2_le. unfold e, ulp_exponent. lia. }
  destruct (decide (Qround_even (x / pow2 e) = 2 ^ prec)) as [E|E].
  - exists (2 ^ (prec - 1)), (e + 1). split; [|split].
    + rewrite RoundPositive_eq. fold e. rewrite E.
      rewrite <- !pow2_Z, <- !pow2_add by lia. f_equiv. lia.
    + rewrite Z.abs_eq by (apply Z.pow_nonneg; lia).
      apply Z.pow_lt_mono_r; lia.
    + unfold e, ulp_exponent. lia.
  - exists (Qround_even (x / pow2 e)), e. split; [|split].
    + apply RoundPositive_eq.
    + rewrite Z.abs_eq by done. lia.
    + unfold e, ulp_exponent. lia.
Qed.

End Rounding.

Section RoundTo.

Variables prec emin : Z.
Hypothesis Hprec : 1 <= prec.

Lemma RoundTo_zero (x : Q) : (x == 0)%Q -> RoundTo prec emin x = 0%Q.
Proof. intros H. unfold RoundTo. by apply Qeq_alt in H as ->. Qed.

Lemma RoundTo_positive (x : Q) :
  (0 < x)%Q -> RoundTo prec emin x = RoundPositive prec emin x.
Proof.
  intros H. unfold RoundTo.
  assert ((x ?= 0)%Q = Gt) as ->; [|done]. by apply (proj1 (Qgt_alt _ _)).
Qed.

Lemma format_zero : format prec emin 0.
Proof using Hprec.
  exists 0, emin. split; [|split]; [ring | | lia].
  simpl. apply Z.pow_pos_nonneg; lia.
Qed.

Lemma format_Qeq (x y : Q) :
  (x == y)%Q -> format prec emin x -> format prec emin y.
Proof. intros E (m & e & H & ?). exists m, e. by rewrite <- E. Qed.

Lemma RoundTo_format (x : Q) :
  (0 <= x)%Q -> format prec emin (RoundTo prec emin x).
Proof using Hprec.
  intros H. destruct (Qlt_le_dec 0 x) as [Hx|Hx].
  - rewrite RoundTo_positive by done. by apply RoundPositive_format.
  - rewrite RoundTo_zero by lra. apply format_zero.
Qed.

Lemma RoundTo_nonneg (x : Q) : (0 <= x)%Q -> (0 <= RoundTo prec emin x)%Q.
Proof.
  intros H. destruct (Qlt_le_dec 0 x) as [Hx|Hx].
  - rewrite RoundTo_positive, RoundPositive_eq by done.
    pose proof (pow2_pos (ulp_exponent prec emin x)) as He.
    apply Qmult_le_0_compat; [|lra].
    change 0%Q with (inject_Z 0). rewrite <- Zle_Qle.
    apply Qround_even_ge. change (inject_Z 0) with 0%Q.
    apply Qlt_le_weak, Qlt_shift_div_l; lra.
  - rewrite RoundTo_zero by lra. lra.
Qed.

(** A number of the format is not rounded. *)
Lemma RoundTo_exact (x : Q) :
  (0 <= x)%Q -> format prec emin x -> (RoundTo prec emin x == x)%Q.
Proof using Hprec.
  intros H Hf. destruct (Qlt_le_dec 0 x) as [Hx|Hx].
  - rewrite RoundTo_positive by done. by apply RoundPositive_exact.
  - rewrite RoundTo_zero by lra. lra.
Qed.

(** Rounding does not cross a number of the format. *)
Lemma RoundTo_ge (c x : Q) :
  format prec emin c -> (0 <= c)%Q -> (c <= x)%Q ->
  (c <= RoundTo prec emin x)%Q.
Proof using Hprec.
  intros Hf Hc Hcx. destruct (Qlt_le_dec 0 c) as [Hc'|Hc'].
  - rewrite RoundTo_positive by lra. by apply RoundPositive_ge.
  - pose proof (RoundTo_nonneg x ltac:(lra)). lra.
Qed.

Lemma RoundTo_le (c x : Q) :
  format prec emin c -> (0 <= x)%Q -> (x <= c)%Q ->
  (RoundTo prec emin x <= c)%Q.
Proof using Hprec.
  intros Hf Hx Hxc. destruct (Qlt_le_dec 0 x) as [Hx'|Hx'].
  - rewrite RoundTo_positive by done. by apply RoundPositive_le.
  - rewrite RoundTo_zero by lra. lra.
Qed.

(** The relative error in the normal range. *)
Lemma RoundTo_relative (x : Q) :
  (x == 0)%Q \/ (pow2 (emin + prec - 1) <= x)%Q ->
  (x * (1 - pow2 (- prec)) <= RoundTo prec emin x)%Q
  /\ (RoundTo prec emin x <= x * (1 + pow2 (- prec)))%Q.
Proof.
  intros [H|H].
  - rewrite RoundTo_zero by done. rewrite H. lra.
  - pose proof (pow2_pos (emin + prec - 1)).
    rewrite RoundTo_positive by lra. by apply RoundPositive_relative.
Qed.

(** The integers of up to [prec] bits are numbers of the format. *)
Lemma format_inject_Z (n : Z) :
  emin <= 0 -> Z.abs n <= 2 ^ prec -> format prec emin (inject_Z n).
Proof using Hprec.
  intros He Hn. destruct (decide (Z.abs n = 2 ^ prec)) as [E|E].
  - assert (2 ^ prec = 2 * 2 ^ (prec - 1)) as Hs.
    { rewrite <- Z.pow_succ_r by lia. f_equal. lia. }
    pose proof (Z.pow_pos_nonneg 2 (prec - 1) ltac:(lia) ltac:(lia)).
    assert (exists m, n = 2 * m /\ Z.abs m < 2 ^ prec) as (m & -> & Hm).
    { destruct (Z.abs_spec n) as [[_ Ha]|[_ Ha]].
      - exists (2 ^ (prec - 1)). lia.
      - exists (- 2 ^ (prec - 1)). lia. }
    exists m, 1. split; [|split; [done|lia]].
    change (pow2 1) with 2%Q.
    rewrite inject_Z_mult. change (inject_Z 2) with 2%Q. ring.
  - exists n, 0. split; [|split; [lia|lia]].
    change (pow2 0) with 1%Q. ring.
Qed.

End RoundTo.

(** *** binary32 and binary64 *)

Definition format32 : Q -> Prop := format 24 (-149).
Definition format64 : Q -> Prop := format 53 (-1074).

Lemma RoundFloat_exact (x : Q) :
  (0 <= x)%Q -> format32 x -> (RoundFloat x == x)%Q.
Proof. apply RoundTo_exact. lia. Qed.

Lemma RoundDouble_exact (x : Q) :
  (0 <= x)%Q -> format64 x -> (RoundDouble x == x)%Q.
Proof. apply RoundTo_exact. lia. Qed.

Lemma RoundFloat_format (x : Q) : (0 <= x)%Q -> format32 (RoundFloat x).
Proof. apply RoundTo_format. lia. Qed.

Lemma RoundDouble_format (x : Q) : (0 <= x)%Q -> format64 (RoundDouble x).
Proof. apply RoundTo_format. lia. Qed.

Lemma RoundFloat_ge (c x : Q) :
  format32 c -> (0 <= c)%Q -> (c <= x)%Q -> (c <= RoundFloat x)%Q.
Proof. apply RoundTo_ge. lia. Qed.

Lemma RoundFloat_le (c x : Q) :
  format32 c -> (0 <= x)%Q -> (x <= c)%Q -> (RoundFloat x <= c)%Q.
Proof. apply RoundTo_le. lia. Qed.

Lemma RoundDouble_ge (c x : Q) :
  format64 c -> (0 <= c)%Q -> (c <= x)%Q -> (c <= RoundDouble x)%Q.
Proof. apply RoundTo_ge. lia. Qed.

Lemma RoundDouble_le (c x : Q) :
  format64 c -> (0 <= x)%Q -> (x <= c)%Q -> (RoundDouble x <= c)%Q.
Proof. apply RoundTo_le. lia. Qed.

(** The least positive normal numbers, [2^-126] and [2^-1022]. *)
Definition min_normal32 : Q := pow2 (-126).
Definition min_normal64 : Q := pow2 (-1022).

(** The relative error of a rounding: [2^-24] and [2^-53]. *)
Lemma RoundFloat_relative (x : Q) :
  (x == 0)%Q \/ (min_normal32 <= x)%Q ->
  (x * (16777215 # 16777216) <= RoundFloat x)%Q
  /\ (RoundFloat x <= x * (16777217 # 16777216))%Q.
Proof.
  intros H. destruct (RoundTo_relative 24 (-149) x H) as [H1 H2].
  assert (pow2 (Z.opp 24) == 1 # 16777216)%Q as E by reflexivity.
  rewrite E in H1, H2. unfold RoundFloat, RoundDouble. split; lra.
Qed.

Lemma RoundDouble_relative (x : Q) :
  (x == 0)%Q \/ (min_normal64 <= x)%Q ->
  (x * (9007199254740991 # 9007199254740992) <= RoundDouble x)%Q
  /\ (RoundDouble x <= x * (9007199254740993 # 9007199254740992))%Q.
Proof.
  intros H. destruct (RoundTo_relative 53 (-1074) x H) as [H1 H2].
  assert (pow2 (Z.opp 53) == 1 # 9007199254740992)%Q as E by reflexivity.
  rewrite E in H1, H2. unfold RoundFloat, RoundDouble. split; lra.
Qed.

Lemma RoundFloat_nonneg (x : Q) : (0 <= x)%Q -> (0 <= RoundFloat x)%Q.
Proof. apply RoundTo_nonneg. Qed.

Lemma RoundDouble_nonneg (x : Q) : (0 <= x)%Q -> (0 <= RoundDouble x)%Q.
Proof. apply RoundTo_nonneg. Qed.

(** Integers of up to 24 bits are [float]s, of up to 53 bits [double]s. *)
Lemma format32_inject_Z (n : Z) : Z.abs n <= 2 ^ 24 -> format32 (inject_Z n).
Proof. apply format_inject_Z; lia. Qed.

Lemma format64_inject_Z (n : Z) : Z.abs n <= 2 ^ 53 -> format64 (inject_Z n).
Proof. apply format_inject_Z; lia. Qed.

Lemma RoundFloat_inject_Z (n : Z) :
  0 <= n <= 2 ^ 24 -> (RoundFloat (inject_Z n) == inject_Z n)%Q.
Proof.
  intros H. apply RoundFloat_exact.
  - change 0%Q with (inject_Z 0). rewrite <- Zle_Qle. lia.
  - apply format32_inject_Z. lia.
Qed.

Lemma RoundDouble_inject_Z (n : Z) :
  0 <= n <= 2 ^ 53 -> (RoundDouble (inject_Z n) == inject_Z n)%Q.
Proof.
  intros H. apply RoundDouble_exact.
  - change 0%Q with (inject_Z 0). rewrite <- Zle_Qle. lia.
  - apply format64_inject_Z. lia.
Qed.

(** A [float] is a [double]. *)
Lemma format32_format64 (x : Q) : format32 x -> format64 x.
Proof.
  intros (m & e & H & Hm & He). exists m, e. split; [done|].
  split; [|lia]. apply Z.lt_trans with (2 ^ 24); [done|]. reflexivity.
Qed.

(** *** Further facts on the two formats *)

Section RoundingError.

Variables prec emin : Z.
Hypothesis Hprec : 1 <= prec.

(** The error of a rounding, in and below the normal range. *)
Lemma RoundTo_error (x : Q) :
  (0 <= x)%Q ->
  (x * (1 - pow2 (- prec)) - pow2 (emin - 1) <= RoundTo prec emin x)%Q
  /\ (RoundTo prec emin x <= x * (1 + pow2 (- prec)) + pow2 (emin - 1))%Q.
Proof using Hprec.
  intros H. pose proof (pow2_pos (- prec)) as Hu.
  pose proof (pow2_pos (emin - 1)) as Hm.
  destruct (Qlt_le_dec 0 x) as [Hx|Hx].
  2: { rewrite RoundTo_zero by lra.
       assert (x * (1 - pow2 (- prec)) == 0)%Q as -> by (assert (x == 0)%Q as -> by lra; ring).
       assert (x * (1 + pow2 (- prec)) == 0)%Q as -> by (assert (x == 0)%Q as -> by lra; ring).
       lra. }
  rewrite RoundTo_positive by done.
  destruct (RoundPositive_near prec emin x) as [H1 H2]. cbn zeta in H1, H2.
  destruct (ilog2_spec x Hx) as [Hlo _].
  assert (pow2 (ulp_exponent prec emin x) * (1 # 2)
          <= x * pow2 (- prec) + pow2 (emin - 1))%Q as Hh.
  { unfold ulp_exponent.
    destruct (Z.max_spec (ilog2 x - prec + 1) emin) as [[_ ->]|[_ ->]].
    - replace emin with (emin - 1 + 1) at 1 by lia. rewrite pow2_add.
      change (pow2 1) with 2%Q.
      assert (0 <= x * pow2 (- prec))%Q by (apply Qmult_le_0_compat; lra).
      lra.
    - replace (ilog2 x - prec + 1) with (ilog2 x + (- prec + 1)) by lia.
      rewrite !pow2_add. change (pow2 1) with 2%Q.
      assert (pow2 (ilog2 x) * pow2 (- prec) <= x * pow2 (- prec))%Q
        by (apply Qmult_le_compat_r; lra).
      lra. }
  split; lra.
Qed.

Lemma RoundTo_nonpos (x : Q) : (x <= 0)%Q -> (RoundTo prec emin x <= 0)%Q.
Proof.
  intros H. destruct (Qlt_le_dec x 0) as [Hx|Hx].
  - unfold RoundTo.
    assert ((x ?= 0)%Q = Lt) as -> by (by apply (proj1 (Qlt_alt _ _))).
    pose proof (RoundTo_nonneg prec emin (- x) ltac:(lra)) as Hn.
    rewrite RoundTo_positive in Hn by lra. lra.
  - rewrite RoundTo_zero by lra. lra.
Qed.

(** Two numbers of the format differ by a multiple of its least positive
    number. *)
Lemma format_gap (a b : Q) :
  format prec emin a -> format prec emin b -> (b < a)%Q ->
  (pow2 emin <= a - b)%Q.
Proof.
  intros (m1 & e1 & Ha & _ & He1) (m2 & e2 & Hb & _ & He2) Hlt.
  pose proof (pow2_pos emin) as Hp.
  assert (forall m e, emin <= e ->
            (inject_Z m * pow2 e
             == inject_Z (m * 2 ^ (e - emin)) * pow2 emin)%Q) as Hgrid.
  { intros m e He. rewrite inject_Z_mult, <- (pow2_Z (e - emin)) by lia.
    rewrite <- Qmult_assoc, <- pow2_add. f_equiv. f_equiv. lia. }
  rewrite Ha, Hb, (Hgrid m1 e1 He1), (Hgrid m2 e2 He2) in *.
  set (n1 := m1 * 2 ^ (e1 - emin)) in *.
  set (n2 := m2 * 2 ^ (e2 - emin)) in *.
  assert (n2 < n1) as Hn.
  { destruct (Z_lt_le_dec n2 n1) as [H|H]; [done|]. exfalso.
    rewrite Zle_Qle in H.
    assert (inject_Z n1 * pow2 emin <= inject_Z n2 * pow2 emin)%Q
      by (apply Qmult_le_compat_r; lra).
    lra. }
  assert (inject_Z n2 + 1 <= inject_Z n1)%Q as Hq.
  { change 1%Q with (inject_Z 1). rewrite <- inject_Z_plus, <- Zle_Qle. lia. }
  assert ((inject_Z n2 + 1) * pow2 emin <= inject_Z n1 * pow2 emin)%Q
    by (apply Qmult_le_compat_r; lra).
  lra.
Qed.

End RoundingError.

Lemma RoundFloat_error (x : Q) :
  (0 <= x)%Q ->
  (x * (16777215 # 16777216) - pow2 (-150) <= RoundFloat x)%Q
  /\ (RoundFloat x <= x * (16777217 # 16777216) + pow2 (-150))%Q.
Proof.
  intros H. destruct (RoundTo_error 24 (-149) ltac:(lia) x H) as [H1 H2].
  assert (pow2 (Z.opp 24) == 1 # 16777216)%Q as E by reflexivity.
  rewrite E in H1, H2. change (-149 - 1) with (-150) in H1, H2.
  unfold RoundFloat. split; lra.
Qed.

Lemma RoundDouble_error (x : Q) :
  (0 <= x)%Q ->
  (x * (9007199254740991 # 9007199254740992) - pow2 (-1075)
   <= RoundDouble x)%Q
  /\ (RoundDouble x
      <= x * (9007199254740993 # 9007199254740992) + pow2 (-1075))%Q.
Proof.
  intros H. destruct (RoundTo_error 53 (-1074) ltac:(lia) x H) as [H1 H2].
  assert (pow2 (Z.opp 53) == 1 # 9007199254740992)%Q as E by reflexivity.
  rewrite E in H1, H2. change (-1074 - 1) with (-1075) in H1, H2.
  unfold RoundDouble. split; lra.
Qed.

(** The difference of two clock readings does not round to zero. *)
Lemma RoundDouble_difference_positive (a b : Q) :
  format64 a -> format64 b -> (b < a)%Q -> (0 < RoundDouble (a - b))%Q.
Proof.
  intros Ha Hb Hlt.
  pose proof (format_gap 53 (-1074) a b Ha Hb Hlt) as Hgap.
  pose proof (pow2_pos (-1074)) as Hp.
  assert (format64 (pow2 (-1074))) as Hf.
  { exists 1, (-1074). split; [ring|]. split; [reflexivity | lia]. }
  pose proof (RoundDouble_ge _ _ Hf ltac:(lra) Hgap). lra.
Qed.

(** One less than a [float] between 1 and [2^24] is a [float]. *)
Lemma format32_minus_one (w : Q) :
  format32 w -> (1 <= w)%Q -> (w <= inject_Z (2 ^ 24))%Q -> format32 (w - 1).
Proof.
  intros (m & e & Hw & Hm & He) H1 H2.
  pose proof (pow2_pos e) as Hp.
  assert (0 < m) as Hm0.
  { destruct (Z_lt_le_dec 0 m) as [H|H]; [done|]. exfalso.
    assert (inject_Z m <= 0)%Q as Hq
      by (change 0%Q with (inject_Z 0); by rewrite <- Zle_Qle).
    assert (inject_Z m * pow2 e <= 0 * pow2 e)%Q
      by (apply Qmult_le_compat_r; lra).
    lra. }
  destruct (Z_le_gt_dec 0 e) as [Hpos|Hneg].
  - (* an integer *)
    assert (w == inject_Z (m * 2 ^ e))%Q as Hz
      by (rewrite inject_Z_mult, <- (pow2_Z e) by lia; done).
    apply (format_Qeq 24 (-149) (inject_Z (m * 2 ^ e - 1))).
    + unfold Zminus. rewrite inject_Z_plus, inject_Z_opp, <- Hz. reflexivity.
    + apply format32_inject_Z. rewrite Hz in H1, H2.
      change 1%Q with (inject_Z 1) in H1.
      rewrite <- Zle_Qle in H1, H2. lia.
  - exists (m - 2 ^ (- e)), e. split; [|split; [|done]].
    + unfold Zminus. rewrite inject_Z_plus, inject_Z_opp, <- (pow2_Z (- e)) by lia.
      rewrite Hw. pose proof (pow2_opp e). lra.
    + assert (2 ^ (- e) <= m); [|pose proof (Z.pow_pos_nonneg 2 (- e)); lia].
      destruct (Z_le_gt_dec (2 ^ (- e)) m) as [H|H]; [done|]. exfalso.
      assert (inject_Z m < inject_Z (2 ^ (- e)))%Q as Hq
        by (rewrite <- Zlt_Qlt; lia).
      rewrite <- (pow2_Z (- e)) in Hq by lia.
      assert (inject_Z m * pow2 e < pow2 (- e) * pow2 e)%Q
        by (apply Qmult_lt_compat_r; lra).
      rewrite pow2_opp in *. lra.
Qed.

(** A number from [1 - 2^-25], half way between 1 and the [float] before
    it, up to 1 is rounded to 1. *)
Lemma RoundFloat_one (x : Q) :
  (33554431 # 33554432 <= x)%Q -> (x <= 1)%Q -> (RoundFloat x == 1)%Q.
Proof.
  intros Hlo Hhi.
  assert (format32 1) as H1 by (apply (format32_inject_Z 1); lia).
  destruct (Qlt_le_dec x 1) as [Hlt|Hge].
  2: { apply Qle_antisym.
       - apply RoundFloat_le; [done | lra | done].
       - apply RoundFloat_ge; [done | lra | done]. }
  unfold RoundFloat. rewrite RoundTo_positive by lra.
  rewrite RoundPositive_eq. cbn zeta.
  assert (ilog2 x = -1) as Hl.
  { assert (ilog2 x < 0) by (apply ilog2_lt; [lra|]; exact Hlt).
    assert (-1 <= ilog2 x).
    { apply ilog2_ge. assert (pow2 (-1) == 1 # 2)%Q as -> by reflexivity.
      lra. }
    lia. }
  unfold ulp_exponent. rewrite Hl.
  change (Z.max (-1 - 24 + 1) (-149)) with (-24).
  assert (pow2 (-24) == 1 # 16777216)%Q as Ep by reflexivity.
  set (y := (x / pow2 (-24))%Q).
  assert (y == x * (16777216 # 1))%Q as Ey.
  { unfold y. rewrite Ep. field. }
  assert (Qfloor y = 16777215) as Hf.
  { apply Z.le_antisymm.
    - assert (Qfloor y < 16777216); [|lia].
      rewrite Zlt_Qlt. pose proof (Qfloor_le y).
      change (inject_Z 16777216) with (16777216 # 1)%Q. lra.
    - assert (inject_Z 16777215 <= y)%Q as H
        by (change (inject_Z 16777215) with (16777215 # 1)%Q; lra).
      apply Qfloor_resp_le in H. by rewrite Qfloor_Z in H. }
  assert (Qround_even y = 16777216) as ->.
  { unfold Qround_even. rewrite Hf.
    destruct (y - inject_Z 16777215 ?= 1 # 2)%Q eqn:E; [done| |done].
    apply Qlt_alt in E.
    change (inject_Z 16777215) with (16777215 # 1)%Q in E. lra. }
  rewrite Ep. reflexivity.
Qed.

(** ** The token bucket ([FULMChannelState::CanLog], [RefillTokens]) *)

Lemma Qeq_bool_false (a b : Q) : ~ (a == b)%Q -> Qeq_bool a b = false.
Proof.
  intros H. destruct (Qeq_bool a b) eqn:E; [|done].
  apply Qeq_bool_iff in E. contradiction.
Qed.

Lemma Qle_bool_false (a b : Q) : (b < a)%Q -> Qle_bool a b = false.
Proof.
  intros H. destruct (Qle_bool a b) eqn:E; [|done].
  apply Qle_bool_iff in E. lra.
Qed.

Lemma Qlt_bool_false (a b : Q) : (b <= a)%Q -> Qlt_bool a b = false.
Proof.
  intros H. destruct (Qlt_bool a b) eqn:E; [|done].
  apply Qlt_bool_iff in E. lra.
Qed.

Lemma FMath_MinQ_le_r (a b : Q) : (FMath_MinQ a b <= b)%Q.
Proof.
  unfold FMath_MinQ. destruct (Qlt_bool a b) eqn:E; [|lra].
  apply Qlt_bool_iff in E. lra.
Qed.

Lemma FMath_MinQ_le_l (a b : Q) : (FMath_MinQ a b <= a)%Q.
Proof.
  unfold FMath_MinQ. destruct (Qlt_bool a b) eqn:E; [lra|].
  destruct (Qlt_le_dec a b) as [H|H]; [|done].
  apply Qlt_bool_iff in H. congruence.
Qed.

Lemma FMath_MinQ_spec (a b : Q) : (FMath_MinQ a b == Qmin a b)%Q.
Proof.
  unfold FMath_MinQ. destruct (Qlt_bool a b) eqn:E.
  - apply Qlt_bool_iff in E. rewrite Q.min_l; lra.
  - destruct (Qlt_le_dec a b) as [H|H].
    + apply Qlt_bool_iff in H. congruence.
    + rewrite Q.min_r; lra.
Qed.

Lemma FMath_MinQ_glb (a b c : Q) :
  (c <= a)%Q -> (c <= b)%Q -> (c <= FMath_MinQ a b)%Q.
Proof. intros. unfold FMath_MinQ. by destruct (Qlt_bool a b). Qed.

(** *** The reading of [ULMChannel] in exact arithmetic *)

(** At the instant of the last refill nothing is added. *)
Lemma RefillTokens_same_instant (t : Q) (s : FULMChannelState) :
  ~ (LastRefillTime s == 0)%Q -> (LastRefillTime s == t)%Q ->
  RefillTokens t s = s.
Proof.
  intros Hnz Ht. unfold RefillTokens.
  rewrite Qeq_bool_false by done.
  rewrite Qlt_bool_false; [done | lra].
Qed.

(** The first use fills the bucket. *)
Lemma RefillTokens_first_use (t : Q) (s : FULMChannelState) :
  (LastRefillTime s == 0)%Q ->
  RefillTokens t s
  = set_bucket (inject_Z (BurstCapacity (EffectiveRateLimit s))) t s.
Proof.
  intros H. unfold RefillTokens.
  by apply Qeq_bool_iff in H as ->.
Qed.

(** *** The bucket in floating point *)

Section TokenBucket.

(** What [CanLog] never touches. *)
Definition same_settings (s s' : FULMChannelState) : Prop :=
  bEffectiveEnabled s' = bEffectiveEnabled s
  /\ EffectiveMinVerbosity s' = EffectiveMinVerbosity s
  /\ EffectiveRateLimit s' = EffectiveRateLimit s.

Lemma same_settings_refl s : same_settings s s.
Proof. by repeat split. Qed.

(** At the instant of the last refill nothing is added. *)
Lemma Float_RefillTokens_same_instant (t : Q) (s : FULMChannelState) :
  ~ (LastRefillTime s == 0)%Q -> (LastRefillTime s == t)%Q ->
  ULMChannelFloat.RefillTokens t s = s.
Proof.
  intros Hnz Ht. unfold ULMChannelFloat.RefillTokens.
  rewrite Qeq_bool_false by done.
  unfold RoundDouble. rewrite RoundTo_zero by lra. done.
Qed.

(** The first use fills the bucket. *)
Lemma Float_RefillTokens_first_use (t : Q) (s : FULMChannelState) :
  (LastRefillTime s == 0)%Q ->
  ULMChannelFloat.RefillTokens t s
  = set_bucket (IntToFloat (BurstCapacity (EffectiveRateLimit s))) t s.
Proof.
  intros H. unfold ULMChannelFloat.RefillTokens.
  by apply Qeq_bool_iff in H as ->.
Qed.

(** One admission from a bucket that was refilled at this instant and
    holds a whole number of tokens, which single precision counts one by
    one up to [2^24]. *)
Lemma Float_CanLog_consume (v : EULMVerbosity) (t : Q) (m : Z)
    (s : FULMChannelState) :
  bEffectiveEnabled s = true ->
  verbosity_lt v (EffectiveMinVerbosity s) = false ->
  ~ (LastRefillTime s == 0)%Q -> (LastRefillTime s == t)%Q ->
  (CurrentTokens s == inject_Z m)%Q -> 1 <= m <= 2 ^ 24 ->
  ULMChannelFloat.CanLog v t s
  = (true, set_bucket (RoundFloat (CurrentTokens s - 1)) (LastRefillTime s) s)
  /\ (RoundFloat (CurrentTokens s - 1) == inject_Z (m - 1))%Q.
Proof.
  intros Hen Hv Hnz Ht Htok Hm. unfold ULMChannelFloat.CanLog.
  rewrite Hen, Hv. simpl.
  rewrite Float_RefillTokens_same_instant by done.
  assert (1 <= CurrentTokens s)%Q as Hone.
  { rewrite Htok. change 1%Q with (inject_Z 1). rewrite <- Zle_Qle. lia. }
  apply Qle_bool_iff in Hone. rewrite Hone. split; [done|].
  assert (CurrentTokens s - 1 == inject_Z (m - 1))%Q as Hd.
  { rewrite Htok. unfold Zminus. rewrite inject_Z_plus, inject_Z_opp.
    reflexivity. }
  rewrite <- Hd. apply RoundFloat_exact.
  - rewrite Hd. change 0%Q with (inject_Z 0). rewrite <- Zle_Qle. lia.
  - apply (format_Qeq _ _ (inject_Z (m - 1))); [by rewrite Hd|].
    apply format32_inject_Z. lia.
Qed.

(** One denial from a bucket that holds less than a token. *)
Lemma Float_CanLog_deny (v : EULMVerbosity) (t : Q) (s : FULMChannelState) :
  bEffectiveEnabled s = true ->
  verbosity_lt v (EffectiveMinVerbosity s) = false ->
  ~ (LastRefillTime s == 0)%Q -> (LastRefillTime s == t)%Q ->
  (CurrentTokens s < 1)%Q ->
  ULMChannelFloat.CanLog v t s = (false, s).
Proof.
  intros Hen Hv Hnz Ht Htok. unfold ULMChannelFloat.CanLog.
  rewrite Hen, Hv. simpl.
  rewrite Float_RefillTokens_same_instant by done.
  by rewrite Qle_bool_false.
Qed.

(** [n] admissions in a row from a bucket holding [m >= n] tokens. *)
Lemma Float_CanLog_times_consume (v : EULMVerbosity) (t : Q) (n : nat) :
  forall (m : Z) (s : FULMChannelState),
    bEffectiveEnabled s = true ->
    verbosity_lt v (EffectiveMinVerbosity s) = false ->
    ~ (LastRefillTime s == 0)%Q -> (LastRefillTime s == t)%Q ->
    (CurrentTokens s == inject_Z m)%Q -> Z.of_nat n <= m <= 2 ^ 24 ->
    let r := ULMChannelFloat.CanLog_times n v t s in
    fst r = repeat true n
    /\ same_settings s (snd r)
    /\ LastRefillTime (snd r) = LastRefillTime s
    /\ (CurrentTokens (snd r) == inject_Z (m - Z.of_nat n))%Q.
Proof.
  induction n as [|n IH]; intros m s Hen Hv Hnz Ht Htok Hm.
  - simpl. repeat split; try done. by rewrite Z.sub_0_r.
  - cbn [ULMChannelFloat.CanLog_times].
    destruct (Float_CanLog_consume v t m s) as [-> Hd]; try done; [lia|].
    cbn [fst snd].
    set (s1 := set_bucket _ _ s).
    destruct (IH (m - 1) s1) as (Hr & (He & Hm' & Hrl) & Hl & Hc);
      try done; [lia|].
    cbn zeta. cbn [repeat].
    split; [by rewrite Hr|]. split; [by repeat split|]. split; [done|].
    rewrite Hc. f_equiv. lia.
Qed.

End TokenBucket.

(** *** The two readings of the bucket *)

(** The exact bucket [s] and the rounded one [sf] have the same settings,
    a capacity of at most [2^24], and either were never used or were
    last refilled at [t] and hold the same whole number of tokens. *)
Definition whole_bucket (t : Q) (s sf : FULMChannelState) : Prop :=
  same_settings s sf
  /\ 0 <= BurstCapacity (EffectiveRateLimit s) <= 2 ^ 24
  /\ ((LastRefillTime s == 0)%Q /\ (LastRefillTime sf == 0)%Q
      \/ ~ (LastRefillTime s == 0)%Q
         /\ (LastRefillTime s == t)%Q /\ (LastRefillTime sf == t)%Q
         /\ exists m : Z,
              0 <= m <= 2 ^ 24
              /\ (CurrentTokens s == inject_Z m)%Q
              /\ (CurrentTokens sf == inject_Z m)%Q).

(** On such buckets a call at [t] has the same answer in the two
    readings, and leaves such buckets: single precision counts whole
    tokens one by one up to [2^24]. *)
Lemma CanLog_readings_agree (v : EULMVerbosity) (t : Q)
    (s sf : FULMChannelState) :
  ~ (t == 0)%Q -> whole_bucket t s sf ->
  fst (ULMChannelFloat.CanLog v t sf) = fst (CanLog v t s)
  /\ whole_bucket t (snd (CanLog v t s)) (snd (ULMChannelFloat.CanLog v t sf)).
Proof.
  intros Ht ((He & Hm & Hr) & HC & Hcase).
  unfold ULMChannelFloat.CanLog, CanLog. rewrite He, Hm.
  destruct (negb (bEffectiveEnabled s)
            || verbosity_lt v (EffectiveMinVerbosity s)); cbn [fst snd].
  { split; [done|].
    exact (conj (conj He (conj Hm Hr)) (conj HC Hcase)). }
  assert (exists m : Z,
            0 <= m <= 2 ^ 24
            /\ same_settings s (RefillTokens t s)
            /\ same_settings sf (ULMChannelFloat.RefillTokens t sf)
            /\ (LastRefillTime (RefillTokens t s) == t)%Q
            /\ (LastRefillTime (ULMChannelFloat.RefillTokens t sf) == t)%Q
            /\ (CurrentTokens (RefillTokens t s) == inject_Z m)%Q
            /\ (CurrentTokens (ULMChannelFloat.RefillTokens t sf)
                == inject_Z m)%Q)
    as (m & Hmr & Hs1 & Hsf1 & Hl1 & Hlf1 & Htok & Htokf).
  { destruct Hcase as [[Hz Hzf] | (Hnz & Hl & Hlf & m & Hmr & Htok & Htokf)].
    - exists (BurstCapacity (EffectiveRateLimit s)).
      rewrite (RefillTokens_first_use t s Hz).
      rewrite (Float_RefillTokens_first_use t sf Hzf), Hr.
      cbn [set_bucket LastRefillTime CurrentTokens].
      split; [done|]. split; [done|]. split; [done|].
      split; [reflexivity|]. split; [reflexivity|].
      split; [reflexivity|].
      unfold IntToFloat. by apply RoundFloat_inject_Z.
    - exists m.
      rewrite (RefillTokens_same_instant t s Hnz Hl).
      rewrite (Float_RefillTokens_same_instant t sf); [|lra|done].
      split; [done|]. split; [apply same_settings_refl|].
      split; [apply same_settings_refl|]. done. }
  set (s1 := RefillTokens t s) in *.
  set (sf1 := ULMChannelFloat.RefillTokens t sf) in *.
  assert (EffectiveRateLimit s1 = EffectiveRateLimit s) as Hr1
    by (by destruct Hs1 as (_ & _ & ->)).
  assert (same_settings s1 sf1) as Hsame.
  { destruct Hs1 as (A1 & A2 & A3), Hsf1 as (B1 & B2 & B3).
    repeat split; congruence. }
  destruct (Z_le_gt_dec 1 m) as [Hone|Hnone].
  - assert (1 <= inject_Z m)%Q as Hq
      by (change 1%Q with (inject_Z 1); rewrite <- Zle_Qle; lia).
    assert (Qle_bool 1 (CurrentTokens s1) = true) as ->
      by (apply Qle_bool_iff; lra).
    assert (Qle_bool 1 (CurrentTokens sf1) = true) as ->
      by (apply Qle_bool_iff; lra).
    cbn [fst snd]. split; [done|]. split; [exact Hsame|].
    cbn [set_bucket LastRefillTime CurrentTokens EffectiveRateLimit].
    split; [by rewrite Hr1|]. right.
    split; [lra|]. split; [done|]. split; [done|].
    exists (m - 1). split; [lia|].
    assert (inject_Z (m - 1) == inject_Z m - 1)%Q as Em.
    { unfold Z.sub. rewrite inject_Z_plus. reflexivity. }
    split; [lra|].
    rewrite Em. transitivity (CurrentTokens sf1 - 1)%Q; [|lra].
    apply RoundFloat_exact; [lra|].
    apply (format_Qeq 24 (-149) (inject_Z (m - 1))); [lra|].
    apply format32_inject_Z. lia.
  - assert (inject_Z m < 1)%Q as Hq
      by (change 1%Q with (inject_Z 1); rewrite <- Zlt_Qlt; lia).
    rewrite !Qle_bool_false by lra.
    cbn [fst snd]. split; [done|]. split; [exact Hsame|].
    split; [by rewrite Hr1|]. right.
    split; [lra|]. split; [done|]. split; [done|].
    exists m. done.
Qed.

(** So the two readings give the same answers to any number of calls at
    one instant. *)
Lemma CanLog_times_readings_agree (v : EULMVerbosity) (t : Q) (n : nat) :
  forall s sf : FULMChannelState,
    ~ (t == 0)%Q -> whole_bucket t s sf ->
    fst (ULMChannelFloat.CanLog_times n v t sf) = fst (CanLog_times n v t s).
Proof.
  induction n as [|n IH]; intros s sf Ht Hw; [done|].
  cbn [ULMChannelFloat.CanLog_times CanLog_times fst snd].
  destruct (CanLog_readings_agree v t s sf Ht Hw) as [-> Hw'].
  by rewrite (IH _ _ Ht Hw').
Qed.

Lemma pow2_947_small : (pow2 (-947) <= 1 # 1152921504606846976)%Q.
Proof.
  assert (pow2 (-60) == 1 # 1152921504606846976)%Q as <- by reflexivity.
  apply pow2_le. lia.
Qed.

Section TokenBucketClaim.

Variables (s : FULMChannelState) (v : EULMVerbosity) (t0 : Q).
Hypothesis Henabled : bEffectiveEnabled s = true.
Hypothesis Hverbosity : verbosity_lt v (EffectiveMinVerbosity s) = false.
Hypothesis Hfresh : (LastRefillTime s == 0)%Q.
Hypothesis Hclock : (0 < t0)%Q.
Hypothesis Hrate : (0 < TokensPerSecond (EffectiveRateLimit s))%Q.
Hypothesis Hfinite :
  (TokensPerSecond (EffectiveRateLimit s) < inject_Z (2 ^ 128))%Q.
Hypothesis Hburst : 1 <= BurstCapacity (EffectiveRateLimit s) <= 2 ^ 24.

Local Abbreviation Rate := (TokensPerSecond (EffectiveRateLimit s)).
Local Abbreviation Cap := (BurstCapacity (EffectiveRateLimit s)).

(** The state after the burst and the denial that follows it: no token
    left, refilled at [t0]. *)
Definition drained_at (t : Q) (s1 : FULMChannelState) : Prop :=
  same_settings s s1 /\ LastRefillTime s1 = t /\ (CurrentTokens s1 == 0)%Q.

Lemma Float_CanLog_times_burst :
  let r := ULMChannelFloat.CanLog_times (Z.to_nat Cap) v t0 s in
  fst r = repeat true (Z.to_nat Cap) /\ drained_at t0 (snd r).
Proof using Henabled Hverbosity Hfresh Hclock Hburst.
  destruct (Z.to_nat Cap) as [|n] eqn:En; [lia|].
  cbn [ULMChannelFloat.CanLog_times].
  assert (IntToFloat Cap == inject_Z Cap)%Q as Hcap
    by (apply RoundFloat_inject_Z; lia).
  assert (ULMChannelFloat.CanLog v t0 s
          = (true, set_bucket (RoundFloat (IntToFloat Cap - 1)) t0 s)
          /\ (RoundFloat (IntToFloat Cap - 1) == inject_Z (Cap - 1))%Q)
    as [-> Hd].
  { unfold ULMChannelFloat.CanLog. rewrite Henabled, Hverbosity. simpl.
    rewrite Float_RefillTokens_first_use by done. simpl.
    assert (Qle_bool 1 (IntToFloat Cap) = true) as ->.
    { apply Qle_bool_iff. rewrite Hcap. change 1%Q with (inject_Z 1).
      rewrite <- Zle_Qle. lia. }
    split; [done|].
    assert (IntToFloat Cap - 1 == inject_Z (Cap - 1))%Q as Hd.
    { rewrite Hcap. unfold Zminus. rewrite inject_Z_plus, inject_Z_opp.
      reflexivity. }
    rewrite <- Hd. apply RoundFloat_exact.
    - rewrite Hd. change 0%Q with (inject_Z 0). rewrite <- Zle_Qle. lia.
    - apply (format_Qeq _ _ (inject_Z (Cap - 1))); [by rewrite Hd|].
      apply format32_inject_Z. lia. }
  cbn [fst snd].
  set (s1 := set_bucket _ _ s).
  destruct (Float_CanLog_times_consume v t0 n (Cap - 1) s1)
    as (Hr & Hs & Hl & Hc);
    [done | done | simpl; lra | simpl; reflexivity | exact Hd | lia |].
  cbn zeta. cbn [repeat]. split; [by rewrite Hr|].
  split; [done|]. split; [by rewrite Hl|].
  rewrite Hc. replace (Cap - 1 - Z.of_nat n) with 0 by lia. reflexivity.
Qed.

(** The call at [t0] that follows the burst is denied. *)
Lemma Float_CanLog_after_burst (s1 : FULMChannelState) :
  drained_at t0 s1 -> ULMChannelFloat.CanLog v t0 s1 = (false, s1).
Proof using Henabled Hverbosity Hclock.
  intros ((He & Hm & _) & Hl & Hc).
  apply Float_CanLog_deny; rewrite ?He, ?Hm, ?Hl; try done; lra.
Qed.

(** What a call at [t1] adds to the drained bucket. *)
Definition TokensAdded (t1 : Q) : Q :=
  RoundFloat (RoundDouble (RoundDouble (t1 - t0) * Rate)).

Lemma tiny_rate_share :
  (pow2 (-1075) * Rate <= pow2 (-947))%Q.
Proof using Hrate Hfinite.
  pose proof (pow2_pos (-1075)) as Hp.
  assert (pow2 (-1075) * inject_Z (2 ^ 128) == pow2 (-947))%Q as <-
    by reflexivity.
  rewrite !(Qmult_comm (pow2 (-1075))). apply Qmult_le_compat_r; lra.
Qed.

(** The product of the elapsed time and the rate, as [TokensToAdd] has
    it, is not on the other side of a [float] that the exact product
    clears by the error of the two roundings to [double]. *)
Lemma TokensAdded_le (t1 c : Q) :
  (t0 <= t1)%Q -> format32 c ->
  ((t1 - t0) * Rate * (9007199254740993 # 9007199254740992) + pow2 (-947)
   <= c)%Q ->
  (TokensAdded t1 <= c)%Q.
Proof using Hrate Hfinite.
  intros Hle Hc Hx. unfold TokensAdded.
  destruct (RoundDouble_error (t1 - t0) ltac:(lra)) as [_ Hd].
  pose proof (RoundDouble_nonneg (t1 - t0) ltac:(lra)) as Hd0.
  pose proof tiny_rate_share as Htiny.
  set (D := RoundDouble (t1 - t0)) in *.
  assert (0 <= D * Rate)%Q as Hp0 by (apply Qmult_le_0_compat; lra).
  assert (D * Rate
          <= ((t1 - t0) * (9007199254740993 # 9007199254740992)
              + pow2 (-1075)) * Rate)%Q as Hp
    by (apply Qmult_le_compat_r; lra).
  assert (D * Rate <= c)%Q as Hpc by lra.
  pose proof (RoundDouble_le c (D * Rate) (format32_format64 c Hc) Hp0 Hpc).
  apply RoundFloat_le; [done | by apply RoundDouble_nonneg | done].
Qed.

Lemma TokensAdded_ge (t1 c : Q) :
  (t0 <= t1)%Q -> format32 c -> (0 <= c)%Q ->
  (c <= (t1 - t0) * Rate * (9007199254740991 # 9007199254740992)
        - pow2 (-947))%Q ->
  (c <= TokensAdded t1)%Q.
Proof using Hrate Hfinite.
  intros Hle Hc Hc0 Hx. unfold TokensAdded.
  destruct (RoundDouble_error (t1 - t0) ltac:(lra)) as [Hd _].
  pose proof (RoundDouble_nonneg (t1 - t0) ltac:(lra)) as Hd0.
  pose proof tiny_rate_share as Htiny.
  set (D := RoundDouble (t1 - t0)) in *.
  assert (((t1 - t0) * (9007199254740991 # 9007199254740992)
           - pow2 (-1075)) * Rate <= D * Rate)%Q as Hp
    by (apply Qmult_le_compat_r; lra).
  assert (c <= D * Rate)%Q as Hpc by lra.
  pose proof (RoundDouble_ge c (D * Rate) (format32_format64 c Hc) Hc0 Hpc).
  by apply RoundFloat_ge.
Qed.

(** When the product of the elapsed time and the rate is [1 - 2^-26] or
    more, one token at least is added: from [1 - 2^-25] on the rounded
    product has the [float] 1 as its nearest. *)
Lemma TokensAdded_one (t1 : Q) :
  (t0 <= t1)%Q -> (67108863 # 67108864 <= (t1 - t0) * Rate)%Q ->
  (1 <= TokensAdded t1)%Q.
Proof using Hrate Hfinite.
  intros Hle Hx. unfold TokensAdded.
  destruct (RoundDouble_error (t1 - t0) ltac:(lra)) as [Hd _].
  pose proof (RoundDouble_nonneg (t1 - t0) ltac:(lra)) as Hd0.
  pose proof tiny_rate_share as Htiny. pose proof pow2_947_small as H947.
  set (D := RoundDouble (t1 - t0)) in *.
  assert (((t1 - t0) * (9007199254740991 # 9007199254740992)
           - pow2 (-1075)) * Rate <= D * Rate)%Q as Hp
    by (apply Qmult_le_compat_r; lra).
  assert ((67108863 # 67108864) * (9007199254740991 # 9007199254740992)
          - (1 # 1152921504606846976) >= 33554431 # 33554432)%Q as Hc0
    by (vm_compute; discriminate).
  assert (33554431 # 33554432 <= D * Rate)%Q as Hpc by lra.
  assert (format64 (33554431 # 33554432)) as Hc.
  { exists 33554431, (-25). split; [reflexivity|].
    split; [reflexivity | lia]. }
  pose proof (RoundDouble_ge _ (D * Rate) Hc ltac:(lra) Hpc) as Hz.
  set (z := RoundDouble (D * Rate)) in *.
  destruct (Qlt_le_dec 1 z) as [Hbig|Hsmall].
  - apply RoundFloat_ge; [apply (format32_inject_Z 1); lia | lra | lra].
  - rewrite (RoundFloat_one z Hz Hsmall). lra.
Qed.

(** A call at [t1 > t0] on the drained bucket. *)
Lemma Float_CanLog_refilled (t1 : Q) (s1 : FULMChannelState) :
  drained_at t0 s1 -> (t0 < t1)%Q ->
  ((1 <= TokensAdded t1)%Q -> (TokensAdded t1 <= 16777215 # 8388608)%Q ->
   fst (ULMChannelFloat.CanLog v t1 s1) = true
   /\ fst (ULMChannelFloat.CanLog v t1
             (snd (ULMChannelFloat.CanLog v t1 s1))) = false)
  /\ ((TokensAdded t1 < 1)%Q -> fst (ULMChannelFloat.CanLog v t1 s1) = false).
Proof using Henabled Hverbosity Hclock Hburst Hrate.
  intros ((He & Hm & Hrl) & Hl & Hc) Hlt.
  assert (IntToFloat Cap == inject_Z Cap)%Q as Hcap
    by (apply RoundFloat_inject_Z; lia).
  assert (1 <= inject_Z Cap)%Q as HcapQ.
  { change 1%Q with (inject_Z 1). rewrite <- Zle_Qle. lia. }
  unfold ULMChannelFloat.CanLog at 1 3 4.
  rewrite He, Hm, Henabled, Hverbosity. cbn [negb orb].
  unfold ULMChannelFloat.RefillTokens.
  rewrite Hl, Hrl. rewrite (Qeq_bool_false t0 0) by lra.
  fold (TokensAdded t1).
  destruct (Qlt_bool 0 (RoundDouble (t1 - t0))) eqn:Hd.
  2: { (* the elapsed time is rounded to zero: nothing is added *)
       assert (TokensAdded t1 == 0)%Q as Hz.
       { unfold TokensAdded.
         assert (RoundDouble (t1 - t0) == 0)%Q as Hd0.
         { pose proof (RoundDouble_nonneg (t1 - t0) ltac:(lra)).
           destruct (Qlt_le_dec 0 (RoundDouble (t1 - t0))) as [H0|H0];
             [|lra].
           apply Qlt_bool_iff in H0. congruence. }
         assert (RoundDouble (RoundDouble (t1 - t0) * Rate) = 0%Q) as ->
           by (apply RoundTo_zero; rewrite Hd0; ring).
         reflexivity. }
       split; [intros H1; lra|]. intros _.
       by rewrite Qle_bool_false by lra. }
  cbn [CurrentTokens LastRefillTime set_bucket].
  pose proof (RoundFloat_format
                (RoundDouble (RoundDouble (t1 - t0) * Rate))) as Hfmt.
  assert (0 <= TokensAdded t1)%Q as HA0.
  { apply Qlt_bool_iff in Hd.
    apply RoundFloat_nonneg, RoundDouble_nonneg, Qmult_le_0_compat; lra. }
  assert (RoundFloat (CurrentTokens s1 + TokensAdded t1) == TokensAdded t1)%Q
    as Hsum.
  { assert (CurrentTokens s1 + TokensAdded t1 == TokensAdded t1)%Q as Es
      by lra.
    transitivity (CurrentTokens s1 + TokensAdded t1)%Q; [|exact Es].
    apply RoundFloat_exact; [lra|].
    apply (format_Qeq _ _ (TokensAdded t1)); [by rewrite Es|].
    apply RoundFloat_format.
    apply Qlt_bool_iff in Hd.
    apply RoundDouble_nonneg, Qmult_le_0_compat; lra. }
  set (w := FMath_MinQ (RoundFloat (CurrentTokens s1 + TokensAdded t1))
                       (IntToFloat Cap)) in *.
  pose proof (FMath_MinQ_le_l (RoundFloat (CurrentTokens s1 + TokensAdded t1))
                (IntToFloat Cap)) as Hwl. fold w in Hwl.
  split.
  - intros Hlo Hhi.
    assert (1 <= w)%Q as Hw1 by (apply FMath_MinQ_glb; lra).
    apply Qle_bool_iff in Hw1 as Hw1b. rewrite Hw1b. cbn [fst snd].
    split; [done|].
    assert (format32 (8388607 # 8388608)) as Hc1.
    { exists 8388607, (-23). split; [reflexivity|].
      split; [reflexivity | lia]. }
    pose proof (RoundFloat_le (8388607 # 8388608) (w - 1) Hc1
                  ltac:(lra) ltac:(lra)) as Hleft.
    rewrite Float_CanLog_deny; [done | | | | |];
      cbn [set_bucket bEffectiveEnabled EffectiveMinVerbosity LastRefillTime
           CurrentTokens];
      rewrite ?He, ?Hm; try done; lra.
  - intros Hno. by rewrite Qle_bool_false by lra.
Qed.

End TokenBucketClaim.

(** What a refill adds: the product of the elapsed time and the rate,
    rounded twice to a [double] and once to a [float]. *)
Lemma TokensToAdd_accuracy (Elapsed Rate : Q) :
  (0 <= Elapsed)%Q -> (0 <= Rate)%Q -> (Rate < inject_Z (2 ^ 128))%Q ->
  let TokensToAdd := RoundFloat (RoundDouble (RoundDouble Elapsed * Rate)) in
  (Elapsed * Rate * (8388607 # 8388608) - pow2 (-149) <= TokensToAdd)%Q
  /\ (TokensToAdd <= Elapsed * Rate * (8388609 # 8388608) + pow2 (-149))%Q.
Proof.
  intros HE HR HF. cbn zeta.
  destruct (RoundDouble_error Elapsed HE) as [Hd1 Hd2].
  pose proof (RoundDouble_nonneg Elapsed HE) as Hd0.
  set (D := RoundDouble Elapsed) in *.
  assert (0 <= D * Rate)%Q as Hp0 by (apply Qmult_le_0_compat; lra).
  destruct (RoundDouble_error (D * Rate) Hp0) as [Hp1 Hp2].
  pose proof (RoundDouble_nonneg (D * Rate) Hp0) as Hq0.
  set (Pr := RoundDouble (D * Rate)) in *.
  destruct (RoundFloat_error Pr Hq0) as [Hf1 Hf2].
  assert (pow2 (-1075) * Rate <= pow2 (-947))%Q as Htiny.
  { pose proof (pow2_pos (-1075)) as Hp.
    assert (pow2 (-1075) * inject_Z (2 ^ 128) == pow2 (-947))%Q as <-
      by reflexivity.
    rewrite !(Qmult_comm (pow2 (-1075))). apply Qmult_le_compat_r; lra. }
  assert (D * Rate
          <= Elapsed * Rate * (9007199254740993 # 9007199254740992)
             + pow2 (-1075) * Rate)%Q as Hup.
  { assert (D * Rate
            <= (Elapsed * (9007199254740993 # 9007199254740992)
                + pow2 (-1075)) * Rate)%Q
      by (apply Qmult_le_compat_r; lra).
    lra. }
  assert (Elapsed * Rate * (9007199254740991 # 9007199254740992)
          - pow2 (-1075) * Rate <= D * Rate)%Q as Hlow.
  { assert ((Elapsed * (9007199254740991 # 9007199254740992)
             - pow2 (-1075)) * Rate <= D * Rate)%Q
      by (apply Qmult_le_compat_r; lra).
    lra. }
  assert (0 <= Elapsed * Rate)%Q as Hx0 by (apply Qmult_le_0_compat; lra).
  pose proof pow2_947_small as H947.
  assert (pow2 (-1075) <= 1 # 1152921504606846976)%Q as H1075.
  { assert (pow2 (-60) == 1 # 1152921504606846976)%Q as <- by reflexivity.
    apply pow2_le. lia. }
  assert (pow2 (-150) + pow2 (-150) == pow2 (-149))%Q as H149 by reflexivity.
  assert (1 # 1152921504606846976 <= pow2 (-150) * 0 + (1 # 1152921504606846976))%Q by lra.
  pose proof (pow2_pos (-150)) as H150.
  pose proof (pow2_pos (-1075)) as H1075p.
  pose proof (pow2_pos (-947)) as H947p.
  assert (pow2 (-947) * (3 # 1) <= pow2 (-150))%Q as Hsmall.
  { assert (pow2 (-947) * (3 # 1) <= pow2 (-947) * (4 # 1))%Q by lra.
    assert (pow2 (-947) * (4 # 1) == pow2 (-945))%Q as E by reflexivity.
    pose proof (pow2_le (-945) (-150) ltac:(lia)). lra. }
  assert (pow2 (-1075) <= pow2 (-947))%Q as Hord by (apply pow2_le; lia).
  set (x := (Elapsed * Rate)%Q) in *.
  set (e1 := (pow2 (-1075) * Rate)%Q) in *.
  assert (0 <= e1)%Q as He1 by (unfold e1; apply Qmult_le_0_compat; lra).
  split.
  - assert (x * (8388607 # 8388608)
            <= x * (9007199254740991 # 9007199254740992)
                 * (9007199254740991 # 9007199254740992)
                 * (16777215 # 16777216))%Q as Hc.
    { assert (x * (8388607 # 8388608)
              == x * ((9007199254740991 # 9007199254740992)
                      * (9007199254740991 # 9007199254740992)
                      * (16777215 # 16777216))
                 - x * ((9007199254740991 # 9007199254740992)
                        * (9007199254740991 # 9007199254740992)
                        * (16777215 # 16777216) - (8388607 # 8388608)))%Q
        as -> by ring.
      assert (0 <= x * ((9007199254740991 # 9007199254740992)
                        * (9007199254740991 # 9007199254740992)
                        * (16777215 # 16777216) - (8388607 # 8388608)))%Q
        by (apply Qmult_le_0_compat; [done | vm_compute; discriminate]).
      lra. }
    lra.
  - assert (x * (9007199254740993 # 9007199254740992)
                 * (9007199254740993 # 9007199254740992)
                 * (16777217 # 16777216)
            <= x * (8388609 # 8388608))%Q as Hc.
    { assert (x * (8388609 # 8388608)
              == x * ((9007199254740993 # 9007199254740992)
                      * (9007199254740993 # 9007199254740992)
                      * (16777217 # 16777216))
                 + x * ((8388609 # 8388608)
                        - (9007199254740993 # 9007199254740992)
                          * (9007199254740993 # 9007199254740992)
                          * (16777217 # 16777216)))%Q as -> by ring.
      assert (0 <= x * ((8388609 # 8388608)
                        - (9007199254740993 # 9007199254740992)
                          * (9007199254740993 # 9007199254740992)
                          * (16777217 # 16777216)))%Q
        by (apply Qmult_le_0_compat; [done | vm_compute; discriminate]).
      lra. }
    lra.
Qed.

(** A channel state as the registry creates it: a default state on which
    [UpdateEffectiveSettings] has written the configuration. *)
Definition fresh_state (Config : FULMChannelConfig) : FULMChannelState :=
  UpdateEffectiveSettings Config None FULMChannelState_default.

Definition config_with_rate (r : FULMRateLimit) : FULMChannelConfig :=
  mkConfig true Message White r 1000 true.

(** The behaviour expected of a bucket of burst capacity [C] whose first
    use is at [t0]: [C] admissions and one denial at [t0], and at the
    later reading [t1] one admission followed by a denial.  C1 has
    [t1 = t0 + 1/R] for the rate [R]. *)
Definition token_bucket_behaviour (s : FULMChannelState)
    (v : EULMVerbosity) (t0 t1 : Q) : Prop :=
  let C := Z.to_nat (BurstCapacity (EffectiveRateLimit s)) in
  let r1 := ULMChannelFloat.CanLog_times C v t0 s in
  let r2 := ULMChannelFloat.CanLog v t0 (snd r1) in
  let r3 := ULMChannelFloat.CanLog v t1 (snd r2) in
  let r4 := ULMChannelFloat.CanLog v t1 (snd r3) in
  fst r1 = repeat true C /\ fst r2 = false /\ fst r3 = true /\ fst r4 = false.

(** The call at [t1] that follows the burst and its denial. *)
Definition call_after_burst (s : FULMChannelState) (v : EULMVerbosity)
    (t0 t1 : Q) : bool :=
  let C := Z.to_nat (BurstCapacity (EffectiveRateLimit s)) in
  let r1 := ULMChannelFloat.CanLog_times C v t0 s in
  let r2 := ULMChannelFloat.CanLog v t0 (snd r1) in
  fst (ULMChannelFloat.CanLog v t1 (snd r2)).

(** C1, as amended: for a channel that is enabled and whose minimum
    severity admits the call, with a rate [0 < R < 2^128] and a burst
    capacity [1 <= C <= 2^24], first used at a positive clock reading
    [t0]: [C] consecutive [CanLog] calls at [t0] return true and the next
    one at [t0] returns false.  At a later reading [t1] one call returns
    true and the one after it returns false when the product
    [(t1 - t0) * R] is 1, that is after [1/R] seconds, and more generally
    when it lies between [1 - 2^-26] and [2 - 2^-22]; with a product of at
    most [1 - 2^-22] the call at [t1] returns false.  A refill after the
    first use adds the product of the elapsed seconds and [R] up to its
    rounding, a relative error of at most [2^-23] and an absolute one of at
    most [2^-149], and clamps the tokens to [C]. *)
Theorem token_bucket_burst_and_refill
    (s : FULMChannelState) (v : EULMVerbosity) (t0 : Q) :
  let R := TokensPerSecond (EffectiveRateLimit s) in
  let C := BurstCapacity (EffectiveRateLimit s) in
  bEffectiveEnabled s = true ->
  verbosity_lt v (EffectiveMinVerbosity s) = false ->
  (LastRefillTime s == 0)%Q ->
  (0 < t0)%Q ->
  (0 < R)%Q -> (R < inject_Z (2 ^ 128))%Q ->
  1 <= C <= 2 ^ 24 ->
  (forall t1 : Q,
     (t0 < t1)%Q ->
     ((67108863 # 67108864 <= (t1 - t0) * R)%Q
      /\ ((t1 - t0) * R <= 8388607 # 4194304)%Q ->
      token_bucket_behaviour s v t0 t1)
     /\ (((t1 - t0) * R <= 4194303 # 4194304)%Q ->
         call_after_burst s v t0 t1 = false))
  /\ forall (s' : FULMChannelState) (t : Q),
       let R' := TokensPerSecond (EffectiveRateLimit s') in
       let Elapsed := (t - LastRefillTime s')%Q in
       let TokensToAdd :=
         RoundFloat (RoundDouble (RoundDouble Elapsed * R')) in
       let s'' := ULMChannelFloat.RefillTokens t s' in
       ~ (LastRefillTime s' == 0)%Q -> (0 < RoundDouble Elapsed)%Q ->
       (0 <= R')%Q -> (R' < inject_Z (2 ^ 128))%Q ->
       (CurrentTokens s''
        == Qmin (RoundFloat (CurrentTokens s' + TokensToAdd))
                (IntToFloat (BurstCapacity (EffectiveRateLimit s'))))%Q
       /\ (CurrentTokens s''
           <= IntToFloat (BurstCapacity (EffectiveRateLimit s')))%Q
       /\ LastRefillTime s'' = t
       /\ (Elapsed * R' * (8388607 # 8388608) - pow2 (-149)
           <= TokensToAdd)%Q
       /\ (TokensToAdd
           <= Elapsed * R' * (8388609 # 8388608) + pow2 (-149))%Q.
Proof.
  intros R C Hen Hv Hfresh Hclock Hrate Hfinite Hburst. split.
  - intros t1 Hlt.
    destruct (Float_CanLog_times_burst s v t0 Hen Hv Hfresh Hclock Hburst)
      as [Hr Hdrained].
    pose proof (Float_CanLog_after_burst s v t0 Hen Hv Hclock _ Hdrained)
      as Hdeny.
    destruct (Float_CanLog_refilled s v t0 Hen Hv Hclock Hrate Hburst t1 _
                Hdrained Hlt) as [Hyes Hno].
    pose proof pow2_947_small as H947.
    pose proof (pow2_pos (-947)) as H947p.
    fold R in Hyes, Hno.
    assert (0 <= (t1 - t0) * R)%Q as Hx0
      by (apply Qmult_le_0_compat; lra).
    split.
    + intros [Hlo Hhi]. unfold token_bucket_behaviour. cbn zeta.
      rewrite Hdeny. cbn [fst snd]. split; [done|]. split; [done|].
      apply Hyes.
      * apply (TokensAdded_one s t0 Hrate Hfinite); [lra | exact Hlo].
      * assert (format32 (16777215 # 8388608)) as Hc.
        { exists 16777215, (-23). split; [reflexivity|].
          split; [reflexivity | lia]. }
        apply (TokensAdded_le s t0 Hrate Hfinite); [lra | done |].
        fold R.
        assert ((8388607 # 4194304)
                * (9007199254740993 # 9007199254740992)
                + (1 # 1152921504606846976) <= 16777215 # 8388608)%Q
          by (vm_compute; discriminate).
        lra.
    + intros Hx. unfold call_after_burst. cbn zeta. rewrite Hdeny.
      cbn [fst snd]. apply Hno.
      assert (format32 (16777215 # 16777216)) as Hc.
      { exists 16777215, (-24). split; [reflexivity|].
        split; [reflexivity | lia]. }
      assert (TokensAdded s t0 t1 <= 16777215 # 16777216)%Q; [|lra].
      apply (TokensAdded_le s t0 Hrate Hfinite); [lra | done |].
      fold R.
      assert ((4194303 # 4194304) * (9007199254740993 # 9007199254740992)
              + (1 # 1152921504606846976) <= 16777215 # 16777216)%Q
        by (vm_compute; discriminate).
      lra.
  - intros s' t R' Elapsed TokensToAdd s'' Hnz Hpos HR' HF'.
    assert (0 <= Elapsed)%Q as HE.
    { destruct (Qlt_le_dec Elapsed 0) as [H|H]; [|done].
      pose proof (RoundTo_nonpos 53 (-1074) Elapsed ltac:(lra)) as Hd.
      fold RoundDouble in Hd. lra. }
    destruct (TokensToAdd_accuracy Elapsed R' HE HR' HF') as [Hlo Hhi].
    unfold s'', ULMChannelFloat.RefillTokens.
    rewrite Qeq_bool_false by done.
    fold Elapsed R'. apply Qlt_bool_iff in Hpos as Hposb. rewrite Hposb.
    fold TokensToAdd. cbn [CurrentTokens LastRefillTime set_bucket].
    split; [apply FMath_MinQ_spec|]. split; [apply FMath_MinQ_le_r|].
    split; [done|]. split; [exact Hlo | exact Hhi].
Qed.

(** The theorem at rate 5/s and burst 5, first used at second 1, with a
    further call [1/5] of a second later and the call after it. *)
Lemma token_bucket_burst_and_refill_witness :
  token_bucket_behaviour
    (fresh_state (config_with_rate (FULMRateLimit_make 5 5))) Message 1 (6 # 5).
Proof.
  destruct (token_bucket_burst_and_refill
              (fresh_state (config_with_rate (FULMRateLimit_make 5 5)))
              Message 1) as [H _].
  - reflexivity.
  - reflexivity.
  - reflexivity.
  - reflexivity.
  - reflexivity.
  - reflexivity.
  - vm_compute. split; discriminate.
  - apply (H (6 # 5)); [reflexivity|].
    vm_compute. split; discriminate.
Defined.

(** A bucket of rate 1/s and capacity [2^25], not yet used. *)
Definition bucket_of_2_25 : FULMChannelState :=
  fresh_state (config_with_rate (FULMRateLimit_make 1 (2 ^ 25))).

(** That bucket admits after any number of calls at one instant:
    [2^25 - 1] is not a [float] and is rounded back to [2^25]. *)
Lemma bucket_of_2_25_never_drains (n : nat) :
  fst (ULMChannelFloat.CanLog Message 1
         (snd (ULMChannelFloat.CanLog_times n Message 1 bucket_of_2_25)))
  = true.
Proof.
  set (full := set_bucket (inject_Z (2 ^ 25)) 1 bucket_of_2_25).
  assert (ULMChannelFloat.CanLog Message 1 bucket_of_2_25 = (true, full))
    as Hfirst by (vm_compute; reflexivity).
  assert (ULMChannelFloat.CanLog Message 1 full = (true, full)) as Hnext
    by (vm_compute; reflexivity).
  assert (forall k, snd (ULMChannelFloat.CanLog_times k Message 1 full) = full)
    as Hfull.
  { induction k as [|k IH]; [done|].
    cbn [ULMChannelFloat.CanLog_times]. by rewrite Hnext. }
  destruct n as [|n]; cbn [ULMChannelFloat.CanLog_times snd].
  - by rewrite Hfirst.
  - by rewrite Hfirst, Hfull, Hnext.
Qed.

(** C1 as stated fails in two ways.  A bucket of capacity 0, which the
    constructor [FULMRateLimit(0.5f)] builds, never admits: the refill is
    clamped to the capacity, so the call made [1/R = 2] seconds after the
    first use is denied too.  A bucket of capacity [2^25] is never drained
    at one instant, so every call finds all the tokens, the one after the
    first [2^25] calls included. *)
Lemma token_bucket_zero_capacity_never_admits :
  (let s := fresh_state (config_with_rate (FULMRateLimit_make (1 # 2) 0)) in
   bEffectiveEnabled s = true
   /\ BurstCapacity (EffectiveRateLimit s) = 0
   /\ (LastRefillTime s == 0)%Q
   /\ fst (ULMChannelFloat.CanLog Message (2 + 1 / (1 # 2))%Q
             (snd (ULMChannelFloat.CanLog Message 2 s))) = false
   /\ ~ token_bucket_behaviour s Message 2 (2 + 1 / (1 # 2))%Q)
  /\ (BurstCapacity (EffectiveRateLimit bucket_of_2_25) = 2 ^ 25
      /\ fst (ULMChannelFloat.CanLog Message 1
                (snd (ULMChannelFloat.CanLog_times (Z.to_nat (2 ^ 25))
                        Message 1 bucket_of_2_25))) = true
      /\ ~ token_bucket_behaviour bucket_of_2_25 Message 1 (1 + 1 / 1)%Q).
Proof.
  split.
  - cbn zeta. repeat split.
    intros (_ & _ & H & _). vm_compute in H. discriminate.
  - split; [reflexivity|]. split; [apply bucket_of_2_25_never_drains|].
    intros (_ & H & _).
    change (BurstCapacity (EffectiveRateLimit bucket_of_2_25)) with (2 ^ 25)
      in H.
    rewrite bucket_of_2_25_never_drains in H. discriminate.
Qed.

(** The sentinel [LastRefillTime == 0.0] stands for "never used": a bucket
    used at clock reading 0 is filled again by every call. *)
Remark token_bucket_clock_zero_refills_every_call :
  fst (ULMChannelFloat.CanLog_times 3 Message 0
         (fresh_state (config_with_rate (FULMRateLimit_make 1 1))))
  = [true; true; true].
Proof. vm_compute. reflexivity. Qed.

(** ** Inheritance of channel settings *)
Section Inheritance.

Lemma FKey_length (s : string) : String.length (FKey s) = String.length s.
Proof. induction s as [|c s IH]; simpl; [done | by rewrite IH]. Qed.

Lemma FMath_MaxV_value (a b : EULMVerbosity) :
  verbosity_value (FMath_MaxV a b)
  = Z.max (verbosity_value a) (verbosity_value b).
Proof.
  unfold FMath_MaxV, verbosity_lt.
  destruct (verbosity_value b <? verbosity_value a) eqn:E; lia.
Qed.

(** [UpdateEffectiveSettings] leaves the bucket and the hierarchy alone. *)
Lemma UpdateEffectiveSettings_hierarchy Config ParentState s :
  ParentChannel (UpdateEffectiveSettings Config ParentState s)
  = ParentChannel s
  /\ ChildChannels (UpdateEffectiveSettings Config ParentState s)
     = ChildChannels s.
Proof.
  unfold UpdateEffectiveSettings.
  by destruct (bInheritFromParent Config), ParentState.
Qed.

(** The inheriting branch. *)
Lemma UpdateEffectiveSettings_inherit Config Parent s :
  bInheritFromParent Config = true ->
  let s' := UpdateEffectiveSettings Config (Some Parent) s in
  bEffectiveEnabled s' = bEffectiveEnabled Parent && bEnabled Config
  /\ EffectiveMinVerbosity s'
     = FMath_MaxV (EffectiveMinVerbosity Parent) (MinVerbosity Config)
  /\ EffectiveRateLimit s'
     = (if Qlt_bool 0 (TokensPerSecond (RateLimit Config))
        then RateLimit Config else EffectiveRateLimit Parent)
  /\ EffectiveMaxEntries s' = MaxLogEntries Config.
Proof. intros H. unfold UpdateEffectiveSettings. by rewrite H. Qed.

(** The branch without the flag or without a parent. *)
Lemma UpdateEffectiveSettings_own Config ParentState s :
  bInheritFromParent Config = false \/ ParentState = None ->
  let s' := UpdateEffectiveSettings Config ParentState s in
  bEffectiveEnabled s' = bEnabled Config
  /\ EffectiveMinVerbosity s' = MinVerbosity Config
  /\ EffectiveColor s' = DisplayColor Config
  /\ EffectiveRateLimit s' = RateLimit Config
  /\ EffectiveMaxEntries s' = MaxLogEntries Config.
Proof.
  intros [H | ->]; unfold UpdateEffectiveSettings.
  - by rewrite H.
  - by destruct (bInheritFromParent Config).
Qed.

(** In a registry built by [RegisterChannel] the name of a child extends
    the name of its parent, so it is longer. *)
Definition wf_hierarchy (reg : FULMChannelRegistry) : Prop :=
  map_Forall
    (fun (k : string) (st : FULMChannelState) =>
       Forall (fun c => (String.length k < String.length (FKey c))%nat)
              (ChildChannels st))
    (ChannelStates reg).

Lemma wf_hierarchy_child (reg : FULMChannelRegistry) (k : string)
    (st : FULMChannelState) (c : string) :
  wf_hierarchy reg ->
  ChannelStates reg !! k = Some st -> c ∈ ChildChannels st ->
  (String.length k < String.length (FKey c))%nat.
Proof.
  intros Hwf Hk Hc. specialize (Hwf k st Hk). simpl in Hwf.
  rewrite Forall_forall in Hwf. by apply Hwf.
Qed.

(** What a rebuild preserves: the configurations, the states of the
    names shorter than [L], and the hierarchy. *)
Definition rebuild_frame (L : nat) (reg reg' : FULMChannelRegistry) : Prop :=
  ChannelConfigs reg' = ChannelConfigs reg
  /\ DefaultConfig reg' = DefaultConfig reg
  /\ (forall k : string, (String.length k < L)%nat ->
        ChannelStates reg' !! k = ChannelStates reg !! k)
  /\ (forall (k : string) (st' : FULMChannelState),
        ChannelStates reg' !! k = Some st' ->
        exists st, ChannelStates reg !! k = Some st
                   /\ ChildChannels st' = ChildChannels st
                   /\ ParentChannel st' = ParentChannel st).

Lemma rebuild_frame_refl L reg : rebuild_frame L reg reg.
Proof. repeat split; eauto. Qed.

Lemma rebuild_frame_trans L L' reg1 reg2 reg3 :
  (L <= L')%nat ->
  rebuild_frame L reg1 reg2 -> rebuild_frame L' reg2 reg3 ->
  rebuild_frame L reg1 reg3.
Proof.
  intros HL (Hc1 & Hd1 & Hk1 & Hh1) (Hc2 & Hd2 & Hk2 & Hh2).
  repeat split.
  - congruence.
  - congruence.
  - intros k Hk. rewrite Hk2 by lia. by apply Hk1.
  - intros k st3 H3.
    destruct (Hh2 k st3 H3) as (st2 & H2 & Hch2 & Hp2).
    destruct (Hh1 k st2 H2) as (st1 & H1 & Hch1 & Hp1).
    exists st1. repeat split; congruence.
Qed.

Lemma rebuild_frame_wf L reg reg' :
  wf_hierarchy reg -> rebuild_frame L reg reg' -> wf_hierarchy reg'.
Proof.
  intros Hwf (_ & _ & _ & Hh) k st' Hk. simpl.
  destruct (Hh k st' Hk) as (st & Hst & Hch & _).
  rewrite Hch. exact (Hwf k st Hst).
Qed.

(** Writing the state of [n] itself. *)
Lemma rebuild_frame_write (n : string) (reg : FULMChannelRegistry)
    (st st' : FULMChannelState) :
  ChannelStates reg !! FKey n = Some st ->
  ChildChannels st' = ChildChannels st ->
  ParentChannel st' = ParentChannel st ->
  rebuild_frame (String.length (FKey n)) reg
    (set_states (<[FKey n := st']> (ChannelStates reg)) reg).
Proof.
  intros Hst Hch Hp. repeat split; simpl.
  - intros k Hk. destruct (decide (FKey n = k)) as [<-|Hne]; [lia|].
    by rewrite lookup_insert_ne.
  - intros k s' Hk. destruct (decide (FKey n = k)) as [<-|Hne].
    + rewrite lookup_insert_eq in Hk. injection Hk as <-. eauto.
    + rewrite lookup_insert_ne in Hk by done. eauto.
Qed.

(** A rebuild of [n] changes no state of a name shorter than [n]. *)
Lemma RebuildEffectiveSettings_frame (fuel : nat) :
  forall (n : string) (reg : FULMChannelRegistry),
    wf_hierarchy reg ->
    rebuild_frame (String.length (FKey n)) reg
                  (RebuildEffectiveSettings_fuel fuel n reg).
Proof.
  induction fuel as [|fuel IH]; intros n reg Hwf; simpl.
  - apply rebuild_frame_refl.
  - destruct (ChannelStates reg !! FKey n) as [State|] eqn:Hst;
      [|apply rebuild_frame_refl].
    destruct (ChannelConfigs reg !! FKey n) as [Config|] eqn:Hcf;
      [|apply rebuild_frame_refl].
    set (ParentState := if IsEmpty (ParentChannel State) then None
                        else ChannelStates reg !! FKey (ParentChannel State)).
    set (State' := UpdateEffectiveSettings Config ParentState State).
    destruct (UpdateEffectiveSettings_hierarchy Config ParentState State)
      as [Hp Hch]. fold State' in Hp, Hch.
    set (reg1 := set_states _ reg).
    assert (rebuild_frame (String.length (FKey n)) reg reg1) as Hf1
      by (by apply (rebuild_frame_write n reg State State')).
    assert (Forall (fun c => (String.length (FKey n)
                              < String.length (FKey c))%nat)
                   (ChildChannels State')) as Hlen.
    { rewrite Hch. exact (Hwf _ _ Hst). }
    assert (wf_hierarchy reg1) as Hwf1 by eauto using rebuild_frame_wf.
    clearbody reg1. clear Hch Hp. revert reg1 Hf1 Hwf1 Hlen.
    generalize (ChildChannels State'). intros cs reg1 Hf1 Hwf1 Hlen.
    revert reg1 Hf1 Hwf1.
    induction Hlen as [|c cs Hc _ IHcs]; intros reg1 Hf1 Hwf1; simpl; [done|].
    apply IHcs.
    + eapply rebuild_frame_trans; [|exact Hf1|by apply IH]. lia.
    + eapply rebuild_frame_wf; [exact Hwf1|by apply IH].
Qed.

(** The state that a rebuild of [n] leaves for [n] is the one written by
    [UpdateEffectiveSettings] from the configuration of [n] and the state
    of its parent. *)
Lemma RebuildEffectiveSettings_self (fuel : nat) (n : string)
    (reg : FULMChannelRegistry) (State : FULMChannelState)
    (Config : FULMChannelConfig) :
  wf_hierarchy reg ->
  ChannelStates reg !! FKey n = Some State ->
  ChannelConfigs reg !! FKey n = Some Config ->
  ChannelStates (RebuildEffectiveSettings_fuel (S fuel) n reg) !! FKey n
  = Some (UpdateEffectiveSettings Config
            (if IsEmpty (ParentChannel State) then None
             else ChannelStates reg !! FKey (ParentChannel State))
            State).
Proof.
  intros Hwf Hst Hcf. simpl. rewrite Hst, Hcf.
  set (ParentState := if IsEmpty (ParentChannel State) then None
                      else ChannelStates reg !! FKey (ParentChannel State)).
  set (State' := UpdateEffectiveSettings Config ParentState State).
  destruct (UpdateEffectiveSettings_hierarchy Config ParentState State)
    as [Hp Hch]. fold State' in Hp, Hch.
  set (reg1 := set_states _ reg).
  assert (ChannelStates reg1 !! FKey n = Some State') as H1
    by (simpl; apply lookup_insert_eq).
  assert (wf_hierarchy reg1) as Hwf1.
  { eapply rebuild_frame_wf; [exact Hwf|].
    by apply (rebuild_frame_write n reg State State'). }
  assert (Forall (fun c => (String.length (FKey n)
                            < String.length (FKey c))%nat)
                 (ChildChannels State')) as Hlen.
  { rewrite Hch. exact (Hwf _ _ Hst). }
  clearbody reg1. clear Hch Hp. revert reg1 H1 Hwf1 Hlen.
  generalize (ChildChannels State') at 1 2. intros cs reg1 H1 Hwf1 Hlen.
  revert reg1 H1 Hwf1.
  induction Hlen as [|c cs Hc _ IHcs]; intros reg1 H1 Hwf1; simpl; [done|].
  pose proof (RebuildEffectiveSettings_frame fuel c reg1 Hwf1) as Hf.
  apply IHcs.
  - destruct Hf as (_ & _ & Hk & _). by rewrite Hk.
  - eapply rebuild_frame_wf; [exact Hwf1|exact Hf].
Qed.

End Inheritance.

(** A registry with ["Gameplay"] and its child ["Gameplay.Combat"], as two
    calls of [RegisterChannel] build it; the child asks for warnings and
    leaves the rate limit to its parent. *)
Definition parent_config : FULMChannelConfig :=
  mkConfig true Error White (FULMRateLimit_make 5 5) 500 true.
Definition child_config : FULMChannelConfig :=
  mkConfig true Warning White (mkRateLimit 0 0) 200 true.
Definition two_level_registry : FULMChannelRegistry :=
  ULMChannel.RegisterChannel "Gameplay.Combat" child_config
    (ULMChannel.RegisterChannel "Gameplay" parent_config
                                FULMChannelRegistry_new).

(** C5: for a channel [n] with state [State] and configuration [Config],
    recomputing the effective settings ([RebuildEffectiveSettings]) leaves
    for [n] a state [State'] such that, with the inherit flag and a
    registered parent, enabled is the parent's effective enabled AND the own
    flag, the minimum severity is the maximum of the parent's effective one
    and the own one, the rate limit is the own one when its tokens per
    second are positive and the parent's effective one otherwise, and the
    maximum of entries is the own one; without the flag or without a
    registered parent every effective field is the configured one. *)
Theorem effective_settings_resolution (fuel : nat) (reg : FULMChannelRegistry)
    (n : string) (State : FULMChannelState) (Config : FULMChannelConfig) :
  wf_hierarchy reg ->
  ChannelStates reg !! FKey n = Some State ->
  ChannelConfigs reg !! FKey n = Some Config ->
  let reg' := RebuildEffectiveSettings_fuel (S fuel) n reg in
  exists State' : FULMChannelState,
    ChannelStates reg' !! FKey n = Some State'
    /\ (forall Parent : FULMChannelState,
          bInheritFromParent Config = true ->
          IsEmpty (ParentChannel State) = false ->
          ChannelStates reg !! FKey (ParentChannel State) = Some Parent ->
          bEffectiveEnabled State'
          = bEffectiveEnabled Parent && bEnabled Config
          /\ verbosity_value (EffectiveMinVerbosity State')
             = Z.max (verbosity_value (EffectiveMinVerbosity Parent))
                     (verbosity_value (MinVerbosity Config))
          /\ ((0 < TokensPerSecond (RateLimit Config))%Q ->
              EffectiveRateLimit State' = RateLimit Config)
          /\ (~ (0 < TokensPerSecond (RateLimit Config))%Q ->
              EffectiveRateLimit State' = EffectiveRateLimit Parent)
          /\ EffectiveMaxEntries State' = MaxLogEntries Config
          /\ ((String.length (ParentChannel State) < String.length n)%nat ->
              ChannelStates reg' !! FKey (ParentChannel State) = Some Parent))
    /\ (bInheritFromParent Config = false
        \/ IsEmpty (ParentChannel State) = true
        \/ ChannelStates reg !! FKey (ParentChannel State) = None ->
        bEffectiveEnabled State' = bEnabled Config
        /\ EffectiveMinVerbosity State' = MinVerbosity Config
        /\ EffectiveColor State' = DisplayColor Config
        /\ EffectiveRateLimit State' = RateLimit Config
        /\ EffectiveMaxEntries State' = MaxLogEntries Config).
Proof.
  intros Hwf Hst Hcf reg'.
  pose proof (RebuildEffectiveSettings_self fuel n reg State Config
                Hwf Hst Hcf) as Hself.
  fold reg' in Hself.
  eexists. split; [exact Hself|]. split.
  - intros Parent Hflag Hne Hparent. rewrite Hne, Hparent.
    destruct (UpdateEffectiveSettings_inherit Config Parent State Hflag)
      as (He & Hv & Hr & Hm).
    split; [exact He|].
    split; [rewrite Hv; apply FMath_MaxV_value|].
    split; [|split; [|split]].
    + intros Hpos. apply Qlt_bool_iff in Hpos. by rewrite Hr, Hpos.
    + intros Hnpos. rewrite Hr.
      destruct (Qlt_bool 0 (TokensPerSecond (RateLimit Config))) eqn:E; [|done].
      apply Qlt_bool_iff in E. contradiction.
    + exact Hm.
    + intros Hlen.
      destruct (RebuildEffectiveSettings_frame (S fuel) n reg Hwf)
        as (_ & _ & Hk & _).
      fold reg' in Hk. rewrite Hk; [done|]. by rewrite !FKey_length.
  - intros Hown. apply UpdateEffectiveSettings_own.
    destruct Hown as [H | [H | H]]; [by left | right; by rewrite H | right].
    rewrite H. by destruct (IsEmpty (ParentChannel State)).
Qed.

(** The theorem on ["Gameplay.Combat"] in the two-level registry. *)
Lemma effective_settings_resolution_witness :
  exists State' : FULMChannelState,
    ChannelStates (RebuildEffectiveSettings "Gameplay.Combat" two_level_registry)
      !! FKey "Gameplay.Combat" = Some State'
    /\ EffectiveMinVerbosity State' = Error
    /\ EffectiveRateLimit State' = FULMRateLimit_make 5 5
    /\ EffectiveMaxEntries State' = 200.
Proof.
  destruct (effective_settings_resolution
              (size (ChannelStates two_level_registry)) two_level_registry
              "Gameplay.Combat"
              (UpdateEffectiveSettings child_config
                 (Some (fresh_state parent_config))
                 (set_parent "Gameplay" FULMChannelState_default))
              child_config) as (State' & Hst & Hinh & _).
  - unfold wf_hierarchy.
    apply (bool_decide_unpack _ (dec := map_Forall_dec _ _)).
    vm_compute. exact I.
  - vm_compute. reflexivity.
  - vm_compute. reflexivity.
  - exists State'. split; [exact Hst|].
    destruct (Hinh (set_children ["Gameplay.Combat"%string]
                                 (fresh_state parent_config)))
      as (_ & Hv & _ & Hr & Hm & _).
    + reflexivity.
    + reflexivity.
    + vm_compute. reflexivity.
    + split; [|split].
      * destruct (EffectiveMinVerbosity State'); vm_compute in Hv; congruence.
      * rewrite Hr; [reflexivity|]. vm_compute. discriminate.
      * exact Hm.
Defined.

(** ** Fixed-width counters *)
Section Counters.

Lemma wrap32_small (z : Z) : - 2^31 <= z < 2^31 -> wrap32 z = z.
Proof. intros H. unfold wrap32. rewrite Z.mod_small; lia. Qed.

Lemma wrap64_small (z : Z) : - 2^63 <= z < 2^63 -> wrap64 z = z.
Proof. intros H. unfold wrap64. rewrite Z.mod_small; lia. Qed.

Lemma wrapSZ_small (z : Z) : 0 <= z < 2^64 -> wrapSZ z = z.
Proof. intros H. unfold wrapSZ. rewrite Z.mod_small; lia. Qed.

Lemma wrapSZ_range (z : Z) : 0 <= wrapSZ z < 2^64.
Proof. unfold wrapSZ. apply Z.mod_pos_bound. lia. Qed.

Lemma wrap32_range (z : Z) : - 2^31 <= wrap32 z < 2^31.
Proof.
  unfold wrap32. pose proof (Z.mod_pos_bound (z + 2^31) (2^32)). lia.
Qed.

(** Below [INT32_MAX] an increment adds one. *)
Lemma Increment_small (c : Z) : - 2^31 <= c < 2^31 - 1 -> Increment c = c + 1.
Proof. intros H. unfold Increment. apply wrap32_small. lia. Qed.

(** An increment always changes the counter. *)
Lemma Increment_neq (c : Z) : Increment c <> c.
Proof.
  unfold Increment, wrap32. intros H.
  pose proof (Z.mod_pos_bound (c + 1 + 2^31) (2^32)) as Hb.
  assert (0 <= c + 2^31 < 2^32) as Hc by lia.
  destruct (Z.eq_dec (c + 2^31) (2^32 - 1)) as [E|E].
  - replace (c + 1 + 2^31) with (2^32) in H by lia.
    rewrite Z.mod_same in H; lia.
  - rewrite Z.mod_small in H; lia.
Qed.

End Counters.

(** ** The master list and [UULMSubsystem::RegisterChannel] *)
Section MasterList.

(** A name with a dot, as a path of the hierarchy has. *)
Fixpoint has_dot (s : string) : bool :=
  match s with
  | EmptyString => false
  | String c r => Ascii.eqb c "." || has_dot r
  end.

Lemma ToUpper_dot (c : ascii) : Ascii.eqb (ToUpper c) "." = Ascii.eqb c ".".
Proof.
  destruct c as [[] [] [] [] [] [] [] []]; reflexivity.
Qed.

Lemma has_dot_FKey (s : string) : has_dot (FKey s) = has_dot s.
Proof.
  induction s as [|c s IH]; simpl; [done|]. by rewrite ToUpper_dot, IH.
Qed.

Lemma FString_eq_has_dot (a b : string) :
  FString_eq a b = true -> has_dot a = has_dot b.
Proof.
  unfold FString_eq. intros H. apply String.eqb_eq in H.
  by rewrite <- (has_dot_FKey a), <- (has_dot_FKey b), H.
Qed.

Lemma master_list_no_dot :
  Forall (fun m => has_dot m = false) ULM_CHANNEL_LIST.
Proof. repeat constructor. Qed.

Lemma IsChannelInMasterList_false (ChannelName : string) :
  IsChannelInMasterList ChannelName = false
  <-> forall m, In m ULM_CHANNEL_LIST -> FString_eq ChannelName m = false.
Proof.
  unfold IsChannelInMasterList. split.
  - intros H m Hm. destruct (FString_eq ChannelName m) eqn:E; [|done].
    assert (existsb (fun c => FString_eq ChannelName c) ULM_CHANNEL_LIST
            = true) as Ht by (apply existsb_exists; eauto).
    congruence.
  - intros H. destruct (existsb _ _) eqn:E; [|done].
    apply existsb_exists in E as (m & Hm & Heq).
    rewrite (H m Hm) in Heq. discriminate.
Qed.

Lemma dotted_not_in_master_list (ChannelName : string) :
  has_dot ChannelName = true -> IsChannelInMasterList ChannelName = false.
Proof.
  intros Hdot. apply IsChannelInMasterList_false. intros m Hm.
  destruct (FString_eq ChannelName m) eqn:E; [|done].
  apply FString_eq_has_dot in E.
  pose proof master_list_no_dot as Hall.
  rewrite Forall_forall in Hall.
  apply list_elem_of_In in Hm. specialize (Hall m Hm). congruence.
Qed.

End MasterList.

(** C10, as amended: [UULMSubsystem::RegisterChannel] registers nothing for
    a name that is none of the twelve names of the master list, the names
    being matched as [FString]s are, up to letter case, and in particular
    for a name with a dot: the subsystem, with its channel registry and its
    per-channel storage, is left as it was. *)
Theorem RegisterChannel_only_master_list
    (ChannelName : string) (Config : FULMChannelConfig) (s : UULMSubsystem) :
  ((forall m, In m ULM_CHANNEL_LIST -> FString_eq ChannelName m = false) ->
   RegisterChannel ChannelName Config s = s)
  /\ (has_dot ChannelName = true -> RegisterChannel ChannelName Config s = s)
  /\ length ULM_CHANNEL_LIST = 12%nat
  /\ Forall (fun m => IsChannelInMasterList m = true) ULM_CHANNEL_LIST.
Proof.
  split; [|split; [|split]].
  - intros H. apply IsChannelInMasterList_false in H.
    unfold RegisterChannel. by rewrite H.
  - intros H. apply dotted_not_in_master_list in H.
    unfold RegisterChannel. by rewrite H.
  - reflexivity.
  - repeat constructor.
Qed.

(** A subsystem as [Initialize] leaves it before any channel is added. *)
Definition fresh_subsystem : UULMSubsystem :=
  mkSubsystem (Some FULMChannelRegistry_new) [] ∅
              (mkQueueDiagnostics 0 0 0 0) FULMMemoryTracker_new.

(** The theorem on the names ["A.B"] and ["Weather"]. *)
Lemma RegisterChannel_only_master_list_witness :
  RegisterChannel "A.B" FULMChannelConfig_default fresh_subsystem
  = fresh_subsystem
  /\ RegisterChannel "Weather" FULMChannelConfig_default fresh_subsystem
     = fresh_subsystem.
Proof.
  split.
  - apply (proj1 (proj2 (RegisterChannel_only_master_list
                          "A.B" FULMChannelConfig_default fresh_subsystem))).
    reflexivity.
  - apply (proj1 (RegisterChannel_only_master_list
                   "Weather" FULMChannelConfig_default fresh_subsystem)).
    apply IsChannelInMasterList_false. reflexivity.
Defined.

(** C10 as stated fails on letter case: ["gameplay"] is none of the twelve
    strings of the master list, yet [RegisterChannel] takes it for
    ["Gameplay"], registers it and gives it a storage. *)
Lemma RegisterChannel_registers_other_letter_case :
  let s := RegisterChannel "gameplay" FULMChannelConfig_default
                           fresh_subsystem in
  ~ In "gameplay"%string ULM_CHANNEL_LIST
  /\ IsChannelInMasterList "gameplay" = true
  /\ s <> fresh_subsystem
  /\ (exists reg, ChannelRegistry s = Some reg
                  /\ IsChannelRegistered "gameplay" reg = true)
  /\ LogEntries s !! FKey "gameplay" = Some [].
Proof.
  cbn zeta. split.
  - intros H. simpl in H.
    repeat (destruct H as [H|H]; [discriminate|]). exact H.
  - split; [reflexivity|]. split; [by vm_compute|].
    split; [by eexists | reflexivity].
Qed.

(** ** The ingestion queue ([StoreLogEntryInternal]) *)

(** The admission check that opens [StoreLogEntryInternal]. *)
Definition Admits (ctx : CallContext) (ChannelName : string)
    (Verbosity : EULMVerbosity) (s : UULMSubsystem) : bool :=
  match ChannelRegistry s with
  | Some reg => fst (CanChannelLog ChannelName Verbosity (ctx_Seconds ctx) reg)
  | None => true
  end.

(** A call at capacity drops the entry and counts the drop. *)
Definition drops_when_full (ctx : CallContext) (Message : string)
    (ChannelName : string) (Verbosity : EULMVerbosity) (s : UULMSubsystem)
  : Prop :=
  MAX_QUEUE_SIZE <= GetQueueSize s ->
  let s' := StoreLogEntryInternal ctx Message ChannelName Verbosity s in
  LogMessageQueue s' = LogMessageQueue s
  /\ DroppedCount (QueueDiagnostics s')
     = Increment (DroppedCount (QueueDiagnostics s))
  /\ EnqueueCount (QueueDiagnostics s') = EnqueueCount (QueueDiagnostics s).

(** A call below capacity whose enqueue succeeds counts the enqueue and no
    drop. *)
Definition counts_enqueue (ctx : CallContext) (Message : string)
    (ChannelName : string) (Verbosity : EULMVerbosity) (s : UULMSubsystem)
  : Prop :=
  GetQueueSize s < MAX_QUEUE_SIZE -> ctx_EnqueueSucceeds ctx = true ->
  let s' := StoreLogEntryInternal ctx Message ChannelName Verbosity s in
  LogMessageQueue s'
  = LogMessageQueue s
    ++ [mkQueueEntry Message ChannelName Verbosity
                     (ctx_Now ctx) (ctx_ThreadId ctx)]
  /\ EnqueueCount (QueueDiagnostics s')
     = Increment (EnqueueCount (QueueDiagnostics s))
  /\ DroppedCount (QueueDiagnostics s') = DroppedCount (QueueDiagnostics s).

(** C6, as amended: a call of [StoreLogEntryInternal] whose channel passes
    the admission check ([CanChannelLog], or no registry) and that finds
    the estimated pending count at or above 10000 enqueues nothing and
    increments the drop counter once; below capacity, a successful enqueue
    appends the entry, increments the enqueue counter once and records no
    drop.  A call that the admission check denies returns before the queue:
    it enqueues nothing and touches no counter.  Below [INT32_MAX] an
    increment adds exactly one. *)
Theorem StoreLogEntryInternal_never_blocks
    (ctx : CallContext) (Message ChannelName : string)
    (Verbosity : EULMVerbosity) (s : UULMSubsystem) :
  (Admits ctx ChannelName Verbosity s = true ->
   drops_when_full ctx Message ChannelName Verbosity s
   /\ counts_enqueue ctx Message ChannelName Verbosity s)
  /\ (Admits ctx ChannelName Verbosity s = false ->
      let s' := StoreLogEntryInternal ctx Message ChannelName Verbosity s in
      LogMessageQueue s' = LogMessageQueue s
      /\ QueueDiagnostics s' = QueueDiagnostics s)
  /\ (forall c : Z, - 2^31 <= c < 2^31 - 1 -> Increment c = c + 1).
Proof.
  unfold Admits, drops_when_full, counts_enqueue, StoreLogEntryInternal.
  split; [|split].
  - intros Hadm. destruct (ChannelRegistry s) as [reg|] eqn:Hreg.
    + cbn [fst snd]. rewrite Hadm. cbn [negb].
      change (GetQueueSize (with_registry _ s)) with (GetQueueSize s).
      split.
      * intros Hfull. apply Z.leb_le in Hfull. by rewrite Hfull.
      * intros Hroom Hok. apply Z.leb_gt in Hroom. by rewrite Hroom, Hok.
    + cbn [fst snd negb]. split.
      * intros Hfull. apply Z.leb_le in Hfull. by rewrite Hfull.
      * intros Hroom Hok. apply Z.leb_gt in Hroom. by rewrite Hroom, Hok.
  - intros Hadm. destruct (ChannelRegistry s) as [reg|]; [|done].
    cbn [fst snd]. by rewrite Hadm.
  - apply Increment_small.
Qed.

(** A subsystem with the channel ["Gameplay"] registered and 10000 entries
    pending, and one with 3 pending. *)
Definition gameplay_subsystem (Enqueued : Z) : UULMSubsystem :=
  with_diagnostics (mkQueueDiagnostics Enqueued 0 0 0)
    (RegisterChannel "Gameplay" FULMChannelConfig_default fresh_subsystem).

Definition call_at_second_1 : CallContext := mkCallContext 1 0 0 true.

(** The theorem on a full and on a nearly empty queue. *)
Lemma StoreLogEntryInternal_never_blocks_witness :
  drops_when_full call_at_second_1 "m" "Gameplay" Message
                  (gameplay_subsystem 10000)
  /\ counts_enqueue call_at_second_1 "m" "Gameplay" Message
                    (gameplay_subsystem 3).
Proof.
  split.
  - apply (StoreLogEntryInternal_never_blocks
             call_at_second_1 "m" "Gameplay" Message (gameplay_subsystem 10000)).
    reflexivity.
  - apply (StoreLogEntryInternal_never_blocks
             call_at_second_1 "m" "Gameplay" Message (gameplay_subsystem 3)).
    reflexivity.
Defined.

(** C6 as stated fails for a call that the admission check denies: on a
    full queue, a call for the unregistered channel ["Weather"] returns
    without a drop being counted. *)
Lemma StoreLogEntryInternal_denied_call_counts_no_drop :
  MAX_QUEUE_SIZE <= GetQueueSize (gameplay_subsystem 10000)
  /\ DroppedCount
       (QueueDiagnostics
          (StoreLogEntryInternal call_at_second_1 "m" "Weather" Message
                                 (gameplay_subsystem 10000)))
     = DroppedCount (QueueDiagnostics (gameplay_subsystem 10000))
  /\ ~ drops_when_full call_at_second_1 "m" "Weather" Message
                       (gameplay_subsystem 10000).
Proof.
  split; [by vm_compute|]. split; [reflexivity|].
  intros H. destruct H as (_ & Hd & _); [by vm_compute|].
  vm_compute in Hd. discriminate.
Qed.

(** ** What the store operations leave alone *)
Section QueueFrame.

Variable P : Platform.

(** The ingestion queue and its counters. *)
Definition same_queue (s s' : UULMSubsystem) : Prop :=
  LogMessageQueue s' = LogMessageQueue s
  /\ QueueDiagnostics s' = QueueDiagnostics s.

Lemma same_queue_refl s : same_queue s s.
Proof. by split. Qed.

Lemma same_queue_trans s1 s2 s3 :
  same_queue s1 s2 -> same_queue s2 s3 -> same_queue s1 s3.
Proof. intros [? ?] [? ?]. split; congruence. Qed.

Lemma TrimChannelForMemory_same_queue ChannelName n s :
  same_queue s (TrimChannelForMemory P ChannelName n s).
Proof.
  unfold TrimChannelForMemory.
  destruct (LogEntries s !! FKey ChannelName); [|apply same_queue_refl].
  destruct (_ || _); [apply same_queue_refl | by split].
Qed.

Lemma TrimVisit_same_queue T x acc :
  same_queue (fst acc) (fst (TrimVisit P T x acc)).
Proof.
  unfold TrimVisit.
  destruct (LogEntries (fst acc) !! FKey (fst x)); [|apply same_queue_refl].
  destruct (0 <? _); [|apply same_queue_refl].
  apply TrimChannelForMemory_same_queue.
Qed.

Lemma TrimLoop_same_queue T l :
  forall acc, same_queue (fst acc) (fst (TrimLoop P T l acc)).
Proof.
  induction l as [|x l IH]; intros acc; simpl; [apply same_queue_refl|].
  destruct (T <=? snd acc); [apply same_queue_refl|].
  eapply same_queue_trans; [apply TrimVisit_same_queue | apply IH].
Qed.

Lemma TrimMemoryBudget_same_queue s : same_queue s (TrimMemoryBudget P s).
Proof.
  unfold TrimMemoryBudget.
  destruct (SafelyWithinBudget s); [apply same_queue_refl|].
  pose proof (TrimLoop_same_queue (TargetReduction s)
                (SortByUsage (ChannelUsages s)) (s, 0)) as [Hq Hd].
  by split.
Qed.

Lemma StoreProcessedLogEntry_same_queue Entry s :
  same_queue s (StoreProcessedLogEntry P Entry s).
Proof.
  unfold StoreProcessedLogEntry.
  destruct (negb _); [apply same_queue_refl|].
  set (s1 := if WouldExceedBudget _ _ then TrimMemoryBudget P s else s).
  assert (same_queue s s1) as H1.
  { unfold s1. destruct (WouldExceedBudget _ _);
      [apply TrimMemoryBudget_same_queue | apply same_queue_refl]. }
  destruct (_ && _); [done|].
  eapply same_queue_trans; [exact H1|].
  set (s2 := match LogEntries s1 !! _ with Some _ => s1 | None => _ end).
  assert (same_queue s1 s2) as H2.
  { unfold s2. destruct (LogEntries s1 !! _); [apply same_queue_refl|].
    simpl. destruct (ChannelRegistry s1); [|by split].
    destruct (negb _); by split. }
  eapply same_queue_trans; [exact H2|].
  set (s3 := with_tracker _ _).
  assert (same_queue s2 s3) as H3 by (by split).
  eapply same_queue_trans; [exact H3|].
  destruct (ChannelRegistry s3); [|apply same_queue_refl].
  destruct (_ <? _); [|apply same_queue_refl].
  apply TrimChannelForMemory_same_queue.
Qed.

(** A batch takes the first [BATCH_SIZE] entries of the queue, and no
    more. *)
Lemma ProcessBatch_loop_queue (budget : nat) :
  forall s : UULMSubsystem,
    LogMessageQueue (ProcessBatch_loop P budget s)
    = skipn budget (LogMessageQueue s).
Proof.
  induction budget as [|budget IH]; intros s; simpl; [done|].
  destruct (LogMessageQueue s) as [|Entry rest] eqn:Hq; [by rewrite Hq|].
  rewrite IH. cbn [skipn]. f_equal.
  change (LogMessageQueue (UpdateProcessingDiagnostics ?x))
    with (LogMessageQueue x).
  unfold ProcessLogEntry.
  match goal with
  | |- LogMessageQueue (StoreProcessedLogEntry P ?e ?x) = _ =>
      destruct (StoreProcessedLogEntry_same_queue e x) as [Hsame _]
  end.
  by rewrite Hsame.
Qed.

End QueueFrame.

(** C2, on the code: when the processor reads the stop flag set, [Run]
    processes one more batch, which takes the first 64 entries of the
    queue; with more than 64 entries pending the others stay in the queue
    when the thread ends. *)
Theorem Run_shutdown_processes_one_batch (P : Platform) (s : UULMSubsystem) :
  (BATCH_SIZE < length (LogMessageQueue s))%nat ->
  LogMessageQueue (Run P [] s) = skipn BATCH_SIZE (LogMessageQueue s)
  /\ LogMessageQueue (Run P [] s) <> [].
Proof.
  intros Hlen. simpl. unfold ProcessBatch.
  rewrite ProcessBatch_loop_queue. split; [done|].
  intros Hnil. apply (f_equal length) in Hnil.
  rewrite length_skipn in Hnil. simpl in Hnil. lia.
Qed.

(** Sixty-five entries of the channel ["Gameplay"] pending at shutdown. *)
Definition pending_at_shutdown : UULMSubsystem :=
  with_queue (repeat (mkQueueEntry "m" "Gameplay" Message 0 0) 65)
             (gameplay_subsystem 65).

(** The theorem on these sixty-five entries: the last one is never
    processed. *)
Lemma Run_shutdown_processes_one_batch_witness :
  LogMessageQueue (Run desktop64 [] pending_at_shutdown)
  = [mkQueueEntry "m" "Gameplay" Message 0 0].
Proof.
  rewrite (proj1 (Run_shutdown_processes_one_batch
                    desktop64 pending_at_shutdown
                    ltac:(apply Nat.ltb_lt; reflexivity))).
  reflexivity.
Defined.

(** ** The file tracker: active files *)
Section ActiveFiles.

Definition active_count (Files : list FULMLogFileInfo) : nat :=
  length (List.filter bIsActive Files).

(** At most one file of each channel is active. *)
Definition at_most_one_active (t : FULMLogFileTracker) : Prop :=
  map_Forall (fun (_ : string) Files => (active_count Files <= 1)%nat)
             (ChannelFiles t).

(** Exactly one file of each channel is active. *)
Definition exactly_one_active (t : FULMLogFileTracker) : Prop :=
  map_Forall (fun (_ : string) Files => active_count Files = 1%nat)
             (ChannelFiles t).

Lemma active_count_cons f Files :
  active_count (f :: Files)
  = ((if bIsActive f then 1 else 0) + active_count Files)%nat.
Proof. unfold active_count. simpl. by destruct (bIsActive f). Qed.

Lemma active_count_app Files1 Files2 :
  active_count (Files1 ++ Files2)
  = (active_count Files1 + active_count Files2)%nat.
Proof.
  unfold active_count. by rewrite List.filter_app, length_app.
Qed.

(** An update that keeps the flag keeps the count. *)
Lemma active_count_update_first p g Files :
  (forall f, bIsActive (g f) = bIsActive f) ->
  active_count (update_first p g Files) = active_count Files.
Proof.
  intros Hg. induction Files as [|f Files IH]; simpl; [done|].
  destruct (p f).
  - by rewrite !active_count_cons, Hg.
  - by rewrite !active_count_cons, IH.
Qed.

Lemma active_count_deactivated Files :
  active_count (map (set_active false) Files) = 0%nat.
Proof. induction Files as [|f Files IH]; simpl; [done|].
       by rewrite active_count_cons, IH. Qed.

(** Activating the first match among inactive files activates one file
    if there is a match, and none otherwise. *)
Lemma active_count_activate_first p Files :
  active_count Files = 0%nat ->
  active_count (update_first p (set_active true) Files)
  = if existsb p Files then 1%nat else 0%nat.
Proof.
  induction Files as [|f Files IH]; simpl; [done|].
  rewrite active_count_cons. intros H0.
  destruct (bIsActive f) eqn:Ef; [lia|]. simpl in H0.
  destruct (p f); simpl.
  - rewrite active_count_cons. simpl. lia.
  - rewrite active_count_cons, Ef, IH by done. done.
Qed.

Lemma active_count_filter q Files :
  (active_count (List.filter q Files) <= active_count Files)%nat.
Proof.
  induction Files as [|f Files IH]; simpl; [done|].
  destruct (q f); rewrite ?active_count_cons; lia.
Qed.

Lemma RegisterFile_at_most_one ch path date idx t :
  at_most_one_active t -> at_most_one_active (RegisterFile ch path date idx t).
Proof.
  intros Hinv k Files. unfold RegisterFile. simpl.
  assert (active_count (default [] (ChannelFiles t !! FKey ch)) <= 1)%nat
    as Hold.
  { destruct (ChannelFiles t !! FKey ch) as [l|] eqn:E; simpl.
    - exact (Hinv _ _ E).
    - unfold active_count. simpl. lia. }
  destruct (decide (FKey ch = k)) as [<-|Hne].
  - rewrite lookup_insert_eq. intros [= <-].
    destruct (existsb _ _).
    + by rewrite active_count_update_first.
    + rewrite active_count_app. unfold active_count at 2. simpl. lia.
  - rewrite lookup_insert_ne by done. apply Hinv.
Qed.

Lemma UpdateFileSize_at_most_one ch size t :
  at_most_one_active t -> at_most_one_active (UpdateFileSize ch size t).
Proof.
  intros Hinv. unfold UpdateFileSize.
  destruct (ChannelFiles t !! FKey ch) as [l|] eqn:E; [|done].
  intros k Files. simpl.
  destruct (decide (FKey ch = k)) as [<-|Hne].
  - rewrite lookup_insert_eq. intros [= <-].
    rewrite active_count_update_first by done. exact (Hinv _ _ E).
  - rewrite lookup_insert_ne by done. apply Hinv.
Qed.

(** [SetFileActive] needs no invariant: it deactivates every file first. *)
Lemma SetFileActive_at_most_one ch path t :
  at_most_one_active t -> at_most_one_active (SetFileActive ch path t).
Proof.
  intros Hinv. unfold SetFileActive.
  destruct (ChannelFiles t !! FKey ch) as [l|] eqn:E; [|done].
  intros k Files. simpl.
  destruct (decide (FKey ch = k)) as [<-|Hne].
  - rewrite lookup_insert_eq. intros [= <-].
    rewrite active_count_activate_first by apply active_count_deactivated.
    destruct (existsb _ _); lia.
  - rewrite lookup_insert_ne by done. apply Hinv.
Qed.

Lemma RemoveFile_at_most_one path t :
  at_most_one_active t -> at_most_one_active (RemoveFile path t).
Proof.
  intros Hinv k Files. unfold RemoveFile. simpl.
  rewrite lookup_fmap.
  destruct (ChannelFiles t !! k) as [l|] eqn:E; simpl; [|done].
  intros [= <-]. pose proof (Hinv _ _ E) as Hl. simpl in Hl.
  pose proof (active_count_filter
                (fun f => negb (FString_eq (FilePath f) path)) l). lia.
Qed.

Lemma Clear_at_most_one t : at_most_one_active (Clear t).
Proof. intros k Files. unfold Clear. simpl. by rewrite lookup_empty. Qed.

(** After [SetFileActive] on a path that is registered for the channel,
    exactly one file of the channel is active. *)
Lemma SetFileActive_exactly_one ch path t Files :
  ChannelFiles t !! FKey ch = Some Files ->
  existsb (fun f => FString_eq (FilePath f) path) Files = true ->
  exists Files',
    ChannelFiles (SetFileActive ch path t) !! FKey ch = Some Files'
    /\ active_count Files' = 1%nat.
Proof.
  intros E Hex. unfold SetFileActive. rewrite E. simpl.
  rewrite lookup_insert_eq. eexists. split; [done|].
  rewrite active_count_activate_first by apply active_count_deactivated.
  assert (existsb (fun f => FString_eq (FilePath f) path)
                  (map (set_active false) Files) = true) as ->; [|done].
  clear E. induction Files as [|f Files IH]; simpl in *; [done|].
  destruct (FString_eq (FilePath f) path); [done|]. by apply IH.
Qed.

End ActiveFiles.

(** The public operations of the tracker, and those of the rotator that
    owns it. *)
Inductive RotatorOp :=
| OpRegisterFile (ch path : string) (date : FDateTime) (idx : Z)
| OpUpdateFileSize (ch : string) (size : Z)
| OpSetFileActive (ch path : string)
| OpRemoveFile (path : string)
| OpClear
| OpSetRotationConfig (cfg : FULMRotationConfig)
| OpRotateFile (ch current : string) (now : FDateTime)
| OpRegisterNewFile (ch path : string) (now : FDateTime).

Definition run_op (r : FULMLogRotator) (op : RotatorOp) : FULMLogRotator :=
  match op with
  | OpRegisterFile ch path date idx =>
      with_file_tracker (RegisterFile ch path date idx (FileTracker r)) r
  | OpUpdateFileSize ch size =>
      with_file_tracker (UpdateFileSize ch size (FileTracker r)) r
  | OpSetFileActive ch path =>
      with_file_tracker (SetFileActive ch path (FileTracker r)) r
  | OpRemoveFile path => with_file_tracker (RemoveFile path (FileTracker r)) r
  | OpClear => with_file_tracker (Clear (FileTracker r)) r
  | OpSetRotationConfig cfg => SetRotationConfig cfg r
  | OpRotateFile ch current now => fst (RotateFile ch current now r)
  | OpRegisterNewFile ch path now => RegisterNewFile ch path now r
  end.

Definition run_ops (ops : list RotatorOp) : FULMLogRotator :=
  fold_left run_op ops FULMLogRotator_new.

Lemma run_op_at_most_one (r : FULMLogRotator) (op : RotatorOp) :
  at_most_one_active (FileTracker r) ->
  at_most_one_active (FileTracker (run_op r op)).
Proof.
  intros Hinv. destruct op; simpl.
  - by apply RegisterFile_at_most_one.
  - by apply UpdateFileSize_at_most_one.
  - by apply SetFileActive_at_most_one.
  - by apply RemoveFile_at_most_one.
  - apply Clear_at_most_one.
  - done.
  - unfold RotateFile. destruct (negb _); simpl; [done|].
    destruct (ParseLogFileName _) as [[[? ?] ?]|].
    + by apply SetFileActive_at_most_one, RegisterFile_at_most_one,
           SetFileActive_at_most_one.
    + by apply SetFileActive_at_most_one.
  - unfold RegisterNewFile.
    destruct (ParseLogFileName _) as [[[? ?] ?]|]; simpl; [|done].
    by apply SetFileActive_at_most_one, RegisterFile_at_most_one.
Qed.

(** C9, as amended: at every point reachable through the public
    operations of the tracker and of the rotator, at most one of the
    tracked files of each channel is marked active; and a call of
    [SetFileActive] with a path registered for the channel leaves exactly
    one. *)
Theorem tracker_at_most_one_active (ops : list RotatorOp) :
  at_most_one_active (FileTracker (run_ops ops))
  /\ forall (t : FULMLogFileTracker) (ch path : string)
            (Files : list FULMLogFileInfo),
       ChannelFiles t !! FKey ch = Some Files ->
       existsb (fun f => FString_eq (FilePath f) path) Files = true ->
       exists Files',
         ChannelFiles (SetFileActive ch path t) !! FKey ch = Some Files'
         /\ active_count Files' = 1%nat.
Proof.
  split; [|intros t ch path Files; apply SetFileActive_exactly_one].
  unfold run_ops.
  assert (at_most_one_active (FileTracker FULMLogRotator_new)) as H0.
  { intros k Files. simpl. by rewrite lookup_empty. }
  revert H0. generalize FULMLogRotator_new.
  induction ops as [|op ops IH]; intros r Hr; simpl; [done|].
  by apply IH, run_op_at_most_one.
Qed.

Definition a_day : FDateTime := mkDateTime 2026 10 30 0.
Definition a_log_path : string :=
  "Saved/Logs/ULM/ULM_Gameplay_20261030_001.json".

(** The theorem after a registration, an activation, a rotation and the
    removal of the rotated file. *)
Lemma tracker_at_most_one_active_witness :
  at_most_one_active
    (FileTracker
       (run_ops [OpRegisterFile "Gameplay" a_log_path a_day 1;
                 OpSetFileActive "Gameplay" a_log_path;
                 OpRotateFile "Gameplay" a_log_path a_day;
                 OpRemoveFile a_log_path])).
Proof.
  exact (proj1 (tracker_at_most_one_active
                  [OpRegisterFile "Gameplay" a_log_path a_day 1;
                   OpSetFileActive "Gameplay" a_log_path;
                   OpRotateFile "Gameplay" a_log_path a_day;
                   OpRemoveFile a_log_path])).
Defined.

(** C9 as stated fails after a registration: [RegisterFile] builds the
    file with [bIsActive = false], so the channel is known to the tracker
    and none of its files is active. *)
Lemma tracker_registered_file_is_inactive :
  ChannelFiles
    (FileTracker (run_ops [OpRegisterFile "Gameplay" a_log_path a_day 1]))
    !! FKey "Gameplay"
  = Some [FULMLogFileInfo_make a_log_path "Gameplay" a_day 1]
  /\ ~ exactly_one_active
       (FileTracker (run_ops [OpRegisterFile "Gameplay" a_log_path a_day 1])).
Proof.
  split; [reflexivity|].
  intros H.
  specialize (H (FKey "Gameplay")
                [FULMLogFileInfo_make a_log_path "Gameplay" a_day 1]
                eq_refl).
  vm_compute in H. discriminate.
Qed.

(** ** Rotation *)
Section Rotation.

Lemma FString_eq_refl (a : string) : FString_eq a a = true.
Proof. unfold FString_eq. apply String.eqb_refl. Qed.

(** The files of a channel, none for an unknown channel. *)
Definition FilesOf (ch : string) (t : FULMLogFileTracker)
  : list FULMLogFileInfo :=
  default [] (ChannelFiles t !! FKey ch).

(** A file created on the day of [Now]. *)
Definition created_on (Now : FDateTime) (f : FULMLogFileInfo) : bool :=
  FString_eq (ToString_Ymd (CreationDate f)) (ToString_Ymd Now).

(** The highest index registered for that day, 0 when there is none. *)
Definition highest_index (Now : FDateTime) (Files : list FULMLogFileInfo) : Z :=
  fold_right Z.max 0 (map FileIndex (List.filter (created_on Now) Files)).

Lemma highest_index_nonneg Now Files : 0 <= highest_index Now Files.
Proof.
  unfold highest_index.
  induction (List.filter (created_on Now) Files) as [|f l IH]; simpl; lia.
Qed.

(** The loop of [GenerateRotatedFilePath] computes one more than the
    highest index of the day. *)
Lemma NextIndex_loop Now Files :
  Forall (fun f => FileIndex f < 2^31 - 1) Files ->
  forall acc, 1 <= acc ->
    fold_left
      (fun NextIndex File =>
         if FString_eq (ToString_Ymd (CreationDate File)) (ToString_Ymd Now)
            && (NextIndex <=? FileIndex File)
         then wrap32 (FileIndex File + 1) else NextIndex)
      Files acc
    = Z.max acc (1 + highest_index Now Files).
Proof.
  induction 1 as [|f l Hf _ IH]; intros acc Hacc; simpl.
  - unfold highest_index. simpl. lia.
  - unfold highest_index. simpl. fold (created_on Now f).
    destruct (created_on Now f) eqn:Ed; simpl.
    + fold (highest_index Now l).
      destruct (acc <=? FileIndex f) eqn:El.
      * apply Z.leb_le in El. rewrite wrap32_small by lia.
        rewrite IH by lia. lia.
      * apply Z.leb_gt in El. rewrite IH by lia. lia.
    + fold (highest_index Now l). by apply IH.
Qed.

Lemma NextIndex_spec ch Now t :
  Forall (fun f => FileIndex f < 2^31 - 1) (FilesOf ch t) ->
  NextIndex ch Now t = 1 + highest_index Now (FilesOf ch t).
Proof.
  intros H. unfold NextIndex. fold (FilesOf ch t).
  rewrite (NextIndex_loop Now _ H) by lia.
  pose proof (highest_index_nonneg Now (FilesOf ch t)). lia.
Qed.

(** [update_first] and [find]. *)
Lemma find_update_first {X : Type} (p : X -> bool) (g : X -> X) (l : list X) :
  (forall x, p (g x) = p x) ->
  List.find p (update_first p g l) = g <$> List.find p l.
Proof.
  intros Hg. induction l as [|x l IH]; simpl; [done|].
  destruct (p x) eqn:E; simpl.
  - by rewrite Hg, E.
  - by rewrite E.
Qed.

Lemma find_existsb {X : Type} (p : X -> bool) (l : list X) :
  existsb p l = true -> exists x, List.find p l = Some x /\ p x = true.
Proof.
  induction l as [|x l IH]; simpl; [done|].
  destruct (p x) eqn:E; simpl; eauto.
Qed.

Lemma find_app_new {X : Type} (p : X -> bool) (l : list X) (x : X) :
  existsb p l = false -> p x = true -> List.find p (l ++ [x]) = Some x.
Proof.
  induction l as [|y l IH]; simpl; intros Hl Hx.
  - by rewrite Hx.
  - apply orb_false_iff in Hl as [-> Hl]. by apply IH.
Qed.

(** The two loops of [SetFileActive] on a list of files. *)
Definition activate (path : string) (Files : list FULMLogFileInfo)
  : list FULMLogFileInfo :=
  update_first (fun f => FString_eq (FilePath f) path) (set_active true)
               (map (set_active false) Files).

Lemma activate_find path Files :
  List.find bIsActive (activate path Files)
  = (fun f => set_active true (set_active false f))
      <$> List.find (fun f => FString_eq (FilePath f) path) Files.
Proof.
  unfold activate. induction Files as [|f l IH]; simpl; [done|].
  destruct (FString_eq (FilePath f) path) eqn:E; simpl; [done|].
  exact IH.
Qed.

Lemma activate_only path Files f :
  In f (activate path Files) -> bIsActive f = true ->
  FString_eq (FilePath f) path = true.
Proof.
  unfold activate. induction Files as [|x l IH]; simpl; [done|].
  destruct (FString_eq (FilePath x) path) eqn:E; simpl.
  - intros [<- | Hin] Hact; [done|].
    apply in_map_iff in Hin as (y & <- & _). discriminate.
  - intros [<- | Hin] Hact; [discriminate | by apply IH].
Qed.

Lemma activate_count path Files :
  existsb (fun f => FString_eq (FilePath f) path) Files = true ->
  active_count (activate path Files) = 1%nat.
Proof.
  intros Hex. unfold activate.
  rewrite active_count_activate_first by apply active_count_deactivated.
  assert (existsb (fun f => FString_eq (FilePath f) path)
                  (map (set_active false) Files) = true) as ->; [|done].
  induction Files as [|f l IH]; simpl in *; [done|].
  destruct (FString_eq (FilePath f) path); [done | by apply IH].
Qed.

(** The list that [RegisterFile] leaves for the channel holds a file of
    the registered path, and the first such file has the registered date
    and index. *)
Lemma RegisterFile_find ch path date idx t :
  exists f,
    List.find (fun f => FString_eq (FilePath f) path)
              (FilesOf ch (RegisterFile ch path date idx t)) = Some f
    /\ FString_eq (FilePath f) path = true
    /\ CreationDate f = date /\ FileIndex f = idx.
Proof.
  unfold FilesOf, RegisterFile. simpl. rewrite lookup_insert_eq. simpl.
  set (p := fun f => FString_eq (FilePath f) path).
  destruct (existsb p (default [] (ChannelFiles t !! FKey ch))) eqn:Hex.
  - destruct (find_existsb p _ Hex) as (x & Hx & Hpx).
    exists (set_date_index date idx x).
    rewrite find_update_first by done. rewrite Hx. by repeat split.
  - eexists. rewrite find_app_new; [|done|apply FString_eq_refl].
    repeat split; try done. apply FString_eq_refl.
Qed.

Lemma SetFileActive_FilesOf ch path t :
  FilesOf ch (SetFileActive ch path t)
  = if bool_decide (is_Some (ChannelFiles t !! FKey ch))
    then activate path (FilesOf ch t) else [].
Proof.
  unfold FilesOf, SetFileActive.
  destruct (ChannelFiles t !! FKey ch) as [l|] eqn:E; simpl.
  - by rewrite lookup_insert_eq.
  - by rewrite E.
Qed.

(** The test of the tracker for the rotation trigger. *)
Lemma ShouldRotateFile_spec ch MaxSize t :
  ShouldRotateFile ch MaxSize t = true
  <-> exists f, In f (FilesOf ch t) /\ bIsActive f = true
                /\ MaxSize <= FileSize f.
Proof.
  unfold ShouldRotateFile, FilesOf.
  destruct (ChannelFiles t !! FKey ch) as [l|]; simpl.
  - rewrite existsb_exists. split.
    + intros (f & Hin & Hf). apply andb_true_iff in Hf as [Ha Hs].
      apply Z.leb_le in Hs. eauto.
    + intros (f & Hin & Ha & Hs). exists f. split; [done|].
      apply andb_true_iff. split; [done | by apply Z.leb_le].
  - split; [done | by intros (f & [] & _)].
Qed.

Lemma GetActiveFile_FilesOf ch t :
  GetActiveFile ch t = List.find bIsActive (FilesOf ch t).
Proof.
  unfold GetActiveFile, FilesOf. by destruct (ChannelFiles t !! FKey ch).
Qed.

Lemma existsb_find {X : Type} (p : X -> bool) (l : list X) (x : X) :
  List.find p l = Some x -> existsb p l = true.
Proof.
  induction l as [|y l IH]; simpl; [done|].
  destruct (p y); simpl; [done | exact IH].
Qed.

(** What a rotation leaves in the tracker when the generated name parses
    back. *)
Lemma rotation_tracker ch path date idx t :
  let t' := SetFileActive ch path (RegisterFile ch path date idx t) in
  exists NewFile,
    GetActiveFile ch t' = Some NewFile
    /\ FString_eq (FilePath NewFile) path = true
    /\ FileIndex NewFile = idx
    /\ CreationDate NewFile = date
    /\ active_count (FilesOf ch t') = 1%nat
    /\ (forall f, In f (FilesOf ch t') -> bIsActive f = true ->
                  FString_eq (FilePath f) path = true).
Proof.
  cbn zeta.
  destruct (RegisterFile_find ch path date idx t) as (f1 & Hfind & Hp & Hd & Hi).
  rewrite GetActiveFile_FilesOf, SetFileActive_FilesOf.
  assert (bool_decide
            (is_Some (ChannelFiles (RegisterFile ch path date idx t) !! FKey ch))
          = true) as ->.
  { apply bool_decide_eq_true. unfold RegisterFile. simpl.
    rewrite lookup_insert_eq. eauto. }
  exists (set_active true (set_active false f1)).
  rewrite activate_find, Hfind. repeat split; try done.
  - apply activate_count. by eapply existsb_find.
  - apply activate_only.
Qed.

End Rotation.

(** ** The file names of a rotation *)


(** Every character of [s] satisfies [p]. *)
Fixpoint all_chars (p : ascii -> bool) (s : string) : bool :=
  match s with
  | EmptyString => true
  | String c r => p c && all_chars p r
  end.

Lemma all_chars_app p a b :
  all_chars p (a +:+ b) = all_chars p a && all_chars p b.
Proof.
  induction a as [|c a IH]; [done|].
  change (all_chars p (String c a +:+ b))
    with (p c && all_chars p (a +:+ b)).
  simpl. by rewrite IH, andb_assoc.
Qed.

Lemma all_chars_impl (p q : ascii -> bool) s :
  (forall c, p c = true -> q c = true) ->
  all_chars p s = true -> all_chars q s = true.
Proof.
  intros Hpq. induction s as [|c s IH]; simpl; [done|].
  intros [Hc Hs]%andb_true_iff. by rewrite (Hpq c Hc), IH.
Qed.

Lemma string_app_assoc (a b c : string) : (a +:+ b) +:+ c = a +:+ (b +:+ c).
Proof.
  induction a as [|x a IH]; [done|].
  change (String x ((a +:+ b) +:+ c) = String x (a +:+ (b +:+ c))).
  by rewrite IH.
Qed.

Lemma string_app_nil_r (a : string) : a +:+ "" = a.
Proof.
  induction a as [|x a IH]; [done|].
  change (String x (a +:+ "") = String x a). by rewrite IH.
Qed.

Lemma string_app_length (a b : string) :
  String.length (a +:+ b) = (String.length a + String.length b)%nat.
Proof.
  induction a as [|x a IH]; [done|].
  change (S (String.length (a +:+ b))
          = S (String.length a + String.length b)). by rewrite IH.
Qed.

(** *** Decimal digits *)

Lemma digit_char_spec (d : nat) :
  (d < 10)%nat ->
  is_digit (digit_char d) = true
  /\ Z.of_nat (nat_of_ascii (digit_char d) - 48) = Z.of_nat d.
Proof.
  intros Hd. do 10 (destruct d as [|d]; [by vm_compute|]). lia.
Qed.

(** [D] is a decimal numeral of [n]. *)
Definition decimal_of (D : string) (n : nat) : Prop :=
  all_chars is_digit D = true
  /\ (1 <= String.length D)%nat
  /\ (forall k : nat, (1 <= k)%nat -> (n < 10 ^ k)%nat ->
        (String.length D <= k)%nat)
  /\ (forall (rest : string) (a : Z),
        atoi_digits (D +:+ rest) a
        = atoi_digits rest (a * 10 ^ Z.of_nat (String.length D) + Z.of_nat n)).

Lemma atoi_digits_step (d : nat) (rest : string) (a : Z) :
  (d < 10)%nat ->
  atoi_digits (String (digit_char d) rest) a
  = atoi_digits rest (10 * a + Z.of_nat d).
Proof.
  intros Hd. destruct (digit_char_spec d Hd) as [Hdig Hval].
  cbn [atoi_digits]. by rewrite Hdig, Hval.
Qed.

Lemma digits_fuel_decimal (fuel : nat) :
  forall (n : nat) (acc : string),
    (n <= fuel)%nat ->
    exists D, digits_fuel (S fuel) n acc = D +:+ acc /\ decimal_of D n.
Proof.
  induction fuel as [fuel IH] using lt_wf_ind. intros n acc Hn.
  cbn [digits_fuel].
  assert (n mod 10 < 10)%nat as Hmod by (apply Nat.mod_upper_bound; lia).
  destruct (digit_char_spec (n mod 10) Hmod) as [Hdig _].
  pose proof (Nat.div_mod_eq n 10) as Hdm.
  set (d := (n mod 10)%nat) in *. set (q := (n / 10)%nat) in *.
  destruct (q =? 0)%nat eqn:E.
  - apply Nat.eqb_eq in E.
    exists (String (digit_char d) ""). split; [done|].
    split; [cbn [all_chars]; by rewrite Hdig|].
    split; [cbn [String.length]; lia|]. split.
    + intros k Hk _. cbn [String.length]. lia.
    + intros rest a.
      change (String (digit_char d) "" +:+ rest)
        with (String (digit_char d) rest).
      cbn [String.length].
      rewrite atoi_digits_step by done. f_equal.
      change (Z.of_nat 1) with 1. lia.
  - apply Nat.eqb_neq in E.
    destruct fuel as [|fuel']; [lia|].
    destruct (IH fuel' ltac:(lia) q (String (digit_char d) acc) ltac:(lia))
      as (D & HD & Hall & Hlen1 & Hlen & Hatoi).
    exists (D +:+ String (digit_char d) "").
    split; [by rewrite HD, string_app_assoc|].
    split; [rewrite all_chars_app; cbn [all_chars]; by rewrite Hall, Hdig|].
    split; [rewrite string_app_length; cbn [String.length]; lia|]. split.
    + intros k Hk Hnk. rewrite string_app_length. cbn [String.length].
      destruct k as [|k]; [lia|]. destruct k as [|k].
      { change (10 ^ 1)%nat with 10%nat in Hnk. lia. }
      assert (q < 10 ^ S k)%nat as Hq.
      { rewrite (Nat.pow_succ_r' 10 (S k)) in Hnk. lia. }
      specialize (Hlen (S k) ltac:(lia) Hq). lia.
    + intros rest a. rewrite string_app_assoc, Hatoi.
      change (String (digit_char d) "" +:+ rest)
        with (String (digit_char d) rest).
      rewrite atoi_digits_step by done. f_equal.
      rewrite string_app_length. cbn [String.length].
      rewrite Nat2Z.inj_add. change (Z.of_nat 1) with 1.
      rewrite Z.pow_add_r by lia. change (10 ^ 1) with 10.
      assert (Z.of_nat n = 10 * Z.of_nat q + Z.of_nat d) as -> by lia.
      ring.
Qed.

Lemma digits_decimal (n : nat) : decimal_of (digits n) n.
Proof.
  destruct (digits_fuel_decimal n n "" ltac:(lia)) as (D & HD & Hdec).
  unfold digits. by rewrite HD, string_app_nil_r.
Qed.

Lemma zeros_length k : String.length (zeros k) = k.
Proof. induction k as [|k IH]; simpl; [done | by rewrite IH]. Qed.

Lemma zeros_digits k : all_chars is_digit (zeros k) = true.
Proof. induction k as [|k IH]; simpl; done. Qed.

Lemma atoi_zeros k s : atoi_digits (zeros k +:+ s) 0 = atoi_digits s 0.
Proof. induction k as [|k IH]; simpl; done. Qed.

Lemma Atoi_digits_only (s : string) :
  all_chars is_digit s = true -> Atoi s = atoi_digits s 0.
Proof.
  destruct s as [|c r]; [done|]. simpl all_chars.
  intros [Hc _]%andb_true_iff. unfold Atoi.
  destruct c as [[] [] [] [] [] [] [] []]; try done.
Qed.

(** [%0wd] of a number from [0] to [10^w - 1] is [w] digits that [Atoi]
    reads back. *)
Lemma Printf_0d_spec (w : nat) (n : Z) :
  0 <= n ->
  all_chars is_digit (Printf_0d w n) = true
  /\ Atoi (Printf_0d w n) = n
  /\ ((1 <= w)%nat -> n < 10 ^ Z.of_nat w ->
      String.length (Printf_0d w n) = w).
Proof.
  intros Hn. unfold Printf_0d.
  assert ((n <? 0) = false) as -> by (apply Z.ltb_ge; lia).
  destruct (digits_decimal (Z.to_nat n)) as (Hall & Hlen1 & Hlen & Hatoi).
  set (D := digits (Z.to_nat n)) in *.
  change (zeros (w - String.length D) ++ D)%string
    with (zeros (w - String.length D) +:+ D).
  assert (all_chars is_digit (zeros (w - String.length D) +:+ D) = true)
    as Hdig by (by rewrite all_chars_app, zeros_digits, Hall).
  split; [exact Hdig|]. split.
  - rewrite Atoi_digits_only by done. rewrite atoi_zeros.
    rewrite <- (string_app_nil_r D), Hatoi. simpl. lia.
  - intros Hw Hn'. rewrite string_app_length, zeros_length.
    assert (String.length D <= w)%nat; [|lia].
    apply Hlen; [done|].
    apply Nat2Z.inj_lt. rewrite Z2Nat.id by lia.
    rewrite Nat2Z.inj_pow. exact Hn'.
Qed.

(** *** Paths *)

Lemma after_last_none (p : ascii -> bool) (s : string) :
  all_chars (fun c => negb (p c)) s = true -> after_last p s = None.
Proof.
  induction s as [|c s IH]; [done|]. cbn [all_chars after_last].
  intros [Hc Hs]%andb_true_iff. rewrite (IH Hs).
  by destruct (p c).
Qed.

Lemma before_last_none (p : ascii -> bool) (s : string) :
  all_chars (fun c => negb (p c)) s = true -> before_last p s = None.
Proof.
  induction s as [|c s IH]; [done|]. cbn [all_chars before_last].
  intros [Hc Hs]%andb_true_iff. rewrite (IH Hs).
  by destruct (p c).
Qed.

Lemma after_last_app (p : ascii -> bool) (a : string) (c : ascii)
    (b : string) :
  p c = true -> all_chars (fun c => negb (p c)) b = true ->
  after_last p (a +:+ String c b) = Some b.
Proof.
  intros Hc Hb. induction a as [|x a IH].
  - change ("" +:+ String c b) with (String c b). cbn [after_last].
    by rewrite (after_last_none p b Hb), Hc.
  - change (String x a +:+ String c b) with (String x (a +:+ String c b)).
    cbn [after_last]. by rewrite IH.
Qed.

Lemma before_last_app (p : ascii -> bool) (a : string) (c : ascii)
    (b : string) :
  p c = true -> all_chars (fun c => negb (p c)) b = true ->
  before_last p (a +:+ String c b) = Some a.
Proof.
  intros Hc Hb. induction a as [|x a IH].
  - change ("" +:+ String c b) with (String c b). cbn [before_last].
    by rewrite (before_last_none p b Hb), Hc.
  - change (String x a +:+ String c b) with (String x (a +:+ String c b)).
    cbn [before_last]. by rewrite IH.
Qed.

Lemma string_of_list_ascii_app (l1 l2 : list ascii) :
  string_of_list_ascii (l1 ++ l2)
  = string_of_list_ascii l1 +:+ string_of_list_ascii l2.
Proof.
  induction l1 as [|x l1 IH]; [done|].
  change (String x (string_of_list_ascii (l1 ++ l2))
          = String x (string_of_list_ascii l1 +:+ string_of_list_ascii l2)).
  by rewrite IH.
Qed.

Lemma last_char_spec (a : string) :
  match last_char a with
  | Some c => exists a0, a = a0 +:+ String c ""
  | None => a = EmptyString
  end.
Proof.
  unfold last_char.
  destruct (rev (list_ascii_of_string a)) as [|c r] eqn:E.
  - apply (f_equal (@rev ascii)) in E. rewrite rev_involutive in E.
    simpl in E. apply (f_equal string_of_list_ascii) in E.
    by rewrite string_of_list_ascii_of_string in E.
  - apply (f_equal (@rev ascii)) in E. rewrite rev_involutive in E.
    apply (f_equal string_of_list_ascii) in E.
    rewrite string_of_list_ascii_of_string in E.
    exists (string_of_list_ascii (rev r)). rewrite E.
    change (rev (c :: r)) with (rev r ++ [c]).
    by rewrite string_of_list_ascii_app.
Qed.

(** A file name without a slash is what [GetCleanFilename] finds at the
    end of a path that [operator/] built from it. *)
Lemma GetCleanFilename_PathAppend (base F : string) :
  IsEmpty F = false ->
  all_chars (fun c => negb (is_slash c)) F = true ->
  GetCleanFilename (PathAppend base F) = F.
Proof.
  intros Hne Hns. destruct F as [|d F']; [done|].
  assert (Ascii.eqb d "/" = false) as Hd.
  { cbn [all_chars] in Hns. apply andb_true_iff in Hns as [Hd _].
    unfold is_slash in Hd. by destruct (Ascii.eqb d "/"). }
  unfold GetCleanFilename, PathAppend.
  pose proof (last_char_spec base) as Hl.
  destruct (last_char base) as [c|].
  - destruct Hl as [a0 ->]. rewrite Hd, andb_true_r.
    destruct (is_slash c) eqn:Ec; cbn [negb].
    + rewrite string_app_assoc.
      change (String c "" +:+ String d F') with (String c (String d F')).
      by rewrite (after_last_app is_slash a0 c (String d F') Ec Hns).
    + change ((a0 +:+ String c "") ++ String "/" (String d F'))%string
        with ((a0 +:+ String c "") +:+ String "/" (String d F')).
      by rewrite (after_last_app is_slash _ "/" (String d F') eq_refl Hns).
  - by rewrite (after_last_none is_slash _ Hns).
Qed.

(** *** Splitting at a delimiter *)

Lemma split_on_last (d : ascii) (s cur : string) :
  all_chars (fun c => negb (Ascii.eqb c d)) s = true ->
  split_on d s cur = if IsEmpty (cur +:+ s) then [] else [cur +:+ s].
Proof.
  revert cur. induction s as [|c s IH]; intros cur Hs.
  - cbn [split_on]. by rewrite string_app_nil_r.
  - cbn [all_chars] in Hs. apply andb_true_iff in Hs as [Hc Hs].
    cbn [split_on]. destruct (Ascii.eqb c d); [done|].
    rewrite (IH _ Hs), string_app_assoc. done.
Qed.

Lemma split_on_part (d : ascii) (s rest cur : string) :
  all_chars (fun c => negb (Ascii.eqb c d)) s = true ->
  split_on d (s +:+ String d rest) cur
  = (if IsEmpty (cur +:+ s) then [] else [cur +:+ s])
    ++ split_on d rest EmptyString.
Proof.
  revert cur. induction s as [|c s IH]; intros cur Hs.
  - change ("" +:+ String d rest) with (String d rest).
    cbn [split_on]. by rewrite Ascii.eqb_refl, string_app_nil_r.
  - cbn [all_chars] in Hs. apply andb_true_iff in Hs as [Hc Hs].
    change (String c s +:+ String d rest)
      with (String c (s +:+ String d rest)).
    cbn [split_on]. destruct (Ascii.eqb c d); [done|].
    rewrite (IH _ Hs), string_app_assoc. done.
Qed.

(** *** Substrings *)

Lemma substring_prefix (a b : string) :
  substring 0 (String.length a) (a +:+ b) = a.
Proof.
  induction a as [|x a IH]; [by destruct b|].
  change (String x (substring 0 (String.length a) (a +:+ b)) = String x a).
  by rewrite IH.
Qed.

Lemma substring_skip (a b : string) (i k : nat) :
  substring (String.length a + i) k (a +:+ b) = substring i k b.
Proof. induction a as [|x a IH]; [done | exact IH]. Qed.

Lemma substring_all (b : string) : substring 0 (String.length b) b = b.
Proof.
  rewrite <- (string_app_nil_r b) at 2. apply substring_prefix.
Qed.

Lemma is_digit_plain (c : ascii) :
  is_digit c = true ->
  Ascii.eqb c "_" = false /\ is_slash c = false /\ Ascii.eqb c "." = false.
Proof. destruct c as [[] [] [] [] [] [] [] []]; done. Qed.

Lemma digits_no (p : ascii -> bool) (s : string) :
  (forall c, is_digit c = true -> p c = false) ->
  all_chars is_digit s = true -> all_chars (fun c => negb (p c)) s = true.
Proof.
  intros Hp. apply all_chars_impl. intros c Hc. by rewrite (Hp c Hc).
Qed.

(** *** The name of a rotated file *)

(** A channel name that can stand in a file name between two underscores:
    not empty, without underscore and without slash. *)
Definition plain_name (ch : string) : bool :=
  negb (IsEmpty ch)
  && all_chars (fun c => negb (Ascii.eqb c "_") && negb (is_slash c)) ch.

(** A calendar date, as [FDateTime] holds. *)
Definition valid_date (d : FDateTime) : Prop :=
  1 <= Year d <= 9999 /\ 1 <= Month d <= 12 /\ 1 <= Day d <= 31.

(** [ULM_<channel>_<YYYYMMDD>_<index>.json]. *)
Definition RotatedFileName (ch : string) (Now : FDateTime) (idx : Z)
  : string :=
  ("ULM_" ++ ch ++ "_" ++ ToString_Ymd Now ++ "_"
   ++ Printf_0d 3 idx ++ ".json")%string.

Lemma RotatedFileName_no_slash (ch : string) (Now : FDateTime) (idx : Z) :
  plain_name ch = true -> valid_date Now -> 0 <= idx ->
  IsEmpty (RotatedFileName ch Now idx) = false
  /\ all_chars (fun c => negb (is_slash c)) (RotatedFileName ch Now idx)
     = true.
Proof.
  intros [_ Hch]%andb_true_iff (HY & HM & HD) Hidx. split; [done|].
  unfold RotatedFileName, ToString_Ymd.
  destruct (Printf_0d_spec 4 (Year Now)) as (HYd & _); [lia|].
  destruct (Printf_0d_spec 2 (Month Now)) as (HMd & _); [lia|].
  destruct (Printf_0d_spec 2 (Day Now)) as (HDd & _); [lia|].
  destruct (Printf_0d_spec 3 idx) as (HId & _); [lia|].
  pose proof (fun s => digits_no is_slash s
                         (fun c H => proj1 (proj2 (is_digit_plain c H))))
    as Hns.
  apply Hns in HYd, HMd, HDd, HId.
  assert (all_chars (fun c => negb (is_slash c)) ch = true) as Hch'.
  { revert Hch. apply all_chars_impl. intros c H.
    by apply andb_true_iff in H as [_ ->]. }
  set (Ys := Printf_0d 4 (Year Now)) in *.
  set (Ms := Printf_0d 2 (Month Now)) in *.
  set (Ds := Printf_0d 2 (Day Now)) in *.
  set (Is := Printf_0d 3 idx) in *.
  clearbody Ys Ms Ds Is.
  change (all_chars (fun c => negb (is_slash c))
            ("ULM_" +:+ ch +:+ "_" +:+ (Ys +:+ Ms +:+ Ds) +:+ "_"
             +:+ Is +:+ ".json") = true).
  rewrite !all_chars_app, Hch', HYd, HMd, HDd, HId. done.
Qed.

Lemma ParseLogFileName_RotatedFileName (ch : string) (Now : FDateTime)
    (idx : Z) :
  plain_name ch = true -> valid_date Now -> 0 <= idx ->
  ParseLogFileName (RotatedFileName ch Now idx)
  = Some (ch, (Year Now, Month Now, Day Now), idx).
Proof.
  intros [Hne Hch]%andb_true_iff (HY & HM & HD) Hidx.
  apply negb_true_iff in Hne.
  unfold RotatedFileName, ToString_Ymd.
  destruct (Printf_0d_spec 4 (Year Now)) as (HYd & HYa & HYl); [lia|].
  destruct (Printf_0d_spec 2 (Month Now)) as (HMd & HMa & HMl); [lia|].
  destruct (Printf_0d_spec 2 (Day Now)) as (HDd & HDa & HDl); [lia|].
  destruct (Printf_0d_spec 3 idx) as (HId & HIa & _); [lia|].
  specialize (HYl ltac:(lia) ltac:(simpl; lia)).
  specialize (HMl ltac:(lia) ltac:(simpl; lia)).
  specialize (HDl ltac:(lia) ltac:(simpl; lia)).
  set (Ys := Printf_0d 4 (Year Now)) in *.
  set (Ms := Printf_0d 2 (Month Now)) in *.
  set (Ds := Printf_0d 2 (Day Now)) in *.
  set (Is := Printf_0d 3 idx) in *.
  clearbody Ys Ms Ds Is.
  pose proof (fun s => digits_no (fun c => Ascii.eqb c "_") s
                         (fun c H => proj1 (is_digit_plain c H))) as Hnu.
  pose proof (fun s => digits_no is_slash s
                         (fun c H => proj1 (proj2 (is_digit_plain c H))))
    as Hns.
  pose proof (fun s => digits_no (fun c => Ascii.eqb c ".") s
                         (fun c H => proj2 (proj2 (is_digit_plain c H))))
    as Hnd.
  assert (all_chars (fun c => negb (Ascii.eqb c "_")) ch = true) as Hch'.
  { revert Hch. apply all_chars_impl. intros c H.
    by apply andb_true_iff in H as [-> _]. }
  set (date := Ys +:+ Ms +:+ Ds).
  assert (all_chars (fun c => negb (Ascii.eqb c "_")) date = true) as Hdate.
  { unfold date. by rewrite !all_chars_app, !Hnu. }
  assert (String.length date = 8%nat) as Hlen.
  { unfold date. rewrite !string_app_length. lia. }
  set (last := Is +:+ ".json").
  assert (all_chars (fun c => negb (Ascii.eqb c "_")) last = true) as Hlast.
  { unfold last. by rewrite all_chars_app, Hnu. }
  assert (IsEmpty last = false) as Hlastne.
  { unfold last. by destruct Is. }
  assert (IsEmpty date = false) as Hdatene.
  { destruct date; [done | done]. }
  unfold ParseLogFileName, ParseIntoArray.
  change (split_on "_" _ "")
    with (split_on "_"
            ("ULM" +:+ String "_"
               (ch +:+ String "_" (date +:+ String "_" last))) "").
  rewrite split_on_part by done.
  rewrite split_on_part by done.
  rewrite split_on_part by done.
  rewrite split_on_last by done.
  change ("" +:+ "ULM") with "ULM". change ("" +:+ ch) with ch.
  change ("" +:+ date) with date. change ("" +:+ last) with last.
  rewrite Hne, Hdatene, Hlastne.
  change (IsEmpty "ULM") with false. cbn [app].
  change (FString_eq "ULM" "ULM") with true. cbn [negb].
  rewrite Hlen. change (8 =? 8)%nat with true. cbn [negb].
  assert (substring 0 4 date = Ys) as ->.
  { unfold date. rewrite <- HYl at 1. apply substring_prefix. }
  assert (substring 4 2 date = Ms) as ->.
  { unfold date. rewrite <- HYl at 1.
    rewrite <- (Nat.add_0_r (String.length Ys)), substring_skip.
    rewrite <- HMl at 1. apply substring_prefix. }
  assert (substring 6 2 date = Ds) as ->.
  { unfold date. change 6%nat with (4 + 2)%nat. rewrite <- HYl at 1.
    rewrite substring_skip. rewrite <- HMl at 1.
    rewrite <- (Nat.add_0_r (String.length Ms)), substring_skip.
    rewrite <- HDl at 1. apply substring_all. }
  assert (GetBaseFilename last = Is) as ->.
  { unfold GetBaseFilename, GetCleanFilename.
    assert (all_chars (fun c => negb (is_slash c)) last = true) as Hl.
    { unfold last. by rewrite all_chars_app, Hns. }
    rewrite (after_last_none is_slash last Hl). cbn [default].
    unfold last.
    by rewrite (before_last_app (fun c => Ascii.eqb c ".") Is "." "json"). }
  by rewrite HYa, HMa, HDa, HIa.
Qed.

(** The file name that [GenerateRotatedFilePath] builds is read back by
    [ParseLogFileName] with the index of the tracker. *)
Lemma GenerateRotatedFilePath_parses (ch base : string) (Now : FDateTime)
    (t : FULMLogFileTracker) :
  plain_name ch = true -> valid_date Now -> 0 <= NextIndex ch Now t ->
  ParseLogFileName
    (GetCleanFilename (GenerateRotatedFilePath ch base Now t))
  = Some (ch, (Year Now, Month Now, Day Now), NextIndex ch Now t).
Proof.
  intros Hch Hdate Hidx. unfold GenerateRotatedFilePath.
  fold (RotatedFileName ch Now (NextIndex ch Now t)).
  destruct (RotatedFileName_no_slash ch Now (NextIndex ch Now t))
    as [Hne Hns]; [done | done | done |].
  rewrite (GetCleanFilename_PathAppend base _ Hne Hns).
  by apply ParseLogFileName_RotatedFileName.
Qed.

(** C8, as amended: for a channel whose name is not empty and has no
    underscore and no slash, on a calendar date, with a valid rotation
    configuration (maximum size and retention days positive) and with the
    indices of the registered files below the largest [int32],
    [RotateFile] returns the new path
    [<base>/ULM_<channel>_<YYYYMMDD>_<NNN>.json], whose index is one more
    than the highest index registered for the channel on that day (1 when
    there is none); it registers a file of that path, date and index,
    which is then the only active file of the channel, every other file
    being inactive; and the path lookups that follow return the path of
    that file. *)
Theorem RotateFile_activates_next_index
    (r : FULMLogRotator) (ch CurrentFilePath : string) (Now : FDateTime) :
  let Files := FilesOf ch (FileTracker r) in
  let NewFilePath :=
    GenerateRotatedFilePath ch (GetPath CurrentFilePath) Now (FileTracker r) in
  let r' := fst (RotateFile ch CurrentFilePath Now r) in
  IsValidRotationConfig r = true ->
  plain_name ch = true -> valid_date Now ->
  Forall (fun f => FileIndex f < 2^31 - 1) Files ->
  snd (RotateFile ch CurrentFilePath Now r) = NewFilePath
  /\ NewFilePath
     = PathAppend (GetPath CurrentFilePath)
         ("ULM_" ++ ch ++ "_" ++ ToString_Ymd Now ++ "_"
          ++ Printf_0d 3 (1 + highest_index Now Files) ++ ".json")
  /\ (exists NewFile,
        GetActiveFile ch (FileTracker r') = Some NewFile
        /\ FString_eq (FilePath NewFile) NewFilePath = true
        /\ FileIndex NewFile = 1 + highest_index Now Files
        /\ CreationDate NewFile = Now
        /\ active_count (FilesOf ch (FileTracker r')) = 1%nat
        /\ (forall f, In f (FilesOf ch (FileTracker r')) ->
                      bIsActive f = true ->
                      FString_eq (FilePath f) NewFilePath = true))
  /\ (forall (BaseLogPath : string) (Later : FDateTime),
        FString_eq (GetActiveFilePath ch BaseLogPath Later r') NewFilePath
        = true)
  /\ TotalRotations r' = wrap32 (TotalRotations r + 1).
Proof.
  intros Files NewFilePath r' Hvalid Hch Hdate Hidx.
  pose proof (NextIndex_spec ch Now (FileTracker r) Hidx) as Hnext.
  pose proof (highest_index_nonneg Now (FilesOf ch (FileTracker r))) as Hhigh.
  pose proof (GenerateRotatedFilePath_parses ch (GetPath CurrentFilePath) Now
                (FileTracker r) Hch Hdate ltac:(lia)) as Hparse.
  fold NewFilePath in Hparse.
  assert (RotateFile ch CurrentFilePath Now r
          = (mkRotator (Config r)
               (SetFileActive ch NewFilePath
                  (RegisterFile ch NewFilePath Now
                     (NextIndex ch Now (FileTracker r))
                     (SetFileActive ch "" (FileTracker r))))
               (wrap32 (TotalRotations r + 1)),
             NewFilePath)) as Hrot.
  { unfold RotateFile. rewrite Hvalid. cbn [negb].
    fold NewFilePath. by rewrite Hparse. }
  unfold r'. rewrite Hrot. cbn [fst snd FileTracker TotalRotations].
  destruct (rotation_tracker ch NewFilePath Now
              (NextIndex ch Now (FileTracker r))
              (SetFileActive ch "" (FileTracker r)))
    as (NewFile & Hact & Hpath & Hindex & Hdate' & Hcount & Honly).
  rewrite Hnext in Hindex.
  split; [done|]. split.
  { unfold NewFilePath, GenerateRotatedFilePath. by rewrite Hnext. }
  split; [by exists NewFile|]. split; [|done].
  intros BaseLogPath Later. unfold GetActiveFilePath.
  cbn [FileTracker]. by rewrite Hact.
Qed.

(** A rotator whose tracker knows the active file of index 1 of
    ["Gameplay"], grown to the maximum size of 100 bytes. *)
Definition small_files : FULMRotationConfig :=
  mkRotationConfig 100 7 10 true true 24.

Definition rotator_with_full_file (cfg : FULMRotationConfig) : FULMLogRotator :=
  run_ops [OpSetRotationConfig cfg;
           OpRegisterNewFile "Gameplay" a_log_path a_day;
           OpUpdateFileSize "Gameplay" 100].

(** The theorem on that rotator: the rotation returns the path of index 2
    and the lookups that follow return it. *)
Lemma RotateFile_activates_next_index_witness :
  snd (RotateFile "Gameplay" a_log_path a_day
         (rotator_with_full_file small_files))
  = "Saved/Logs/ULM/ULM_Gameplay_20261030_002.json"%string
  /\ FString_eq
       (GetActiveFilePath "Gameplay" "Saved/Logs/ULM" a_day
          (fst (RotateFile "Gameplay" a_log_path a_day
                  (rotator_with_full_file small_files))))
       "Saved/Logs/ULM/ULM_Gameplay_20261030_002.json" = true.
Proof.
  destruct (RotateFile_activates_next_index
              (rotator_with_full_file small_files) "Gameplay" a_log_path a_day)
    as (Hret & _ & _ & Hlookup & _).
  - reflexivity.
  - reflexivity.
  - unfold valid_date. simpl. lia.
  - repeat constructor.
  - split; [exact Hret|].
    exact (Hlookup "Saved/Logs/ULM"%string a_day).
Defined.

(** A rotator with the configuration [small_files] whose tracker knows the
    active file of index 1 of ["My_Channel"]. *)
Definition underscore_path : string :=
  "Saved/Logs/ULM/ULM_My_Channel_20261030_001.json".

Definition rotator_with_underscore : FULMLogRotator :=
  run_ops [OpSetRotationConfig small_files;
           OpRegisterFile "My_Channel" underscore_path a_day 1;
           OpSetFileActive "My_Channel" underscore_path].

(** C8 as stated fails on three counts.  Behind the guard of [RotateFile]:
    with a retention of 0 days the configuration is not valid, and the
    rotation of a file that has reached the maximum size returns the
    current path and leaves the file active.  On the name of the channel:
    the file name generated for ["My_Channel"] does not parse back, and the
    rotation, with a valid configuration, returns the path of index 2 but
    registers no file and leaves no file active.  And on the trigger: with
    a valid configuration and the active file at the maximum size, where
    [ShouldRotateFile] holds, the path lookup still returns the file of
    index 1. *)
Lemma RotateFile_invalid_config_keeps_current_file :
  (let r := rotator_with_full_file (mkRotationConfig 100 0 10 true true 24) in
   ShouldRotateFile "Gameplay" 100 (FileTracker r) = true
   /\ RotateFile "Gameplay" a_log_path a_day r = (r, a_log_path)
   /\ GetActiveFilePath "Gameplay" "Saved/Logs/ULM" a_day
        (fst (RotateFile "Gameplay" a_log_path a_day r))
      = a_log_path)
  /\ (let r := rotator_with_underscore in
      let r' := fst (RotateFile "My_Channel" underscore_path a_day r) in
      IsValidRotationConfig r = true
      /\ (exists f, GetActiveFile "My_Channel" (FileTracker r) = Some f
                    /\ FileIndex f = 1)
      /\ snd (RotateFile "My_Channel" underscore_path a_day r)
         = "Saved/Logs/ULM/ULM_My_Channel_20261030_002.json"%string
      /\ GetActiveFile "My_Channel" (FileTracker r') = None
      /\ length (FilesOf "My_Channel" (FileTracker r')) = 1%nat)
  /\ (let r := rotator_with_full_file small_files in
      IsValidRotationConfig r = true
      /\ ShouldRotateFile "Gameplay" 100 (FileTracker r) = true
      /\ GetActiveFilePath "Gameplay" "Saved/Logs/ULM" a_day r = a_log_path).
Proof.
  cbn zeta. split; [by repeat split|]. split.
  - split; [reflexivity|]. split; [by eexists|].
    split; [reflexivity|]. split; reflexivity.
  - by repeat split.
Qed.

(** ** The arithmetic of an eviction pass *)

Lemma Qtrunc_floor (q : Q) : (0 <= q)%Q -> Qtrunc q = Qfloor q.
Proof.
  destruct q as [n d]. unfold Qle, Qtrunc, Qfloor. simpl. intros H.
  apply Z.quot_div_nonneg; lia.
Qed.

Lemma Qfloor_unique (q : Q) (k : Z) :
  (inject_Z k <= q)%Q -> (q < inject_Z k + 1)%Q -> Qfloor q = k.
Proof.
  intros H1 H2. apply Z.le_antisymm.
  - assert (Qfloor q < k + 1); [|lia].
    rewrite Zlt_Qlt, inject_Z_plus. change (inject_Z 1) with 1%Q.
    pose proof (Qfloor_le q). lra.
  - apply Qfloor_resp_le in H1. by rewrite Qfloor_Z in H1.
Qed.

Lemma inject_Z_nonneg (z : Z) : 0 <= z -> (0 <= inject_Z z)%Q.
Proof. intros H. change 0%Q with (inject_Z 0). by rewrite <- Zle_Qle. Qed.

Lemma pow2_150_small : (pow2 (-150) <= 1 # 1152921504606846976)%Q.
Proof.
  assert (pow2 (-60) == 1 # 1152921504606846976)%Q as <- by reflexivity.
  apply pow2_le. lia.
Qed.

Lemma pow2_1075_small : (pow2 (-1075) <= 1 # 1152921504606846976)%Q.
Proof.
  assert (pow2 (-60) == 1 # 1152921504606846976)%Q as <- by reflexivity.
  apply pow2_le. lia.
Qed.

(** The conversion of a [SIZE_T] to a [float] or a [double]. *)
Lemma IntToFloat_error (z : Z) :
  0 <= z ->
  (inject_Z z * (16777215 # 16777216) <= IntToFloat z)%Q
  /\ (IntToFloat z <= inject_Z z * (16777217 # 16777216))%Q.
Proof.
  intros H. unfold IntToFloat. apply RoundFloat_relative.
  destruct (decide (z = 0)) as [->|Hz]; [by left | right].
  unfold min_normal32.
  apply Qle_trans with (pow2 0); [apply pow2_le; lia|].
  change (pow2 0) with (inject_Z 1). rewrite <- Zle_Qle. lia.
Qed.

Lemma IntToFloat_nonneg (z : Z) : 0 <= z -> (0 <= IntToFloat z)%Q.
Proof. intros H. by apply RoundFloat_nonneg, inject_Z_nonneg. Qed.

Lemma IntToDouble_exact (z : Z) :
  0 <= z <= 2 ^ 53 -> (IntToDouble z == inject_Z z)%Q.
Proof. apply RoundDouble_inject_Z. Qed.

(** The safety margin is 2% of the budget, rounded down to a byte, for
    the budgets up to [2^50] bytes. *)
Lemma ReasonableBuffer_spec (Budget : Z) :
  0 <= Budget <= 2 ^ 50 -> ReasonableBuffer Budget = Budget * 2 / 100.
Proof.
  intros HB. unfold ReasonableBuffer, FloatToSize.
  set (k := Budget * 2 / 100).
  assert (0 <= k /\ 50 * k <= Budget < 50 * k + 50) as (Hk0 & Hk1 & Hk2).
  { unfold k. pose proof (Z.div_mod (Budget * 2) 100 ltac:(lia)).
    pose proof (Z.mod_pos_bound (Budget * 2) 100 ltac:(lia)).
    pose proof (Z.div_pos (Budget * 2) 100 ltac:(lia) ltac:(lia)). lia. }
  assert (RoundDouble (2 # 100) == 5764607523034235 # 288230376151711744)%Q
    as Hc by reflexivity.
  pose proof (IntToDouble_exact Budget ltac:(lia)) as Hb.
  set (Pr := (IntToDouble Budget * RoundDouble (2 # 100))%Q).
  assert (Pr == inject_Z Budget * (5764607523034235 # 288230376151711744))%Q
    as HP by (unfold Pr; by rewrite Hb, Hc).
  pose proof (inject_Z_nonneg Budget ltac:(lia)) as Hbq.
  pose proof (inject_Z_nonneg k Hk0) as Hkq.
  assert (inject_Z 50 * inject_Z k <= inject_Z Budget)%Q as Hq1
    by (rewrite <- inject_Z_mult, <- Zle_Qle; lia).
  assert (inject_Z Budget <= inject_Z 50 * inject_Z k + inject_Z 49)%Q as Hq2
    by (rewrite <- inject_Z_mult, <- inject_Z_plus, <- Zle_Qle; lia).
  assert (inject_Z Budget <= inject_Z (2 ^ 50))%Q as Hq3
    by (rewrite <- Zle_Qle; lia).
  change (inject_Z 50) with (50 # 1)%Q in Hq1, Hq2.
  change (inject_Z 49) with (49 # 1)%Q in Hq2.
  change (inject_Z (2 ^ 50)) with (1125899906842624 # 1)%Q in Hq3.
  assert (0 <= Pr)%Q as HP0 by lra.
  assert (inject_Z k <= RoundDouble Pr)%Q as Hlow.
  { apply RoundDouble_ge; [apply format64_inject_Z; lia | done |].
    lra. }
  destruct (RoundDouble_error Pr HP0) as [_ Hup].
  pose proof pow2_1075_small as Htiny.
  assert (RoundDouble Pr < inject_Z k + 1)%Q as Hhigh by lra.
  rewrite Qtrunc_floor by lra.
  rewrite (Qfloor_unique _ k Hlow Hhigh).
  apply wrapSZ_small. lia.
Qed.

(** The guard: the usage is at most the budget less 2% of it. *)
Lemma SafelyWithinBudget_spec (s : UULMSubsystem) :
  0 <= MemoryBudget (MemoryTracker s) <= 2 ^ 50 ->
  SafelyWithinBudget s = true
  <-> GetTotalMemoryUsage (MemoryTracker s)
      <= MemoryBudget (MemoryTracker s)
         - MemoryBudget (MemoryTracker s) * 2 / 100.
Proof.
  intros HB. unfold SafelyWithinBudget, GetMemoryBudget.
  rewrite ReasonableBuffer_spec by done.
  assert (0 <= MemoryBudget (MemoryTracker s) * 2 / 100
          <= MemoryBudget (MemoryTracker s)) as Hbuf.
  { split; [apply Z.div_pos; lia|].
    apply Z.div_le_upper_bound; lia. }
  rewrite wrapSZ_small by lia. apply Z.leb_le.
Qed.



(** The three target fractions: 0.5, the [float] nearest to 0.6, and
    0.75. *)
Lemma TargetPercent_cases (U B : Z) :
  (TargetPercent U B == 1 # 2)%Q
  \/ (TargetPercent U B == 5033165 # 8388608)%Q
  \/ (TargetPercent U B == 3 # 4)%Q.
Proof.
  unfold TargetPercent.
  destruct (B =? 0); [destruct (U =? 0); [by right; right | by left]|].
  destruct (Qlt_bool _ _); [by left|].
  destruct (Qlt_bool _ _); [by right; left | by right; right].
Qed.

(** Past the guard at least one byte has to be freed. *)
Lemma TargetReduction_positive (s : UULMSubsystem) :
  0 <= MemoryBudget (MemoryTracker s) <= 2 ^ 50 ->
  GetTotalMemoryUsage (MemoryTracker s) <= 2 ^ 63 ->
  SafelyWithinBudget s = false -> 1 <= TargetReduction s.
Proof.
  intros HB HU Hsafe.
  assert (~ GetTotalMemoryUsage (MemoryTracker s)
            <= MemoryBudget (MemoryTracker s)
               - MemoryBudget (MemoryTracker s) * 2 / 100) as Hover.
  { rewrite <- SafelyWithinBudget_spec by done. by rewrite Hsafe. }
  unfold TargetReduction, GetMemoryBudget, FloatToSize.
  set (U := GetTotalMemoryUsage (MemoryTracker s)) in *.
  set (B := MemoryBudget (MemoryTracker s)) in *.
  assert (100 * (B * 2 / 100) <= B * 2) as Hdiv
    by (apply Z.mul_div_le; lia).
  assert (50 * U >= 49 * B + 50) as HZ by lia.
  assert (1 <= U) as HU1 by lia.
  destruct (IntToFloat_error U ltac:(lia)) as [Ha _].
  destruct (IntToFloat_error B ltac:(lia)) as [_ Hb].
  pose proof (IntToFloat_nonneg B ltac:(lia)) as Hb0.
  pose proof (IntToFloat_nonneg U ltac:(lia)) as Ha0.
  set (a := IntToFloat U) in *. set (b := IntToFloat B) in *.
  set (tp := TargetPercent U B).
  assert (0 <= tp <= 3 # 4)%Q as [Htp0 Htp1].
  { unfold tp. destruct (TargetPercent_cases U B) as [-> | [-> | ->]];
      split; vm_compute; discriminate. }
  assert (0 <= b * tp)%Q as Hbt0 by (apply Qmult_le_0_compat; lra).
  assert (b * tp <= b * (3 # 4))%Q as Hbt.
  { rewrite !(Qmult_comm b). apply Qmult_le_compat_r; lra. }
  destruct (RoundFloat_error (b * tp) Hbt0) as [_ Hp].
  pose proof (RoundFloat_nonneg (b * tp) Hbt0) as Hp0.
  set (p := RoundFloat (b * tp)) in *.
  pose proof pow2_150_small as Htiny. pose proof (pow2_pos (-150)) as Htp.
  assert (inject_Z 50 * inject_Z U >= inject_Z 49 * inject_Z B + inject_Z 50)%Q
    as HQ.
  { rewrite <- !inject_Z_mult, <- inject_Z_plus. apply Qle_ge.
    rewrite <- Zle_Qle. lia. }
  change (inject_Z 50) with (50 # 1)%Q in HQ.
  change (inject_Z 49) with (49 # 1)%Q in HQ.
  pose proof (inject_Z_nonneg B ltac:(lia)) as HBq.
  assert (1 <= a - p)%Q as Hdiff.
  { destruct (decide (U = 1)) as [E1|E1].
    - (* one byte used, under a budget of zero *)
      assert (B = 0) as EB by lia.
      assert (a == 1)%Q as Ea
        by (unfold a; rewrite E1; apply (RoundFloat_inject_Z 1); lia).
      assert (p = 0%Q) as Ep.
      { unfold p. apply RoundTo_zero. unfold b. rewrite EB.
        change (IntToFloat 0) with 0%Q. ring. }
      rewrite Ep. lra.
    - assert (inject_Z 2 <= inject_Z U)%Q as H2
        by (rewrite <- Zle_Qle; lia).
      change (inject_Z 2) with 2%Q in H2. lra. }
  assert (a <= inject_Z (2 ^ 63))%Q as Hamax.
  { apply RoundFloat_le.
    - exists 1, 63. split; [reflexivity|]. split; [reflexivity | lia].
    - apply inject_Z_nonneg. lia.
    - rewrite <- Zle_Qle. lia. }
  assert (format32 (inject_Z (2 ^ 63))) as Hf63.
  { exists 1, 63. split; [reflexivity|]. split; [reflexivity | lia]. }
  pose proof (RoundFloat_ge 1 (a - p) (format32_inject_Z 1 ltac:(lia))
                ltac:(lra) Hdiff) as Hd1.
  pose proof (RoundFloat_le _ (a - p) Hf63 ltac:(lra) ltac:(lra)) as Hd2.
  set (d := RoundFloat (a - p)) in *.
  rewrite Qtrunc_floor by lra.
  assert (1 <= Qfloor d <= 2 ^ 63) as Hfl.
  { split.
    - assert (inject_Z 1 <= d)%Q as H
        by (change (inject_Z 1) with 1%Q; lra).
      apply Qfloor_resp_le in H. by rewrite Qfloor_Z in H.
    - apply Qfloor_resp_le in Hd2. by rewrite Qfloor_Z in Hd2. }
  rewrite wrapSZ_small by lia. lia.
Qed.

(** The overage ratio, between the bounds that the roundings of the
    usage, of the budget and of their quotient leave. *)
Lemma OverageRatio_bounds (U B : Z) (lo hi : Q) :
  0 <= U -> 0 < B ->
  (lo * inject_Z B <= inject_Z U)%Q -> (inject_Z U <= hi * inject_Z B)%Q ->
  (0 <= lo)%Q ->
  let OverageRatio := RoundFloat (IntToFloat U / IntToFloat B) in
  (lo * (16777211 # 16777216) - pow2 (-150) <= OverageRatio)%Q
  /\ (OverageRatio <= hi * (16777221 # 16777216) + pow2 (-150))%Q.
Proof.
  intros HU HB Hlo Hhi Hlo0. cbn zeta.
  destruct (IntToFloat_error U HU) as [Ha1 Ha2].
  destruct (IntToFloat_error B ltac:(lia)) as [Hb1 Hb2].
  pose proof (IntToFloat_nonneg U HU) as Ha0.
  set (a := IntToFloat U) in *. set (b := IntToFloat B) in *.
  assert (1 <= inject_Z B)%Q as HB1.
  { change 1%Q with (inject_Z 1). rewrite <- Zle_Qle. lia. }
  assert (0 < b)%Q as Hb0 by lra.
  assert (0 <= hi)%Q as Hhi0.
  { destruct (Qlt_le_dec hi 0) as [H|H]; [|done]. exfalso.
    assert (hi * inject_Z B <= 0 * inject_Z B)%Q
      by (apply Qmult_le_compat_r; lra).
    pose proof (inject_Z_nonneg U HU). 
    assert (hi * inject_Z B < 0)%Q; [|lra].
    assert (hi * inject_Z B <= hi * 1)%Q; [|lra].
    assert (hi * inject_Z B - hi * 1 == (- hi) * (1 - inject_Z B))%Q by ring.
    assert ((- hi) * (1 - inject_Z B) <= 0)%Q; [|lra].
    assert (0 <= (- hi) * (inject_Z B - 1))%Q
      by (apply Qmult_le_0_compat; lra).
    lra. }
  assert (0 <= lo * inject_Z B)%Q as HloB by (apply Qmult_le_0_compat; lra).
  assert (0 <= hi * inject_Z B)%Q as HhiB by (apply Qmult_le_0_compat; lra).
  assert (0 <= lo * b)%Q as Hlob by (apply Qmult_le_0_compat; lra).
  assert (0 <= hi * b)%Q as Hhib by (apply Qmult_le_0_compat; lra).
  assert (lo * (16777213 # 16777216) <= a / b)%Q as Hq1.
  { apply Qle_shift_div_l; [done|].
    assert (lo * (16777213 # 16777216) * b
            <= lo * (16777213 # 16777216)
               * (inject_Z B * (16777217 # 16777216)))%Q as H1.
    { rewrite !(Qmult_comm (lo * (16777213 # 16777216))).
      apply Qmult_le_compat_r; [done|].
      apply Qmult_le_0_compat; [done | vm_compute; discriminate]. }
    assert (lo * (16777213 # 16777216)
            * (inject_Z B * (16777217 # 16777216))
            == lo * inject_Z B
               * ((16777213 # 16777216) * (16777217 # 16777216)))%Q as E
      by ring.
    assert ((16777213 # 16777216) * (16777217 # 16777216)
            <= 16777215 # 16777216)%Q as Hc by (vm_compute; discriminate).
    assert (lo * inject_Z B
            * ((16777213 # 16777216) * (16777217 # 16777216))
            <= lo * inject_Z B * (16777215 # 16777216))%Q as H2.
    { rewrite !(Qmult_comm (lo * inject_Z B)).
      apply Qmult_le_compat_r; done. }
    lra. }
  assert (a / b <= hi * (16777219 # 16777216))%Q as Hq2.
  { apply Qle_shift_div_r; [done|].
    assert (hi * (16777219 # 16777216)
            * (inject_Z B * (16777215 # 16777216))
            <= hi * (16777219 # 16777216) * b)%Q as H1.
    { rewrite !(Qmult_comm (hi * (16777219 # 16777216))).
      apply Qmult_le_compat_r; [done|].
      apply Qmult_le_0_compat; [done | vm_compute; discriminate]. }
    assert (hi * (16777219 # 16777216)
            * (inject_Z B * (16777215 # 16777216))
            == hi * inject_Z B
               * ((16777219 # 16777216) * (16777215 # 16777216)))%Q as E
      by ring.
    assert (16777217 # 16777216
            <= (16777219 # 16777216) * (16777215 # 16777216))%Q as Hc
      by (vm_compute; discriminate).
    assert (hi * inject_Z B * (16777217 # 16777216)
            <= hi * inject_Z B
               * ((16777219 # 16777216) * (16777215 # 16777216)))%Q as H2.
    { rewrite !(Qmult_comm (hi * inject_Z B)).
      apply Qmult_le_compat_r; done. }
    lra. }
  assert (0 <= a / b)%Q as Hq0.
  { apply Qle_shift_div_l; [done|]. lra. }
  destruct (RoundFloat_error (a / b) Hq0) as [Hr1 Hr2].
  set (q := (a / b)%Q) in *.
  split.
  - assert (lo * (16777211 # 16777216)
            <= lo * (16777213 # 16777216) * (16777215 # 16777216))%Q.
    { assert (lo * (16777213 # 16777216) * (16777215 # 16777216)
              - lo * (16777211 # 16777216)
              == lo * ((16777213 # 16777216) * (16777215 # 16777216)
                       - (16777211 # 16777216)))%Q as E by ring.
      assert (0 <= lo * ((16777213 # 16777216) * (16777215 # 16777216)
                         - (16777211 # 16777216)))%Q
        by (apply Qmult_le_0_compat; [done | vm_compute; discriminate]).
      lra. }
    lra.
  - assert (hi * (16777219 # 16777216) * (16777217 # 16777216)
            <= hi * (16777221 # 16777216))%Q.
    { assert (hi * (16777221 # 16777216)
              - hi * (16777219 # 16777216) * (16777217 # 16777216)
              == hi * ((16777221 # 16777216)
                       - (16777219 # 16777216) * (16777217 # 16777216)))%Q
        as E by ring.
      assert (0 <= hi * ((16777221 # 16777216)
                         - (16777219 # 16777216) * (16777217 # 16777216)))%Q
        by (apply Qmult_le_0_compat; [done | vm_compute; discriminate]).
      lra. }
    lra.
Qed.



(** ** The in-memory store: trimming *)
Section Trimming.

Variable P : Platform.

(** The entries retained for a channel, none for an unknown channel. *)
Definition EntriesOf (ch : string) (s : UULMSubsystem) : list FULMLogEntry :=
  default [] (LogEntries s !! FKey ch).

(** The bytes of a list of entries, without wrap-around. *)
Definition bytes (l : list FULMLogEntry) : Z :=
  fold_right (fun e acc => CalculateLogEntrySize P e + acc) 0 l.

Lemma ToUpper_idemp (c : ascii) : ToUpper (ToUpper c) = ToUpper c.
Proof. destruct c as [[] [] [] [] [] [] [] []]; reflexivity. Qed.

Lemma FKey_idemp (s : string) : FKey (FKey s) = FKey s.
Proof.
  induction s as [|c s IH]; simpl; [done|]. by rewrite ToUpper_idemp, IH.
Qed.

Lemma CalculateLogEntrySize_range e : 0 <= CalculateLogEntrySize P e < 2^64.
Proof. apply wrapSZ_range. Qed.

Lemma bytes_nonneg l : 0 <= bytes l.
Proof.
  induction l as [|e l IH]; simpl; [lia|].
  pose proof (CalculateLogEntrySize_range e). lia.
Qed.

Lemma bytes_app l1 l2 : bytes (l1 ++ l2) = bytes l1 + bytes l2.
Proof. induction l1 as [|e l1 IH]; simpl; lia. Qed.

Lemma bytes_firstn_skipn n l : bytes (firstn n l) + bytes (skipn n l) = bytes l.
Proof. by rewrite <- bytes_app, firstn_skipn. Qed.

(** The loop of [TrimChannelForMemory] adds up the bytes as long as they
    fit in a [SIZE_T]. *)
Lemma MemoryOf_bytes l : bytes l < 2^64 -> MemoryOf P l = bytes l.
Proof.
  unfold MemoryOf.
  assert (forall acc, 0 <= acc -> acc + bytes l < 2^64 ->
            fold_left (fun m e => wrapSZ (m + CalculateLogEntrySize P e)) l acc
            = acc + bytes l) as H.
  { induction l as [|e l IH]; intros acc H0 Hb; simpl in *; [lia|].
    pose proof (CalculateLogEntrySize_range e).
    pose proof (bytes_nonneg l).
    rewrite wrapSZ_small by lia. rewrite IH by lia. lia. }
  intros Hb. rewrite H; lia.
Qed.

(** A trim of [n] entries, [1 <= n <= Num]. *)
Lemma TrimChannelForMemory_trim ch n s l :
  LogEntries s !! FKey ch = Some l ->
  1 <= n <= Z.of_nat (length l) ->
  TrimChannelForMemory P ch n s
  = with_tracker
      (RemoveMemoryUsage ch (MemoryOf P (firstn (Z.to_nat n) l))
                         (MemoryTracker s))
      (with_entries (<[FKey ch := skipn (Z.to_nat n) l]> (LogEntries s)) s).
Proof.
  intros Hl Hn. unfold TrimChannelForMemory. rewrite Hl.
  assert ((n <=? 0) = false) as -> by (apply Z.leb_gt; lia).
  assert ((Z.of_nat (length l) =? 0) = false) as -> by (apply Z.eqb_neq; lia).
  cbn [orb]. unfold FMath_MinZ.
  destruct (n <? Z.of_nat (length l)) eqn:E; [done|].
  apply Z.ltb_ge in E. by replace n with (Z.of_nat (length l)) by lia.
Qed.

(** The number of entries that one visit removes lies between 1 and the
    number of entries of the channel. *)
Lemma EntriesToRemove_range (x Num : Z) :
  1 <= Num -> 1 <= FMath_MinZ (FMath_MaxZ 1 x) Num <= Num.
Proof.
  intros H. unfold FMath_MinZ, FMath_MaxZ.
  destruct (x <? 1) eqn:E1; [apply Z.ltb_lt in E1 | apply Z.ltb_ge in E1].
  - destruct (1 <? Num) eqn:E2;
      [apply Z.ltb_lt in E2 | apply Z.ltb_ge in E2]; lia.
  - destruct (x <? Num) eqn:E2;
      [apply Z.ltb_lt in E2 | apply Z.ltb_ge in E2]; lia.
Qed.

(** What trimming never touches: the registry, the budget and the count
    of trimming events. *)
Definition same_policy (s s' : UULMSubsystem) : Prop :=
  ChannelRegistry s' = ChannelRegistry s
  /\ MemoryBudget (MemoryTracker s') = MemoryBudget (MemoryTracker s)
  /\ TrimmingEventsCounter (MemoryTracker s')
     = TrimmingEventsCounter (MemoryTracker s).

Lemma same_policy_refl s : same_policy s s.
Proof. by repeat split. Qed.

Lemma same_policy_trans s1 s2 s3 :
  same_policy s1 s2 -> same_policy s2 s3 -> same_policy s1 s3.
Proof. intros (?&?&?) (?&?&?). repeat split; congruence. Qed.

Lemma TrimChannelForMemory_same_policy ch n s :
  same_policy s (TrimChannelForMemory P ch n s).
Proof.
  unfold TrimChannelForMemory.
  destruct (LogEntries s !! FKey ch); [|apply same_policy_refl].
  destruct (_ || _); [apply same_policy_refl | by repeat split].
Qed.

Lemma TrimVisit_same_policy T x acc :
  same_policy (fst acc) (fst (TrimVisit P T x acc)).
Proof.
  unfold TrimVisit.
  destruct (LogEntries (fst acc) !! FKey (fst x)); [|apply same_policy_refl].
  destruct (0 <? _); [|apply same_policy_refl].
  apply TrimChannelForMemory_same_policy.
Qed.

Lemma TrimLoop_same_policy T l :
  forall acc, same_policy (fst acc) (fst (TrimLoop P T l acc)).
Proof.
  induction l as [|x l IH]; intros acc; simpl; [apply same_policy_refl|].
  destruct (T <=? snd acc); [apply same_policy_refl|].
  eapply same_policy_trans; [apply TrimVisit_same_policy | apply IH].
Qed.

(** Trimming removes entries from the front of a channel and nowhere
    else. *)
Definition only_oldest_removed (s s' : UULMSubsystem) : Prop :=
  forall k : string,
    exists n : nat, LogEntries s' !! k = skipn n <$> LogEntries s !! k.

Lemma only_oldest_removed_refl s : only_oldest_removed s s.
Proof.
  intros k. exists O. destruct (LogEntries s !! k); simpl; [|done].
  by rewrite skipn_O.
Qed.

Lemma only_oldest_removed_trans s1 s2 s3 :
  only_oldest_removed s1 s2 -> only_oldest_removed s2 s3 ->
  only_oldest_removed s1 s3.
Proof.
  intros H12 H23 k. destruct (H12 k) as [n Hn], (H23 k) as [m Hm].
  exists (n + m)%nat. rewrite Hm, Hn.
  destruct (LogEntries s1 !! k); simpl; [|done].
  by rewrite skipn_skipn, Nat.add_comm.
Qed.

Lemma TrimChannelForMemory_only_oldest ch n s :
  only_oldest_removed s (TrimChannelForMemory P ch n s).
Proof.
  unfold TrimChannelForMemory.
  destruct (LogEntries s !! FKey ch) as [l|] eqn:E;
    [|apply only_oldest_removed_refl].
  destruct (_ || _); [apply only_oldest_removed_refl|].
  intros k. simpl. destruct (decide (FKey ch = k)) as [<-|Hne].
  - eexists. rewrite lookup_insert_eq, E. reflexivity.
  - exists O. rewrite lookup_insert_ne by done.
    destruct (LogEntries s !! k); simpl; [|done]. by rewrite skipn_O.
Qed.

Lemma TrimVisit_only_oldest T x acc :
  only_oldest_removed (fst acc) (fst (TrimVisit P T x acc)).
Proof.
  unfold TrimVisit.
  destruct (LogEntries (fst acc) !! FKey (fst x));
    [|apply only_oldest_removed_refl].
  destruct (0 <? _); [|apply only_oldest_removed_refl].
  apply TrimChannelForMemory_only_oldest.
Qed.

Lemma TrimLoop_only_oldest T l :
  forall acc, only_oldest_removed (fst acc) (fst (TrimLoop P T l acc)).
Proof.
  induction l as [|x l IH]; intros acc; simpl;
    [apply only_oldest_removed_refl|].
  destruct (T <=? snd acc); [apply only_oldest_removed_refl|].
  eapply only_oldest_removed_trans; [apply TrimVisit_only_oldest | apply IH].
Qed.

(** *** The order of the visits *)

Lemma insert_by_usage_perm x l : Permutation (insert_by_usage x l) (x :: l).
Proof.
  induction l as [|y l IH]; simpl; [done|].
  destruct (snd y <? snd x); [done|].
  rewrite IH. apply perm_swap.
Qed.

Lemma SortByUsage_perm l : Permutation (SortByUsage l) l.
Proof.
  induction l as [|x l IH]; simpl; [done|].
  rewrite insert_by_usage_perm. by constructor.
Qed.

(** Every channel of the store is in the list of the visits. *)
Lemma ChannelUsages_key (s : UULMSubsystem) (k : string) l :
  LogEntries s !! k = Some l ->
  In k (map fst (SortByUsage (ChannelUsages s))).
Proof.
  intros Hk. apply list_elem_of_In.
  rewrite (SortByUsage_perm (ChannelUsages s)).
  unfold ChannelUsages. rewrite map_map. simpl.
  apply list_elem_of_In, in_map_iff. exists (k, l). split; [done|].
  apply list_elem_of_In, elem_of_map_to_list. done.
Qed.

(** With a byte to free, the loop trims the first channel of its list that
    has entries. *)
Lemma TrimLoop_progress T order (s : UULMSubsystem) ch l :
  1 <= T ->
  LogEntries s !! FKey ch = Some l -> l <> [] ->
  In (FKey ch) (map fst order) ->
  exists k l0 l1,
    LogEntries s !! k = Some l0
    /\ LogEntries (fst (TrimLoop P T order (s, 0))) !! k = Some l1
    /\ (length l1 < length l0)%nat.
Proof.
  intros HT Hl Hne. induction order as [|x order IH]; simpl; [done|].
  intros Hin.
  assert ((T <=? 0) = false) as -> by (apply Z.leb_gt; lia).
  unfold TrimVisit at 1. cbn [fst snd].
  destruct (LogEntries s !! FKey (fst x)) as [l0|] eqn:E0.
  - destruct (0 <? Z.of_nat (length l0)) eqn:Epos.
    + apply Z.ltb_lt in Epos.
      set (n := FMath_MinZ _ _).
      assert (1 <= n <= Z.of_nat (length l0)) as Hn
        by (apply EntriesToRemove_range; lia).
      set (acc1 := (TrimChannelForMemory P (fst x) n s, _)).
      destruct (TrimLoop_only_oldest T order acc1 (FKey (fst x))) as [m Hm].
      unfold acc1 in Hm at 2. cbn [fst] in Hm.
      rewrite (TrimChannelForMemory_trim _ _ _ _ E0 Hn) in Hm.
      cbn [LogEntries with_tracker with_entries] in Hm.
      rewrite lookup_insert_eq in Hm. simpl in Hm.
      exists (FKey (fst x)), l0, (skipn m (skipn (Z.to_nat n) l0)).
      split; [done|]. split; [exact Hm|].
      rewrite !length_skipn. lia.
    + apply IH. destruct Hin as [Hx | Hin]; [|done].
      rewrite Hx, FKey_idemp, Hl in E0. injection E0 as <-.
      apply Z.ltb_ge in Epos. destruct l; [done | simpl in Epos; lia].
  - apply IH. destruct Hin as [Hx | Hin]; [|done].
    rewrite Hx, FKey_idemp, Hl in E0. discriminate.
Qed.

(** A pass that goes past the guard records a trimming event. *)
Lemma TrimMemoryBudget_event (s : UULMSubsystem) :
  SafelyWithinBudget s = false ->
  TrimmingEventsCounter (MemoryTracker (TrimMemoryBudget P s))
  = Increment (TrimmingEventsCounter (MemoryTracker s)).
Proof.
  intros Hsafe. unfold TrimMemoryBudget. rewrite Hsafe. simpl.
  destruct (TrimLoop_same_policy (TargetReduction s)
              (SortByUsage (ChannelUsages s)) (s, 0)) as (_ & _ & Hev).
  by rewrite Hev.
Qed.

Lemma TrimMemoryBudget_only_oldest (s : UULMSubsystem) :
  only_oldest_removed s (TrimMemoryBudget P s).
Proof.
  unfold TrimMemoryBudget.
  destruct (SafelyWithinBudget s); [apply only_oldest_removed_refl|].
  exact (TrimLoop_only_oldest (TargetReduction s)
           (SortByUsage (ChannelUsages s)) (s, 0)).
Qed.

(** *** The cap of a channel *)

(** The last [M] elements of a list. *)
Definition lastn {X : Type} (M : Z) (l : list X) : list X :=
  skipn (length l - Z.to_nat M) l.


Lemma lastn_all {X : Type} (M : Z) (l : list X) :
  Z.of_nat (length l) <= M -> lastn M l = l.
Proof.
  intros H. unfold lastn.
  replace (length l - Z.to_nat M)%nat with O by lia. apply skipn_O.
Qed.




(** One insertion into a channel that holds at most [M] entries, with
    room in the memory budget for the entry. *)
Lemma StoreProcessedLogEntry_step (s : UULMSubsystem)
    (reg : FULMChannelRegistry) (e : FULMLogEntry) (M : Z) :
  let ch := entry_Channel e in
  let old := EntriesOf ch s in
  let c := TotalMemoryUsedCounter (MemoryTracker s) in
  let Budget := MemoryBudget (MemoryTracker s) in
  let s' := StoreProcessedLogEntry P e s in
  IsChannelInMasterList ch = true ->
  ChannelRegistry s = Some reg ->
  IsChannelRegistered ch reg = true ->
  MaxLogEntries (GetChannelConfig ch reg) = M ->
  0 <= M < 2^31 - 1 ->
  Z.of_nat (length old) <= M ->
  bytes old <= c ->
  c + CalculateLogEntrySize P e <= Budget -> Budget < 2^63 ->
  ChannelRegistry s' = Some reg
  /\ MemoryBudget (MemoryTracker s') = Budget
  /\ EntriesOf ch s' = lastn M (old ++ [e])
  /\ TotalMemoryUsedCounter (MemoryTracker s') - bytes (EntriesOf ch s')
     = c - bytes old.
Proof.
  intros ch old c Budget s' Hmaster Hreg Hregd HM HMr Hlen Hbytes Hroom HB.
  pose proof (bytes_nonneg old) as Hold0.
  pose proof (CalculateLogEntrySize_range e) as Hsize.
  assert (WouldExceedBudget (CalculateLogEntrySize P e) (MemoryTracker s)
          = false) as Hfit.
  { unfold WouldExceedBudget, GetTotalMemoryUsage. fold c Budget.
    rewrite (wrapSZ_small c) by lia. rewrite wrapSZ_small by lia.
    apply Z.ltb_ge. lia. }
  unfold s', StoreProcessedLogEntry. fold ch.
  rewrite Hmaster, Hfit. cbn [negb andb].
  set (s2 := match LogEntries s !! FKey ch with Some _ => s | None => _ end).
  assert (ChannelRegistry s2 = Some reg
          /\ MemoryTracker s2 = MemoryTracker s
          /\ default [] (LogEntries s2 !! FKey ch) = old) as (Hreg2 & Htr2 & Hold2).
  { unfold s2, old, EntriesOf.
    destruct (LogEntries s !! FKey ch) as [l|] eqn:El; [by rewrite El|].
    cbn [ChannelRegistry with_entries]. rewrite Hreg, Hregd. cbn [negb].
    cbn [ChannelRegistry MemoryTracker LogEntries with_entries].
    by rewrite lookup_insert_eq. }
  rewrite Hold2. clearbody s2.
  set (l := old ++ [e]).
  set (s3 := with_tracker _ _).
  assert (ChannelRegistry s3 = Some reg) as Hreg3 by done.
  assert (LogEntries s3 !! FKey ch = Some l) as Hl3
    by (unfold s3; simpl; apply lookup_insert_eq).
  assert (TotalMemoryUsedCounter (MemoryTracker s3)
          = c + CalculateLogEntrySize P e) as Hc3.
  { unfold s3. simpl. rewrite Htr2. fold c. unfold Add64.
    apply wrap64_small. lia. }
  assert (MemoryBudget (MemoryTracker s3) = Budget) as HB3
    by (unfold s3; simpl; by rewrite Htr2).
  assert (bytes l = bytes old + CalculateLogEntrySize P e) as Hbl.
  { unfold l. rewrite bytes_app. simpl. lia. }
  assert (length l = S (length old)) as Hll
    by (unfold l; rewrite length_app; simpl; lia).
  rewrite Hreg3. fold ch. rewrite HM.
  clearbody s3 l.
  destruct (M <? Z.of_nat (length l)) eqn:Ecap.
  - apply Z.ltb_lt in Ecap.
    assert (Z.of_nat (length l) - M = 1) as -> by lia.
    rewrite (wrap32_small 1) by lia.
    rewrite (TrimChannelForMemory_trim ch 1 s3 l Hl3) by lia.
    change (Z.to_nat 1) with 1%nat.
    assert (bytes (firstn 1 l) <= bytes l) as Hfirst.
    { pose proof (bytes_firstn_skipn 1 l).
      pose proof (bytes_nonneg (skipn 1 l)). lia. }
    rewrite MemoryOf_bytes by lia.
    unfold EntriesOf.
    cbn [ChannelRegistry MemoryTracker LogEntries with_tracker with_entries
         MemoryBudget TotalMemoryUsedCounter RemoveMemoryUsage].
    rewrite lookup_insert_eq. cbn [default]. unfold id.
    split; [done|]. split; [done|]. split.
    + unfold lastn.
      by replace (length l - Z.to_nat M)%nat with 1%nat by lia.
    + rewrite Hc3. unfold Subtract64.
      pose proof (bytes_nonneg (firstn 1 l)).
      rewrite wrap64_small by lia.
      pose proof (bytes_firstn_skipn 1 l). lia.
  - apply Z.ltb_ge in Ecap. unfold EntriesOf. rewrite Hl3. cbn [default].
    unfold id. split; [done|]. split; [done|]. split.
    + by rewrite lastn_all.
    + rewrite Hc3. lia.
Qed.

(** The insertions of a list of entries of one channel. *)
Definition StoreAll (es : list FULMLogEntry) (s : UULMSubsystem)
  : UULMSubsystem :=
  fold_left (fun s e => StoreProcessedLogEntry P e s) es s.






(** *** Byte accounting of an eviction pass *)

(** The bytes of all the entries of the store. *)
Definition store_bytes (m : gmap string (list FULMLogEntry)) : Z :=
  foldr (fun kv acc => bytes (snd kv) + acc) 0 (map_to_list m).

Lemma foldr_bytes_perm (l1 l2 : list (string * list FULMLogEntry)) :
  Permutation l1 l2 ->
  foldr (fun kv acc => bytes (snd kv) + acc) 0 l1
  = foldr (fun kv acc => bytes (snd kv) + acc) 0 l2.
Proof. induction 1; simpl; lia. Qed.

Lemma store_bytes_delete m k l :
  m !! k = Some l -> store_bytes m = bytes l + store_bytes (delete k m).
Proof.
  intros H. unfold store_bytes.
  by rewrite <- (foldr_bytes_perm _ _ (map_to_list_delete m k l H)).
Qed.

Lemma store_bytes_nonneg m : 0 <= store_bytes m.
Proof.
  unfold store_bytes. induction (map_to_list m) as [|kv l IH]; simpl; [lia|].
  pose proof (bytes_nonneg (snd kv)). lia.
Qed.

Lemma store_bytes_insert m k l l' :
  m !! k = Some l ->
  store_bytes (<[k := l']> m) = store_bytes m - bytes l + bytes l'.
Proof.
  intros H. rewrite (store_bytes_delete m k l H).
  rewrite (store_bytes_delete (<[k := l']> m) k l')
    by apply lookup_insert_eq.
  rewrite delete_insert_eq. lia.
Qed.

Lemma store_bytes_lookup m k l : m !! k = Some l -> bytes l <= store_bytes m.
Proof.
  intros H. rewrite (store_bytes_delete m k l H).
  pose proof (store_bytes_nonneg (delete k m)). lia.
Qed.

(** The tracked usage covers the stored entries, and the usages of the
    channels are not negative. *)
Definition accounted (s : UULMSubsystem) : Prop :=
  store_bytes (LogEntries s) <= TotalMemoryUsedCounter (MemoryTracker s)
  /\ TotalMemoryUsedCounter (MemoryTracker s) < 2^63
  /\ map_Forall (fun (_ : string) u => 0 <= u)
                (ChannelMemoryUsage (MemoryTracker s)).

(** The usage of a channel after [RemoveMemoryUsage]. *)
Lemma RemoveMemoryUsage_channel ch size t :
  0 <= size ->
  map_Forall (fun (_ : string) u => 0 <= u) (ChannelMemoryUsage t) ->
  let t' := RemoveMemoryUsage ch size t in
  map_Forall (fun (_ : string) u => 0 <= u) (ChannelMemoryUsage t')
  /\ 0 <= GetChannelMemoryUsage ch t - GetChannelMemoryUsage ch t' <= size.
Proof.
  intros Hsize Hpos. cbn zeta.
  unfold GetChannelMemoryUsage, RemoveMemoryUsage.
  cbn [ChannelMemoryUsage].
  destruct (ChannelMemoryUsage t !! FKey ch) as [u|] eqn:Eu.
  - pose proof (Hpos _ _ Eu) as Hu. simpl in Hu.
    destruct (size <? u) eqn:Elt;
      [apply Z.ltb_lt in Elt | apply Z.ltb_ge in Elt].
    + destruct (u - size =? 0) eqn:Ez; [apply Z.eqb_eq in Ez; lia|].
      rewrite lookup_insert_eq. split; [|lia].
      apply map_Forall_insert_2; [lia | done].
    + cbn [Z.eqb]. rewrite lookup_delete_eq. split; [|lia].
      by apply map_Forall_delete.
  - rewrite Eu. split; [done | lia].
Qed.

(** One visit keeps the account: what it adds to [TotalReduced] it has
    taken from the tracked usage. *)
Lemma TrimVisit_accounted T x (acc : UULMSubsystem * Z) (c0 : Z) :
  accounted (fst acc) -> 0 <= snd acc ->
  TotalMemoryUsedCounter (MemoryTracker (fst acc)) + snd acc <= c0 ->
  c0 < 2^63 ->
  let acc' := TrimVisit P T x acc in
  accounted (fst acc') /\ snd acc <= snd acc'
  /\ TotalMemoryUsedCounter (MemoryTracker (fst acc')) + snd acc' <= c0.
Proof.
  destruct acc as [s R]. cbn [fst snd].
  intros (Hcov & Hc & Hpos) HR Hsum Hc0. cbn zeta.
  unfold TrimVisit. cbn [fst snd].
  destruct (LogEntries s !! FKey (fst x)) as [l0|] eqn:E0;
    [|by repeat split; try lia].
  destruct (0 <? Z.of_nat (length l0)) eqn:Epos;
    [|by repeat split; try lia].
  apply Z.ltb_lt in Epos.
  set (n := FMath_MinZ _ _).
  assert (1 <= n <= Z.of_nat (length l0)) as Hn
    by (apply EntriesToRemove_range; lia).
  rewrite (TrimChannelForMemory_trim _ _ _ _ E0 Hn).
  cbn [fst snd MemoryTracker with_tracker with_entries LogEntries].
  pose proof (store_bytes_nonneg (LogEntries s)) as Hs0.
  pose proof (store_bytes_lookup _ _ _ E0) as Hl0.
  pose proof (bytes_firstn_skipn (Z.to_nat n) l0) as Hsplit.
  pose proof (bytes_nonneg (firstn (Z.to_nat n) l0)) as Hf0.
  pose proof (bytes_nonneg (skipn (Z.to_nat n) l0)) as Hk0.
  rewrite MemoryOf_bytes by lia.
  set (Mrem := bytes (firstn (Z.to_nat n) l0)) in *.
  destruct (RemoveMemoryUsage_channel (fst x) Mrem (MemoryTracker s) Hf0 Hpos)
    as [Hpos' Hred].
  set (d := GetChannelMemoryUsage (fst x) (MemoryTracker s)
            - GetChannelMemoryUsage (fst x)
                (RemoveMemoryUsage (fst x) Mrem (MemoryTracker s))) in *.
  rewrite (wrapSZ_small d) by lia. rewrite wrapSZ_small by lia.
  assert (TotalMemoryUsedCounter
            (RemoveMemoryUsage (fst x) Mrem (MemoryTracker s))
          = TotalMemoryUsedCounter (MemoryTracker s) - Mrem) as Hc'.
  { unfold RemoveMemoryUsage. cbn [TotalMemoryUsedCounter].
    unfold Subtract64. apply wrap64_small. lia. }
  split; [|split; [lia|rewrite Hc'; lia]].
  unfold accounted. cbn [MemoryTracker with_tracker with_entries LogEntries].
  rewrite Hc', (store_bytes_insert _ _ _ _ E0).
  split; [lia|]. split; [lia | exact Hpos'].
Qed.

(** The visits of a list of channels, without the [break]. *)
Definition TrimAll (T : Z) (visited : list (string * Z))
    (acc : UULMSubsystem * Z) : UULMSubsystem * Z :=
  fold_left (fun a x => TrimVisit P T x a) visited acc.

Lemma TrimAll_accounted T visited (c0 : Z) :
  c0 < 2^63 ->
  forall acc : UULMSubsystem * Z,
    accounted (fst acc) -> 0 <= snd acc ->
    TotalMemoryUsedCounter (MemoryTracker (fst acc)) + snd acc <= c0 ->
    let acc' := TrimAll T visited acc in
    accounted (fst acc') /\ 0 <= snd acc'
    /\ TotalMemoryUsedCounter (MemoryTracker (fst acc')) + snd acc' <= c0.
Proof.
  intros Hc0. induction visited as [|x l IH]; intros acc Hacc HR Hsum; simpl.
  - done.
  - destruct (TrimVisit_accounted T x acc c0 Hacc HR Hsum Hc0)
      as (Hacc1 & HR1 & Hsum1).
    apply IH; [done | lia | done].
Qed.

(** The loop visits the channels of its list in order for as long as the
    freed bytes are below the target, and stops at the first channel that
    it finds with the target reached. *)
Lemma TrimLoop_prefix T order :
  forall acc : UULMSubsystem * Z,
    exists visited rest,
      order = visited ++ rest
      /\ TrimLoop P T order acc = TrimAll T visited acc
      /\ (forall v1 v2, visited = v1 ++ v2 -> v2 <> [] ->
                        snd (TrimAll T v1 acc) < T)
      /\ (rest <> [] -> T <= snd (TrimAll T visited acc)).
Proof.
  induction order as [|x order IH]; intros acc.
  - exists [], []. repeat split; try done.
    intros v1 v2 Hv. by destruct v1, v2.
  - simpl. destruct (T <=? snd acc) eqn:E.
    + apply Z.leb_le in E. exists [], (x :: order).
      repeat split; try done.
      intros v1 v2 Hv. by destruct v1, v2.
    + apply Z.leb_gt in E.
      destruct (IH (TrimVisit P T x acc)) as (visited & rest & -> & Hrun & Hlow & Hstop).
      exists (x :: visited), rest. repeat split; try done.
      intros v1 v2 Hv Hv2. destruct v1 as [|y v1]; simpl in *; [done|].
      injection Hv as -> ->. by eapply Hlow.
Qed.

(** *** The target and the order of an eviction pass *)




End Trimming.

(** C7: an eviction pass returns without trimming, with the retained
    entries and the memory tracker as they were, exactly when the tracked
    usage is at most the budget less the safety margin of 2% of the budget
    (rounded down to a byte; the budget is at most [2^50] bytes, where the
    product in [double] gives that margin).  Otherwise it trims: it records
    a trimming event, removes only oldest entries, and removes at least one
    entry as soon as a channel has one (the usage being at most [2^63]
    bytes). *)
Theorem TrimMemoryBudget_skips_within_margin
    (P : Platform) (s : UULMSubsystem) :
  let Usage := GetTotalMemoryUsage (MemoryTracker s) in
  let Budget := MemoryBudget (MemoryTracker s) in
  0 <= Budget <= 2^50 ->
  (LogEntries (TrimMemoryBudget P s) = LogEntries s
   /\ MemoryTracker (TrimMemoryBudget P s) = MemoryTracker s
   <-> Usage <= Budget - Budget * 2 / 100)
  /\ (Budget - Budget * 2 / 100 < Usage ->
      TrimmingEventsCounter (MemoryTracker (TrimMemoryBudget P s))
      = Increment (TrimmingEventsCounter (MemoryTracker s))
      /\ only_oldest_removed s (TrimMemoryBudget P s)
      /\ (Usage <= 2^63 ->
          forall ch : string,
            EntriesOf ch s <> [] ->
            exists k l0 l1,
              LogEntries s !! k = Some l0
              /\ LogEntries (TrimMemoryBudget P s) !! k = Some l1
              /\ (length l1 < length l0)%nat)).
Proof.
  intros Usage Budget HB.
  pose proof (SafelyWithinBudget_spec s HB) as Hspec.
  fold Usage Budget in Hspec.
  split.
  - rewrite <- Hspec. split.
    + intros [_ Heq]. destruct (SafelyWithinBudget s) eqn:Hsafe; [done|].
      pose proof (TrimMemoryBudget_event P s Hsafe) as Hev.
      rewrite Heq in Hev. symmetry in Hev.
      by apply Increment_neq in Hev.
    + intros Hsafe. unfold TrimMemoryBudget. by rewrite Hsafe.
  - intros Hover.
    assert (SafelyWithinBudget s = false) as Hsafe.
    { destruct (SafelyWithinBudget s) eqn:E; [|done].
      destruct Hspec as [Hle _]. specialize (Hle eq_refl). lia. }
    split; [by apply TrimMemoryBudget_event|].
    split; [apply TrimMemoryBudget_only_oldest|].
    intros HU ch Hne. unfold EntriesOf in Hne.
    destruct (LogEntries s !! FKey ch) as [l|] eqn:El; [|done].
    simpl in Hne.
    destruct (TrimLoop_progress P (TargetReduction s)
                (SortByUsage (ChannelUsages s)) s ch l)
      as (k & l0 & l1 & H0 & H1 & Hlen); try done.
    + by apply TargetReduction_positive.
    + by eapply ChannelUsages_key.
    + exists k, l0, l1. split; [done|]. split; [|done].
      unfold TrimMemoryBudget. by rewrite Hsafe.
Qed.



(** ["Gameplay"] registered with a maximum of 3 entries, a budget of
    [Budget] bytes, and five entries to insert, of 106 bytes each. *)
Definition capped_subsystem (Budget : Z) : UULMSubsystem :=
  let s :=
    RegisterChannel "Gameplay"
      (mkConfig true Message White FULMRateLimit_default 3 true)
      fresh_subsystem in
  with_tracker (SetMemoryBudget Budget (MemoryTracker s)) s.

Definition gameplay_entry (Message : string) : FULMLogEntry :=
  mkLogEntry Message "Gameplay" ULMChannel.Message 0 0.

Definition five_entries : list FULMLogEntry :=
  map gameplay_entry ["a"; "b"; "c"; "d"; "e"]%string.



(** A store that retains three entries of ["Gameplay"], 318 bytes in all,
    under a budget of [Budget] bytes. *)
Definition store_of_318_bytes (Budget : Z) : UULMSubsystem :=
  let s := StoreAll desktop64 five_entries (capped_subsystem 52428800) in
  with_tracker (SetMemoryBudget Budget (MemoryTracker s)) s.

(** The theorem under a budget of 1000 bytes, where the pass leaves the
    entries and the tracker as they were, and under a budget of 320 bytes,
    where it records a trimming event. *)
Lemma TrimMemoryBudget_skips_within_margin_witness :
  (LogEntries (TrimMemoryBudget desktop64 (store_of_318_bytes 1000))
   = LogEntries (store_of_318_bytes 1000)
   /\ MemoryTracker (TrimMemoryBudget desktop64 (store_of_318_bytes 1000))
      = MemoryTracker (store_of_318_bytes 1000))
  /\ TrimmingEventsCounter
       (MemoryTracker (TrimMemoryBudget desktop64 (store_of_318_bytes 320)))
     = 1.
Proof.
  split.
  - apply (TrimMemoryBudget_skips_within_margin
             desktop64 (store_of_318_bytes 1000)).
    + vm_compute. split; discriminate.
    + vm_compute. discriminate.
  - destruct (TrimMemoryBudget_skips_within_margin
                desktop64 (store_of_318_bytes 320)) as [_ Htrim].
    + vm_compute. split; discriminate.
    + destruct Htrim as [Hev _]; [by vm_compute|].
      rewrite Hev. reflexivity.
Defined.










(** ** Logging/ULMLogging.h and Logging/ULMLogging.cpp *)
Module ULMLogging.

(** [ELogVerbosity::Type], as far as the plugin uses it. *)
Inductive ELogVerbosity := Log | UEWarning | UEError.

(** [GetUEVerbosity]. *)
Definition GetUEVerbosity (Verbosity : EULMVerbosity) : ELogVerbosity :=
  match Verbosity with
  | Message => Log
  | Warning => UEWarning
  | Error => UEError
  | Critical => UEError
  end.

(** A line handed to the output log of the engine by [FMsg::Logf] or
    [UE_LOG]: the name of the log category, the severity and the text.
    The source position that goes with it is left out. *)
Record FOutputLine := mkOutputLine {
  out_Category : string;
  out_Verbosity : ELogVerbosity;
  out_Text : string
}.

(** The table that [InitializeChannelCategoryMap] fills: channel and name
    of its log category. *)
Definition ChannelCategoryMap : list (string * string) :=
  [ ("ULM", "ULM"); ("Default", "ULM"); ("Gameplay", "ULMGameplay");
    ("Network", "ULMNetwork"); ("Performance", "ULMPerformance");
    ("Debug", "ULMDebug"); ("AI", "ULMAI"); ("Physics", "ULMPhysics");
    ("Audio", "ULMAudio"); ("Animation", "ULMAnimation"); ("UI", "ULMUI");
    ("Subsystem", "ULMSubsystem") ]%string.

(** [ChannelCategoryMap.Find], with the category [ULM] for a channel that
    the table does not hold. *)
Definition CategoryToUse (ChannelName : string) : string :=
  match List.find (fun kv => FString_eq (fst kv) ChannelName)
                  ChannelCategoryMap with
  | Some kv => snd kv
  | None => "ULM"%string
  end.

(** [LogToUECategory] in a build that is not a shipping build: the line
    that it writes.  [FileName] is [None] for a null pointer. *)
Definition LogToUECategory (ChannelName : string) (Verbosity : EULMVerbosity)
    (Msg : string) (FileName : option string) (LineNumber : Z)
  : FOutputLine :=
  let FormattedMessage :=
    match Verbosity with
    | Critical => ("CRITICAL: " ++ Msg)%string
    | _ => Msg
    end in
  let FormattedMessage' :=
    match FileName with
    | Some File =>
        if 0 <? LineNumber
        then (FormattedMessage ++ " [" ++ GetCleanFilename File ++ ":"
              ++ Printf_0d 0 LineNumber ++ "]")%string
        else FormattedMessage
    | None => FormattedMessage
    end in
  mkOutputLine (CategoryToUse ChannelName) (GetUEVerbosity Verbosity)
               FormattedMessage'.

(** The two globals and the output log.  [Initialize] stores the
    subsystem and its registry in [GULMSubsystem] and
    [GULMChannelRegistry] and [Deinitialize] clears both, so that the
    second is the registry of the first. *)
Record FULMGlobals := mkGlobals {
  GULMSubsystem : option UULMSubsystem;
  OutputLog : list FOutputLine
}.

Definition GULMChannelRegistry (g : FULMGlobals)
  : option FULMChannelRegistry :=
  match GULMSubsystem g with
  | Some Subsystem => ChannelRegistry Subsystem
  | None => None
  end.

(** [ULMLogCriticalSystem]. *)
Definition ULMLogCriticalSystem (ctx : CallContext) (ChannelName : string)
    (Verbosity : EULMVerbosity) (Msg : string) (FileName : option string)
    (LineNumber : Z) (g : FULMGlobals) : FULMGlobals :=
  let Line := LogToUECategory ChannelName Verbosity Msg FileName LineNumber in
  mkGlobals
    (match GULMSubsystem g with
     | Some Subsystem =>
         Some (StoreLogEntryInternal ctx Msg ChannelName Verbosity Subsystem)
     | None => None
     end)
    (OutputLog g ++ [Line]).

(** [ULMLogMessage].  [Seconds] is the clock that [CanChannelLog] reads
    here; the one that it reads again in [StoreLogEntryInternal] is in
    [ctx]. *)
Definition ULMLogMessage (Seconds : Q) (ctx : CallContext)
    (ChannelName : string) (Verbosity : EULMVerbosity) (Msg : string)
    (FileName : option string) (LineNumber : Z) (g : FULMGlobals)
  : FULMGlobals :=
  match GULMSubsystem g, GULMChannelRegistry g with
  | Some Subsystem, Some Registry =>
      let r := CanChannelLog ChannelName Verbosity Seconds Registry in
      let Subsystem1 := with_registry (Some (snd r)) Subsystem in
      if negb (fst r) then mkGlobals (Some Subsystem1) (OutputLog g)
      else
        let Lines :=
          if FString_eq ChannelName "ULM" || FString_eq ChannelName "Default"
          then [LogToUECategory ChannelName Verbosity Msg FileName LineNumber]
          else if FString_eq ChannelName "Subsystem"
          then [LogToUECategory ChannelName Verbosity Msg FileName LineNumber]
          else
            let PrefixedMessage :=
              ("[" ++ ChannelName ++ "] " ++ Msg)%string in
            [LogToUECategory ChannelName Verbosity Msg FileName LineNumber;
             LogToUECategory "ULM" Verbosity PrefixedMessage FileName
                             LineNumber] in
        mkGlobals
          (Some (StoreLogEntryInternal ctx Msg ChannelName Verbosity
                                       Subsystem1))
          (OutputLog g ++ Lines)
  | _, _ =>
      mkGlobals (GULMSubsystem g)
        (OutputLog g
         ++ [mkOutputLine "ULM" UEWarning
               ("ULM not initialized, falling back: [" ++ ChannelName
                ++ "] " ++ Msg)%string])
  end.

(** [ENetMode] and [ULMInternal::HasNetworkAuthority].  The world context
    is [None] for a null pointer and [Some None] for an object without a
    world. *)
Inductive ENetMode :=
  NM_Standalone | NM_DedicatedServer | NM_ListenServer | NM_Client.

Definition HasNetworkAuthority (WorldContext : option (option ENetMode))
  : bool :=
  match WorldContext with
  | Some (Some NM_Client) => false
  | _ => true
  end.

(** [ULMLogMessageServer] and [ULMLogMessageClient]. *)
Definition ULMLogMessageServer (Seconds : Q) (ctx : CallContext)
    (ChannelName : string) (Verbosity : EULMVerbosity) (Msg : string)
    (WorldContext : option (option ENetMode)) (FileName : option string)
    (LineNumber : Z) (g : FULMGlobals) : FULMGlobals :=
  if HasNetworkAuthority WorldContext
  then ULMLogMessage Seconds ctx ChannelName Verbosity Msg FileName
                     LineNumber g
  else g.

Definition ULMLogMessageClient (Seconds : Q) (ctx : CallContext)
    (ChannelName : string) (Verbosity : EULMVerbosity) (Msg : string)
    (WorldContext : option (option ENetMode)) (FileName : option string)
    (LineNumber : Z) (g : FULMGlobals) : FULMGlobals :=
  if negb (HasNetworkAuthority WorldContext)
  then ULMLogMessage Seconds ctx ChannelName Verbosity Msg FileName
                     LineNumber g
  else g.

(** [ULMInternal::FSamplingState]; the counters are [uint32]. *)
Record FSamplingState := mkSamplingState {
  LastLogTime : Q;
  MessageCount : Z;
  SampleRate : Z
}.

Definition FSamplingState_default : FSamplingState :=
  mkSamplingState 0 0 100.

Definition wrapU32 (z : Z) : Z := z mod 2^32.

(** [ULMInternal::ShouldSample] on the map [SamplingStates] of the calling
    thread; [Seconds] is the reading of the clock. *)
Definition ShouldSample (Seconds : Q) (ChannelName : string)
    (CustomSampleRate : Z) (SamplingStates : gmap string FSamplingState)
  : bool * gmap string FSamplingState :=
  let State :=
    default FSamplingState_default (SamplingStates !! FKey ChannelName) in
  let Rate :=
    if 0 <? CustomSampleRate then CustomSampleRate else SampleRate State in
  let Count := wrapU32 (MessageCount State + 1) in
  if Rate <=? Count
  then (true,
        <[FKey ChannelName := mkSamplingState Seconds 0 Rate]> SamplingStates)
  else (false,
        <[FKey ChannelName := mkSamplingState (LastLogTime State) Count Rate]>
          SamplingStates).

(** [ULMLogMessageSampled]: the globals and the sampling states it
    leaves.  [SampleSeconds] is the clock that [ShouldSample] reads. *)
Definition ULMLogMessageSampled (SampleSeconds Seconds : Q)
    (ctx : CallContext)
    (ChannelName : string) (Verbosity : EULMVerbosity) (Msg : string)
    (SampleRate' : Z) (FileName : option string) (LineNumber : Z)
    (st : FULMGlobals * gmap string FSamplingState)
  : FULMGlobals * gmap string FSamplingState :=
  let r := ShouldSample SampleSeconds ChannelName SampleRate' (snd st) in
  (if fst r
   then ULMLogMessage Seconds ctx ChannelName Verbosity Msg FileName
                      LineNumber (fst st)
   else fst st,
   snd r).

(** [ULMInternal::IsValidChannel]. *)
Definition IsValidChannel (ChannelName : string) : bool :=
  negb (IsEmpty ChannelName) && (String.length ChannelName <=? 64)%nat.

End ULMLogging.

(** ** Core/ULMSubsystem.cpp: queries, maintenance and health checks *)
Module ULMSubsystemAPI.

Import ULMLogging.

(** [TArray::StableSort] with the predicate [A.Timestamp < B.Timestamp]:
    entries with the same time stamp keep their order. *)
Fixpoint insert_by_time (x : FULMLogEntry) (l : list FULMLogEntry)
  : list FULMLogEntry :=
  match l with
  | [] => [x]
  | y :: r =>
      if entry_Timestamp y <? entry_Timestamp x
      then y :: insert_by_time x r else x :: l
  end.

Definition StableSortByTime (l : list FULMLogEntry) : list FULMLogEntry :=
  foldr insert_by_time [] l.

(** [UULMSubsystem::GetLogEntries].  The channels of [LogEntries] are
    appended in the order in which the map is iterated. *)
Definition GetLogEntries (Channel : string) (MaxEntries : Z)
    (s : UULMSubsystem) : list FULMLogEntry :=
  let Result :=
    if IsEmpty Channel
    then StableSortByTime
           (concat (map snd (map_to_list (LogEntries s))))
    else default [] (LogEntries s !! FKey Channel) in
  let Num := Z.of_nat (length Result) in
  if (0 <? MaxEntries) && (MaxEntries <? Num)
  then skipn (Z.to_nat (Num - MaxEntries)) Result
  else Result.

(** [UULMSubsystem::ClearChannel] and [ClearAllChannels]. *)
Definition ClearChannel (ChannelName : string) (s : UULMSubsystem)
  : UULMSubsystem :=
  match LogEntries s !! FKey ChannelName with
  | Some _ => with_entries (<[FKey ChannelName := []]> (LogEntries s)) s
  | None => s
  end.

Definition ClearAllChannels (s : UULMSubsystem) : UULMSubsystem :=
  with_entries ((fun _ : list FULMLogEntry => []) <$> LogEntries s) s.

(** [UULMSubsystem::LogMessage]; the subsystem is the one of
    [GULMSubsystem]. *)
Definition LogMessage (Seconds : Q) (ctx : CallContext) (Msg Channel : string)
    (Verbosity : EULMVerbosity) (g : FULMGlobals) : FULMGlobals :=
  if IsEmpty Msg then g
  else
    let ChannelName := if IsEmpty Channel then "Default"%string else Channel in
    ULMLogMessage Seconds ctx ChannelName Verbosity Msg None 0 g.

(** The registrations of [UULMSubsystem::RegisterAllChannelsFromMasterList]:
    the macro expands to one guarded call of [RegisterChannel] per line of
    [ULM_CHANNEL_LIST].  [FCString::Strcmp] compares with case. *)
Definition RegisterMasterListChannels (DefaultConfig' : FULMChannelConfig)
    (s : UULMSubsystem) : UULMSubsystem :=
  fold_left
    (fun s' ChannelStr =>
       if negb (String.eqb ChannelStr "Custom")
       then RegisterChannel ChannelStr DefaultConfig' s' else s')
    ULM_CHANNEL_LIST s.

(** The eleven messages that the function logs at its end, one to each
    channel. *)
Definition RegistrationMessages : list (string * string) :=
  [ ("ULM", "ULM Channel Registered");
    ("Gameplay", "ULMGameplay Channel Registered");
    ("Network", "ULMNetwork Channel Registered");
    ("Performance", "ULMPerformance Channel Registered");
    ("Debug", "ULMDebug Channel Registered");
    ("AI", "ULMAI Channel Registered");
    ("Physics", "ULMPhysics Channel Registered");
    ("Audio", "ULMAudio Channel Registered");
    ("Animation", "ULMAnimation Channel Registered");
    ("UI", "ULMUI Channel Registered");
    ("Subsystem", "ULMSubsystem Channel Registered") ]%string.

(** [UULMSubsystem::RegisterAllChannelsFromMasterList], on the subsystem
    of [GULMSubsystem].  [Settings] is the default channel configuration
    of the settings, [None] when there are no settings; [clock] gives the
    readings of the clocks for each of the messages. *)
Definition RegisterAllChannelsFromMasterList
    (Settings : option FULMChannelConfig) (clock : nat -> Q * CallContext)
    (g : FULMGlobals) : FULMGlobals :=
  let DefaultConfig' :=
    match Settings with
    | Some c => c
    | None =>
        mkConfig true Message (DisplayColor FULMChannelConfig_default)
                 (RateLimit FULMChannelConfig_default) 1000
                 (bInheritFromParent FULMChannelConfig_default)
    end in
  match GULMSubsystem g with
  | None => g
  | Some s =>
      let g1 :=
        mkGlobals (Some (RegisterMasterListChannels DefaultConfig' s))
                  (OutputLog g) in
      snd (fold_left
             (fun (acc : nat * FULMGlobals) (m : string * string) =>
                (S (fst acc),
                 ULMLogMessage (fst (clock (fst acc))) (snd (clock (fst acc)))
                               (fst m) Message (snd m) None 0 (snd acc)))
             RegistrationMessages (O, g1))
  end.

(** [UULMSubsystem::IsQueueHealthy]. *)
Definition IsQueueHealthy (s : UULMSubsystem) : bool :=
  Qlt_bool (IntToFloat (GetQueueSize s))
           (RoundFloat (IntToFloat MAX_QUEUE_SIZE * RoundFloat (8 # 10))).

(** [UULMSubsystem::SetMemoryBudget] and [GetMemoryBudget]: the budget
    crosses the interface as an [int64]. *)
Definition SetMemoryBudget (BudgetBytes : Z) (s : UULMSubsystem)
  : UULMSubsystem :=
  with_tracker
    (ULMMemoryBudget.SetMemoryBudget (wrapSZ BudgetBytes) (MemoryTracker s)) s.

Definition GetMemoryBudget (s : UULMSubsystem) : Z :=
  wrap64 (ULMMemoryBudget.GetMemoryBudget (MemoryTracker s)).

(** [FULMMemoryTracker::Reset] and [UULMSubsystem::ResetMemoryDiagnostics]. *)
Definition Reset (t : FULMMemoryTracker) : FULMMemoryTracker :=
  mkTracker 0 0 0 (MemoryBudget t) ∅.

Definition ResetMemoryDiagnostics (s : UULMSubsystem) : UULMSubsystem :=
  with_tracker (Reset (MemoryTracker s)) s.

(** [UULMSubsystem::IsMemoryBudgetHealthy]. *)
Definition IsMemoryBudgetHealthy (s : UULMSubsystem) : bool :=
  let CurrentUsage := GetTotalMemoryUsage (MemoryTracker s) in
  let Budget := ULMMemoryBudget.GetMemoryBudget (MemoryTracker s) in
  Qlt_bool (IntToDouble CurrentUsage)
           (RoundDouble (IntToDouble Budget * RoundDouble (8 # 10))).

(** [UULMSubsystem::IsMemoryHealthy], on the two fields of
    [FULMMemoryTracker::ToBlueprint] that it reads, both [int64]. *)
Definition IsMemoryHealthy (s : UULMSubsystem) : bool :=
  let Budget := wrap64 (MemoryBudget (MemoryTracker s)) in
  let CurrentUsage := wrap64 (GetTotalMemoryUsage (MemoryTracker s)) in
  if Budget <=? 0 then false
  else
    let UtilizationPercent :=
      RoundFloat
        (RoundFloat (IntToFloat CurrentUsage / IntToFloat Budget) * 100) in
    Qlt_bool UtilizationPercent 90.

End ULMSubsystemAPI.

(** ** Channels/ULMChannel.cpp: removal and the switches of a channel *)
Module ULMChannelTree.

Definition set_bEnabled (b : bool) (c : FULMChannelConfig)
  : FULMChannelConfig :=
  mkConfig b (MinVerbosity c) (DisplayColor c) (RateLimit c)
           (MaxLogEntries c) (bInheritFromParent c).

Definition set_MinVerbosity (v : EULMVerbosity) (c : FULMChannelConfig)
  : FULMChannelConfig :=
  mkConfig (bEnabled c) v (DisplayColor c) (RateLimit c)
           (MaxLogEntries c) (bInheritFromParent c).

(** The loop of [UnregisterChannel] over the children of the removed
    channel: a registered child takes [Parent], the parent of the removed
    channel, as its parent, and that parent, when there is one and it is
    registered, lists the child. *)
Definition Reparent (Parent : string)
    (m : gmap string FULMChannelState) (ChildChannel : string)
  : gmap string FULMChannelState :=
  match m !! FKey ChildChannel with
  | Some ChildState =>
      let m1 := <[FKey ChildChannel := set_parent Parent ChildState]> m in
      if negb (IsEmpty Parent) then
        match m1 !! FKey Parent with
        | Some ParentState =>
            <[FKey Parent :=
                set_children (AddUnique ChildChannel
                                        (ChildChannels ParentState))
                             ParentState]> m1
        | None => m1
        end
      else m1
  | None => m
  end.

(** [FULMChannelRegistry::UnregisterChannel].  [State] is read once: the
    code reads it through a pointer while it edits the parent, which is
    the same for a channel that is not its own parent. *)
Definition UnregisterChannel (ChannelName : string)
    (reg : FULMChannelRegistry) : FULMChannelRegistry :=
  if FString_eq ChannelName "Default" then reg
  else
    let States1 :=
      match ChannelStates reg !! FKey ChannelName with
      | Some State =>
          let m0 :=
            if negb (IsEmpty (ParentChannel State)) then
              match ChannelStates reg !! FKey (ParentChannel State) with
              | Some ParentState =>
                  <[FKey (ParentChannel State) :=
                      set_children (RemoveAllEq ChannelName
                                      (ChildChannels ParentState))
                                   ParentState]> (ChannelStates reg)
              | None => ChannelStates reg
              end
            else ChannelStates reg in
          fold_left (Reparent (ParentChannel State)) (ChildChannels State) m0
      | None => ChannelStates reg
      end in
    mkRegistry (delete (FKey ChannelName) (ChannelConfigs reg))
               (delete (FKey ChannelName) States1)
               (DefaultConfig reg).

(** [GetChildChannels] and [GetParentChannel]. *)
Definition GetChildChannels (ParentChannel' : string)
    (reg : FULMChannelRegistry) : list string :=
  match ChannelStates reg !! FKey ParentChannel' with
  | Some State => ChildChannels State
  | None => []
  end.

Definition GetParentChannel (ChannelName : string)
    (reg : FULMChannelRegistry) : string :=
  match ChannelStates reg !! FKey ChannelName with
  | Some State => ParentChannel State
  | None => EmptyString
  end.

(** [FULMChannelRegistry::SetChannelEnabled]; the recursion follows the
    child lists, as that of [RebuildEffectiveSettings] does. *)
Fixpoint SetChannelEnabled_fuel (fuel : nat) (ChannelName : string)
    (bEnabled' bRecursive : bool) (reg : FULMChannelRegistry)
  : FULMChannelRegistry :=
  match fuel with
  | O => reg
  | S fuel' =>
      match ChannelConfigs reg !! FKey ChannelName with
      | Some Config =>
          let reg1 :=
            RebuildEffectiveSettings ChannelName
              (set_configs (<[FKey ChannelName := set_bEnabled bEnabled' Config]>
                              (ChannelConfigs reg)) reg) in
          if bRecursive then
            match ChannelStates reg1 !! FKey ChannelName with
            | Some State =>
                fold_left
                  (fun r ChildChannel =>
                     SetChannelEnabled_fuel fuel' ChildChannel bEnabled'
                                            true r)
                  (ChildChannels State) reg1
            | None => reg1
            end
          else reg1
      | None => reg
      end
  end.

Definition SetChannelEnabled (ChannelName : string)
    (bEnabled' bRecursive : bool) (reg : FULMChannelRegistry)
  : FULMChannelRegistry :=
  SetChannelEnabled_fuel (S (size (ChannelStates reg))) ChannelName
                         bEnabled' bRecursive reg.

(** [FULMChannelRegistry::SetChannelVerbosity]. *)
Fixpoint SetChannelVerbosity_fuel (fuel : nat) (ChannelName : string)
    (MinVerbosity' : EULMVerbosity) (bRecursive : bool)
    (reg : FULMChannelRegistry) : FULMChannelRegistry :=
  match fuel with
  | O => reg
  | S fuel' =>
      match ChannelConfigs reg !! FKey ChannelName with
      | Some Config =>
          let reg1 :=
            RebuildEffectiveSettings ChannelName
              (set_configs (<[FKey ChannelName :=
                                set_MinVerbosity MinVerbosity' Config]>
                              (ChannelConfigs reg)) reg) in
          if bRecursive then
            match ChannelStates reg1 !! FKey ChannelName with
            | Some State =>
                fold_left
                  (fun r ChildChannel =>
                     SetChannelVerbosity_fuel fuel' ChildChannel
                                              MinVerbosity' true r)
                  (ChildChannels State) reg1
            | None => reg1
            end
          else reg1
      | None => reg
      end
  end.

Definition SetChannelVerbosity (ChannelName : string)
    (MinVerbosity' : EULMVerbosity) (bRecursive : bool)
    (reg : FULMChannelRegistry) : FULMChannelRegistry :=
  SetChannelVerbosity_fuel (S (size (ChannelStates reg))) ChannelName
                           MinVerbosity' bRecursive reg.

End ULMChannelTree.

(** ** FileIO/ULMJSONFormat.cpp: escaping *)
Module ULMJSONFormat.

(** [FString::Replace] with a search string of one character, [From];
    the comparison ignores case, as that of [Replace] does by default. *)
Fixpoint ReplaceChar (From : ascii) (To : string) (s : string) : string :=
  match s with
  | EmptyString => EmptyString
  | String c r =>
      if Ascii.eqb (ToUpper c) (ToUpper From)
      then (To ++ ReplaceChar From To r)%string
      else String c (ReplaceChar From To r)
  end.

(** The characters that the escaping looks for. *)
Definition Backslash : ascii := "\"%char.
Definition Quote : ascii := "034"%char.
Definition Newline : ascii := "010"%char.
Definition CarriageReturn : ascii := "013"%char.
Definition Tab : ascii := "009"%char.
Definition Backspace : ascii := "008"%char.
Definition FormFeed : ascii := "012"%char.

(** [FULMJSONFormatter::EscapeJSONString]: seven replacements, one after
    the other. *)
Definition EscapeJSONString (Input : string) : string :=
  let Output := Input in
  let Output :=
    ReplaceChar Backslash (String Backslash (String Backslash "")) Output in
  let Output :=
    ReplaceChar Quote (String Backslash (String Quote "")) Output in
  let Output := ReplaceChar Newline (String Backslash "n") Output in
  let Output := ReplaceChar CarriageReturn (String Backslash "r") Output in
  let Output := ReplaceChar Tab (String Backslash "t") Output in
  let Output := ReplaceChar Backspace (String Backslash "b") Output in
  let Output := ReplaceChar FormFeed (String Backslash "f") Output in
  Output.

(** [FULMJSONFormatter::VerbosityToJSONLevel]. *)
Definition VerbosityToJSONLevel (Verbosity : EULMVerbosity) : string :=
  match Verbosity with
  | Message => "INFO"
  | Warning => "WARN"
  | Error => "ERROR"
  | Critical => "CRITICAL"
  end.

End ULMJSONFormat.

(** ** FileIO/ULMFileWriter.h and FileIO/ULMFileWriter.cpp *)
Module ULMFileWriter.

(** [FULMFileWriteEntry] (FileIO/ULMFileTypes.h). *)
Record FULMFileWriteEntry := mkFileWriteEntry {
  write_LogLine : string;
  write_FilePath : string;
  write_Timestamp : Q
}.

(** [FULMFileIODiagnostics]: five [FThreadSafeCounter]s. *)
Record FULMFileIODiagnostics := mkFileIODiagnostics {
  WriteCount : Z;
  BatchCount : Z;
  FailedWrites : Z;
  TotalBytesWritten : Z;
  TotalWriteTime : Z
}.

Definition DEFAULT_BATCH_SIZE : Z := 64.
Definition MAX_BATCH_SIZE : Z := 512.

(** [FULMFileWriter].  [OpenFiles] holds the paths of the archives that
    are open; [Serialized] is the record of the calls of
    [FArchive::Serialize], the path of the archive and the content, the
    oldest first.  The flush timer is left out: flushing changes nothing
    of what is modelled. *)
Record FULMFileWriter := mkFileWriter {
  BatchSize : Z;
  WriteQueue : list FULMFileWriteEntry;
  OpenFiles : list string;
  Serialized : list (string * string);
  Diagnostics : FULMFileIODiagnostics
}.

(** The writer as its constructor leaves it, on the queue [q]. *)
Definition FULMFileWriter_new (q : list FULMFileWriteEntry)
  : FULMFileWriter :=
  mkFileWriter DEFAULT_BATCH_SIZE q [] [] (mkFileIODiagnostics 0 0 0 0 0).

Definition with_write_queue (q : list FULMFileWriteEntry)
    (w : FULMFileWriter) : FULMFileWriter :=
  mkFileWriter (BatchSize w) q (OpenFiles w) (Serialized w) (Diagnostics w).

Definition with_file_diagnostics (d : FULMFileIODiagnostics)
    (w : FULMFileWriter) : FULMFileWriter :=
  mkFileWriter (BatchSize w) (WriteQueue w) (OpenFiles w) (Serialized w) d.

Definition bump_FailedWrites (d : FULMFileIODiagnostics)
  : FULMFileIODiagnostics :=
  mkFileIODiagnostics (WriteCount d) (BatchCount d)
                      (Increment (FailedWrites d))
                      (TotalBytesWritten d) (TotalWriteTime d).

(** [FMath::Clamp]. *)
Definition FMath_Clamp (X Min Max : Z) : Z :=
  if X <? Min then Min else if X <? Max then X else Max.

(** [FULMFileWriter::SetBatchSize]. *)
Definition SetBatchSize (NewBatchSize : Z) (w : FULMFileWriter)
  : FULMFileWriter :=
  mkFileWriter (FMath_Clamp NewBatchSize 1 MAX_BATCH_SIZE) (WriteQueue w)
               (OpenFiles w) (Serialized w) (Diagnostics w).

(** The length of the UTF-8 form of a string of 8-bit characters. *)
Fixpoint UTF8Length (s : string) : Z :=
  match s with
  | EmptyString => 0
  | String c r =>
      (if (nat_of_ascii c <? 128)%nat then 1 else 2) + UTF8Length r
  end.

Section Writer.

(** Whether [IFileManager::CreateFileWriter] gives an archive for a path,
    and whether the archive of a path reports an error after a write. *)
Variable CreateFileWriter : string -> bool.
Variable IsError : string -> bool.

(** [FULMFileWriter::GetOrCreateFile]: whether there is an archive, and
    the writer. *)
Definition GetOrCreateFile (FilePath' : string) (w : FULMFileWriter)
  : bool * FULMFileWriter :=
  if existsb (fun k => FString_eq k FilePath') (OpenFiles w) then (true, w)
  else if CreateFileWriter FilePath' then
    (true,
     mkFileWriter (BatchSize w) (WriteQueue w) (OpenFiles w ++ [FilePath'])
                  (Serialized w) (Diagnostics w))
  else (false, w).

(** [FULMFileWriter::WriteToFile]. *)
Definition WriteToFile (FilePath' Content : string) (w : FULMFileWriter)
  : FULMFileWriter :=
  let r := GetOrCreateFile FilePath' w in
  let w1 := snd r in
  if negb (fst r) then
    with_file_diagnostics (bump_FailedWrites (Diagnostics w1)) w1
  else
    let BytesToWrite := wrap32 (UTF8Length Content) in
    let d := Diagnostics w1 in
    let d1 :=
      mkFileIODiagnostics (Increment (WriteCount d)) (BatchCount d)
                          (FailedWrites d)
                          (wrap32 (TotalBytesWritten d + BytesToWrite))
                          (TotalWriteTime d) in
    let w2 :=
      mkFileWriter (BatchSize w1) (WriteQueue w1) (OpenFiles w1)
                   (Serialized w1 ++ [(FilePath', Content)]) d1 in
    if IsError FilePath'
    then with_file_diagnostics (bump_FailedWrites d1) w2
    else w2.

(** The first loop of [ProcessBatch]: the lines of one more entry in the
    groups, which are kept in the order in which their paths came
    first. *)
Definition AddToFileGroups (FileGroups : list (string * list string))
    (Entry : FULMFileWriteEntry) : list (string * list string) :=
  let same := fun kv : string * list string =>
                FString_eq (fst kv) (write_FilePath Entry) in
  let FileGroups1 :=
    if negb (existsb same FileGroups)
    then FileGroups ++ [(write_FilePath Entry, [])]
    else FileGroups in
  update_first same
    (fun kv => (fst kv, snd kv ++ [write_LogLine Entry])) FileGroups1.

(** The content for one file: every line followed by a line feed. *)
Definition CombinedContent (Lines : list string) : string :=
  fold_left
    (fun Content Line => (Content ++ (Line ++ String "010" ""))%string)
    Lines EmptyString.

(** [FULMFileWriter::ProcessBatch]; [WriteTimeMicros] is the time that
    the two clock readings give. *)
Definition ProcessBatch (WriteTimeMicros : Z)
    (Batch : list FULMFileWriteEntry) (w : FULMFileWriter)
  : FULMFileWriter :=
  let FileGroups := fold_left AddToFileGroups Batch [] in
  let w1 :=
    fold_left
      (fun w0 FileGroup =>
         WriteToFile (fst FileGroup) (CombinedContent (snd FileGroup)) w0)
      FileGroups w in
  let d := Diagnostics w1 in
  with_file_diagnostics
    (mkFileIODiagnostics (WriteCount d) (Increment (BatchCount d))
                         (FailedWrites d) (TotalBytesWritten d)
                         (wrap32 (TotalWriteTime d + wrap32 WriteTimeMicros)))
    w1.

(** [FULMFileWriter::ProcessWriteQueue]. *)
Definition ProcessWriteQueue (WriteTimeMicros : Z) (w : FULMFileWriter)
  : FULMFileWriter :=
  match WriteQueue w with
  | [] => w
  | _ =>
      let Batch := take (Z.to_nat (BatchSize w)) (WriteQueue w) in
      let w1 :=
        with_write_queue (drop (Z.to_nat (BatchSize w)) (WriteQueue w)) w in
      if 0 <? Z.of_nat (length Batch)
      then ProcessBatch WriteTimeMicros Batch w1
      else w1
  end.

(** [FULMFileWriter::CloseAllFiles]. *)
Definition CloseAllFiles (w : FULMFileWriter) : FULMFileWriter :=
  mkFileWriter (BatchSize w) (WriteQueue w) [] (Serialized w)
               (Diagnostics w).

(** [FULMFileWriter::Run].  Each element of [others] is the write time
    of one pass of the loop and what the other threads do to the writer
    before the next reading of [bStopRequested], which finds it false
    but for the last one. *)
Fixpoint Run (others : list (Z * (FULMFileWriter -> FULMFileWriter)))
    (LastWriteTimeMicros : Z) (w : FULMFileWriter) : FULMFileWriter :=
  match others with
  | [] => CloseAllFiles (ProcessWriteQueue LastWriteTimeMicros w)
  | other :: rest =>
      Run rest LastWriteTimeMicros
          (snd other (ProcessWriteQueue (fst other) w))
  end.

End Writer.

End ULMFileWriter.

(** ** Logging/ULMLogging.h: the cache of channel states and [ULM_LOG] *)
Module ULMLogMacros.

Import ULMLogging.

(** [ULMInternal::FCachedChannelState]. *)
Record FCachedChannelState := mkCachedChannelState {
  cached_bEnabled : bool;
  cached_MinVerbosity : EULMVerbosity;
  cached_MaxLogEntries : Z;
  cached_bIsValid : bool
}.

(** [FCachedChannelState()] and [FCachedChannelState(State)]. *)
Definition FCachedChannelState_default : FCachedChannelState :=
  mkCachedChannelState false Message 1000 false.

Definition FCachedChannelState_of (State : FULMChannelState)
  : FCachedChannelState :=
  mkCachedChannelState (bEffectiveEnabled State)
                       (EffectiveMinVerbosity State)
                       (EffectiveMaxEntries State) true.

(** The three thread-local variables.  A registry pointer is an address,
    [None] for the null pointer. *)
Record FThreadCache := mkThreadCache {
  ChannelStateCache : gmap string FCachedChannelState;
  LastCacheFlush : Q;
  LastRegistryPtr : option Z
}.

Definition FThreadCache_new : FThreadCache := mkThreadCache ∅ 0 None.

(** [ULMInternal::GetCachedChannelState]: the answer, [OutState] and the
    cache.  [Registry] is what [GULMChannelRegistry] points to, with its
    address; [CurrentTime] is the reading of [FPlatformTime::Seconds()]. *)
Definition GetCachedChannelState (CurrentTime : Q)
    (Registry : option (Z * FULMChannelRegistry)) (ChannelName : string)
    (OutState : FCachedChannelState) (c : FThreadCache)
  : bool * FCachedChannelState * FThreadCache :=
  let RegistryPtr := fst <$> Registry in
  let c1 :=
    if negb (bool_decide (RegistryPtr = LastRegistryPtr c))
       || Qlt_bool 5 (CurrentTime - LastCacheFlush c)
    then mkThreadCache ∅ CurrentTime RegistryPtr
    else c in
  match Registry with
  | None => (false, OutState, c1)
  | Some (_, reg) =>
      match ChannelStateCache c1 !! FKey ChannelName with
      | Some CachedState => (cached_bIsValid CachedState, CachedState, c1)
      | None =>
          match GetChannelState ChannelName reg with
          | Some State =>
              let NewCachedState := FCachedChannelState_of State in
              (true, NewCachedState,
               mkThreadCache
                 (<[FKey ChannelName := NewCachedState]>
                    (ChannelStateCache c1))
                 (LastCacheFlush c1) (LastRegistryPtr c1))
          | None =>
              (false, OutState,
               mkThreadCache
                 (<[FKey ChannelName := FCachedChannelState_default]>
                    (ChannelStateCache c1))
                 (LastCacheFlush c1) (LastRegistryPtr c1))
          end
      end
  end.

(** [ULMInternal::IsValidVerbosity] and [ULMInternal::IsValidFormat]; the
    format is [None] for a null pointer. *)
Definition IsValidVerbosity (Verbosity : EULMVerbosity) : bool :=
  negb (verbosity_lt Verbosity Message)
  && negb (verbosity_lt Critical Verbosity).

Definition IsValidFormat (Format : option string) : bool :=
  match Format with
  | Some f =>
      (0 <? Z.of_nat (String.length f))
      && (Z.of_nat (String.length f) <=? 8192)
  | None => false
  end.

(** The macro [ULM_LOG].  [Msg] is what [FString::Printf] makes of the
    format and its arguments; [Ptr] is the address of the registry of the
    subsystem; [CacheSeconds] is the clock read for the cache and
    [Seconds] the one read by [ULMLogMessage]. *)
Definition ULM_LOG (Ptr : Z) (CacheSeconds Seconds : Q) (ctx : CallContext)
    (Channel : string) (Verbosity : EULMVerbosity) (Format : option string)
    (Msg : string) (FileName : option string) (LineNumber : Z)
    (st : FULMGlobals * FThreadCache) : FULMGlobals * FThreadCache :=
  if IsValidChannel Channel && IsValidVerbosity Verbosity
     && IsValidFormat Format then
    let Registry :=
      (fun reg => (Ptr, reg)) <$> GULMChannelRegistry (fst st) in
    let r := GetCachedChannelState CacheSeconds Registry Channel
                                   FCachedChannelState_default (snd st) in
    let CachedState := snd (fst r) in
    if fst (fst r) && cached_bEnabled CachedState
       && negb (verbosity_lt Verbosity (cached_MinVerbosity CachedState))
    then (ULMLogMessage Seconds ctx Channel Verbosity Msg FileName LineNumber
                        (fst st), snd r)
    else (fst st, snd r)
  else st.

End ULMLogMacros.

(** ** MemoryManagement/ULMLogRotation.cpp: [FULMRetentionManager] *)
Module ULMRetention.

(** [FString::StartsWith], [FString::EndsWith] and [FString::Right]; the
    comparisons ignore case. *)
Definition StartsWith (s Prefix : string) : bool :=
  negb (IsEmpty Prefix)
  && FString_eq (substring 0 (String.length Prefix) s) Prefix.

Definition EndsWith (s Suffix : string) : bool :=
  negb (IsEmpty Suffix)
  && (String.length Suffix <=? String.length s)%nat
  && FString_eq (substring (String.length s - String.length Suffix)
                           (String.length Suffix) s) Suffix.

Definition Right (n : nat) (s : string) : string :=
  substring (String.length s - n) n s.

(** [ETimespan::TicksPerDay]. *)
Definition TicksPerDay : Z := 864000000000.

(** The diagnostics that a cleanup updates: [FilesDeleted] (an [int32])
    and [BytesFreed] (an [int64]). *)
Record FULMRetentionManager := mkRetentionManager {
  RetentionConfig : FULMRotationConfig;
  LastCleanupTime : Z;
  FilesDeleted : Z;
  BytesFreed : Z;
  Deleted : list string
}.

(** The manager as its constructor leaves it; [Deleted] is the record of
    the files that [IFileManager::Delete] removed, the oldest first. *)
Definition FULMRetentionManager_new (MinValue : Z) : FULMRetentionManager :=
  mkRetentionManager FULMRotationConfig_default MinValue 0 0 [].

Section Retention.

(** The environment: the number of the day of a date in the calendar of
    [FDateTime], the time stamp of a file, its size, whether its deletion
    succeeds, and the reading of the clock when a file is examined, all
    in ticks. *)
Variable DayNumber : Z -> Z -> Z -> Z.
Variable GetTimeStamp : string -> Z.
Variable FileSize : string -> Z.
Variable Delete : string -> bool.
Variable NowAt : string -> Z.

(** [FULMRetentionManager::IsLogFile]. *)
Definition IsLogFile (FilePath' : string) : bool :=
  let FileName := GetCleanFilename FilePath' in
  StartsWith FileName "ULM_" && EndsWith FileName ".json".

(** [FULMRetentionManager::GetFileCreationDate], in ticks: the midnight
    of the date in the name, or the time stamp of the file. *)
Definition GetFileCreationDate (FilePath' : string) : Z :=
  let FileName := GetCleanFilename FilePath' in
  match ParseIntoArray FileName "_" with
  | _ :: _ :: DateString :: _ =>
      if (String.length DateString =? 8)%nat then
        let Year' := Atoi (Left 4 DateString) in
        let Month' := Atoi (substring 4 2 DateString) in
        let Day' := Atoi (Right 2 DateString) in
        DayNumber Year' Month' Day' * TicksPerDay
      else GetTimeStamp FilePath'
  | _ => GetTimeStamp FilePath'
  end.

(** [FULMRetentionManager::IsFileExpired]. *)
Definition IsFileExpired (FilePath' : string) (m : FULMRetentionManager)
  : bool :=
  let FileDate := GetFileCreationDate FilePath' in
  let CutoffDate :=
    NowAt FilePath' - RetentionDays (RetentionConfig m) * TicksPerDay in
  FileDate <? CutoffDate.

(** [FULMRetentionManager::GetExpiredFiles]; [LogFiles] is what
    [FindFiles] lists in the directory. *)
Definition GetExpiredFiles (LogFiles : list string) (BaseLogPath : string)
    (m : FULMRetentionManager) : list string :=
  List.filter (fun FullPath => IsLogFile FullPath && IsFileExpired FullPath m)
              (map (PathAppend BaseLogPath) LogFiles).

(** [FULMRetentionManager::DeleteExpiredFiles]: whether every deletion
    succeeded, and the manager. *)
Definition DeleteExpiredFiles (FilesToDelete : list string)
    (m : FULMRetentionManager) : bool * FULMRetentionManager :=
  let r :=
    fold_left
      (fun acc FilePath' =>
         let '(FilesDeleted', BytesFreed', bAllSuccess, Deleted') := acc in
         if Delete FilePath'
         then (wrap32 (FilesDeleted' + 1),
               wrap64 (BytesFreed' + FileSize FilePath'),
               bAllSuccess, Deleted' ++ [FilePath'])
         else (FilesDeleted', BytesFreed', false, Deleted'))
      FilesToDelete (0, 0, true, Deleted m) in
  let '(FilesDeleted', BytesFreed', bAllSuccess, Deleted') := r in
  (bAllSuccess,
   mkRetentionManager (RetentionConfig m) (LastCleanupTime m)
                      (wrap32 (FilesDeleted m + FilesDeleted'))
                      (wrap64 (BytesFreed m + BytesFreed'))
                      Deleted').

(** [FULMRetentionManager::PerformCleanup]; [Now] is the clock read at
    its end. *)
Definition PerformCleanup (LogFiles : list string) (BaseLogPath : string)
    (Now : Z) (m : FULMRetentionManager) : FULMRetentionManager :=
  if RetentionDays (RetentionConfig m) <=? 0 then m
  else
    let ExpiredFiles := GetExpiredFiles LogFiles BaseLogPath m in
    let m1 :=
      if 0 <? Z.of_nat (length ExpiredFiles)
      then snd (DeleteExpiredFiles ExpiredFiles m)
      else m in
    mkRetentionManager (RetentionConfig m1) Now (FilesDeleted m1)
                       (BytesFreed m1) (Deleted m1).

End Retention.

End ULMRetention.

(** ** Configuration/ULMSettings.h and Configuration/ULMSettings.cpp *)
Module ULMSettings.

Inductive EULMPerformanceTier := Production | Development | Debug | Custom.

(** [FULMJSONConfig] (declared in FileIO/ULMJSONFormat.h). *)
Record FULMJSONConfig := mkJSONConfig {
  bIncludeSessionId : bool;
  bIncludeBuildVersion : bool;
  bIncludeSourceLocation : bool;
  bCompactFormat : bool;
  CustomFields : list (string * string)
}.

(** [UULMSettings]. *)
Record UULMSettings := mkSettings {
  PerformanceTier : EULMPerformanceTier;
  settings_bEnabled : bool;
  bFileLoggingEnabled : bool;
  CustomLogDirectory : string;
  MaxQueueSize : Z;
  QueueHealthThreshold : Q;
  BatchProcessingSize : Z;
  MemoryBudgetMB : Z;
  MemoryTrimThreshold : Q;
  EmergencyTrimPercentage : Q;
  JSONConfig : FULMJSONConfig;
  RotationConfig : FULMRotationConfig;
  DefaultChannelConfig : FULMChannelConfig;
  bAutoRegisterChannels : bool;
  FileWriterFlushInterval : Q;
  ThreadSleepTimeMs : Z;
  bEnableSystemHealthMonitoring : bool
}.

(** The assignments to the three members of [DefaultChannelConfig]. *)
Definition set_channel_defaults (en : bool) (v : EULMVerbosity) (m : Z)
    (c : FULMChannelConfig) : FULMChannelConfig :=
  mkConfig en v (DisplayColor c) (RateLimit c) m (bInheritFromParent c).

(** The assignments to the four flags of [JSONConfig]. *)
Definition set_json_flags (a b c d : bool) (j : FULMJSONConfig)
  : FULMJSONConfig :=
  mkJSONConfig a b c d (CustomFields j).

(** [UULMSettings::ApplyProductionTier]. *)
Definition ApplyProductionTier (s : UULMSettings) : UULMSettings :=
  mkSettings (PerformanceTier s) true true (CustomLogDirectory s)
    5000 (6 # 10) 32 25 (7 # 10) (5 # 10)
    (set_json_flags true true false true (JSONConfig s))
    (mkRotationConfig (50 * 1024 * 1024) 3 5 true true 12)
    (set_channel_defaults true Warning 500 (DefaultChannelConfig s))
    true 2 50 true.

(** [UULMSettings::ApplyDevelopmentTier]. *)
Definition ApplyDevelopmentTier (s : UULMSettings) : UULMSettings :=
  mkSettings (PerformanceTier s) true true (CustomLogDirectory s)
    10000 (8 # 10) 64 50 (8 # 10) (6 # 10)
    (set_json_flags true true true true (JSONConfig s))
    (mkRotationConfig (100 * 1024 * 1024) 7 10 true true 24)
    (set_channel_defaults true Message 1000 (DefaultChannelConfig s))
    true 5 100 true.

(** [UULMSettings::ApplyDebugTier]. *)
Definition ApplyDebugTier (s : UULMSettings) : UULMSettings :=
  mkSettings (PerformanceTier s) true true (CustomLogDirectory s)
    20000 (9 # 10) 128 100 (9 # 10) (7 # 10)
    (set_json_flags true true true false (JSONConfig s))
    (mkRotationConfig (200 * 1024 * 1024) 14 20 true true 48)
    (set_channel_defaults true Message 5000 (DefaultChannelConfig s))
    true 10 200 true.

(** [FMath::Abs] and [FMath::IsNearlyEqual] with the default
    tolerance. *)
Definition FMath_AbsQ (A : Q) : Q := if Qlt_bool A 0 then (- A)%Q else A.

Definition IsNearlyEqual (A B : Q) : bool :=
  Qle_bool (FMath_AbsQ (A - B)) (1 # 100000000).

Definition verbosity_eqb (a b : EULMVerbosity) : bool :=
  verbosity_value a =? verbosity_value b.

(** [UULMSettings::DoesCurrentConfigMatchTier]. *)
Definition DoesCurrentConfigMatchTier (Tier : EULMPerformanceTier)
    (s : UULMSettings) : bool :=
  match Tier with
  | Production =>
      (MemoryBudgetMB s =? 25)
      && Bool.eqb (bFileLoggingEnabled s) true
      && (MaxQueueSize s =? 5000)
      && IsNearlyEqual (QueueHealthThreshold s) (6 # 10)
      && (BatchProcessingSize s =? 32)
      && IsNearlyEqual (MemoryTrimThreshold s) (7 # 10)
      && (MaxFileSizeBytes (RotationConfig s) =? 50 * 1024 * 1024)
      && (RetentionDays (RotationConfig s) =? 3)
      && verbosity_eqb (MinVerbosity (DefaultChannelConfig s)) Warning
      && (MaxLogEntries (DefaultChannelConfig s) =? 500)
  | Development =>
      (MemoryBudgetMB s =? 50)
      && Bool.eqb (bFileLoggingEnabled s) true
      && (MaxQueueSize s =? 10000)
      && IsNearlyEqual (QueueHealthThreshold s) (8 # 10)
      && (BatchProcessingSize s =? 64)
      && IsNearlyEqual (MemoryTrimThreshold s) (8 # 10)
      && (MaxFileSizeBytes (RotationConfig s) =? 100 * 1024 * 1024)
      && (RetentionDays (RotationConfig s) =? 7)
      && verbosity_eqb (MinVerbosity (DefaultChannelConfig s)) Message
      && (MaxLogEntries (DefaultChannelConfig s) =? 1000)
  | Debug =>
      (MemoryBudgetMB s =? 100)
      && Bool.eqb (bFileLoggingEnabled s) true
      && (MaxQueueSize s =? 20000)
      && IsNearlyEqual (QueueHealthThreshold s) (9 # 10)
      && (BatchProcessingSize s =? 128)
      && IsNearlyEqual (MemoryTrimThreshold s) (9 # 10)
      && (MaxFileSizeBytes (RotationConfig s) =? 200 * 1024 * 1024)
      && (RetentionDays (RotationConfig s) =? 14)
      && verbosity_eqb (MinVerbosity (DefaultChannelConfig s)) Message
      && (MaxLogEntries (DefaultChannelConfig s) =? 5000)
  | Custom => true
  end.

Definition set_PerformanceTier (t : EULMPerformanceTier) (s : UULMSettings)
  : UULMSettings :=
  mkSettings t (settings_bEnabled s) (bFileLoggingEnabled s)
    (CustomLogDirectory s) (MaxQueueSize s) (QueueHealthThreshold s)
    (BatchProcessingSize s) (MemoryBudgetMB s) (MemoryTrimThreshold s)
    (EmergencyTrimPercentage s) (JSONConfig s) (RotationConfig s)
    (DefaultChannelConfig s) (bAutoRegisterChannels s)
    (FileWriterFlushInterval s) (ThreadSleepTimeMs s)
    (bEnableSystemHealthMonitoring s).

(** [UULMSettings::SwitchToCustomTierIfNeeded]. *)
Definition SwitchToCustomTierIfNeeded (ChangedPropertyName : string)
    (s : UULMSettings) : UULMSettings :=
  match PerformanceTier s with
  | Custom => s
  | Tier =>
      if FString_eq ChangedPropertyName "PerformanceTier" then s
      else if negb (DoesCurrentConfigMatchTier Tier s)
      then set_PerformanceTier Custom s
      else s
  end.

(** The settings that [UULMSettings::ApplyPerformanceTierInternal]
    leaves; what it passes on to the running subsystem is left out. *)
Definition ApplyPerformanceTierInternal (s : UULMSettings) : UULMSettings :=
  match PerformanceTier s with
  | Production => ApplyProductionTier s
  | Development => ApplyDevelopmentTier s
  | Debug => ApplyDebugTier s
  | Custom => s
  end.

(** [UULMSettings::UULMSettings()], from the values [s] that the members
    have before the body runs. *)
Definition UULMSettings_new (s : UULMSettings) : UULMSettings :=
  ApplyDevelopmentTier (set_PerformanceTier Development s).

End ULMSettings.

(** ** Logging/ULMLogging.cpp: [FULMStructuredLog] *)
Module ULMStructuredLog.

Import ULMLogging.

Record FULMStructuredLog := mkStructuredLog {
  log_ChannelName : string;
  log_Verbosity : EULMVerbosity;
  log_FileName : string;
  log_LineNumber : Z;
  log_FunctionName : string;
  Fields : list (string * string);
  bCommitted : bool
}.

(** The constructor. *)
Definition FULMStructuredLog_new (InChannelName : string)
    (InVerbosity : EULMVerbosity) (InFileName : string) (InLineNumber : Z)
    (InFunctionName : string) : FULMStructuredLog :=
  mkStructuredLog InChannelName InVerbosity InFileName InLineNumber
                  InFunctionName [] false.

(** [TMap<FString, FString>::Emplace]: the pair of a key that the map
    holds (whatever the letter case) is replaced where it stands, a new
    key comes last. *)
Definition Emplace (Key Value : string) (m : list (string * string))
  : list (string * string) :=
  let same := fun kv : string * string => FString_eq (fst kv) Key in
  if existsb same m
  then update_first same (fun _ => (Key, Value)) m
  else m ++ [(Key, Value)].

(** [FULMStructuredLog::Add] for a string; the other overloads convert
    their value to a string first. *)
Definition Add (Key Value : string) (l : FULMStructuredLog)
  : FULMStructuredLog :=
  mkStructuredLog (log_ChannelName l) (log_Verbosity l) (log_FileName l)
                  (log_LineNumber l) (log_FunctionName l)
                  (Emplace Key Value (Fields l)) (bCommitted l).

(** The loop of [Commit] over the fields. *)
Definition StructuredMessage (Fields' : list (string * string)) : string :=
  fold_left
    (fun Message' Field =>
       ((if negb (IsEmpty Message') then Message' ++ ", " else Message')
        ++ (fst Field ++ "=" ++ snd Field))%string)
    Fields' EmptyString.

Definition FinalMessage (l : FULMStructuredLog) : string :=
  if negb (IsEmpty (log_FunctionName l))
  then (log_FunctionName l ++ ": " ++ StructuredMessage (Fields l))%string
  else StructuredMessage (Fields l).

Section Commit.

(** [__FILE__] and [__LINE__] in [Commit]. *)
Variable ThisFile : string.
Variable ThisLine : Z.

(** [FULMStructuredLog::Commit]; [Seconds] and [ctx] are the readings of
    the clocks in [ULMLogMessage]. *)
Definition Commit (Seconds : Q) (ctx : CallContext)
    (st : FULMStructuredLog * FULMGlobals)
  : FULMStructuredLog * FULMGlobals :=
  let l := fst st in
  if bCommitted l then st
  else
    let FileNameCStr :=
      if IsEmpty (log_FileName l) then ThisFile else log_FileName l in
    let LogLineNumber :=
      if 0 <? log_LineNumber l then log_LineNumber l else ThisLine in
    (mkStructuredLog (log_ChannelName l) (log_Verbosity l) (log_FileName l)
                     (log_LineNumber l) (log_FunctionName l) (Fields l) true,
     ULMLogMessage Seconds ctx (log_ChannelName l) (log_Verbosity l)
                   (FinalMessage l) (Some FileNameCStr) LogLineNumber
                   (snd st)).

(** The destructor: the globals that it leaves. *)
Definition Destroy (Seconds : Q) (ctx : CallContext)
    (st : FULMStructuredLog * FULMGlobals) : FULMGlobals :=
  if negb (bCommitted (fst st)) then snd (Commit Seconds ctx st)
  else snd st.

End Commit.

End ULMStructuredLog.

(* ===================================================================== *)
(** * Part III: further properties of the code                            *)
(* ===================================================================== *)

(** ** The token bucket over a run of calls *)

(** The number of admitted calls. *)
Definition admitted (answers : list bool) : Z :=
  Z.of_nat (length (List.filter id answers)).

(** Clock readings, [double]s, that do not go back, from [t] on. *)
Fixpoint clock_from (t : Q) (calls : list (EULMVerbosity * Q)) : Prop :=
  match calls with
  | [] => True
  | call :: rest =>
      (t <= snd call)%Q /\ format64 (snd call) /\ clock_from (snd call) rest
  end.

(** The reading of the last call. *)
Definition last_reading (t : Q) (calls : list (EULMVerbosity * Q)) : Q :=
  List.last (map snd calls) t.

Lemma last_cons_default {X : Type} (l : list X) :
  forall a d d' : X, List.last (a :: l) d = List.last (a :: l) d'.
Proof.
  induction l as [|b l IH]; intros a d d'; [done|].
  change (List.last (a :: b :: l) d) with (List.last (b :: l) d).
  change (List.last (a :: b :: l) d') with (List.last (b :: l) d').
  apply IH.
Qed.

Lemma last_reading_cons (t : Q) (call : EULMVerbosity * Q)
    (calls : list (EULMVerbosity * Q)) :
  last_reading t (call :: calls) = last_reading (snd call) calls.
Proof.
  unfold last_reading. cbn [map].
  destruct (map snd calls) as [|q l]; [done|].
  change (List.last (snd call :: q :: l) t) with (List.last (q :: l) t).
  apply last_cons_default.
Qed.

(** A bucket of the limit [lim] that was never used, or that was used at
    or before [t], at a reading of the clock, and holds a [float] between
    zero and its capacity. *)
Definition bucket_at (lim : FULMRateLimit) (t : Q) (s : FULMChannelState)
  : Prop :=
  EffectiveRateLimit s = lim
  /\ ((LastRefillTime s == 0)%Q
      \/ (0 < LastRefillTime s)%Q /\ (LastRefillTime s <= t)%Q
         /\ format64 (LastRefillTime s)
         /\ (0 <= CurrentTokens s)%Q
         /\ (CurrentTokens s <= inject_Z (BurstCapacity lim))%Q
         /\ format32 (CurrentTokens s)).

(** The rate at which the rounded refills add tokens at most: the rate of
    the limit and [2^-23] of it. *)
Definition rounded_rate (lim : FULMRateLimit) : Q :=
  TokensPerSecond lim * (8388609 # 8388608).

(** What the roundings of one call add at most: [2^-24] of the capacity
    and [2^-148]. *)
Definition rounding_slack (lim : FULMRateLimit) : Q :=
  inject_Z (BurstCapacity lim) * (1 # 16777216) + pow2 (-148).

(** The tokens that a call at [t] can find in the bucket, the roundings
    of that call apart. *)
Definition available (lim : FULMRateLimit) (t : Q) (s : FULMChannelState)
  : Q :=
  if Qeq_bool (LastRefillTime s) 0 then inject_Z (BurstCapacity lim)
  else Qmin (CurrentTokens s + (t - LastRefillTime s) * rounded_rate lim)
            (inject_Z (BurstCapacity lim)).

Section RateBound.

Variable lim : FULMRateLimit.

Local Abbreviation Rate := (TokensPerSecond lim).
Local Abbreviation Cap := (inject_Z (BurstCapacity lim)).

Hypothesis Hrate : (0 <= Rate)%Q.
Hypothesis Hfinite : (Rate < inject_Z (2 ^ 128))%Q.
Hypothesis Hcap : 0 <= BurstCapacity lim <= 2 ^ 24.

Lemma Cap_nonneg : (0 <= Cap)%Q.
Proof using Hcap. apply inject_Z_nonneg. lia. Qed.

Lemma rounded_rate_nonneg : (0 <= rounded_rate lim)%Q.
Proof using Hrate. unfold rounded_rate. lra. Qed.

Lemma rounding_slack_nonneg : (0 <= rounding_slack lim)%Q.
Proof using Hcap.
  unfold rounding_slack. pose proof Cap_nonneg. pose proof (pow2_pos (-148)).
  lra.
Qed.

Lemma available_nonneg t s : bucket_at lim t s -> (0 <= available lim t s)%Q.
Proof using Hrate Hcap.
  pose proof Cap_nonneg as HC. pose proof rounded_rate_nonneg as HR.
  intros (_ & [Hz | (Hpos & Hle & _ & Htok & _)]); unfold available.
  - apply Qeq_bool_iff in Hz. by rewrite Hz.
  - rewrite Qeq_bool_false by lra.
    assert (0 <= (t - LastRefillTime s) * rounded_rate lim)%Q
      by (apply Qmult_le_0_compat; lra).
    apply Q.min_glb; lra.
Qed.

Lemma available_le_cap t s : (available lim t s <= Cap)%Q.
Proof.
  unfold available. destruct (Qeq_bool _ _); [lra | apply Q.le_min_r].
Qed.

(** Waiting adds at most the elapsed time times the rounded rate. *)
Lemma available_later t t' s :
  (t <= t')%Q -> bucket_at lim t s ->
  (available lim t' s <= available lim t s + (t' - t) * rounded_rate lim)%Q.
Proof using Hrate Hcap.
  pose proof rounded_rate_nonneg as HR.
  intros Hle (_ & Hcase).
  assert (0 <= (t' - t) * rounded_rate lim)%Q as Hgain
    by (apply Qmult_le_0_compat; lra).
  unfold available. destruct (Qeq_bool (LastRefillTime s) 0); [lra|].
  set (a := (CurrentTokens s + (t - LastRefillTime s) * rounded_rate lim)%Q).
  assert (CurrentTokens s + (t' - LastRefillTime s) * rounded_rate lim
          == a + (t' - t) * rounded_rate lim)%Q as -> by (unfold a; ring).
  destruct (Q.min_spec a Cap) as [[H1 ->]|[H1 ->]].
  - apply Q.le_min_l.
  - eapply Qle_trans; [apply Q.le_min_r|]. lra.
Qed.

Lemma Cap_float : (IntToFloat (BurstCapacity lim) == Cap)%Q.
Proof using Hcap. unfold IntToFloat. by apply RoundFloat_inject_Z. Qed.

Lemma FMath_MinQ_format32 (a b : Q) :
  format32 a -> format32 b -> format32 (FMath_MinQ a b).
Proof. intros. unfold FMath_MinQ. by destruct (Qlt_bool a b). Qed.

(** The refill of a call at [t'] leaves in the bucket at most what was
    available and the roundings added. *)
Lemma RefillTokens_available t' s :
  (0 < t')%Q -> format64 t' -> bucket_at lim t' s ->
  let s1 := ULMChannelFloat.RefillTokens t' s in
  same_settings s s1
  /\ (LastRefillTime s1 == t')%Q
  /\ format64 (LastRefillTime s1)
  /\ (0 <= CurrentTokens s1)%Q
  /\ (CurrentTokens s1 <= Cap)%Q
  /\ format32 (CurrentTokens s1)
  /\ (CurrentTokens s1 <= available lim t' s + rounding_slack lim)%Q.
Proof using Hrate Hfinite Hcap.
  intros Ht' Hf' (Hrl & Hcase). cbn zeta.
  pose proof Cap_nonneg as HC. pose proof Cap_float as HCf.
  pose proof rounding_slack_nonneg as Hslack.
  unfold ULMChannelFloat.RefillTokens, available.
  destruct (Qeq_bool (LastRefillTime s) 0) eqn:Hz.
  - rewrite Hrl. cbn [set_bucket LastRefillTime CurrentTokens].
    split; [by repeat split|]. split; [reflexivity|]. split; [done|].
    split; [lra|]. split; [lra|].
    split; [apply RoundFloat_format; exact HC | lra].
  - destruct Hcase as [Hz' | (Hpos & Hl & Hfl & Htok & Hfull & Hft)].
    { apply Qeq_bool_iff in Hz'. congruence. }
    rewrite Hrl.
    set (E := (t' - LastRefillTime s)%Q).
    assert (0 <= E)%Q as HE by (unfold E; lra).
    destruct (Qlt_bool 0 (RoundDouble E)) eqn:Hd.
    + destruct (TokensToAdd_accuracy E Rate HE Hrate Hfinite) as [_ Hadd].
      cbn zeta in Hadd.
      assert (0 <= RoundFloat (RoundDouble (RoundDouble E * Rate)))%Q
        as Hadd0.
      { apply RoundFloat_nonneg, RoundDouble_nonneg.
        apply Qmult_le_0_compat; [by apply RoundDouble_nonneg | done]. }
      set (add := RoundFloat (RoundDouble (RoundDouble E * Rate))) in *.
      assert (0 <= CurrentTokens s + add)%Q as Hx0 by lra.
      destruct (RoundFloat_error _ Hx0) as [_ Hsum].
      pose proof (RoundFloat_nonneg _ Hx0) as Hsum0.
      pose proof (RoundFloat_format _ Hx0) as Hsumf.
      set (sum := RoundFloat (CurrentTokens s + add)) in *.
      cbn [set_bucket LastRefillTime CurrentTokens].
      split; [by repeat split|]. split; [reflexivity|]. split; [done|].
      split; [apply FMath_MinQ_glb; lra|].
      split; [pose proof (FMath_MinQ_le_r sum
                            (IntToFloat (BurstCapacity lim))); lra|].
      split.
      { apply FMath_MinQ_format32; [done|].
        unfold IntToFloat. apply RoundFloat_format. exact HC. }
      assert (pow2 (-149) * (16777217 # 16777216) + pow2 (-150)
              <= pow2 (-148))%Q as Htiny.
      { assert (pow2 (-149) == pow2 (-150) * 2)%Q as -> by reflexivity.
        assert (pow2 (-148) == pow2 (-150) * 4)%Q as -> by reflexivity.
        pose proof (pow2_pos (-150)). lra. }
      unfold rounding_slack, rounded_rate.
      assert (E * (Rate * (8388609 # 8388608))
              == E * Rate * (8388609 # 8388608))%Q as -> by ring.
      set (y := (E * Rate * (8388609 # 8388608))%Q) in *.
      destruct (Q.min_spec (CurrentTokens s + y) Cap) as [[H1 ->]|[H1 ->]].
      * pose proof (FMath_MinQ_le_l sum (IntToFloat (BurstCapacity lim)))
          as Hmin.
        set (p148 := pow2 (-148)) in *. set (p149 := pow2 (-149)) in *.
        set (p150 := pow2 (-150)) in *.
        clearbody p148 p149 p150 sum add y.
        clear - Hmin Hsum Hadd Htiny H1. lra.
      * pose proof (FMath_MinQ_le_r sum (IntToFloat (BurstCapacity lim)))
          as Hmin.
        pose proof (pow2_pos (-148)) as Hp.
        clear - Hmin HCf HC Hp. lra.
    + assert (LastRefillTime s == t')%Q as Hsame.
      { destruct (Qlt_le_dec (LastRefillTime s) t') as [Hlt|Hge]; [|lra].
        pose proof (RoundDouble_difference_positive t' (LastRefillTime s)
                      Hf' Hfl Hlt) as Hp.
        fold E in Hp. apply Qlt_bool_iff in Hp. congruence. }
      split; [apply same_settings_refl|]. split; [done|]. split; [done|].
      split; [done|]. split; [done|]. split; [done|].
      assert (E * rounded_rate lim == 0)%Q as ->.
      { unfold E. rewrite Hsame. ring. }
      rewrite Q.min_l by lra. lra.
Qed.

(** One call: the bucket stays well formed, and what the call takes comes
    out of what was available, of what the clock added and of the
    roundings. *)
Lemma CanLog_available (v : EULMVerbosity) (t t' : Q) (s : FULMChannelState) :
  (0 < t')%Q -> (t <= t')%Q -> format64 t' -> bucket_at lim t s ->
  let r := ULMChannelFloat.CanLog v t' s in
  bucket_at lim t' (snd r)
  /\ ((if fst r then 1 else 0) + available lim t' (snd r)
      <= available lim t s + (t' - t) * rounded_rate lim
         + rounding_slack lim)%Q.
Proof using Hrate Hfinite Hcap.
  intros Ht' Hle Hf' Hb.
  pose proof rounding_slack_nonneg as Hslack.
  assert (bucket_at lim t' s) as Hb'.
  { destruct Hb as (Hrl & Hcase). split; [done|].
    destruct Hcase as [Hz | (Hpos & Hl & Htok)];
      [by left | right; repeat split; try tauto; lra]. }
  pose proof (available_later t t' s Hle Hb) as Hmono.
  cbn zeta. unfold ULMChannelFloat.CanLog.
  destruct (negb (bEffectiveEnabled s)
            || verbosity_lt v (EffectiveMinVerbosity s)); cbn [fst snd].
  { split; [done | lra]. }
  destruct (RefillTokens_available t' s Ht' Hf' Hb')
    as (Hset & Hl1 & Hfl1 & Htok0 & Htok1 & Hft1 & Hav).
  assert (EffectiveRateLimit (ULMChannelFloat.RefillTokens t' s) = lim)
    as Hrl1.
  { destruct Hb as (Hrl & _). destruct Hset as (_ & _ & ->). exact Hrl. }
  set (s1 := ULMChannelFloat.RefillTokens t' s) in *.
  assert ((t' - LastRefillTime s1) * rounded_rate lim == 0)%Q as Hz.
  { assert (t' - LastRefillTime s1 == 0)%Q as -> by lra. ring. }
  destruct (Qle_bool 1 (CurrentTokens s1)) eqn:Hone; cbn [fst snd].
  - apply Qle_bool_iff in Hone.
    assert (RoundFloat (CurrentTokens s1 - 1) == CurrentTokens s1 - 1)%Q
      as Hexact.
    { apply RoundFloat_exact; [lra|].
      apply format32_minus_one; [done | done |].
      assert (Cap <= inject_Z (2 ^ 24))%Q by (rewrite <- Zle_Qle; lia).
      lra. }
    split.
    + split; [done|]. right. cbn [set_bucket LastRefillTime CurrentTokens].
      split; [lra|]. split; [lra|]. split; [done|].
      split; [lra|]. split; [lra|].
      apply RoundFloat_format. lra.
    + unfold available at 1. cbn [set_bucket LastRefillTime CurrentTokens].
      rewrite Qeq_bool_false by lra.
      eapply Qle_trans;
        [|apply Qplus_le_compat; [exact Hmono | apply Qle_refl]].
      pose proof (Q.le_min_l
                    (RoundFloat (CurrentTokens s1 - 1)
                     + (t' - LastRefillTime s1) * rounded_rate lim) Cap).
      lra.
  - split.
    + split; [done|]. right. repeat split; try done; lra.
    + unfold available at 1. rewrite Qeq_bool_false by lra.
      eapply Qle_trans;
        [|apply Qplus_le_compat; [exact Hmono | apply Qle_refl]].
      pose proof (Q.le_min_l
                    (CurrentTokens s1
                     + (t' - LastRefillTime s1) * rounded_rate lim) Cap).
      lra.
Qed.

(** A run of calls takes no more than what was available at its start,
    what the clock adds until its end, and what the roundings add. *)
Lemma CanLog_calls_available (calls : list (EULMVerbosity * Q)) :
  forall (t : Q) (s : FULMChannelState),
    (0 < t)%Q -> clock_from t calls -> bucket_at lim t s ->
    let r := ULMChannelFloat.CanLog_calls calls s in
    bucket_at lim (last_reading t calls) (snd r)
    /\ (inject_Z (admitted (fst r))
        + available lim (last_reading t calls) (snd r)
        <= available lim t s
           + (last_reading t calls - t) * rounded_rate lim
           + inject_Z (Z.of_nat (length calls)) * rounding_slack lim)%Q.
Proof using Hrate Hfinite Hcap.
  induction calls as [|[v t'] calls IH]; intros t s Ht Hclock Hb.
  - simpl. unfold last_reading, admitted. simpl. split; [done|].
    change (inject_Z (Z.of_nat 0)) with 0%Q. lra.
  - destruct Hclock as (Hle & Hf' & Hclock). simpl in Hle, Hf', Hclock.
    assert (0 < t')%Q as Ht' by lra.
    destruct (CanLog_available v t t' s Ht' Hle Hf' Hb) as (Hb1 & Hstep).
    cbn [ULMChannelFloat.CanLog_calls fst snd].
    set (r1 := ULMChannelFloat.CanLog v t' s) in *.
    destruct (IH t' (snd r1) Ht' Hclock Hb1) as (Hb2 & Hrest).
    assert (last_reading t ((v, t') :: calls) = last_reading t' calls) as ->.
    { apply last_reading_cons. }
    cbn zeta. cbn [fst snd]. split; [done|].
    assert (inject_Z
              (admitted
                 (fst r1 :: fst (ULMChannelFloat.CanLog_calls calls (snd r1))))
            == (if fst r1 then 1 else 0)
               + inject_Z
                   (admitted
                      (fst (ULMChannelFloat.CanLog_calls calls (snd r1)))))%Q
      as ->.
    { unfold admitted. simpl. destruct (fst r1); simpl.
      - rewrite Nat2Z.inj_succ, <- Z.add_1_l, inject_Z_plus. reflexivity.
      - lra. }
    assert (inject_Z (Z.of_nat (length ((v, t') :: calls)))
            == 1 + inject_Z (Z.of_nat (length calls)))%Q as ->.
    { simpl length. rewrite Nat2Z.inj_succ, <- Z.add_1_l, inject_Z_plus.
      reflexivity. }
    lra.
Qed.

End RateBound.

(** The guarantee of the rate limiter, with the bucket in [float].  For a
    bucket of rate [0 <= R < 2^128] and capacity [0 <= C <= 2^24] that was
    never used, or was used before and holds a [float] between 0 and [C],
    a run of [n] calls of [CanLog] at positive clock readings, [double]s
    that do not go back, admits at most
    [C + R * (tn - t1) * (1 + 2^-23) + n * (C * 2^-24 + 2^-148)] calls,
    where [t1] and [tn] are the readings of the first and the last call:
    the burst, what the rate adds, and what the roundings of the refills
    add. *)
Theorem CanLog_admits_at_most_burst_plus_rate
    (s : FULMChannelState) (t1 : Q) (calls : list (EULMVerbosity * Q)) :
  let R := TokensPerSecond (EffectiveRateLimit s) in
  let C := inject_Z (BurstCapacity (EffectiveRateLimit s)) in
  let n := inject_Z (Z.of_nat (length calls)) in
  (0 <= R)%Q -> (R < inject_Z (2 ^ 128))%Q ->
  0 <= BurstCapacity (EffectiveRateLimit s) <= 2 ^ 24 ->
  (0 < t1)%Q -> clock_from t1 calls ->
  bucket_at (EffectiveRateLimit s) t1 s ->
  (inject_Z (admitted (fst (ULMChannelFloat.CanLog_calls calls s)))
   <= C + R * (last_reading t1 calls - t1) * (8388609 # 8388608)
      + n * (C * (1 # 16777216) + pow2 (-148)))%Q.
Proof.
  intros R C n HR HF HC Ht1 Hclock Hb.
  destruct (CanLog_calls_available (EffectiveRateLimit s) HR HF HC calls t1 s
              Ht1 Hclock Hb) as (Hb' & Hsum).
  pose proof (available_nonneg (EffectiveRateLimit s) HR HC _ _ Hb') as Hpos.
  pose proof (available_le_cap (EffectiveRateLimit s) t1 s) as Hfull.
  unfold rounded_rate, rounding_slack in Hsum.
  fold R C n in Hsum, Hfull.
  assert ((last_reading t1 calls - t1) * (R * (8388609 # 8388608))
          == R * (last_reading t1 calls - t1) * (8388609 # 8388608))%Q
    as E by ring.
  rewrite E in Hsum. lra.
Qed.

(** The theorem on a bucket of rate 2/s and capacity 3: of six calls, four
    at second 1 and two at second 2, five are admitted. *)
Lemma CanLog_admits_at_most_burst_plus_rate_witness :
  admitted
    (fst (ULMChannelFloat.CanLog_calls
            [(Message, 1); (Message, 1); (Message, 1); (Message, 1);
             (Message, 2); (Message, 2)]%Q
            (fresh_state (config_with_rate (FULMRateLimit_make 2 3)))))
  = 5
  /\ (5 <= 3 + 2 * (2 - 1) * (8388609 # 8388608)
           + 6 * (3 * (1 # 16777216) + pow2 (-148)))%Q.
Proof.
  split; [by vm_compute|].
  pose proof (CanLog_admits_at_most_burst_plus_rate
                (fresh_state (config_with_rate (FULMRateLimit_make 2 3))) 1
                [(Message, 1); (Message, 1); (Message, 1); (Message, 1);
                 (Message, 2); (Message, 2)]%Q) as H.
  cbn zeta in H. apply H.
  - vm_compute. discriminate.
  - reflexivity.
  - vm_compute. split; discriminate.
  - reflexivity.
  - assert (format64 1) as H1
      by (apply (format64_inject_Z 1); vm_compute; discriminate).
    assert (format64 2) as H2
      by (apply (format64_inject_Z 2); vm_compute; discriminate).
    simpl. repeat split; try done; vm_compute; discriminate.
  - split; [reflexivity|]. left. reflexivity.
Defined.

(** ** The ingestion queue and its estimated size *)

(** What happens to the queue when the calls do not overlap: a whole call
    of [StoreLogEntryInternal] by a producer, or a whole batch of the
    processor. *)
Inductive QueueStep :=
| Produce (ctx : CallContext) (Msg ChannelName : string)
          (Verbosity : EULMVerbosity)
| Consume.

Definition queue_step (P : Platform) (s : UULMSubsystem) (op : QueueStep)
  : UULMSubsystem :=
  match op with
  | Produce ctx Msg ChannelName Verbosity =>
      StoreLogEntryInternal ctx Msg ChannelName Verbosity s
  | Consume => ProcessBatch P s
  end.

(** The two counters account for the entries in the queue, and the queue
    is within its capacity. *)
Definition queue_consistent (s : UULMSubsystem) : Prop :=
  wrap32 (EnqueueCount (QueueDiagnostics s)
          - DequeueCount (QueueDiagnostics s))
  = Z.of_nat (length (LogMessageQueue s))
  /\ Z.of_nat (length (LogMessageQueue s)) <= MAX_QUEUE_SIZE.

Lemma wrap32_add_l (a b : Z) : wrap32 (wrap32 a + b) = wrap32 (a + b).
Proof.
  unfold wrap32. f_equal.
  set (m := (a + 2^31) mod 2^32).
  replace (m - 2^31 + b + 2^31) with (m + b) by lia.
  unfold m. rewrite Zplus_mod_idemp_l. f_equal. lia.
Qed.

Lemma wrap32_sub_r (a b : Z) : wrap32 (a - wrap32 b) = wrap32 (a - b).
Proof.
  unfold wrap32. f_equal.
  set (m := (b + 2^31) mod 2^32).
  replace (a - (m - 2^31) + 2^31) with (a + 2^32 - m) by lia.
  unfold m. rewrite Zminus_mod_idemp_r. f_equal. lia.
Qed.

(** The counters after an enqueue and after a dequeue, also when one of
    them wraps around. *)
Lemma pending_after_enqueue (E D n : Z) :
  wrap32 (E - D) = n -> n < 2^31 - 1 -> wrap32 (Increment E - D) = n + 1.
Proof.
  intros H Hn. unfold Increment.
  replace (wrap32 (E + 1) - D) with (wrap32 (E + 1) + - D) by lia.
  rewrite wrap32_add_l.
  replace (E + 1 + - D) with (E - D + 1) by lia.
  rewrite <- wrap32_add_l, H.
  pose proof (wrap32_range (E - D)). apply wrap32_small. lia.
Qed.

Lemma pending_after_dequeue (E D n : Z) :
  wrap32 (E - D) = n -> 0 < n -> wrap32 (E - Increment D) = n - 1.
Proof.
  intros H Hn. unfold Increment.
  rewrite wrap32_sub_r.
  replace (E - (D + 1)) with (E - D + - 1) by lia.
  rewrite <- wrap32_add_l, H.
  pose proof (wrap32_range (E - D)). apply wrap32_small. lia.
Qed.

Lemma StoreLogEntryInternal_consistent ctx Msg ChannelName Verbosity s :
  queue_consistent s ->
  queue_consistent (StoreLogEntryInternal ctx Msg ChannelName Verbosity s).
Proof.
  intros [Hcount Hcap]. unfold StoreLogEntryInternal.
  set (admission := match ChannelRegistry s with
                    | Some reg => _ | None => (true, s) end).
  assert (LogMessageQueue (snd admission) = LogMessageQueue s
          /\ QueueDiagnostics (snd admission) = QueueDiagnostics s)
    as [Hq Hd] by (unfold admission; by destruct (ChannelRegistry s)).
  assert (queue_consistent (snd admission)) as Hadm
    by (unfold queue_consistent; by rewrite Hq, Hd).
  destruct (negb (fst admission)); [done|].
  destruct (MAX_QUEUE_SIZE <=? GetQueueSize (snd admission)) eqn:Hfull.
  { unfold queue_consistent. simpl. by rewrite Hq, Hd. }
  apply Z.leb_gt in Hfull. unfold GetQueueSize in Hfull.
  rewrite Hd, Hcount in Hfull. unfold FMath_MaxZ in Hfull.
  assert (Z.of_nat (length (LogMessageQueue s)) < MAX_QUEUE_SIZE) as Hroom.
  { destruct (_ <? 0) eqn:E; [apply Z.ltb_lt in E; lia | done]. }
  destruct (ctx_EnqueueSucceeds ctx).
  - unfold queue_consistent. simpl. rewrite Hq, Hd, length_app. simpl.
    rewrite (pending_after_enqueue _ _ _ Hcount);
      unfold MAX_QUEUE_SIZE in *; lia.
  - unfold queue_consistent. simpl. by rewrite Hq, Hd.
Qed.

Lemma ProcessBatch_loop_consistent (P : Platform) (budget : nat) :
  forall s : UULMSubsystem,
    queue_consistent s -> queue_consistent (ProcessBatch_loop P budget s).
Proof.
  induction budget as [|budget IH]; intros s Hs; simpl; [done|].
  destruct (LogMessageQueue s) as [|Entry rest] eqn:Hq; [done|].
  apply IH. destruct Hs as [Hcount Hcap]. rewrite Hq in Hcount, Hcap.
  simpl in Hcount, Hcap.
  destruct (StoreProcessedLogEntry_same_queue P
              (mkLogEntry (queue_Message Entry) (queue_Channel Entry)
                          (queue_Verbosity Entry) (queue_Timestamp Entry)
                          (queue_ThreadId Entry))
              (with_queue rest s)) as [Hq' Hd'].
  unfold queue_consistent, ProcessLogEntry. simpl.
  rewrite Hq', Hd'. simpl.
  rewrite (pending_after_dequeue _ _ _ Hcount) by lia. lia.
Qed.

(** Calls of [StoreLogEntryInternal] and batches of the processor that
    run one after the other, none overlapping another, in any order: the
    queue never holds more than [MAX_QUEUE_SIZE] entries and
    [GetQueueSize] is the number of entries in it; this holds across the
    wrap-around of the two 32-bit counters. *)
Theorem queue_never_exceeds_capacity (P : Platform) (ops : list QueueStep)
    (s : UULMSubsystem) :
  queue_consistent s ->
  let s' := fold_left (queue_step P) ops s in
  queue_consistent s'
  /\ GetQueueSize s' = Z.of_nat (length (LogMessageQueue s'))
  /\ Z.of_nat (length (LogMessageQueue s')) <= MAX_QUEUE_SIZE.
Proof.
  intros Hs. cbn zeta.
  assert (queue_consistent (fold_left (queue_step P) ops s)) as Hs'.
  { revert s Hs. induction ops as [|op ops IH]; intros s Hs; simpl; [done|].
    apply IH. destruct op as [ctx Msg ChannelName Verbosity|]; simpl.
    - by apply StoreLogEntryInternal_consistent.
    - by apply ProcessBatch_loop_consistent. }
  split; [done|]. destruct Hs' as [Hcount Hcap]. split; [|done].
  unfold GetQueueSize. rewrite Hcount. unfold FMath_MaxZ.
  destruct (_ <? 0) eqn:E; [apply Z.ltb_lt in E; lia | done].
Qed.

(** The theorem from a subsystem whose enqueue counter is about to wrap
    around: two entries are queued, one batch empties the queue. *)
Lemma queue_never_exceeds_capacity_witness :
  let s := gameplay_subsystem 0 in
  let near_wrap :=
    with_diagnostics (mkQueueDiagnostics (2^31 - 1) (2^31 - 1) 0 0) s in
  let ops := [Produce call_at_second_1 "a" "Gameplay" Message;
              Produce call_at_second_1 "b" "Gameplay" Message] in
  GetQueueSize (fold_left (queue_step desktop64) ops near_wrap) = 2
  /\ EnqueueCount
       (QueueDiagnostics (fold_left (queue_step desktop64) ops near_wrap))
     = - 2^31 + 1.
Proof.
  cbn zeta. split; [|reflexivity].
  rewrite (proj1 (proj2 (queue_never_exceeds_capacity desktop64
    [Produce call_at_second_1 "a" "Gameplay" Message;
     Produce call_at_second_1 "b" "Gameplay" Message]
    (with_diagnostics (mkQueueDiagnostics (2^31 - 1) (2^31 - 1) 0 0)
                      (gameplay_subsystem 0))
    ltac:(split; [reflexivity | vm_compute; discriminate])))).
  reflexivity.
Defined.

(** *** Calls that overlap *)

(** A call of [StoreLogEntryInternal]: its arguments and what it reads
    from its environment. *)
Record StoreCall := mkStoreCall {
  call_ctx : CallContext;
  call_Message : string;
  call_ChannelName : string;
  call_Verbosity : EULMVerbosity
}.

(** Where a thread stands in [StoreLogEntryInternal]: outside of it, or
    in a call, before one of the statements that read or write the queue
    and its counters: the two readings of [GetQueueSize] (the second with
    the test against [MAX_QUEUE_SIZE]), [Enqueue], and the increment of
    [EnqueueCount].  The function holds no lock, so another thread can
    run between any two of them. *)
Inductive ProducerPoint :=
| Outside
| AtReadEnqueueCount (c : StoreCall)
| AtReadDequeueCount (c : StoreCall) (Enqueued : Z)
| AtEnqueue (c : StoreCall)
| AtIncrement (c : StoreCall).

(** The next statement of a thread; a thread that is [Outside] enters the
    call [c] and passes the admission check or returns. *)
Definition producer_step (c : StoreCall) (s : UULMSubsystem)
    (pt : ProducerPoint) : UULMSubsystem * ProducerPoint :=
  match pt with
  | Outside =>
      let admission :=
        match ChannelRegistry s with
        | Some reg =>
            let r := CanChannelLog (call_ChannelName c) (call_Verbosity c)
                                   (ctx_Seconds (call_ctx c)) reg in
            (fst r, with_registry (Some (snd r)) s)
        | None => (true, s)
        end in
      if negb (fst admission) then (snd admission, Outside)
      else (snd admission, AtReadEnqueueCount c)
  | AtReadEnqueueCount c' =>
      (s, AtReadDequeueCount c' (EnqueueCount (QueueDiagnostics s)))
  | AtReadDequeueCount c' Enqueued =>
      let Dequeued := DequeueCount (QueueDiagnostics s) in
      if MAX_QUEUE_SIZE <=? FMath_MaxZ 0 (wrap32 (Enqueued - Dequeued)) then
        (with_diagnostics (bump_Dropped (QueueDiagnostics s)) s, Outside)
      else (s, AtEnqueue c')
  | AtEnqueue c' =>
      let QueueEntry :=
        mkQueueEntry (call_Message c') (call_ChannelName c')
                     (call_Verbosity c') (ctx_Now (call_ctx c'))
                     (ctx_ThreadId (call_ctx c')) in
      if ctx_EnqueueSucceeds (call_ctx c') then
        (with_queue (LogMessageQueue s ++ [QueueEntry]) s, AtIncrement c')
      else (with_diagnostics (bump_Dropped (QueueDiagnostics s)) s, Outside)
  | AtIncrement c' =>
      (with_diagnostics (bump_Enqueue (QueueDiagnostics s)) s, Outside)
  end.

(** The next statement of a thread that is in a call. *)
Definition producer_continue (x : UULMSubsystem * ProducerPoint)
  : UULMSubsystem * ProducerPoint :=
  match snd x with
  | Outside => x
  | AtReadEnqueueCount c | AtReadDequeueCount c _ | AtEnqueue c
  | AtIncrement c => producer_step c (fst x) (snd x)
  end.

(** Run without another thread in between, the statements of a call are
    [StoreLogEntryInternal]. *)
Lemma producer_steps_uninterrupted (c : StoreCall) (s : UULMSubsystem) :
  producer_continue
    (producer_continue
       (producer_continue
          (producer_continue (producer_step c s Outside))))
  = (StoreLogEntryInternal (call_ctx c) (call_Message c) (call_ChannelName c)
                           (call_Verbosity c) s,
     Outside).
Proof.
  unfold StoreLogEntryInternal, producer_step at 1.
  set (admission := match ChannelRegistry s with
                    | Some reg => _ | None => (true, s) end).
  destruct (negb (fst admission)); [done|].
  unfold producer_continue at 4. cbn [snd fst producer_step].
  unfold producer_continue at 3. cbn [snd fst producer_step].
  fold (GetQueueSize (snd admission)).
  destruct (MAX_QUEUE_SIZE <=? GetQueueSize (snd admission)); [done|].
  unfold producer_continue at 2. cbn [snd fst producer_step].
  destruct (ctx_EnqueueSucceeds (call_ctx c)); done.
Qed.

(** Threads in [StoreLogEntryInternal], and a schedule: which thread runs
    its next statement, with the call that it enters if it is outside. *)
Definition overlap_step (st : UULMSubsystem * list ProducerPoint)
    (x : nat * StoreCall) : UULMSubsystem * list ProducerPoint :=
  match snd st !! fst x with
  | Some pt =>
      let r := producer_step (snd x) (fst st) pt in
      (fst r, <[fst x := snd r]> (snd st))
  | None => st
  end.

(** Two calls of which each reads the counters before the other
    enqueues. *)
Definition two_overlapping_calls (c0 c1 : StoreCall)
  : list (nat * StoreCall) :=
  [(0%nat, c0); (0%nat, c0); (0%nat, c0);
   (1%nat, c1); (1%nat, c1); (1%nat, c1);
   (0%nat, c0); (1%nat, c1); (0%nat, c0); (1%nat, c1)].

Lemma producer_step_admitted (c : StoreCall) (s : UULMSubsystem) :
  Admits (call_ctx c) (call_ChannelName c) (call_Verbosity c) s = true ->
  snd (producer_step c s Outside) = AtReadEnqueueCount c
  /\ same_queue s (fst (producer_step c s Outside)).
Proof.
  unfold Admits, producer_step. intros H.
  destruct (ChannelRegistry s) as [reg|].
  - cbn [fst snd]. rewrite H. by split.
  - by split.
Qed.

(** Two threads whose calls overlap overfill the queue: with
    [MAX_QUEUE_SIZE - 1] entries queued, two calls that are admitted and
    that both read the counters before either enqueues leave
    [MAX_QUEUE_SIZE + 1] entries in the queue, and neither counts a
    drop. *)
Theorem overlapping_calls_overfill_the_queue
    (c0 c1 : StoreCall) (s : UULMSubsystem) :
  let r := fold_left overlap_step (two_overlapping_calls c0 c1)
                     (s, [Outside; Outside]) in
  queue_consistent s ->
  Z.of_nat (length (LogMessageQueue s)) = MAX_QUEUE_SIZE - 1 ->
  Admits (call_ctx c0) (call_ChannelName c0) (call_Verbosity c0) s = true ->
  Admits (call_ctx c1) (call_ChannelName c1) (call_Verbosity c1)
         (fst (producer_step c0 s Outside)) = true ->
  ctx_EnqueueSucceeds (call_ctx c0) = true ->
  ctx_EnqueueSucceeds (call_ctx c1) = true ->
  snd r = [Outside; Outside]
  /\ Z.of_nat (length (LogMessageQueue (fst r))) = MAX_QUEUE_SIZE + 1
  /\ GetQueueSize (fst r) = MAX_QUEUE_SIZE + 1
  /\ DroppedCount (QueueDiagnostics (fst r))
     = DroppedCount (QueueDiagnostics s).
Proof.
  intros r [Hcount _] Hlen Hadm0 Hadm1 Hok0 Hok1.
  destruct (producer_step_admitted c0 s Hadm0) as [Hpt0 [Hq0 Hd0]].
  set (s0 := fst (producer_step c0 s Outside)) in *.
  destruct (producer_step_admitted c1 s0 Hadm1) as [Hpt1 [Hq1 Hd1]].
  set (s1 := fst (producer_step c1 s0 Outside)) in *.
  assert (wrap32 (EnqueueCount (QueueDiagnostics s)
                  - DequeueCount (QueueDiagnostics s)) = MAX_QUEUE_SIZE - 1)
    as Hpending by lia.
  assert (fold_left overlap_step
            [(0%nat, c0); (0%nat, c0); (0%nat, c0)] (s, [Outside; Outside])
          = (s0, [AtEnqueue c0; Outside])) as H3.
  { cbn [fold_left]. unfold overlap_step at 3.
    cbn [fst snd lookup list_lookup insert list_insert]. fold s0.
    rewrite Hpt0. unfold overlap_step at 2.
    cbn [fst snd lookup list_lookup insert list_insert producer_step].
    unfold overlap_step.
    cbn [fst snd lookup list_lookup insert list_insert producer_step].
    rewrite Hd0, Hpending. done. }
  assert (fold_left overlap_step
            [(1%nat, c1); (1%nat, c1); (1%nat, c1)]
            (s0, [AtEnqueue c0; Outside])
          = (s1, [AtEnqueue c0; AtEnqueue c1])) as H6.
  { cbn [fold_left]. unfold overlap_step at 3.
    cbn [fst snd lookup list_lookup insert list_insert]. fold s1.
    rewrite Hpt1. unfold overlap_step at 2.
    cbn [fst snd lookup list_lookup insert list_insert producer_step].
    unfold overlap_step.
    cbn [fst snd lookup list_lookup insert list_insert producer_step].
    rewrite Hd1, Hd0, Hpending. done. }
  unfold r, two_overlapping_calls.
  change [(0%nat, c0); (0%nat, c0); (0%nat, c0); (1%nat, c1); (1%nat, c1);
          (1%nat, c1); (0%nat, c0); (1%nat, c1); (0%nat, c0); (1%nat, c1)]
    with ([(0%nat, c0); (0%nat, c0); (0%nat, c0)]
          ++ [(1%nat, c1); (1%nat, c1); (1%nat, c1)]
          ++ [(0%nat, c0); (1%nat, c1); (0%nat, c0); (1%nat, c1)]).
  rewrite !fold_left_app, H3, H6.
  cbn [fold_left]. unfold overlap_step.
  cbn [fst snd lookup list_lookup insert list_insert producer_step].
  rewrite Hok0.
  cbn [fst snd lookup list_lookup insert list_insert producer_step
       call_ctx].
  rewrite Hok1.
  cbn [fst snd lookup list_lookup insert list_insert producer_step
       LogMessageQueue QueueDiagnostics with_queue with_diagnostics
       bump_Enqueue EnqueueCount DequeueCount DroppedCount].
  rewrite Hq1, Hq0, Hd1, Hd0.
  split; [done|]. split; [rewrite !length_app; simpl; lia|].
  split; [|done].
  unfold GetQueueSize. simpl.
  pose proof (pending_after_enqueue _ _ _ Hpending
                ltac:(unfold MAX_QUEUE_SIZE; lia)) as H1.
  pose proof (pending_after_enqueue _ _ _ H1
                ltac:(unfold MAX_QUEUE_SIZE; lia)) as H2.
  rewrite H2. unfold FMath_MaxZ, MAX_QUEUE_SIZE. reflexivity.
Qed.

(** A subsystem with the channel ["Gameplay"] registered and 9999 entries
    in the queue, and a call at second 1. *)
Definition nearly_full_subsystem : UULMSubsystem :=
  with_queue (repeat (mkQueueEntry "m" "Gameplay" Message 0 0) (Z.to_nat 9999))
             (gameplay_subsystem 9999).

Definition a_call : StoreCall :=
  mkStoreCall call_at_second_1 "m" "Gameplay" Message.

(** The theorem on that subsystem. *)
Lemma overlapping_calls_overfill_the_queue_witness :
  Z.of_nat
    (length
       (LogMessageQueue
          (fst (fold_left overlap_step (two_overlapping_calls a_call a_call)
                          (nearly_full_subsystem, [Outside; Outside])))))
  = 10001.
Proof.
  destruct (overlapping_calls_overfill_the_queue
              a_call a_call nearly_full_subsystem)
    as (_ & Hlen & _).
  - split; [by vm_compute | vm_compute; discriminate].
  - by vm_compute.
  - by vm_compute.
  - by vm_compute.
  - reflexivity.
  - reflexivity.
  - exact Hlen.
Defined.

(** ** The store stays within its memory budget *)

Section WithinBudget.

Variable P : Platform.

(** The tracked usage covers the stored entries and is within the
    budget. *)
Definition within_budget (s : UULMSubsystem) : Prop :=
  accounted P s
  /\ 0 <= TotalMemoryUsedCounter (MemoryTracker s)
     <= MemoryBudget (MemoryTracker s)
  /\ MemoryBudget (MemoryTracker s) < 2^63.

(** A trim of any number of entries keeps the account and frees bytes. *)
Lemma TrimChannelForMemory_accounted ch n s :
  accounted P s ->
  let s' := TrimChannelForMemory P ch n s in
  accounted P s'
  /\ TotalMemoryUsedCounter (MemoryTracker s')
     <= TotalMemoryUsedCounter (MemoryTracker s)
  /\ MemoryBudget (MemoryTracker s') = MemoryBudget (MemoryTracker s).
Proof.
  intros Hacc. cbn zeta. pose proof Hacc as (Hcov & Hc & Hpos).
  unfold TrimChannelForMemory.
  destruct (LogEntries s !! FKey ch) as [l|] eqn:El; [|done].
  destruct ((n <=? 0) || (Z.of_nat (length l) =? 0)) eqn:Eskip; [done|].
  apply orb_false_iff in Eskip as [Hn Hl].
  apply Z.leb_gt in Hn. apply Z.eqb_neq in Hl.
  set (k := Z.to_nat (FMath_MinZ n (Z.of_nat (length l)))).
  pose proof (store_bytes_nonneg P (LogEntries s)) as Hs0.
  pose proof (store_bytes_lookup P _ _ _ El) as Hl0.
  pose proof (bytes_firstn_skipn P k l) as Hsplit.
  pose proof (bytes_nonneg P (firstn k l)) as Hf0.
  pose proof (bytes_nonneg P (skipn k l)) as Hk0.
  rewrite MemoryOf_bytes by lia.
  destruct (RemoveMemoryUsage_channel ch (bytes P (firstn k l))
              (MemoryTracker s) Hf0 Hpos) as [Hpos' _].
  assert (TotalMemoryUsedCounter
            (RemoveMemoryUsage ch (bytes P (firstn k l)) (MemoryTracker s))
          = TotalMemoryUsedCounter (MemoryTracker s) - bytes P (firstn k l))
    as Hc'.
  { unfold RemoveMemoryUsage. cbn [TotalMemoryUsedCounter].
    unfold Subtract64. apply wrap64_small. lia. }
  cbn [MemoryTracker with_tracker with_entries LogEntries].
  split; [|split; [rewrite Hc'; lia | done]].
  unfold accounted. cbn [MemoryTracker with_tracker with_entries LogEntries].
  rewrite Hc', (store_bytes_insert P _ _ _ _ El).
  split; [lia|]. split; [lia | exact Hpos'].
Qed.

(** So does an eviction pass. *)
Lemma TrimMemoryBudget_accounted s :
  accounted P s ->
  let s' := TrimMemoryBudget P s in
  accounted P s'
  /\ TotalMemoryUsedCounter (MemoryTracker s')
     <= TotalMemoryUsedCounter (MemoryTracker s)
  /\ MemoryBudget (MemoryTracker s') = MemoryBudget (MemoryTracker s).
Proof.
  intros Hacc. cbn zeta. pose proof Hacc as (Hcov & Hc & Hpos).
  unfold TrimMemoryBudget. destruct (SafelyWithinBudget s); [done|].
  set (T := TargetReduction s). set (order := SortByUsage (ChannelUsages s)).
  pose proof (TrimLoop_same_policy P T order (s, 0)) as (_ & Hbudget & _).
  destruct (TrimLoop_prefix P T order (s, 0))
    as (visited & rest & _ & Hrun & _ & _).
  rewrite Hrun in *.
  destruct (TrimAll_accounted P T visited
              (TotalMemoryUsedCounter (MemoryTracker s)) Hc (s, 0))
    as (Hacc' & HR & Hsum); [done | simpl; lia | simpl; lia |].
  split; [exact Hacc' | split; [simpl in *; lia | exact Hbudget]].
Qed.

(** The usage after [AddMemoryUsage]. *)
Lemma AddMemoryUsage_channel ch size t :
  0 <= size ->
  map_Forall (fun (_ : string) u => 0 <= u) (ChannelMemoryUsage t) ->
  map_Forall (fun (_ : string) u => 0 <= u)
             (ChannelMemoryUsage (AddMemoryUsage ch size t)).
Proof.
  intros Hsize Hpos. unfold AddMemoryUsage. cbn [ChannelMemoryUsage].
  destruct (ChannelMemoryUsage t !! FKey ch) as [u|].
  - apply map_Forall_insert_2; [|done]. apply wrapSZ_range.
  - by apply map_Forall_insert_2.
Qed.

(** One insertion keeps the store within its budget, whether the entry
    is stored or dropped. *)
Lemma StoreProcessedLogEntry_within_budget (e : FULMLogEntry)
    (s : UULMSubsystem) :
  within_budget s -> CalculateLogEntrySize P e < 2^63 ->
  let s' := StoreProcessedLogEntry P e s in
  within_budget s'
  /\ MemoryBudget (MemoryTracker s') = MemoryBudget (MemoryTracker s).
Proof.
  intros (Hacc & Hin & HB) Hsize. cbn zeta.
  pose proof (CalculateLogEntrySize_range P e) as Hsize0.
  set (size := CalculateLogEntrySize P e) in *.
  unfold StoreProcessedLogEntry. fold size.
  destruct (negb (IsChannelInMasterList (entry_Channel e))); [done|].
  set (exceeded := WouldExceedBudget size (MemoryTracker s)).
  set (s1 := if exceeded then TrimMemoryBudget P s else s).
  assert (accounted P s1
          /\ TotalMemoryUsedCounter (MemoryTracker s1)
             <= TotalMemoryUsedCounter (MemoryTracker s)
          /\ MemoryBudget (MemoryTracker s1) = MemoryBudget (MemoryTracker s))
    as (Hacc1 & Hle1 & HB1).
  { unfold s1. destruct exceeded; [by apply TrimMemoryBudget_accounted|].
    split; [done|]. split; [lia | done]. }
  pose proof Hacc1 as (Hcov1 & Hc1 & Hpos1).
  pose proof (store_bytes_nonneg P (LogEntries s1)) as Hs1.
  assert (within_budget s1) as Hw1.
  { split; [done|]. lia. }
  destruct (exceeded && WouldExceedBudget size (MemoryTracker s1)) eqn:Edrop.
  { split; [exact Hw1 | exact HB1]. }
  (* the entry fits *)
  assert (WouldExceedBudget size (MemoryTracker s1) = false) as Hfit.
  { unfold s1 in *. destruct exceeded eqn:Eex; [by simpl in Edrop|].
    exact Eex. }
  unfold WouldExceedBudget, GetTotalMemoryUsage in Hfit.
  rewrite (wrapSZ_small (TotalMemoryUsedCounter _)) in Hfit by lia.
  rewrite wrapSZ_small in Hfit by lia. apply Z.ltb_ge in Hfit.
  clear Edrop. clearbody s1. clear exceeded.
  set (Key := FKey (entry_Channel e)).
  set (s2 := match LogEntries s1 !! Key with Some _ => s1 | None => _ end).
  assert (MemoryTracker s2 = MemoryTracker s1
          /\ store_bytes P (LogEntries s2) = store_bytes P (LogEntries s1)
          /\ is_Some (LogEntries s2 !! Key)) as (Htr2 & Hsb2 & [old Hold]).
  { unfold s2. destruct (LogEntries s1 !! Key) as [l|] eqn:El.
    - split; [done|]. split; [done|]. by rewrite El.
    - assert (store_bytes P (<[Key := []]> (LogEntries s1))
              = store_bytes P (LogEntries s1)) as Hsame.
      { rewrite (store_bytes_delete P (<[Key := []]> (LogEntries s1)) Key [])
          by apply lookup_insert_eq.
        rewrite delete_insert_eq, delete_id by done. simpl. lia. }
      simpl. destruct (ChannelRegistry s1) as [reg|]; simpl.
      + destruct (negb (IsChannelRegistered (entry_Channel e) reg)); simpl;
          (split; [done|]; split; [exact Hsame|]);
          rewrite lookup_insert_eq; eauto.
      + split; [done|]. split; [exact Hsame|].
        rewrite lookup_insert_eq; eauto. }
  rewrite Hold. cbn [default]. unfold id.
  clearbody s2.
  set (s3 := with_tracker _ _).
  assert (within_budget s3
          /\ MemoryBudget (MemoryTracker s3) = MemoryBudget (MemoryTracker s))
    as (Hw3 & HB3).
  { unfold s3, within_budget, accounted.
    cbn [MemoryTracker with_tracker with_entries LogEntries AddMemoryUsage
         TotalMemoryUsedCounter MemoryBudget ChannelMemoryUsage].
    rewrite Htr2. unfold Add64. rewrite wrap64_small by lia.
    rewrite (store_bytes_insert P _ _ _ _ Hold), bytes_app, Hsb2.
    simpl. fold size.
    split; [|exact HB1]. split; [|lia]. split; [lia|]. split; [lia|].
    apply (AddMemoryUsage_channel (entry_Channel e) size (MemoryTracker s1));
      [lia | done]. }
  clearbody s3.
  destruct (ChannelRegistry s3) as [reg|]; [|done].
  destruct (MaxLogEntries _ <? _); [|done].
  destruct Hw3 as (Hacc3 & Hin3 & HBr3).
  destruct (TrimChannelForMemory_accounted (entry_Channel e)
              (wrap32 (Z.of_nat (length (old ++ [e]))
                       - MaxLogEntries
                           (GetChannelConfig (entry_Channel e) reg)))
              s3 Hacc3) as (Hacc4 & Hle4 & HB4).
  pose proof Hacc4 as (Hcov4 & _ & _).
  pose proof (store_bytes_nonneg P
                (LogEntries (TrimChannelForMemory P (entry_Channel e)
                   (wrap32 (Z.of_nat (length (old ++ [e]))
                            - MaxLogEntries
                                (GetChannelConfig (entry_Channel e) reg)))
                   s3))) as Hs4.
  split; [|congruence]. split; [done|]. lia.
Qed.

(** The store is memory-bounded: from a store whose tracked usage covers
    its entries and is within the budget, as the constructor leaves it,
    the insertions of any entries of less than [2^63] bytes each leave the
    budget as it was, the tracked usage within it, and the bytes of the
    retained entries at or below the tracked usage. *)
Theorem StoreAll_within_budget (es : list FULMLogEntry) (s : UULMSubsystem) :
  within_budget s ->
  Forall (fun e => CalculateLogEntrySize P e < 2^63) es ->
  let s' := StoreAll P es s in
  MemoryBudget (MemoryTracker s') = MemoryBudget (MemoryTracker s)
  /\ store_bytes P (LogEntries s')
     <= GetTotalMemoryUsage (MemoryTracker s')
     <= MemoryBudget (MemoryTracker s).
Proof.
  intros Hw Hes. cbn zeta.
  assert (within_budget (StoreAll P es s)
          /\ MemoryBudget (MemoryTracker (StoreAll P es s))
             = MemoryBudget (MemoryTracker s)) as [(Hacc & Hin & HB) HB'].
  { revert s Hw. induction Hes as [|e es He _ IH]; intros s Hw; [done|].
    unfold StoreAll. simpl.
    destruct (StoreProcessedLogEntry_within_budget e s Hw He) as [Hw1 HB1].
    destruct (IH _ Hw1) as [Hw2 HB2]. split; [exact Hw2|].
    unfold StoreAll in HB2. congruence. }
  split; [done|]. destruct Hacc as (Hcov & _ & _).
  unfold GetTotalMemoryUsage. rewrite wrapSZ_small by lia. lia.
Qed.

End WithinBudget.

(** The theorem on five entries of 106 bytes stored under a budget of 250
    bytes: the retained entries take at most 250 bytes. *)
Lemma StoreAll_within_budget_witness :
  store_bytes desktop64
    (LogEntries (StoreAll desktop64 five_entries (capped_subsystem 250)))
  <= 250.
Proof.
  destruct (StoreAll_within_budget desktop64 five_entries
              (capped_subsystem 250)) as (_ & H1 & H2).
  - split; [|vm_compute; split; [split|]; congruence].
    split; [vm_compute; discriminate|]. split; [reflexivity|].
    apply (bool_decide_unpack _
             (dec := map_Forall_dec _ (H7 := fun _ u => decide (0 <= u)) _)).
    vm_compute. exact I.
  - repeat constructor.
  - change (MemoryBudget (MemoryTracker (capped_subsystem 250))) with 250
      in H2. lia.
Defined.

Import ULMLogging ULMSubsystemAPI.

(** ** Logging through [ULMLogMessage] *)











(** The globals of a subsystem in which ["Gameplay"] is registered with a
    bucket of capacity 3. *)
Definition gameplay_globals : FULMGlobals :=
  mkGlobals
    (Some (RegisterChannel "Gameplay"
             (config_with_rate (FULMRateLimit_make 3 3)) fresh_subsystem))
    [].


(** What [StoreLogEntryInternal] does to the queue: nothing, or one entry
    of the channel at its end. *)
Lemma StoreLogEntryInternal_queue (ctx : CallContext) (Msg ch : string)
    (v : EULMVerbosity) (s : UULMSubsystem) :
  let s' := StoreLogEntryInternal ctx Msg ch v s in
  LogMessageQueue s' = LogMessageQueue s
  \/ LogMessageQueue s'
     = LogMessageQueue s
       ++ [mkQueueEntry Msg ch v (ctx_Now ctx) (ctx_ThreadId ctx)].
Proof.
  cbn zeta. unfold StoreLogEntryInternal.
  set (admission := match ChannelRegistry s with
                    | Some reg => _ | None => (true, s) end).
  assert (LogMessageQueue (snd admission) = LogMessageQueue s) as Hq
    by (unfold admission; by destruct (ChannelRegistry s)).
  destruct (negb (fst admission)); [by left|].
  destruct (MAX_QUEUE_SIZE <=? _); [by left|].
  destruct (ctx_EnqueueSucceeds ctx); [right | by left].
  simpl. by rewrite Hq.
Qed.

(** A message that [UULMSubsystem::LogMessage] logs without a channel goes
    to the channel ["Default"], which the registry holds from its
    construction; it can take a token and a place in the queue, but
    ["Default"] is not in the master list, so the processor drops every
    such entry: [ProcessLogEntry] leaves any subsystem as it was. *)
Theorem LogMessage_without_channel_is_never_stored (P : Platform)
    (Seconds : Q) (ctx : CallContext) (Msg : string) (v : EULMVerbosity)
    (g : FULMGlobals) (s : UULMSubsystem) :
  GULMSubsystem g = Some s ->
  exists (s1 : UULMSubsystem) (added : list FULMLogQueueEntry),
    GULMSubsystem (LogMessage Seconds ctx Msg "" v g) = Some s1
    /\ LogMessageQueue s1 = LogMessageQueue s ++ added
    /\ LogEntries s1 = LogEntries s
    /\ Forall (fun e => queue_Channel e = "Default"%string
                        /\ forall s2, ProcessLogEntry P e s2 = s2)
              added.
Proof.
  intros Hs. unfold LogMessage.
  destruct (IsEmpty Msg).
  { exists s, []. rewrite app_nil_r. by repeat split. }
  cbn [IsEmpty]. unfold ULMLogMessage, GULMChannelRegistry. rewrite Hs.
  destruct (ChannelRegistry s) as [reg|] eqn:Hreg.
  2: { exists s, []. rewrite app_nil_r. by repeat split. }
  destruct (negb (fst (CanChannelLog "Default" v Seconds reg))).
  { eexists _, []. rewrite app_nil_r. by repeat split. }
  set (s1 := with_registry _ s).
  destruct (StoreLogEntryInternal_queue ctx Msg "Default" v s1) as [Hq | Hq].
  - eexists _, []. rewrite app_nil_r. split; [reflexivity|].
    split; [exact Hq|]. split; [|done].
    unfold StoreLogEntryInternal.
    destruct (ChannelRegistry s1); cbn [fst snd];
      repeat match goal with |- context [if ?b then _ else _] =>
                               destruct b end; reflexivity.
  - eexists _, [_]. split; [reflexivity|]. split; [exact Hq|]. split.
    + unfold StoreLogEntryInternal.
      destruct (ChannelRegistry s1); cbn [fst snd];
        repeat match goal with |- context [if ?b then _ else _] =>
                                 destruct b end; reflexivity.
    + repeat constructor.
Qed.

(** The theorem on a fresh subsystem: the message takes a place in the
    queue, and the processor leaves the store empty. *)
Lemma LogMessage_without_channel_is_never_stored_witness :
  exists (s1 : UULMSubsystem) (added : list FULMLogQueueEntry),
    GULMSubsystem
      (LogMessage 1 call_at_second_1 "hello" "" Message
                  (mkGlobals (Some fresh_subsystem) [])) = Some s1
    /\ LogMessageQueue s1 = LogMessageQueue fresh_subsystem ++ added
    /\ LogEntries s1 = LogEntries fresh_subsystem
    /\ Forall (fun e => queue_Channel e = "Default"%string
                        /\ forall s2, ProcessLogEntry desktop64 e s2 = s2)
              added.
Proof.
  apply (LogMessage_without_channel_is_never_stored
           desktop64 1 call_at_second_1 "hello" Message
           (mkGlobals (Some fresh_subsystem) []) fresh_subsystem).
  reflexivity.
Defined.

(** On that subsystem the message is admitted and enqueued. *)
Remark LogMessage_without_channel_is_enqueued :
  (LogMessageQueue <$>
     GULMSubsystem
       (LogMessage 1 call_at_second_1 "hello" "" Message
                   (mkGlobals (Some fresh_subsystem) [])))
  = Some [mkQueueEntry "hello" "Default" Message 0 0].
Proof. vm_compute. reflexivity. Qed.

(** ** Reading the store ([GetLogEntries]) *)

(** For one channel, [GetLogEntries] returns the newest [MaxEntries]
    entries that the store retains for the channel, in their order, and
    all of them when [MaxEntries] is not positive. *)
Lemma GetLogEntries_channel (Channel : string) (MaxEntries : Z)
    (s : UULMSubsystem) :
  IsEmpty Channel = false ->
  GetLogEntries Channel MaxEntries s
  = if 0 <? MaxEntries then lastn MaxEntries (EntriesOf Channel s)
    else EntriesOf Channel s.
Proof.
  intros Hne. unfold GetLogEntries, EntriesOf. rewrite Hne.
  set (l := default [] (LogEntries s !! FKey Channel)).
  destruct (0 <? MaxEntries) eqn:Epos; cbn [andb]; [|done].
  apply Z.ltb_lt in Epos.
  destruct (MaxEntries <? Z.of_nat (length l)) eqn:E;
    [apply Z.ltb_lt in E | apply Z.ltb_ge in E].
  - unfold lastn. f_equal. lia.
  - by rewrite lastn_all.
Qed.

Lemma lastn_last {X : Type} (M : Z) (l : list X) (x : X) :
  1 <= M -> exists l', lastn M (l ++ [x]) = l' ++ [x].
Proof.
  intros HM. unfold lastn. rewrite length_app. simpl.
  rewrite skipn_app.
  replace (length l + 1 - Z.to_nat M - length l)%nat with O by lia.
  rewrite skipn_O. eauto.
Qed.

(** Read your write: an entry that [StoreProcessedLogEntry] has stored in
    a channel that is registered with a cap of [M >= 1] entries and has
    room in the memory budget is the last entry that [GetLogEntries]
    returns for the channel, whatever the number of entries asked for;
    an unknown channel has no entries. *)
Theorem GetLogEntries_returns_the_stored_entry (P : Platform)
    (s : UULMSubsystem) (reg : FULMChannelRegistry) (e : FULMLogEntry)
    (M MaxEntries : Z) :
  let ch := entry_Channel e in
  let s' := StoreProcessedLogEntry P e s in
  IsChannelInMasterList ch = true ->
  ChannelRegistry s = Some reg ->
  IsChannelRegistered ch reg = true ->
  MaxLogEntries (GetChannelConfig ch reg) = M ->
  1 <= M < 2^31 - 1 ->
  Z.of_nat (length (EntriesOf ch s)) <= M ->
  bytes P (EntriesOf ch s) <= TotalMemoryUsedCounter (MemoryTracker s) ->
  TotalMemoryUsedCounter (MemoryTracker s) + CalculateLogEntrySize P e
  <= MemoryBudget (MemoryTracker s) ->
  MemoryBudget (MemoryTracker s) < 2^63 ->
  (exists older, GetLogEntries ch MaxEntries s' = older ++ [e])
  /\ (forall other : string,
        IsEmpty other = false -> LogEntries s' !! FKey other = None ->
        GetLogEntries other MaxEntries s' = []).
Proof.
  intros ch s' Hmaster Hreg Hregd HM HMr Hlen Hbytes Hroom HB.
  destruct (StoreProcessedLogEntry_step P s reg e M Hmaster Hreg Hregd HM
              ltac:(lia) Hlen Hbytes Hroom HB) as (_ & _ & Hent & _).
  fold ch s' in Hent.
  assert (IsEmpty ch = false) as Hne.
  { destruct ch eqn:E; [|done]. by vm_compute in Hmaster. }
  split.
  - rewrite (GetLogEntries_channel ch MaxEntries s' Hne), Hent.
    destruct (lastn_last M (EntriesOf ch s) e ltac:(lia)) as [l1 Hl1].
    rewrite Hl1.
    destruct (0 <? MaxEntries) eqn:E; [apply Z.ltb_lt in E | eauto].
    apply lastn_last. lia.
  - intros other Hother Hnone.
    rewrite (GetLogEntries_channel other MaxEntries s' Hother).
    unfold EntriesOf. rewrite Hnone. simpl.
    by destruct (0 <? MaxEntries).
Qed.

(** The theorem on a sixth entry for the capped channel of five
    entries. *)
Lemma GetLogEntries_returns_the_stored_entry_witness :
  exists older,
    GetLogEntries "Gameplay" 2
      (StoreProcessedLogEntry desktop64 (gameplay_entry "f")
         (StoreAll desktop64 five_entries (capped_subsystem 52428800)))
    = older ++ [gameplay_entry "f"].
Proof.
  set (s := StoreAll desktop64 five_entries (capped_subsystem 52428800)).
  destruct (ChannelRegistry s) as [reg|] eqn:Hreg; [|by vm_compute in Hreg].
  apply (GetLogEntries_returns_the_stored_entry desktop64 s reg
           (gameplay_entry "f") 3 2).
  - reflexivity.
  - exact Hreg.
  - vm_compute in Hreg. injection Hreg as <-. vm_compute. reflexivity.
  - vm_compute in Hreg. injection Hreg as <-. vm_compute. reflexivity.
  - lia.
  - vm_compute. discriminate.
  - vm_compute. discriminate.
  - vm_compute. discriminate.
  - reflexivity.
Defined.

(** The entries of all the channels, as [GetLogEntries] appends them. *)
Definition AllEntries (s : UULMSubsystem) : list FULMLogEntry :=
  concat (map snd (map_to_list (LogEntries s))).

Definition by_time (l : list FULMLogEntry) : Prop :=
  StronglySorted (fun a b => entry_Timestamp a <= entry_Timestamp b) l.

Lemma insert_by_time_perm x l : Permutation (insert_by_time x l) (x :: l).
Proof.
  induction l as [|y l IH]; simpl; [done|].
  destruct (entry_Timestamp y <? entry_Timestamp x); [|done].
  rewrite IH. apply perm_swap.
Qed.

Lemma StableSortByTime_perm l : Permutation (StableSortByTime l) l.
Proof.
  induction l as [|x l IH]; simpl; [done|].
  rewrite insert_by_time_perm. by constructor.
Qed.

Lemma insert_by_time_sorted x l : by_time l -> by_time (insert_by_time x l).
Proof.
  unfold by_time. induction 1 as [|y l Hl IH Hy]; simpl.
  - repeat constructor.
  - destruct (entry_Timestamp y <? entry_Timestamp x) eqn:E;
      [apply Z.ltb_lt in E | apply Z.ltb_ge in E].
    + constructor; [done|].
      eapply Permutation_Forall; [symmetry; apply insert_by_time_perm|].
      constructor; [lia | done].
    + constructor; [by constructor|].
      constructor; [done|].
      eapply Forall_impl; [exact Hy|]. simpl. intros z Hz. lia.
Qed.

Lemma StableSortByTime_sorted l : by_time (StableSortByTime l).
Proof.
  induction l as [|x l IH]; simpl; [constructor|].
  by apply insert_by_time_sorted.
Qed.

(** In a sorted list, what comes first is not newer than what follows. *)
Lemma by_time_split (n : nat) l :
  by_time l ->
  by_time (skipn n l)
  /\ Forall (fun o => Forall (fun e => entry_Timestamp o <= entry_Timestamp e)
                             (skipn n l))
            (firstn n l).
Proof.
  unfold by_time. intros Hl. revert n.
  induction Hl as [|y l Hl IH Hy]; intros n.
  - rewrite skipn_nil, firstn_nil. split; constructor.
  - destruct n as [|n]; simpl.
    + split; [by constructor | constructor].
    + destruct (IH n) as [Hs Hf]. split; [done|].
      constructor; [|done].
      rewrite <- (firstn_skipn n l) in Hy.
      by apply Forall_app in Hy as [_ Hy].
Qed.

(** With an empty channel name [GetLogEntries] reads all the channels:
    it returns the newest [MaxEntries] entries of the store (all of them
    when [MaxEntries] is not positive), ordered by time stamp; no entry
    that it leaves out is newer than one that it returns. *)
Theorem GetLogEntries_all_channels_newest_by_time (MaxEntries : Z)
    (s : UULMSubsystem) :
  let result := GetLogEntries "" MaxEntries s in
  by_time result
  /\ Z.of_nat (length result)
     = (if 0 <? MaxEntries
        then Z.min MaxEntries (Z.of_nat (length (AllEntries s)))
        else Z.of_nat (length (AllEntries s)))
  /\ exists older,
       Permutation (older ++ result) (AllEntries s)
       /\ Forall (fun o => Forall (fun e => entry_Timestamp o
                                            <= entry_Timestamp e) result)
                 older.
Proof.
  cbn zeta. unfold GetLogEntries. cbn [IsEmpty]. fold (AllEntries s).
  set (sorted := StableSortByTime (AllEntries s)).
  pose proof (StableSortByTime_sorted (AllEntries s)) as Hsorted.
  pose proof (StableSortByTime_perm (AllEntries s)) as Hperm.
  fold sorted in Hsorted, Hperm.
  assert (length sorted = length (AllEntries s)) as Hlen
    by (by apply Permutation_length).
  destruct ((0 <? MaxEntries) && (MaxEntries <? Z.of_nat (length sorted)))
    eqn:Ecut.
  - apply andb_true_iff in Ecut as [Epos Elt].
    rewrite Epos. apply Z.ltb_lt in Epos, Elt.
    set (n := Z.to_nat (Z.of_nat (length sorted) - MaxEntries)).
    destruct (by_time_split n sorted Hsorted) as [Hs Hf].
    split; [done|]. split; [rewrite length_skipn; lia|].
    exists (firstn n sorted). split; [|done].
    by rewrite firstn_skipn.
  - split; [done|]. split.
    + destruct (0 <? MaxEntries) eqn:Epos; [|lia].
      cbn [andb] in Ecut. apply Z.ltb_ge in Ecut. lia.
    + exists []. split; [done | constructor].
Qed.

(** ** Health checks and maintenance of the store *)

(** [IsMemoryBudgetHealthy] compares in [double]: for a budget of at most
    [2^50] bytes it holds only with the usage at or below 80% of the
    budget. *)
Lemma IsMemoryBudgetHealthy_spec (s : UULMSubsystem) :
  let U := GetTotalMemoryUsage (MemoryTracker s) in
  let B := MemoryBudget (MemoryTracker s) in
  0 <= B <= 2^50 -> IsMemoryBudgetHealthy s = true -> 5 * U <= 4 * B.
Proof.
  intros U B HB Hh.
  unfold IsMemoryBudgetHealthy, ULMMemoryBudget.GetMemoryBudget in Hh.
  fold U B in Hh. apply Qlt_bool_iff in Hh.
  pose proof (wrapSZ_range (TotalMemoryUsedCounter (MemoryTracker s))) as HU.
  fold (GetTotalMemoryUsage (MemoryTracker s)) in HU. fold U in HU.
  destruct (Z_le_gt_dec (5 * U) (4 * B)) as [|Hgt]; [done | exfalso].
  assert (RoundDouble (8 # 10) == 3602879701896397 # 4503599627370496)%Q
    as Hc by reflexivity.
  pose proof (IntToDouble_exact B ltac:(lia)) as Hb.
  set (x := (IntToDouble B * RoundDouble (8 # 10))%Q) in *.
  assert (x == inject_Z B * (3602879701896397 # 4503599627370496))%Q as Hx
    by (unfold x; by rewrite Hb, Hc).
  pose proof (inject_Z_nonneg B ltac:(lia)) as HBq.
  assert (inject_Z B <= inject_Z (2 ^ 50))%Q as HBmax
    by (rewrite <- Zle_Qle; lia).
  change (inject_Z (2 ^ 50)) with (1125899906842624 # 1)%Q in HBmax.
  assert (inject_Z 4 * inject_Z B + inject_Z 1 <= inject_Z 5 * inject_Z U)%Q
    as Hq by (rewrite <- !inject_Z_mult, <- inject_Z_plus, <- Zle_Qle; lia).
  change (inject_Z 4) with (4 # 1)%Q in Hq.
  change (inject_Z 5) with (5 # 1)%Q in Hq.
  change (inject_Z 1) with 1%Q in Hq.
  assert (0 <= x)%Q as Hx0 by lra.
  assert (x <= inject_Z U)%Q as HxU by lra.
  destruct (Z_le_gt_dec U (2 ^ 53)) as [Hsmall|Hbig].
  - pose proof (RoundDouble_le (inject_Z U) x
                  ltac:(apply format64_inject_Z; lia) Hx0 HxU) as Hr.
    pose proof (IntToDouble_exact U ltac:(lia)) as Ha. lra.
  - assert (RoundDouble x <= inject_Z (2 ^ 50))%Q as Hr.
    { apply RoundDouble_le; [apply format64_inject_Z; lia | done |].
      change (inject_Z (2 ^ 50)) with (1125899906842624 # 1)%Q. lra. }
    assert (inject_Z (2 ^ 53) <= IntToDouble U)%Q as Ha.
    { apply RoundDouble_ge; [apply format64_inject_Z; lia | done |].
      rewrite <- Zle_Qle. lia. }
    change (inject_Z (2 ^ 50)) with (1125899906842624 # 1)%Q in Hr.
    change (inject_Z (2 ^ 53)) with (9007199254740992 # 1)%Q in Ha.
    lra.
Qed.

(** While [IsMemoryBudgetHealthy] holds, for a budget of at most [2^50]
    bytes, an eviction pass leaves the retained entries and the memory
    tracker as they are, [IsMemoryHealthy] holds, and an entry of up to a
    fifth of the budget fits without eviction. *)
Theorem healthy_budget_needs_no_eviction (P : Platform) (s : UULMSubsystem) :
  0 <= MemoryBudget (MemoryTracker s) <= 2^50 ->
  IsMemoryBudgetHealthy s = true ->
  (LogEntries (TrimMemoryBudget P s) = LogEntries s
   /\ MemoryTracker (TrimMemoryBudget P s) = MemoryTracker s)
  /\ IsMemoryHealthy s = true
  /\ forall size : Z,
       0 <= size -> 5 * size <= MemoryBudget (MemoryTracker s) ->
       WouldExceedBudget size (MemoryTracker s) = false.
Proof.
  intros HB Hh.
  pose proof (IsMemoryBudgetHealthy_spec s HB Hh) as H54. cbn zeta in H54.
  pose proof (wrapSZ_range (TotalMemoryUsedCounter (MemoryTracker s))) as HU.
  fold (GetTotalMemoryUsage (MemoryTracker s)) in HU.
  set (U := GetTotalMemoryUsage (MemoryTracker s)) in *.
  set (B := MemoryBudget (MemoryTracker s)) in *.
  assert (0 < B) as HBpos.
  { destruct (decide (B = 0)) as [E|]; [|lia]. exfalso.
    unfold IsMemoryBudgetHealthy, ULMMemoryBudget.GetMemoryBudget in Hh.
    fold U B in Hh. rewrite E in Hh. assert (U = 0) as -> by lia.
    vm_compute in Hh. discriminate. }
  split; [|split].
  - unfold TrimMemoryBudget.
    assert (SafelyWithinBudget s = true) as ->; [|done].
    apply SafelyWithinBudget_spec; fold B U; [lia|].
    assert (B * 2 / 100 <= B * 2 / 10) as H1.
    { apply Z.div_le_compat_l; lia. }
    assert (B * 2 / 10 * 10 <= B * 2) as H2.
    { rewrite Z.mul_comm. apply Z.mul_div_le. lia. }
    lia.
  - unfold IsMemoryHealthy. fold B U.
    rewrite (wrap64_small B) by lia. rewrite (wrap64_small U) by lia.
    destruct (B <=? 0) eqn:E; [apply Z.leb_le in E; lia|].
    apply Qlt_bool_iff.
    assert (inject_Z 5 * inject_Z U <= inject_Z 4 * inject_Z B)%Q as Hq
      by (rewrite <- !inject_Z_mult, <- Zle_Qle; lia).
    change (inject_Z 4) with (4 # 1)%Q in Hq.
    change (inject_Z 5) with (5 # 1)%Q in Hq.
    pose proof (inject_Z_nonneg U ltac:(lia)) as HUq.
    destruct (OverageRatio_bounds U B 0 (4 # 5) ltac:(lia) HBpos)
      as [_ Hhi]; [lra | lra | lra |].
    cbn zeta in Hhi.
    assert (0 <= RoundFloat (IntToFloat U / IntToFloat B))%Q as Hr0.
    { apply RoundFloat_nonneg. apply Qle_shift_div_l.
      - destruct (IntToFloat_error B ltac:(lia)) as [Hb1 _].
        assert (1 <= inject_Z B)%Q
          by (change 1%Q with (inject_Z 1); rewrite <- Zle_Qle; lia).
        lra.
      - pose proof (IntToFloat_nonneg U ltac:(lia)). lra. }
    set (r := RoundFloat (IntToFloat U / IntToFloat B)) in *.
    assert (0 <= r * 100)%Q as Hr100 by lra.
    destruct (RoundFloat_error (r * 100) Hr100) as [_ Hup].
    pose proof pow2_150_small as Htiny.
    lra.
  - intros size H0 Hsize. unfold WouldExceedBudget. fold U B.
    rewrite wrapSZ_small by lia. apply Z.ltb_ge. lia.
Qed.

(** The theorem on the store of 318 bytes under the default budget. *)
Lemma healthy_budget_needs_no_eviction_witness :
  LogEntries (TrimMemoryBudget desktop64 (store_of_318_bytes 52428800))
  = LogEntries (store_of_318_bytes 52428800)
  /\ IsMemoryHealthy (store_of_318_bytes 52428800) = true.
Proof.
  destruct (healthy_budget_needs_no_eviction
              desktop64 (store_of_318_bytes 52428800)) as ([H1 _] & H2 & _).
  - vm_compute. split; discriminate.
  - reflexivity.
  - by split.
Defined.

(** A store whose channels are all empty. *)
Definition all_channels_empty (s : UULMSubsystem) : Prop :=
  map_Forall (fun (_ : string) l => l = []) (LogEntries s).

Lemma ClearAllChannels_empty s : all_channels_empty (ClearAllChannels s).
Proof.
  intros k l Hk. unfold ClearAllChannels in Hk. simpl in Hk.
  rewrite lookup_fmap in Hk.
  destruct (LogEntries s !! k); simpl in Hk; congruence.
Qed.

Lemma all_channels_empty_AllEntries s :
  all_channels_empty s -> AllEntries s = [].
Proof.
  intros He. unfold AllEntries.
  assert (Forall (fun kv : string * list FULMLogEntry => snd kv = [])
                 (map_to_list (LogEntries s))) as Hall.
  { apply Forall_forall. intros [k l] Hin.
    apply elem_of_map_to_list in Hin. exact (He k l Hin). }
  induction Hall as [|kv l Hkv _ IH]; simpl; [done|].
  by rewrite Hkv, IH.
Qed.

(** An eviction pass finds nothing to remove in empty channels. *)
Lemma TrimLoop_empty (P : Platform) (T : Z) (order : list (string * Z)) :
  forall acc : UULMSubsystem * Z,
    all_channels_empty (fst acc) -> TrimLoop P T order acc = acc.
Proof.
  induction order as [|x order IH]; intros acc He; simpl; [done|].
  destruct (T <=? snd acc); [done|].
  assert (TrimVisit P T x acc = acc) as ->; [|by apply IH].
  unfold TrimVisit.
  destruct (LogEntries (fst acc) !! FKey (fst x)) as [l|] eqn:El; [|done].
  by rewrite (He _ _ El).
Qed.

(** [ClearAllChannels] (and [ClearChannel]) empty the channels but leave
    the memory tracker as it is, so the bytes of the cleared entries stay
    charged to the budget: every channel reads as empty, and an entry
    that did not fit in the budget before the call is dropped after it,
    the eviction pass finding nothing to remove. *)
Theorem ClearAllChannels_keeps_the_budget_charged (P : Platform)
    (e : FULMLogEntry) (s : UULMSubsystem) :
  WouldExceedBudget (CalculateLogEntrySize P e) (MemoryTracker s) = true ->
  let s0 := ClearAllChannels s in
  let s1 := StoreProcessedLogEntry P e s0 in
  MemoryTracker s0 = MemoryTracker s
  /\ (forall (ch : string) (n : Z), GetLogEntries ch n s0 = [])
  /\ all_channels_empty s1
  /\ GetTotalMemoryUsage (MemoryTracker s1)
     = GetTotalMemoryUsage (MemoryTracker s).
Proof.
  intros Hfull. cbn zeta.
  pose proof (ClearAllChannels_empty s) as He.
  set (s0 := ClearAllChannels s) in *.
  assert (MemoryTracker s0 = MemoryTracker s) as Htr by done.
  split; [done|]. split.
  { intros ch n. destruct (IsEmpty ch) eqn:Ech.
    - unfold GetLogEntries. rewrite Ech. fold (AllEntries s0).
      rewrite all_channels_empty_AllEntries by done.
      change (StableSortByTime []) with (@nil FULMLogEntry).
      destruct (_ && _); [apply skipn_nil | done].
    - rewrite GetLogEntries_channel by done.
      assert (EntriesOf ch s0 = []) as ->.
      { unfold EntriesOf.
        destruct (LogEntries s0 !! FKey ch) as [l|] eqn:El; [|done].
        simpl. exact (He _ _ El). }
      destruct (0 <? n); [|done]. unfold lastn. apply skipn_nil. }
  assert (LogEntries (TrimMemoryBudget P s0) = LogEntries s0
          /\ TotalMemoryUsedCounter (MemoryTracker (TrimMemoryBudget P s0))
             = TotalMemoryUsedCounter (MemoryTracker s0)
          /\ MemoryBudget (MemoryTracker (TrimMemoryBudget P s0))
             = MemoryBudget (MemoryTracker s0)) as (Hl & Hc & Hb).
  { unfold TrimMemoryBudget. destruct (SafelyWithinBudget s0); [done|].
    by rewrite TrimLoop_empty. }
  unfold StoreProcessedLogEntry.
  destruct (negb (IsChannelInMasterList (entry_Channel e)));
    [by rewrite Htr|].
  rewrite Htr, Hfull. cbn [andb].
  assert (WouldExceedBudget (CalculateLogEntrySize P e)
            (MemoryTracker (TrimMemoryBudget P s0)) = true) as ->.
  { unfold WouldExceedBudget, GetTotalMemoryUsage in *.
    by rewrite Hc, Hb, Htr. }
  split.
  - unfold all_channels_empty. by rewrite Hl.
  - unfold GetTotalMemoryUsage. by rewrite Hc, Htr.
Qed.

(** The theorem on the store of 318 bytes under a budget of 320 bytes,
    cleared: an entry of 106 bytes is still dropped. *)
Lemma ClearAllChannels_keeps_the_budget_charged_witness :
  all_channels_empty
    (StoreProcessedLogEntry desktop64 (gameplay_entry "f")
       (ClearAllChannels (store_of_318_bytes 320)))
  /\ GetTotalMemoryUsage
       (MemoryTracker
          (StoreProcessedLogEntry desktop64 (gameplay_entry "f")
             (ClearAllChannels (store_of_318_bytes 320))))
     = 318.
Proof.
  destruct (ClearAllChannels_keeps_the_budget_charged
              desktop64 (gameplay_entry "f") (store_of_318_bytes 320))
    as (_ & _ & H1 & H2).
  - reflexivity.
  - split; [exact H1|]. rewrite H2. reflexivity.
Defined.

(** ** Sampled logging ([ULMInternal::ShouldSample]) *)

(** The answers of [n] calls in a row for one channel with the same
    custom rate, and the sampling states that they leave. *)
Fixpoint ShouldSample_times (n : nat) (Seconds : Q) (ChannelName : string)
    (CustomSampleRate : Z) (SamplingStates : gmap string FSamplingState)
  : list bool * gmap string FSamplingState :=
  match n with
  | O => ([], SamplingStates)
  | S n' =>
      let r := ShouldSample Seconds ChannelName CustomSampleRate
                            SamplingStates in
      let rs := ShouldSample_times n' Seconds ChannelName CustomSampleRate
                                   (snd r) in
      (fst r :: fst rs, snd rs)
  end.

(** The state that [FindOrAdd] gives for the channel. *)
Definition SamplingState_of (ChannelName : string)
    (SamplingStates : gmap string FSamplingState) : FSamplingState :=
  default FSamplingState_default (SamplingStates !! FKey ChannelName).

(** The rate a call with the custom rate [CustomSampleRate] goes by: the
    custom rate when it is positive, the rate of the state otherwise. *)
Definition rate_in_force (CustomSampleRate : Z) (ChannelName : string)
    (SamplingStates : gmap string FSamplingState) : Z :=
  if 0 <? CustomSampleRate then CustomSampleRate
  else SampleRate (SamplingState_of ChannelName SamplingStates).

Lemma ShouldSample_step (Seconds : Q) (ChannelName : string)
    (Rate N c : Z) (m : gmap string FSamplingState) :
  0 < N < 2^32 -> 0 <= c < N -> 0 <= Rate ->
  rate_in_force Rate ChannelName m = N ->
  MessageCount (SamplingState_of ChannelName m) = c ->
  let r := ShouldSample Seconds ChannelName Rate m in
  fst r = (c + 1 =? N)
  /\ rate_in_force Rate ChannelName (snd r) = N
  /\ MessageCount (SamplingState_of ChannelName (snd r))
     = (if c + 1 =? N then 0 else c + 1).
Proof.
  intros HN Hc HR Hrate Hcount. cbn zeta.
  unfold rate_in_force, SamplingState_of, ShouldSample in *.
  rewrite Hrate, Hcount. unfold wrapU32. rewrite Z.mod_small by lia.
  destruct (c + 1 =? N) eqn:E; [apply Z.eqb_eq in E | apply Z.eqb_neq in E].
  - assert ((N <=? c + 1) = true) as -> by (apply Z.leb_le; lia).
    cbn [fst snd]. rewrite lookup_insert_eq. cbn [default SampleRate MessageCount].
    split; [done|]. split; [|done].
    destruct (0 <? Rate) eqn:ER; [exact Hrate | done].
  - assert ((N <=? c + 1) = false) as -> by (apply Z.leb_gt; lia).
    cbn [fst snd]. rewrite lookup_insert_eq. cbn [default SampleRate MessageCount].
    split; [done|]. split; [|done].
    destruct (0 <? Rate) eqn:ER; [exact Hrate | done].
Qed.

(** Sampling keeps one message in [N]: for a channel that has counted
    [c < N] messages since the last one kept, and calls that go by the
    rate [N] (passed as the custom rate, or left in the state by an
    earlier call, or the default 100), the [i]-th of the following calls
    answers true exactly when [N] divides [c + i + 1] (counting [i] from
    0), and [n] calls leave the count [(c + n) mod N].  From a fresh
    state the calls kept are number [N], [2N], ...; the first [N - 1]
    messages of a channel are all dropped. *)
Theorem ShouldSample_keeps_every_Nth (n : nat) (Seconds : Q)
    (ChannelName : string) (Rate N c : Z) (m : gmap string FSamplingState) :
  0 < N < 2^32 -> 0 <= c < N -> 0 <= Rate ->
  rate_in_force Rate ChannelName m = N ->
  MessageCount (SamplingState_of ChannelName m) = c ->
  let r := ShouldSample_times n Seconds ChannelName Rate m in
  length (fst r) = n
  /\ (forall i : nat,
        (i < n)%nat ->
        fst r !! i = Some ((c + Z.of_nat i + 1) mod N =? 0))
  /\ MessageCount (SamplingState_of ChannelName (snd r))
     = (c + Z.of_nat n) mod N.
Proof.
  intros HN. revert c m.
  induction n as [|n IH]; intros c m Hc HR Hrate Hcount; cbn zeta.
  - simpl. split; [done|]. split; [intros i Hi; lia|].
    by rewrite Z.add_0_r, Z.mod_small by lia.
  - cbn [ShouldSample_times fst snd].
    destruct (ShouldSample_step Seconds ChannelName Rate N c m
                HN Hc HR Hrate Hcount) as (Hfst & Hrate1 & Hcount1).
    set (r1 := ShouldSample Seconds ChannelName Rate m) in *.
    set (c1 := if c + 1 =? N then 0 else c + 1) in *.
    assert (0 <= c1 < N) as Hc1.
    { unfold c1. destruct (c + 1 =? N) eqn:E; [lia|].
      apply Z.eqb_neq in E. lia. }
    assert (forall k : Z, (c1 + k) mod N = (c + 1 + k) mod N) as Hmod.
    { intros k. unfold c1.
      destruct (c + 1 =? N) eqn:E; [apply Z.eqb_eq in E | done].
      rewrite E. replace (N + k) with (k + 1 * N) by lia.
      by rewrite Z.mod_add by lia. }
    destruct (IH c1 (snd r1) Hc1 HR Hrate1 Hcount1) as (Hlen & Hith & Hend).
    split; [simpl; by rewrite Hlen|]. split.
    + intros [|i] Hi; simpl.
      * rewrite Hfst. f_equal. rewrite Z.add_0_r.
        destruct (c + 1 =? N) eqn:E;
          [apply Z.eqb_eq in E | apply Z.eqb_neq in E].
        -- rewrite E, Z.mod_same by lia. done.
        -- rewrite Z.mod_small by lia. symmetry. apply Z.eqb_neq. lia.
      * rewrite Hith by lia. f_equal.
        replace (c1 + Z.of_nat i + 1) with (c1 + (Z.of_nat i + 1)) by lia.
        rewrite Hmod. f_equal. f_equal. lia.
    + rewrite Hend, Hmod. f_equal. lia.
Qed.

(** The theorem on seven calls at the custom rate 3, from no state at
    all: the third and the sixth call are kept, and one message has been
    counted since. *)
Lemma ShouldSample_keeps_every_Nth_witness :
  let r := ShouldSample_times 7 0 "Gameplay" 3 ∅ in
  length (fst r) = 7%nat
  /\ (forall i : nat,
        (i < 7)%nat ->
        fst r !! i = Some ((0 + Z.of_nat i + 1) mod 3 =? 0))
  /\ MessageCount (SamplingState_of "Gameplay" (snd r))
     = (0 + Z.of_nat 7) mod 3.
Proof.
  apply (ShouldSample_keeps_every_Nth 7 0 "Gameplay" 3 3 0 ∅).
  - lia.
  - lia.
  - lia.
  - reflexivity.
  - reflexivity.
Defined.

(** ** Registration in the channel registry ([FULMChannelRegistry::RegisterChannel]) *)

(** Configurations and states are kept for the same names. *)
Definition in_sync (reg : FULMChannelRegistry) : Prop :=
  dom (ChannelConfigs reg) = dom (ChannelStates reg).

(** The parent of every registered dotted name is registered. *)
Definition ancestor_closed (reg : FULMChannelRegistry) : Prop :=
  map_Forall
    (fun (k : string) (_ : FULMChannelState) =>
       IsEmpty (fst (ParseChannelHierarchy k))
       || bool_decide
            (is_Some (ChannelStates reg !! fst (ParseChannelHierarchy k)))
       = true)
    (ChannelStates reg).

(** The effective settings and the bucket of [s'] are those of [s]; the
    parent and the children may differ. *)
Definition same_settings_and_bucket (s s' : FULMChannelState) : Prop :=
  s' = set_children (ChildChannels s') (set_parent (ParentChannel s') s).

Lemma same_settings_and_bucket_refl s : same_settings_and_bucket s s.
Proof. by destruct s. Qed.

Lemma same_settings_and_bucket_trans s1 s2 s3 :
  same_settings_and_bucket s1 s2 -> same_settings_and_bucket s2 s3 ->
  same_settings_and_bucket s1 s3.
Proof.
  unfold same_settings_and_bucket. intros H12 H23.
  rewrite H23 at 1. rewrite H12. by destruct s1.
Qed.

Lemma Left_length_le (i : nat) (s : string) :
  (String.length (Left i s) <= i)%nat.
Proof.
  unfold Left. revert s. induction i as [|i IH]; intros [|c s]; simpl; try lia.
  specialize (IH s). lia.
Qed.

Lemma FindLastChar_lt (c : ascii) (s : string) (i : nat) :
  FindLastChar c s = Some i -> (i < String.length s)%nat.
Proof.
  revert i. induction s as [|a s IH]; intros i; simpl; [done|].
  destruct (FindLastChar c s) as [j|].
  - intros [= <-]. specialize (IH j eq_refl). lia.
  - destruct (Ascii.eqb a c); [|done]. intros [= <-]. lia.
Qed.

Lemma parent_shorter (n : string) :
  IsEmpty n = false ->
  (String.length (fst (ParseChannelHierarchy n)) < String.length n)%nat.
Proof.
  intros Hn. unfold ParseChannelHierarchy.
  destruct (FindLastChar "." n) as [i|] eqn:E; simpl.
  - apply FindLastChar_lt in E. pose proof (Left_length_le i n). lia.
  - destruct n; [done|]. simpl. lia.
Qed.

Lemma FindLastChar_FKey (s : string) :
  FindLastChar "." (FKey s) = FindLastChar "." s.
Proof.
  induction s as [|a s IH]; simpl; [done|]. by rewrite IH, ToUpper_dot.
Qed.

Lemma Left_FKey (i : nat) (s : string) : Left i (FKey s) = FKey (Left i s).
Proof.
  unfold Left. revert s. induction i as [|i IH]; intros [|c s]; simpl; try done.
  by rewrite IH.
Qed.

Lemma parent_FKey (n : string) :
  fst (ParseChannelHierarchy (FKey n)) = FKey (fst (ParseChannelHierarchy n)).
Proof.
  unfold ParseChannelHierarchy. rewrite FindLastChar_FKey.
  destruct (FindLastChar "." n); simpl; [apply Left_FKey | done].
Qed.

Lemma IsEmpty_FKey (s : string) : IsEmpty (FKey s) = IsEmpty s.
Proof. by destruct s. Qed.

Lemma FKey_neq_length (a b : string) :
  String.length a <> String.length b -> FKey a <> FKey b.
Proof. intros H E. apply H. by rewrite <- (FKey_length a), E, FKey_length. Qed.

(** The rebuild that ends [RegisterChannel] finds no child to visit. *)
Lemma UpdateChildChannels_no_children (n : string)
    (reg : FULMChannelRegistry) (st : FULMChannelState) :
  ChannelStates reg !! FKey n = Some st -> ChildChannels st = [] ->
  UpdateChildChannels n reg = reg.
Proof.
  intros Hst Hch. unfold UpdateChildChannels. rewrite Hst, Hch.
  by destruct (ChannelConfigs reg !! FKey n).
Qed.

(** What a registration of [n] with [cfg] leaves of [reg]. *)
Definition registered_from (n : string) (cfg : FULMChannelConfig)
    (reg reg' : FULMChannelRegistry) : Prop :=
  let p := fst (ParseChannelHierarchy n) in
  in_sync reg' /\ ancestor_closed reg'
  /\ DefaultConfig reg' = DefaultConfig reg
  /\ ChannelConfigs reg' !! FKey n = Some cfg
  /\ (exists Parent : option FULMChannelState,
        ChannelStates reg' !! FKey n
        = Some (UpdateEffectiveSettings cfg Parent
                  (set_parent p FULMChannelState_default))
        /\ (IsEmpty p = true -> Parent = None)
        /\ (IsEmpty p = false ->
            exists P : FULMChannelState,
              Parent = Some P
              /\ ChannelStates reg' !! FKey p
                 = Some (set_children (AddUnique n (ChildChannels P)) P)
              /\ (forall P0, ChannelStates reg !! FKey p = Some P0 -> P = P0)))
  /\ (forall (k : string) (c : FULMChannelConfig),
        k <> FKey n -> ChannelConfigs reg !! k = Some c ->
        ChannelConfigs reg' !! k = Some c)
  /\ (forall (k : string) (s : FULMChannelState),
        k <> FKey n -> ChannelStates reg !! k = Some s ->
        exists s', ChannelStates reg' !! k = Some s'
                   /\ same_settings_and_bucket s s').

Lemma in_sync_lookup (reg : FULMChannelRegistry) (k : string) :
  in_sync reg ->
  is_Some (ChannelConfigs reg !! k) <-> is_Some (ChannelStates reg !! k).
Proof. intros H. by rewrite <- !elem_of_dom, H. Qed.

Lemma RegisterChannel_fuel_registered_from (fuel : nat) :
  forall (n : string) (cfg : FULMChannelConfig) (reg : FULMChannelRegistry),
    (String.length n < fuel)%nat -> IsEmpty n = false ->
    in_sync reg -> ancestor_closed reg ->
    registered_from n cfg reg (RegisterChannel_fuel fuel n cfg reg).
Proof.
  induction fuel as [|fuel IH]; intros n cfg reg Hfuel Hn Hsync Hclosed;
    [lia|].
  cbn [RegisterChannel_fuel]. rewrite Hn.
  set (p := fst (ParseChannelHierarchy n)).
  pose proof (parent_shorter n Hn) as Hshort. fold p in Hshort.
  assert (FKey p <> FKey n) as Hpn by (apply FKey_neq_length; lia).
  (* the registry after the registration of a missing parent *)
  set (reg1 := if negb (IsEmpty p)
                  && negb (bool_decide
                             (is_Some (ChannelConfigs reg !! FKey p)))
               then RegisterChannel_fuel fuel p (DefaultConfig reg) reg
               else reg).
  assert (in_sync reg1 /\ ancestor_closed reg1
          /\ DefaultConfig reg1 = DefaultConfig reg
          /\ (IsEmpty p = false -> is_Some (ChannelStates reg1 !! FKey p))
          /\ (forall P0 P1, ChannelStates reg !! FKey p = Some P0 ->
                ChannelStates reg1 !! FKey p = Some P1 -> P1 = P0)
          /\ (forall k c, k <> FKey n -> ChannelConfigs reg !! k = Some c ->
                ChannelConfigs reg1 !! k = Some c)
          /\ (forall k s, k <> FKey n -> ChannelStates reg !! k = Some s ->
                exists s', ChannelStates reg1 !! k = Some s'
                           /\ same_settings_and_bucket s s'))
    as (Hsync1 & Hclosed1 & Hdef1 & Hp1 & Hold1 & Hcfg1 & Hst1).
  { unfold reg1. destruct (IsEmpty p) eqn:Ep; simpl.
    { do 4 (split; [done|]). split; [intros; congruence|].
      split; [done|]. intros k s _ Hs. exists s.
      split; [done | apply same_settings_and_bucket_refl]. }
    case_bool_decide as Hin; simpl.
    - do 3 (split; [done|]). split; [|split; [|split; [done|]]].
      + intros _. by apply in_sync_lookup.
      + intros P0 P1 H0 H1. congruence.
      + intros k s _ Hs. exists s.
        split; [done | apply same_settings_and_bucket_refl].
    - destruct (IH p (DefaultConfig reg) reg ltac:(lia) Ep Hsync Hclosed)
        as (Hs' & Hc' & Hd' & Hcf' & (Par & Hst' & _) & Hk' & Hss').
      do 3 (split; [done|]). split; [|split; [|split]].
      + intros _. by rewrite Hst'.
      + intros P0 P1 H0 _. exfalso. apply Hin.
        apply in_sync_lookup; [done|]. by rewrite H0.
      + intros k c _ Hc. apply Hk'; [|done]. intros ->.
        apply Hin. by rewrite Hc.
      + intros k s _ Hs. apply Hss'; [|done]. intros ->.
        apply Hin. apply in_sync_lookup; [done|]. by rewrite Hs. }
  clearbody reg1.
  set (reg2 := set_configs (<[FKey n := cfg]> (ChannelConfigs reg1)) reg1).
  set (NewState := set_parent p FULMChannelState_default).
  set (ParentState := if negb (IsEmpty p)
                      then ChannelStates reg2 !! FKey p else None).
  set (NewState' := UpdateEffectiveSettings cfg ParentState NewState).
  set (reg3 := if negb (IsEmpty p) then
                 match ChannelStates reg2 !! FKey p with
                 | Some Parent =>
                     set_states
                       (<[FKey p := set_children
                                      (AddUnique n (ChildChannels Parent))
                                      Parent]> (ChannelStates reg2)) reg2
                 | None => reg2
                 end
               else reg2).
  set (reg4 := set_states (<[FKey n := NewState']> (ChannelStates reg3)) reg3).
  assert (ChildChannels NewState' = []) as Hnochild.
  { unfold NewState'.
    by destruct (UpdateEffectiveSettings_hierarchy cfg ParentState NewState)
      as [_ ->]. }
  rewrite (UpdateChildChannels_no_children n reg4 NewState');
    [|simpl; apply lookup_insert_eq|done].
  (* the states of [reg3] *)
  assert (ChannelConfigs reg3 = <[FKey n := cfg]> (ChannelConfigs reg1))
    as Hcfg3.
  { unfold reg3. destruct (negb (IsEmpty p)); [|done].
    by destruct (ChannelStates reg2 !! FKey p). }
  assert (DefaultConfig reg3 = DefaultConfig reg1) as Hdef3.
  { unfold reg3. destruct (negb (IsEmpty p)); [|done].
    by destruct (ChannelStates reg2 !! FKey p). }
  assert (dom (ChannelStates reg3) = dom (ChannelStates reg1)) as Hdom3.
  { unfold reg3. destruct (negb (IsEmpty p)); [|done].
    destruct (ChannelStates reg2 !! FKey p) as [Parent|] eqn:EP; [|done].
    simpl. apply dom_insert_lookup_L. simpl in EP. by rewrite EP. }
  assert (forall k s, ChannelStates reg1 !! k = Some s ->
            exists s', ChannelStates reg3 !! k = Some s'
                       /\ same_settings_and_bucket s s') as Hst3.
  { intros k s Hs. unfold reg3. destruct (negb (IsEmpty p)).
    2: { exists s. split; [done | apply same_settings_and_bucket_refl]. }
    destruct (ChannelStates reg2 !! FKey p) as [Parent|] eqn:EP.
    2: { exists s. split; [done | apply same_settings_and_bucket_refl]. }
    simpl. destruct (decide (FKey p = k)) as [<-|Hne].
    - rewrite lookup_insert_eq. eexists. split; [done|].
      simpl in EP. assert (Parent = s) as -> by congruence.
      unfold same_settings_and_bucket. by destruct s.
    - rewrite lookup_insert_ne by done. exists s.
      split; [done | apply same_settings_and_bucket_refl]. }
  unfold registered_from. fold p.
  split; [|split; [|split; [|split; [|split; [|split]]]]].
  - unfold in_sync, reg4. simpl. rewrite Hcfg3, !dom_insert_L, Hdom3.
    by rewrite Hsync1.
  - intros k s Hk. simpl in Hk. simpl.
    destruct (decide (FKey n = k)) as [<-|Hne].
    + rewrite parent_FKey. fold p. rewrite IsEmpty_FKey.
      destruct (IsEmpty p) eqn:Ep; [done|]. simpl.
      apply bool_decide_eq_true.
      rewrite lookup_insert_ne by (intros E; apply Hpn; by rewrite E).
      apply elem_of_dom. rewrite Hdom3. apply elem_of_dom. by apply Hp1.
    + rewrite lookup_insert_ne in Hk by done.
      assert (is_Some (ChannelStates reg1 !! k)) as [s1 Hs1].
      { apply elem_of_dom. rewrite <- Hdom3. apply elem_of_dom. eauto. }
      specialize (Hclosed1 k s1 Hs1). simpl in Hclosed1.
      destruct (IsEmpty (fst (ParseChannelHierarchy k))); [done|].
      simpl in *. apply bool_decide_eq_true in Hclosed1.
      apply bool_decide_eq_true.
      apply elem_of_dom. rewrite dom_insert_L. apply elem_of_union_r.
      rewrite Hdom3. by apply elem_of_dom.
  - simpl. by rewrite Hdef3.
  - simpl. rewrite Hcfg3. apply lookup_insert_eq.
  - exists ParentState. split; [simpl; apply lookup_insert_eq|].
    split; [intros Ep; unfold ParentState; by rewrite Ep|].
    intros Ep. destruct (Hp1 Ep) as [P HP].
    exists P. unfold ParentState, reg3. rewrite Ep. simpl. rewrite HP.
    split; [done|]. split.
    + rewrite lookup_insert_ne by (intros E; apply Hpn; by rewrite E).
      unfold reg3. rewrite Ep. simpl. rewrite HP. simpl.
      apply lookup_insert_eq.
    + intros P0 HP0. by apply (Hold1 P0 P HP0).
  - intros k c Hne Hc. simpl. rewrite Hcfg3.
    rewrite lookup_insert_ne by done. by apply Hcfg1.
  - intros k s Hne Hs. simpl. rewrite lookup_insert_ne by done.
    destruct (Hst1 k s Hne Hs) as (s1 & Hs1 & Hss1).
    destruct (Hst3 k s1 Hs1) as (s3 & Hs3 & Hss3).
    exists s3. split; [done|].
    by apply (same_settings_and_bucket_trans s s1 s3).
Qed.

(** Registering a non-empty name [n] with the configuration [cfg], in a
    registry that keeps configurations and states for the same names and
    the parent of every registered name: both invariants still hold
    afterwards; [n] has the configuration [cfg] and a fresh state (default
    bucket, no children, even when [n] was registered with children
    before) whose parent is the part of [n] before its last dot and whose
    effective settings are computed from that parent's state; a parent
    that was not registered is registered first, a parent that was
    registered keeps its state, and in both cases it lists [n] as a
    child.  No other configuration is overwritten and no other channel
    has its effective settings or its bucket touched: only parents and
    child lists change. *)
Theorem RegisterChannel_registers_the_parent_and_rebuilds_nothing
    (n : string) (cfg : FULMChannelConfig) (reg : FULMChannelRegistry) :
  IsEmpty n = false -> in_sync reg -> ancestor_closed reg ->
  let reg' := ULMChannel.RegisterChannel n cfg reg in
  let p := fst (ParseChannelHierarchy n) in
  in_sync reg' /\ ancestor_closed reg'
  /\ DefaultConfig reg' = DefaultConfig reg
  /\ GetChannelConfig n reg' = cfg
  /\ (exists Parent : option FULMChannelState,
        GetChannelState n reg'
        = Some (UpdateEffectiveSettings cfg Parent
                  (set_parent p FULMChannelState_default))
        /\ (IsEmpty p = true -> Parent = None)
        /\ (IsEmpty p = false ->
            exists P : FULMChannelState,
              Parent = Some P
              /\ GetChannelState p reg'
                 = Some (set_children (AddUnique n (ChildChannels P)) P)
              /\ (forall P0, GetChannelState p reg = Some P0 -> P = P0)))
  /\ (forall (k : string) (c : FULMChannelConfig),
        k <> FKey n -> ChannelConfigs reg !! k = Some c ->
        ChannelConfigs reg' !! k = Some c)
  /\ (forall (k : string) (s : FULMChannelState),
        k <> FKey n -> ChannelStates reg !! k = Some s ->
        exists s', ChannelStates reg' !! k = Some s'
                   /\ same_settings_and_bucket s s').
Proof.
  intros Hn Hsync Hclosed reg' p.
  destruct (RegisterChannel_fuel_registered_from
              (S (String.length n)) n cfg reg ltac:(lia) Hn Hsync Hclosed)
    as (H1 & H2 & H3 & H4 & H5 & H6 & H7).
  change (RegisterChannel_fuel (S (String.length n)) n cfg reg)
    with reg' in H1, H2, H3, H4, H5, H6, H7.
  fold p in H5.
  do 3 (split; [done|]).
  split; [unfold GetChannelConfig; by rewrite H4|].
  split; [exact H5|]. by split.
Qed.

(** The theorem on ["Gameplay.Combat.Melee"] in the registry that the
    constructor leaves: the two ancestors are registered on the way. *)
Lemma RegisterChannel_registers_the_parent_and_rebuilds_nothing_witness :
  let reg' := ULMChannel.RegisterChannel "Gameplay.Combat.Melee" child_config
                FULMChannelRegistry_new in
  ancestor_closed reg'
  /\ GetChannelConfig "Gameplay.Combat.Melee" reg' = child_config
  /\ IsChannelRegistered "Gameplay.Combat" reg' = true
  /\ IsChannelRegistered "Gameplay" reg' = true.
Proof.
  destruct (RegisterChannel_registers_the_parent_and_rebuilds_nothing
              "Gameplay.Combat.Melee" child_config FULMChannelRegistry_new)
    as (_ & Hclosed & _ & Hcfg & _).
  - reflexivity.
  - unfold in_sync. vm_compute. reflexivity.
  - unfold ancestor_closed.
    apply (bool_decide_unpack _
             (dec := map_Forall_dec _ (H7 := fun _ _ => decide (_ = true)) _)).
    vm_compute. exact I.
  - split; [exact Hclosed|]. split; [exact Hcfg|].
    split; vm_compute; reflexivity.
Defined.

(** ** Removal of a channel ([FULMChannelRegistry::UnregisterChannel]) *)

Import ULMChannelTree.

(** Two maps of states with the same names, the same effective settings
    and the same buckets: only parents and child lists differ. *)
Definition hierarchy_only (m m' : gmap string FULMChannelState) : Prop :=
  forall k : string,
    match m !! k, m' !! k with
    | Some s, Some s' => same_settings_and_bucket s s'
    | None, None => True
    | _, _ => False
    end.

Lemma hierarchy_only_refl m : hierarchy_only m m.
Proof.
  intros k. destruct (m !! k); [apply same_settings_and_bucket_refl | done].
Qed.

Lemma hierarchy_only_trans m1 m2 m3 :
  hierarchy_only m1 m2 -> hierarchy_only m2 m3 -> hierarchy_only m1 m3.
Proof.
  intros H12 H23 k. specialize (H12 k). specialize (H23 k).
  destruct (m1 !! k), (m2 !! k), (m3 !! k); try done.
  by eapply same_settings_and_bucket_trans.
Qed.

Lemma hierarchy_only_insert m k s s' :
  m !! k = Some s -> same_settings_and_bucket s s' ->
  hierarchy_only m (<[k := s']> m).
Proof.
  intros Hk Hs k'. destruct (decide (k = k')) as [<-|Hne].
  - by rewrite Hk, lookup_insert_eq.
  - rewrite lookup_insert_ne by done.
    destruct (m !! k'); [apply same_settings_and_bucket_refl | done].
Qed.

Lemma same_settings_and_bucket_set_parent s p :
  same_settings_and_bucket s (set_parent p s).
Proof. by destruct s. Qed.

Lemma same_settings_and_bucket_set_children s cs :
  same_settings_and_bucket s (set_children cs s).
Proof. by destruct s. Qed.

Lemma Reparent_hierarchy_only (Parent : string)
    (m : gmap string FULMChannelState) (c : string) :
  hierarchy_only m (Reparent Parent m c).
Proof.
  unfold Reparent. destruct (m !! FKey c) as [Child|] eqn:Hc;
    [|apply hierarchy_only_refl].
  set (m1 := <[FKey c := set_parent Parent Child]> m).
  assert (hierarchy_only m m1) as H1.
  { eapply hierarchy_only_insert;
      [done | apply same_settings_and_bucket_set_parent]. }
  destruct (negb (IsEmpty Parent)); [|done].
  destruct (m1 !! FKey Parent) as [ParentState|] eqn:Hp; [|done].
  eapply hierarchy_only_trans; [exact H1|].
  eapply hierarchy_only_insert;
    [done | apply same_settings_and_bucket_set_children].
Qed.

Lemma fold_Reparent_hierarchy_only (Parent : string) (cs : list string) :
  forall m, hierarchy_only m (fold_left (Reparent Parent) cs m).
Proof.
  induction cs as [|c cs IH]; intros m; simpl; [apply hierarchy_only_refl|].
  eapply hierarchy_only_trans; [apply Reparent_hierarchy_only | apply IH].
Qed.

(** A state whose parent is [Parent] keeps that parent. *)
Lemma Reparent_parent_kept (Parent : string)
    (m : gmap string FULMChannelState) (c k : string) (s : FULMChannelState) :
  m !! k = Some s -> ParentChannel s = Parent ->
  exists s', Reparent Parent m c !! k = Some s' /\ ParentChannel s' = Parent.
Proof.
  intros Hk Hp. unfold Reparent.
  destruct (m !! FKey c) as [Child|] eqn:Hc; [|eauto].
  set (m1 := <[FKey c := set_parent Parent Child]> m).
  assert (exists s1, m1 !! k = Some s1 /\ ParentChannel s1 = Parent)
    as (s1 & Hk1 & Hp1).
  { unfold m1. destruct (decide (FKey c = k)) as [<-|Hne].
    - rewrite lookup_insert_eq. eauto.
    - rewrite lookup_insert_ne by done. eauto. }
  destruct (negb (IsEmpty Parent)); [|eauto].
  destruct (m1 !! FKey Parent) as [ParentState|] eqn:HP; [|eauto].
  destruct (decide (FKey Parent = k)) as [<-|Hne].
  - rewrite lookup_insert_eq. eexists. split; [done|]. simpl. congruence.
  - rewrite lookup_insert_ne by done. eauto.
Qed.

Lemma Reparent_sets_parent (Parent : string)
    (m : gmap string FULMChannelState) (c : string) (s : FULMChannelState) :
  m !! FKey c = Some s ->
  exists s', Reparent Parent m c !! FKey c = Some s'
             /\ ParentChannel s' = Parent.
Proof.
  intros Hc. unfold Reparent. rewrite Hc.
  set (m1 := <[FKey c := set_parent Parent s]> m).
  assert (m1 !! FKey c = Some (set_parent Parent s)) as H1
    by apply lookup_insert_eq.
  destruct (negb (IsEmpty Parent)); [|eauto].
  destruct (m1 !! FKey Parent) as [ParentState|] eqn:HP; [|eauto].
  destruct (decide (FKey Parent = FKey c)) as [E|Hne].
  - rewrite E, lookup_insert_eq. eexists. split; [done|]. simpl.
    rewrite E, H1 in HP. by injection HP as <-.
  - rewrite lookup_insert_ne by done. eauto.
Qed.

Lemma fold_Reparent_parent_kept (Parent : string) (cs : list string) :
  forall (m : gmap string FULMChannelState) (k : string) (s : FULMChannelState),
    m !! k = Some s -> ParentChannel s = Parent ->
    exists s', fold_left (Reparent Parent) cs m !! k = Some s'
               /\ ParentChannel s' = Parent.
Proof.
  induction cs as [|c cs IH]; intros m k s Hk Hp; simpl; [eauto|].
  destruct (Reparent_parent_kept Parent m c k s Hk Hp) as (s1 & Hk1 & Hp1).
  by apply (IH _ k s1).
Qed.

Lemma fold_Reparent_sets_parent (Parent : string) (cs : list string) :
  forall (m : gmap string FULMChannelState) (c : string),
    c ∈ cs -> is_Some (m !! FKey c) ->
    exists s', fold_left (Reparent Parent) cs m !! FKey c = Some s'
               /\ ParentChannel s' = Parent.
Proof.
  induction cs as [|c0 cs IH]; intros m c Hin [s Hs]; simpl;
    [by apply elem_of_nil in Hin|].
  apply elem_of_cons in Hin as [->|Hin].
  - destruct (Reparent_sets_parent Parent m c0 s Hs) as (s1 & Hk1 & Hp1).
    by apply (fold_Reparent_parent_kept Parent cs _ (FKey c0) s1).
  - apply IH; [done|].
    pose proof (Reparent_hierarchy_only Parent m c0 (FKey c)) as H.
    rewrite Hs in H. by destruct (Reparent Parent m c0 !! FKey c).
Qed.

(** [UnregisterChannel] refuses ["Default"], in any letter case.  For
    another name [n], registered (and not its own parent) or not: [n] is
    no longer registered, its configuration reads as the default one and
    it admits nothing; every other channel keeps its configuration, and
    keeps its state up to its parent and its child list, so no effective
    setting is recomputed and no bucket reset: a child that inherited
    from the removed channel goes on with what it inherited.  The
    registered children of [n] get the parent of [n] as their parent. *)
Theorem UnregisterChannel_removes_one_channel_and_recomputes_nothing
    (n : string) (reg : FULMChannelRegistry) :
  FKey (GetParentChannel n reg) <> FKey n ->
  let reg' := UnregisterChannel n reg in
  (FString_eq n "Default" = true -> reg' = reg)
  /\ (FString_eq n "Default" = false ->
      IsChannelRegistered n reg' = false
      /\ GetChannelConfig n reg' = DefaultConfig reg
      /\ (forall v t, CanChannelLog n v t reg' = (false, reg'))
      /\ (forall k : string,
            k <> FKey n ->
            ChannelConfigs reg' !! k = ChannelConfigs reg !! k
            /\ match ChannelStates reg !! k, ChannelStates reg' !! k with
               | Some s, Some s' => same_settings_and_bucket s s'
               | None, None => True
               | _, _ => False
               end)
      /\ (forall c : string,
            c ∈ GetChildChannels n reg -> FKey c <> FKey n ->
            IsChannelRegistered c reg = true ->
            GetParentChannel c reg' = GetParentChannel n reg)).
Proof.
  intros Hown reg'. unfold reg', UnregisterChannel.
  destruct (FString_eq n "Default") eqn:Edef; [by split|].
  split; [done|]. intros _.
  set (States1 := match ChannelStates reg !! FKey n with
                  | Some State => _ | None => _ end).
  assert (hierarchy_only (ChannelStates reg) States1) as Hh.
  { unfold States1. destruct (ChannelStates reg !! FKey n) as [State|] eqn:Hn;
      [|apply hierarchy_only_refl].
    eapply hierarchy_only_trans; [|apply fold_Reparent_hierarchy_only].
    destruct (negb (IsEmpty (ParentChannel State)));
      [|apply hierarchy_only_refl].
    destruct (ChannelStates reg !! FKey (ParentChannel State)) eqn:Hp;
      [|apply hierarchy_only_refl].
    eapply hierarchy_only_insert;
      [done | apply same_settings_and_bucket_set_children]. }
  split; [|split; [|split; [|split]]].
  - unfold IsChannelRegistered. simpl. rewrite lookup_delete_eq.
    apply bool_decide_eq_false. by intros [? ?].
  - unfold GetChannelConfig. simpl. by rewrite lookup_delete_eq.
  - intros v t. unfold CanChannelLog, GetChannelState. simpl.
    by rewrite lookup_delete_eq.
  - intros k Hk. simpl. rewrite !lookup_delete_ne by done.
    split; [done | apply Hh].
  - intros c Hc Hcn Hreg. unfold GetParentChannel, GetChildChannels in *.
    simpl. rewrite lookup_delete_ne by done. unfold States1.
    destruct (ChannelStates reg !! FKey n) as [State|] eqn:Hn;
      [|by apply elem_of_nil in Hc].
    apply bool_decide_eq_true in Hreg.
    edestruct (fold_Reparent_sets_parent (ParentChannel State)
                 (ChildChannels State)) as (s' & -> & Hp'); [exact Hc| |done].
    destruct (negb (IsEmpty (ParentChannel State))); [|done].
    destruct (ChannelStates reg !! FKey (ParentChannel State)) eqn:Hp; [|done].
    destruct (decide (FKey (ParentChannel State) = FKey c)) as [E|Hne].
    + rewrite E, lookup_insert_eq. eauto.
    + by rewrite lookup_insert_ne.
Qed.

(** The theorem on the removal of ["Gameplay"] from the two-level
    registry: ["Gameplay.Combat"] becomes a root. *)
Lemma UnregisterChannel_removes_one_channel_and_recomputes_nothing_witness :
  let reg' := UnregisterChannel "Gameplay" two_level_registry in
  IsChannelRegistered "Gameplay" reg' = false
  /\ GetParentChannel "Gameplay.Combat" reg' = EmptyString.
Proof.
  destruct (UnregisterChannel_removes_one_channel_and_recomputes_nothing
              "Gameplay" two_level_registry) as [_ H].
  - vm_compute. discriminate.
  - destruct (H eq_refl) as (Hreg & _ & _ & _ & Hchild).
    split; [exact Hreg|].
    apply (Hchild "Gameplay.Combat"%string).
    + vm_compute. apply list_elem_of_here.
    + vm_compute. discriminate.
    + vm_compute. reflexivity.
Defined.

(** ** Switching a channel off ([FULMChannelRegistry::SetChannelEnabled]) *)

Lemma CanChannelLog_disabled (c : string) (reg : FULMChannelRegistry)
    (sc : FULMChannelState) (v : EULMVerbosity) (t : Q) :
  ChannelStates reg !! FKey c = Some sc -> bEffectiveEnabled sc = false ->
  fst (CanChannelLog c v t reg) = false.
Proof.
  intros Hc Hoff. unfold CanChannelLog, GetChannelState. rewrite Hc.
  unfold CanLog. by rewrite Hoff.
Qed.

Section DisabledParent.

Variables n c : string.
Variable cfc : FULMChannelConfig.
Hypothesis Hinherit : bInheritFromParent cfc = true.

(** [c] is registered with the configuration [cfc] and names [n], which
    is registered and disabled, as its parent. *)
Definition child_of_disabled (r : FULMChannelRegistry) : Prop :=
  wf_hierarchy r
  /\ ChannelConfigs r !! FKey c = Some cfc
  /\ (exists sn, ChannelStates r !! FKey n = Some sn
                 /\ bEffectiveEnabled sn = false)
  /\ (exists sc, ChannelStates r !! FKey c = Some sc
                 /\ FKey (ParentChannel sc) = FKey n
                 /\ IsEmpty (ParentChannel sc) = false).

Definition child_disabled (r : FULMChannelRegistry) : Prop :=
  exists sc, ChannelStates r !! FKey c = Some sc
             /\ bEffectiveEnabled sc = false.

Lemma child_of_disabled_rebuilt (r : FULMChannelRegistry)
    (sc : FULMChannelState) (cfg : FULMChannelConfig) :
  child_of_disabled r -> ChannelStates r !! FKey c = Some sc ->
  bInheritFromParent cfg = true ->
  bEffectiveEnabled
    (UpdateEffectiveSettings cfg
       (if IsEmpty (ParentChannel sc) then None
        else ChannelStates r !! FKey (ParentChannel sc)) sc) = false.
Proof.
  intros (_ & _ & (sn & Hn & Hoff) & (sc' & Hc & Hp & Hne)) Hsc Hflag.
  assert (sc' = sc) as -> by congruence.
  rewrite Hne, Hp, Hn.
  destruct (UpdateEffectiveSettings_inherit cfg sn sc Hflag) as [-> _].
  by rewrite Hoff.
Qed.

(** A rebuild below [n] keeps the picture, and leaves [c] disabled when
    it was or when it visits [c]. *)
Lemma RebuildEffectiveSettings_below_disabled (fuel : nat) :
  forall (m : string) (r : FULMChannelRegistry),
    child_of_disabled r ->
    (String.length (FKey n) < String.length (FKey m))%nat ->
    let r' := RebuildEffectiveSettings_fuel fuel m r in
    child_of_disabled r'
    /\ (child_disabled r -> child_disabled r')
    /\ (FKey m = FKey c -> fuel <> O -> child_disabled r').
Proof.
  induction fuel as [|fuel IH]; intros m r Hinv Hlen; cbn zeta.
  { simpl. split; [done|]. split; [done|]. intros _ H. by destruct H. }
  cbn [RebuildEffectiveSettings_fuel].
  pose proof Hinv as (Hwf & Hcfc & (sn & Hn & Hoff) & (sc & Hc & Hp & Hne)).
  destruct (ChannelStates r !! FKey m) as [State|] eqn:Hst.
  2: { split; [done|]. split; [done|]. intros E _. rewrite E in Hst.
       congruence. }
  destruct (ChannelConfigs r !! FKey m) as [Config|] eqn:Hcf.
  2: { split; [done|]. split; [done|]. intros E _. rewrite E in Hcf.
       congruence. }
  set (ParentState := if IsEmpty (ParentChannel State) then None
                      else ChannelStates r !! FKey (ParentChannel State)).
  set (State' := UpdateEffectiveSettings Config ParentState State).
  destruct (UpdateEffectiveSettings_hierarchy Config ParentState State)
    as [HpS HchS]. fold State' in HpS, HchS.
  set (r1 := set_states (<[FKey m := State']> (ChannelStates r)) r).
  assert (FKey m <> FKey n) as Hmn by (intros E; rewrite E in Hlen; lia).
  assert (wf_hierarchy r1) as Hwf1.
  { eapply rebuild_frame_wf; [exact Hwf|].
    by apply (rebuild_frame_write m r State State'). }
  assert (child_of_disabled r1) as Hinv1.
  { split; [done|]. split; [done|]. split.
    - exists sn. simpl. by rewrite lookup_insert_ne.
    - simpl. destruct (decide (FKey m = FKey c)) as [E|Hmc].
      + rewrite E, lookup_insert_eq. exists State'. split; [done|].
        rewrite E, Hc in Hst. injection Hst as <-. by rewrite HpS.
      + rewrite lookup_insert_ne by done. eauto. }
  assert ((child_disabled r \/ FKey m = FKey c) -> child_disabled r1) as Hq1.
  { intros Hor. unfold child_disabled. simpl.
    destruct (decide (FKey m = FKey c)) as [E|Hmc].
    - rewrite E, lookup_insert_eq. exists State'. split; [done|].
      rewrite E in Hst, Hcf.
      assert (Config = cfc) as -> by congruence.
      by apply child_of_disabled_rebuilt.
    - rewrite lookup_insert_ne by done. by destruct Hor. }
  assert (Forall (fun k => (String.length (FKey m)
                            < String.length (FKey k))%nat)
                 (ChildChannels State')) as Hlong.
  { rewrite HchS. exact (Hwf _ _ Hst). }
  assert (forall (cs : list string) (r2 : FULMChannelRegistry),
            Forall (fun k => (String.length (FKey m)
                              < String.length (FKey k))%nat) cs ->
            child_of_disabled r2 ->
            let r3 := fold_left
                        (fun r0 ChildChannel =>
                           RebuildEffectiveSettings_fuel fuel ChildChannel r0)
                        cs r2 in
            child_of_disabled r3 /\ (child_disabled r2 -> child_disabled r3))
    as Hfold.
  { induction cs as [|k cs IHcs]; intros r2 Hall Hinv2; cbn zeta; simpl;
      [done|].
    apply Forall_cons in Hall as [Hk Hall].
    destruct (IH k r2 Hinv2 ltac:(lia)) as (Hi & Hq & _).
    destruct (IHcs _ Hall Hi) as [Hi' Hq'].
    split; [exact Hi'|]. intros H. apply Hq', Hq, H. }
  destruct (Hfold (ChildChannels State') r1 Hlong Hinv1) as [Hi Hq].
  split; [exact Hi|]. split.
  - intros H. apply Hq, Hq1. by left.
  - intros E _. apply Hq, Hq1. by right.
Qed.

Lemma fold_Rebuild_below_disabled (fuel : nat) (cs : list string) :
  forall r : FULMChannelRegistry,
    Forall (fun k => (String.length (FKey n) < String.length (FKey k))%nat)
           cs ->
    child_of_disabled r ->
    let r' := fold_left
                (fun r0 ChildChannel =>
                   RebuildEffectiveSettings_fuel (S fuel) ChildChannel r0)
                cs r in
    child_of_disabled r'
    /\ (c ∈ cs \/ child_disabled r -> child_disabled r').
Proof.
  induction cs as [|k cs IH]; intros r Hall Hinv; cbn zeta; simpl.
  { split; [done|]. intros [H|H]; [by apply elem_of_nil in H | done]. }
  apply Forall_cons in Hall as [Hk Hall].
  destruct (RebuildEffectiveSettings_below_disabled (S fuel) k r Hinv Hk)
    as (Hi & Hq & Hvisit).
  destruct (IH _ Hall Hi) as [Hi' Hq'].
  split; [exact Hi'|]. intros [Hin|H].
  - apply elem_of_cons in Hin as [->|Hin].
    + apply Hq'. right. by apply Hvisit.
    + apply Hq'. by left.
  - apply Hq'. right. by apply Hq.
Qed.

End DisabledParent.

(** Switching a registered channel [n] off, without the recursive flag,
    in a registry whose child names are longer than their parents':
    afterwards [n] admits nothing, and neither does any channel [c] of the
    child list of [n] that is registered with the inherit flag and names
    [n] as its parent; switching such a child on again while [n] is off
    changes nothing for it. *)
Theorem SetChannelEnabled_off_silences_inheriting_children
    (n : string) (reg : FULMChannelRegistry) :
  wf_hierarchy reg -> IsEmpty n = false ->
  IsChannelRegistered n reg = true ->
  is_Some (ChannelConfigs reg !! FKey n) ->
  let reg' := SetChannelEnabled n false false reg in
  (forall v t, fst (CanChannelLog n v t reg') = false)
  /\ (forall (c : string) (sc : FULMChannelState),
        c ∈ GetChildChannels n reg ->
        GetChannelState c reg = Some sc ->
        FString_eq (ParentChannel sc) n = true ->
        is_Some (ChannelConfigs reg !! FKey c) ->
        bInheritFromParent (GetChannelConfig c reg) = true ->
        (forall v t, fst (CanChannelLog c v t reg') = false)
        /\ (forall v t,
              fst (CanChannelLog c v t (SetChannelEnabled c true false reg'))
              = false)).
Proof.
  intros Hwf Hne Hreg [Config Hcf] reg'.
  apply bool_decide_eq_true in Hreg as [State Hst].
  set (reg0 := set_configs (<[FKey n := set_bEnabled false Config]>
                              (ChannelConfigs reg)) reg).
  assert (wf_hierarchy reg0) as Hwf0 by exact Hwf.
  assert (exists k, size (ChannelStates reg) = S k) as [k Hsize].
  { destruct (size (ChannelStates reg)) as [|k] eqn:E; [|eauto].
    apply map_size_empty_iff in E. rewrite E in Hst. done. }
  assert (reg' = RebuildEffectiveSettings_fuel (S (S k)) n reg0) as Hreg'.
  { unfold reg', SetChannelEnabled. cbn [SetChannelEnabled_fuel].
    rewrite Hcf. unfold RebuildEffectiveSettings. fold reg0.
    by change (ChannelStates reg0) with (ChannelStates reg); rewrite Hsize. }
  set (ParentState := if IsEmpty (ParentChannel State) then None
                      else ChannelStates reg0 !! FKey (ParentChannel State)).
  set (Config' := set_bEnabled false Config).
  set (State' := UpdateEffectiveSettings Config' ParentState State).
  assert (bEffectiveEnabled State' = false) as Hoff.
  { unfold State', UpdateEffectiveSettings.
    destruct (bInheritFromParent Config'), ParentState; simpl; try done.
    apply andb_false_r. }
  assert (ChannelStates reg' !! FKey n = Some State') as Hn'.
  { rewrite Hreg'.
    apply (RebuildEffectiveSettings_self (S k) n reg0 State Config');
      [done | done | simpl; apply lookup_insert_eq]. }
  split; [intros v t; by apply (CanChannelLog_disabled n reg' State')|].
  intros c sc Hc Hsc Hpar [cfc Hcfc] Hflag.
  unfold GetChildChannels in Hc. rewrite Hst in Hc.
  unfold GetChannelState in Hsc.
  unfold GetChannelConfig in Hflag. rewrite Hcfc in Hflag.
  apply String.eqb_eq in Hpar.
  pose proof (wf_hierarchy_child reg (FKey n) State c Hwf Hst Hc) as Hlen.
  assert (FKey n <> FKey c) as Hnc by (intros E; rewrite E in Hlen; lia).
  (* the first step of the rebuild of [n] *)
  destruct (UpdateEffectiveSettings_hierarchy Config' ParentState State)
    as [HpS HchS]. fold State' in HpS, HchS.
  set (r1 := set_states (<[FKey n := State']> (ChannelStates reg0)) reg0).
  assert (reg' = fold_left
                   (fun r0 ChildChannel =>
                      RebuildEffectiveSettings_fuel (S k) ChildChannel r0)
                   (ChildChannels State') r1) as Hfold.
  { rewrite Hreg'. cbn [RebuildEffectiveSettings_fuel].
    change (ChannelStates reg0 !! FKey n) with (ChannelStates reg !! FKey n).
    rewrite Hst. simpl (ChannelConfigs reg0 !! FKey n).
    by rewrite lookup_insert_eq. }
  assert (child_of_disabled n c cfc r1) as Hinv1.
  { split.
    - eapply rebuild_frame_wf; [exact Hwf0|].
      by apply (rebuild_frame_write n reg0 State State').
    - split; [simpl; by rewrite lookup_insert_ne|]. split.
      + exists State'. split; [simpl; apply lookup_insert_eq | done].
      + exists sc. split; [simpl; by rewrite lookup_insert_ne|].
        split; [done|]. destruct (ParentChannel sc); [|done].
        by destruct n. }
  destruct (fold_Rebuild_below_disabled n c cfc Hflag k
              (ChildChannels State') r1) as [Hinv' Hq'].
  { rewrite HchS. exact (Hwf _ _ Hst). }
  { exact Hinv1. }
  rewrite <- Hfold in Hinv', Hq'.
  destruct Hq' as (sc' & Hsc' & Hoff'); [left; by rewrite HchS|].
  split; [intros v t; by apply (CanChannelLog_disabled c reg' sc')|].
  (* switching [c] on again *)
  intros v t.
  destruct Hinv' as (Hwf' & Hcfc' & Hsn' & Hscp').
  set (regc := set_configs (<[FKey c := set_bEnabled true cfc]>
                              (ChannelConfigs reg')) reg').
  assert (child_of_disabled n c (set_bEnabled true cfc) regc) as Hinvc.
  { split; [exact Hwf'|]. split; [simpl; apply lookup_insert_eq|]. done. }
  assert (exists k', size (ChannelStates reg') = S k') as [k' Hsize'].
  { destruct (size (ChannelStates reg')) as [|k'] eqn:E; [|eauto].
    apply map_size_empty_iff in E. rewrite E in Hsc'. done. }
  eapply (CanChannelLog_disabled c _ _ v t).
  - unfold SetChannelEnabled. cbn [SetChannelEnabled_fuel].
    rewrite Hcfc'. unfold RebuildEffectiveSettings. fold regc.
    change (ChannelStates regc) with (ChannelStates reg'). rewrite Hsize'.
    apply (RebuildEffectiveSettings_self (S k') c regc sc'
             (set_bEnabled true cfc));
      [done | done | simpl; apply lookup_insert_eq].
  - by apply (child_of_disabled_rebuilt n c (set_bEnabled true cfc)).
Qed.

(** The theorem on ["Gameplay"] and its child ["Gameplay.Combat"]. *)
Lemma SetChannelEnabled_off_silences_inheriting_children_witness :
  let reg' := SetChannelEnabled "Gameplay" false false two_level_registry in
  fst (CanChannelLog "Gameplay" Critical 1 reg') = false
  /\ fst (CanChannelLog "Gameplay.Combat" Critical 1 reg') = false
  /\ fst (CanChannelLog "Gameplay.Combat" Critical 1
            (SetChannelEnabled "Gameplay.Combat" true false reg')) = false.
Proof.
  destruct (SetChannelEnabled_off_silences_inheriting_children
              "Gameplay" two_level_registry) as [Hn Hc].
  - unfold wf_hierarchy.
    apply (bool_decide_unpack _ (dec := map_Forall_dec _ _)).
    vm_compute. exact I.
  - reflexivity.
  - vm_compute. reflexivity.
  - apply (bool_decide_unpack _). vm_compute. exact I.
  - split; [apply Hn|].
    destruct (ChannelStates two_level_registry !! FKey "Gameplay.Combat")
      as [sc|] eqn:Hsc; [|by vm_compute in Hsc].
    destruct (Hc "Gameplay.Combat"%string sc) as [H1 H2].
    + vm_compute. apply list_elem_of_here.
    + exact Hsc.
    + vm_compute in Hsc. injection Hsc as <-. vm_compute. reflexivity.
    + apply (bool_decide_unpack _). vm_compute. exact I.
    + vm_compute. reflexivity.
    + split; [apply H1 | apply H2].
Defined.

(** Switching [n] off rebuilds [n] and the channels of its child list.
    Where that list is empty, as [RegisterChannel] leaves it when [n] is
    registered again, no other channel is reached: a channel that names
    [n] as its parent keeps its state and admits as before. *)
Theorem SetChannelEnabled_reaches_the_listed_children_only
    (n : string) (reg : FULMChannelRegistry) (State : FULMChannelState) :
  ChannelStates reg !! FKey n = Some State ->
  ChildChannels State = [] ->
  is_Some (ChannelConfigs reg !! FKey n) ->
  let reg' := SetChannelEnabled n false false reg in
  forall c : string,
    FKey c <> FKey n ->
    ChannelStates reg' !! FKey c = ChannelStates reg !! FKey c
    /\ forall v t,
         fst (CanChannelLog c v t reg') = fst (CanChannelLog c v t reg).
Proof.
  intros Hst Hnil [Config Hcf] reg' c Hc.
  set (reg0 := set_configs (<[FKey n := set_bEnabled false Config]>
                              (ChannelConfigs reg)) reg).
  assert (exists k, size (ChannelStates reg) = S k) as [k Hsize].
  { destruct (size (ChannelStates reg)) as [|k] eqn:E; [|eauto].
    apply map_size_empty_iff in E. rewrite E in Hst. done. }
  set (ParentState := if IsEmpty (ParentChannel State) then None
                      else ChannelStates reg0 !! FKey (ParentChannel State)).
  set (Config' := set_bEnabled false Config).
  set (State' := UpdateEffectiveSettings Config' ParentState State).
  destruct (UpdateEffectiveSettings_hierarchy Config' ParentState State)
    as [_ HchS]. fold State' in HchS.
  assert (reg' = set_states (<[FKey n := State']> (ChannelStates reg0)) reg0)
    as Hreg'.
  { unfold reg', SetChannelEnabled. cbn [SetChannelEnabled_fuel].
    rewrite Hcf. unfold RebuildEffectiveSettings. fold reg0.
    change (ChannelStates reg0) with (ChannelStates reg). rewrite Hsize.
    cbn [RebuildEffectiveSettings_fuel].
    change (ChannelStates reg0 !! FKey n) with (ChannelStates reg !! FKey n).
    rewrite Hst. simpl (ChannelConfigs reg0 !! FKey n).
    rewrite lookup_insert_eq. fold Config' ParentState State'.
    by rewrite HchS, Hnil. }
  assert (ChannelStates reg' !! FKey c = ChannelStates reg !! FKey c) as Heq.
  { rewrite Hreg'. simpl. by rewrite lookup_insert_ne. }
  split; [exact Heq|].
  intros v t. unfold CanChannelLog, GetChannelState. rewrite Heq.
  by destruct (ChannelStates reg !! FKey c).
Qed.

(** ["Gameplay"] registered again after its child ["Gameplay.Combat"]. *)
Definition parent_registered_again : FULMChannelRegistry :=
  ULMChannel.RegisterChannel "Gameplay" parent_config two_level_registry.

(** The theorem on that registry: with ["Gameplay"] switched off, the
    child still admits. *)
Lemma SetChannelEnabled_reaches_the_listed_children_only_witness :
  let reg' := SetChannelEnabled "Gameplay" false false
                                parent_registered_again in
  fst (CanChannelLog "Gameplay" Critical 1 reg') = false
  /\ (exists sc, GetChannelState "Gameplay.Combat" reg' = Some sc
                 /\ FString_eq (ParentChannel sc) "Gameplay" = true)
  /\ fst (CanChannelLog "Gameplay.Combat" Critical 1 reg') = true.
Proof.
  cbn zeta.
  destruct (ChannelStates parent_registered_again !! FKey "Gameplay")
    as [State|] eqn:Hst; [|by vm_compute in Hst].
  destruct (SetChannelEnabled_reaches_the_listed_children_only
              "Gameplay" parent_registered_again State Hst)
    with (c := "Gameplay.Combat"%string) as [Hstate Hadmit].
  - vm_compute in Hst. injection Hst as <-. reflexivity.
  - apply (bool_decide_unpack _). vm_compute. exact I.
  - vm_compute. discriminate.
  - split; [by vm_compute|]. split.
    + unfold GetChannelState. rewrite Hstate. by eexists.
    + rewrite Hadmit. by vm_compute.
Defined.

(** ** File names of the rotation: generated and parsed back *)

(** A channel name that is not empty and has no underscore and no slash,
    a calendar date and a tracker whose indices are below the largest
    [int32]: the file name that [GenerateRotatedFilePath] builds, taken
    from the path by [GetCleanFilename], is read back by
    [ParseLogFileName] as that channel, that date and the index the
    tracker computed; so [RotateFile] registers the file it names. *)
Theorem ParseLogFileName_reads_back_the_generated_name
    (ch base : string) (Now : FDateTime) (t : FULMLogFileTracker) :
  plain_name ch = true -> valid_date Now ->
  Forall (fun f => FileIndex f < 2^31 - 1) (FilesOf ch t) ->
  ParseLogFileName
    (GetCleanFilename (GenerateRotatedFilePath ch base Now t))
  = Some (ch, (Year Now, Month Now, Day Now), NextIndex ch Now t)
  /\ 1 <= NextIndex ch Now t.
Proof.
  intros Hch Hdate Hidx.
  pose proof (NextIndex_spec ch Now t Hidx) as Hnext.
  pose proof (highest_index_nonneg Now (FilesOf ch t)) as Hhigh.
  split; [|lia].
  unfold GenerateRotatedFilePath.
  fold (RotatedFileName ch Now (NextIndex ch Now t)).
  destruct (RotatedFileName_no_slash ch Now (NextIndex ch Now t))
    as [Hne Hns]; [done | done | lia |].
  rewrite (GetCleanFilename_PathAppend base _ Hne Hns).
  apply ParseLogFileName_RotatedFileName; [done | done | lia].
Qed.

(** The theorem on ["Gameplay"] on a day of 2026, with one file of index
    1 registered for that day. *)
Lemma ParseLogFileName_reads_back_the_generated_name_witness :
  ParseLogFileName
    (GetCleanFilename
       (GenerateRotatedFilePath "Gameplay" "Saved/Logs/ULM" a_day
          (RegisterFile "Gameplay" a_log_path a_day 1
                        FULMLogFileTracker_new)))
  = Some ("Gameplay"%string, (2026, 10, 30), 2).
Proof.
  destruct (ParseLogFileName_reads_back_the_generated_name
              "Gameplay" "Saved/Logs/ULM" a_day
              (RegisterFile "Gameplay" a_log_path a_day 1
                            FULMLogFileTracker_new)) as [H _].
  - reflexivity.
  - unfold valid_date. simpl. lia.
  - repeat constructor.
  - rewrite H. vm_compute. reflexivity.
Defined.


(** ** The first rotation of a channel *)

(** A directory path as the subsystem passes it: not empty and without a
    slash at its end. *)
Definition directory_path (base : string) : bool :=
  match last_char base with
  | Some c => negb (is_slash c)
  | None => false
  end.

Lemma PathAppend_directory (base : string) (d : ascii) (F : string) :
  directory_path base = true -> Ascii.eqb d "/" = false ->
  PathAppend base (String d F) = base +:+ String "/" (String d F).
Proof.
  unfold directory_path, PathAppend. intros Hb Hd.
  destruct (last_char base) as [c|]; [|done]. by rewrite Hb, Hd.
Qed.

Lemma PathAppend_RotatedFileName (ch base : string) (Now : FDateTime)
    (idx : Z) :
  plain_name ch = true -> valid_date Now -> 0 <= idx ->
  directory_path base = true ->
  let Path := base +:+ String "/" (RotatedFileName ch Now idx) in
  PathAppend base (RotatedFileName ch Now idx) = Path
  /\ GetPath Path = base
  /\ GetCleanFilename Path = RotatedFileName ch Now idx.
Proof.
  intros Hch Hdate Hidx Hbase Path.
  destruct (RotatedFileName_no_slash ch Now idx Hch Hdate Hidx) as [Hne Hns].
  assert (PathAppend base (RotatedFileName ch Now idx) = Path) as HP
    by (by apply PathAppend_directory).
  split; [exact HP|]. split.
  - unfold GetPath, Path.
    by rewrite (before_last_app is_slash base "/" _ eq_refl Hns).
  - rewrite <- HP. by apply GetCleanFilename_PathAppend.
Qed.

(** A rotator with a valid configuration whose tracker knows no file of
    the channel [ch] (as it is as long as nothing but rotations register
    files), a plain channel name, a calendar date and a directory [base]:
    the path that [GetActiveFilePath] gives is the file of index 001 in
    [base]; the first [RotateFile] from that path returns the same path,
    so the rotation does not move on to another file, and registers it as
    the active file; the next [RotateFile] on that day returns the file of
    index 002. *)
Theorem first_RotateFile_returns_the_current_path
    (ch base : string) (Now Later : FDateTime) (r : FULMLogRotator) :
  IsValidRotationConfig r = true ->
  plain_name ch = true -> valid_date Now -> directory_path base = true ->
  ChannelFiles (FileTracker r) !! FKey ch = None ->
  let Current := GetActiveFilePath ch base Now r in
  let r1 := fst (RotateFile ch Current Now r) in
  Current = (base ++ "/" ++ RotatedFileName ch Now 1)%string
  /\ snd (RotateFile ch Current Now r) = Current
  /\ GetActiveFilePath ch base Later r1 = Current
  /\ snd (RotateFile ch Current Now r1)
     = (base ++ "/" ++ RotatedFileName ch Now 2)%string.
Proof.
  intros Hvalid Hch Hdate Hbase Hnone Current r1.
  destruct (PathAppend_RotatedFileName ch base Now 1 Hch Hdate ltac:(lia) Hbase)
    as (HP1 & HG1 & HC1).
  destruct (PathAppend_RotatedFileName ch base Now 2 Hch Hdate ltac:(lia) Hbase)
    as (HP2 & HG2 & HC2).
  set (Path1 := base +:+ String "/" (RotatedFileName ch Now 1)) in *.
  set (Path2 := base +:+ String "/" (RotatedFileName ch Now 2)) in *.
  change (base ++ "/" ++ RotatedFileName ch Now 1)%string with Path1.
  change (base ++ "/" ++ RotatedFileName ch Now 2)%string with Path2.
  assert (Current = Path1) as HCur.
  { unfold Current, GetActiveFilePath, GetActiveFile. rewrite Hnone.
    exact HP1. }
  assert (NextIndex ch Now (FileTracker r) = 1) as Hnext.
  { unfold NextIndex. by rewrite Hnone. }
  set (F1 := mkFileInfo Path1 ch Now 0 1 true).
  set (t2 := mkFileTracker
               (<[FKey ch := [F1]]>
                  (<[FKey ch := [FULMLogFileInfo_make Path1 ch Now 1]]>
                     (ChannelFiles (FileTracker r))))).
  assert (RotateFile ch Current Now r
          = (mkRotator (Config r) t2 (wrap32 (TotalRotations r + 1)), Path1))
    as Hrot.
  { unfold RotateFile. rewrite Hvalid. cbn [negb].
    rewrite HCur, HG1. unfold GenerateRotatedFilePath. rewrite Hnext.
    fold (RotatedFileName ch Now 1). rewrite HP1, HC1.
    rewrite (ParseLogFileName_RotatedFileName ch Now 1 Hch Hdate ltac:(lia)).
    f_equal. f_equal.
    unfold SetFileActive at 2. rewrite Hnone.
    unfold RegisterFile. rewrite Hnone. cbn [default existsb app].
    unfold SetFileActive. cbn [ChannelFiles]. rewrite lookup_insert_eq.
    cbn [map update_first FilePath FULMLogFileInfo_make set_active].
    by rewrite FString_eq_refl. }
  split; [exact HCur|]. split; [by rewrite Hrot, HCur|].
  assert (r1 = mkRotator (Config r) t2 (wrap32 (TotalRotations r + 1)))
    as Hr1 by (unfold r1; by rewrite Hrot).
  assert (ChannelFiles t2 !! FKey ch = Some [F1]) as Hfiles
    by (unfold t2; cbn [ChannelFiles]; apply lookup_insert_eq).
  split.
  - rewrite Hr1. unfold GetActiveFilePath, GetActiveFile.
    cbn [FileTracker]. rewrite Hfiles. by rewrite HCur.
  - rewrite Hr1. unfold RotateFile.
    assert (IsValidRotationConfig
              (mkRotator (Config r) t2 (wrap32 (TotalRotations r + 1)))
            = true) as -> by exact Hvalid.
    cbn [negb snd FileTracker]. rewrite HCur, HG1.
    unfold GenerateRotatedFilePath.
    assert (NextIndex ch Now t2 = 2) as ->.
    { unfold NextIndex. rewrite Hfiles.
      unfold F1.
      cbn [default from_option id fold_left CreationDate FileIndex].
      by rewrite FString_eq_refl. }
    fold (RotatedFileName ch Now 2). exact HP2.
Qed.

(** The theorem on ["Gameplay"] and a fresh rotator. *)
Lemma first_RotateFile_returns_the_current_path_witness :
  let Current :=
    GetActiveFilePath "Gameplay" "Saved/Logs/ULM" a_day FULMLogRotator_new in
  Current = "Saved/Logs/ULM/ULM_Gameplay_20261030_001.json"%string
  /\ snd (RotateFile "Gameplay" Current a_day FULMLogRotator_new) = Current
  /\ snd (RotateFile "Gameplay" Current a_day
            (fst (RotateFile "Gameplay" Current a_day FULMLogRotator_new)))
     = "Saved/Logs/ULM/ULM_Gameplay_20261030_002.json"%string.
Proof.
  destruct (first_RotateFile_returns_the_current_path
              "Gameplay" "Saved/Logs/ULM" a_day a_day FULMLogRotator_new)
    as (H1 & H2 & _ & H4).
  - reflexivity.
  - reflexivity.
  - unfold valid_date. simpl. lia.
  - reflexivity.
  - reflexivity.
  - split; [rewrite H1; vm_compute; reflexivity|].
    split; [exact H2|]. rewrite H4. vm_compute. reflexivity.
Defined.


(** ** Escaping of JSON strings ([FULMJSONFormatter::EscapeJSONString]) *)

Import ULMJSONFormat.

Lemma ReplaceChar_app (From : ascii) (To a b : string) :
  ReplaceChar From To (a +:+ b)
  = ReplaceChar From To a +:+ ReplaceChar From To b.
Proof.
  induction a as [|c a IH]; [done|].
  change (String c a +:+ b) with (String c (a +:+ b)).
  cbn [ReplaceChar]. rewrite IH.
  destruct (Ascii.eqb (ToUpper c) (ToUpper From)); [|done].
  symmetry. apply string_app_assoc.
Qed.

Lemma EscapeJSONString_app (a b : string) :
  EscapeJSONString (a +:+ b) = EscapeJSONString a +:+ EscapeJSONString b.
Proof. unfold EscapeJSONString. by rewrite !ReplaceChar_app. Qed.

(** The letter that follows the backslash in the escape of [c], for the
    seven characters that are escaped. *)
Definition escape_letter (c : ascii) : option ascii :=
  if Ascii.eqb c Backslash then Some Backslash
  else if Ascii.eqb c Quote then Some Quote
  else if Ascii.eqb c Newline then Some "n"%char
  else if Ascii.eqb c CarriageReturn then Some "r"%char
  else if Ascii.eqb c Tab then Some "t"%char
  else if Ascii.eqb c Backspace then Some "b"%char
  else if Ascii.eqb c FormFeed then Some "f"%char
  else None.

Definition escaped_by (x : ascii) : ascii :=
  if Ascii.eqb x "n" then Newline
  else if Ascii.eqb x "r" then CarriageReturn
  else if Ascii.eqb x "t" then Tab
  else if Ascii.eqb x "b" then Backspace
  else if Ascii.eqb x "f" then FormFeed
  else x.

Lemma EscapeJSONString_char (c : ascii) :
  EscapeJSONString (String c "")
  = match escape_letter c with
    | Some x => String Backslash (String x "")
    | None => String c ""
    end.
Proof. destruct c as [[] [] [] [] [] [] [] []]; reflexivity. Qed.

Lemma escape_letter_inv (c x : ascii) :
  escape_letter c = Some x -> c = escaped_by x.
Proof.
  destruct c as [[] [] [] [] [] [] [] []]; vm_compute; intros H;
    try discriminate H; by injection H as <-.
Qed.

Lemma EscapeJSONString_cons (c : ascii) (s : string) :
  EscapeJSONString (String c s)
  = EscapeJSONString (String c "") +:+ EscapeJSONString s.
Proof. by rewrite <- EscapeJSONString_app. Qed.

Lemma EscapeJSONString_prefix_free (c c' : ascii) (X Y : string) :
  EscapeJSONString (String c "") +:+ X = EscapeJSONString (String c' "") +:+ Y ->
  c = c' /\ X = Y.
Proof.
  rewrite !EscapeJSONString_char.
  destruct (escape_letter c) as [x|] eqn:E, (escape_letter c') as [x'|] eqn:E'.
  - change (String Backslash (String x X) = String Backslash (String x' Y)
            -> c = c' /\ X = Y).
    intros [= -> ->]. split; [|done].
    by rewrite (escape_letter_inv _ _ E), (escape_letter_inv _ _ E').
  - change (String Backslash (String x X) = String c' Y -> c = c' /\ X = Y).
    intros [= <- _]. by vm_compute in E'.
  - change (String c X = String Backslash (String x' Y) -> c = c' /\ X = Y).
    intros [= -> _]. by vm_compute in E.
  - change (String c X = String c' Y -> c = c' /\ X = Y).
    by intros [= -> ->].
Qed.

(** A string in which every backslash starts one of the seven escapes
    and no other quote, newline, carriage return, tab, backspace or form
    feed stands. *)
Fixpoint well_escaped (s : string) : bool :=
  match s with
  | EmptyString => true
  | String c r =>
      if Ascii.eqb c Backslash then
        match r with
        | String x r' =>
            bool_decide (escape_letter (escaped_by x) = Some x)
            && well_escaped r'
        | EmptyString => false
        end
      else
        bool_decide (escape_letter c = None) && well_escaped r
  end.

(** The escaping loses nothing and leaves none of the characters it
    looks for unescaped: two inputs with the same escaped string are
    equal, and in the escaped string every backslash is followed by one
    of backslash, quote, n, r, t, b and f, the seven escapes, while no
    quote, newline, carriage return, tab, backspace or form feed stands
    outside of an escape.  A string without these seven characters is returned
    unchanged (other control characters included). *)
Theorem EscapeJSONString_is_lossless :
  (forall a b : string, EscapeJSONString a = EscapeJSONString b -> a = b)
  /\ (forall s : string, well_escaped (EscapeJSONString s) = true)
  /\ (forall s : string,
        all_chars (fun c => bool_decide (escape_letter c = None)) s = true ->
        EscapeJSONString s = s).
Proof.
  split; [|split].
  - induction a as [|c a IH]; intros [|c' b] H.
    + done.
    + rewrite EscapeJSONString_cons, EscapeJSONString_char in H.
      destruct (escape_letter c'); discriminate H.
    + rewrite EscapeJSONString_cons, EscapeJSONString_char in H.
      destruct (escape_letter c); discriminate H.
    + rewrite (EscapeJSONString_cons c), (EscapeJSONString_cons c') in H.
      apply EscapeJSONString_prefix_free in H as [-> H].
      by rewrite (IH b H).
  - induction s as [|c s IH]; [done|].
    rewrite EscapeJSONString_cons, EscapeJSONString_char.
    destruct (escape_letter c) as [x|] eqn:E.
    + change (String Backslash (String x "") +:+ EscapeJSONString s)
        with (String Backslash (String x (EscapeJSONString s))).
      cbn [well_escaped]. rewrite Ascii.eqb_refl, IH, andb_true_r.
      apply bool_decide_eq_true.
      by rewrite <- (escape_letter_inv c x E).
    + change (String c "" +:+ EscapeJSONString s)
        with (String c (EscapeJSONString s)).
      cbn [well_escaped].
      assert (Ascii.eqb c Backslash = false) as ->.
      { destruct (Ascii.eqb c Backslash) eqn:Eb; [|done].
        apply Ascii.eqb_eq in Eb. subst c. by vm_compute in E. }
      rewrite IH, andb_true_r. by apply bool_decide_eq_true.
  - induction s as [|c s IH]; [done|]. cbn [all_chars].
    intros [Hc Hs]%andb_true_iff. apply bool_decide_eq_true in Hc.
    rewrite EscapeJSONString_cons, EscapeJSONString_char, Hc, (IH Hs).
    done.
Qed.


(** ** The file writer ([FULMFileWriter::ProcessWriteQueue]) *)

Import ULMFileWriter.

Lemma FString_eq_FKey (a b : string) :
  FString_eq a b = true <-> FKey a = FKey b.
Proof. unfold FString_eq. apply String.eqb_eq. Qed.

Lemma FString_eq_neq (a b : string) :
  FString_eq a b = false <-> FKey a <> FKey b.
Proof. unfold FString_eq. apply String.eqb_neq. Qed.

Lemma FString_eq_congr_r (a b c : string) :
  FKey b = FKey c -> FString_eq a b = FString_eq a c.
Proof. unfold FString_eq. by intros ->. Qed.

Lemma FString_eq_congr_l (a b c : string) :
  FKey b = FKey c -> FString_eq b a = FString_eq c a.
Proof. unfold FString_eq. by intros ->. Qed.

(** The lines of the entries of [Batch] for the file [p], in the order of
    the batch. *)
Definition lines_for (p : string) (Batch : list FULMFileWriteEntry)
  : list string :=
  map write_LogLine
      (List.filter (fun e => FString_eq (write_FilePath e) p) Batch).

(** What the calls [calls] of [Serialize] sent to the archive of [p]. *)
Definition serialized_to (p : string) (calls : list (string * string))
  : string :=
  fold_right (fun c acc => snd c +:+ acc) EmptyString
             (List.filter (fun c => FString_eq (fst c) p) calls).

(** *** The groups of a batch *)

Definition group_lines (p : string) (G : list (string * list string))
  : list string :=
  match List.find (fun kv => FString_eq (fst kv) p) G with
  | Some kv => snd kv
  | None => []
  end.

Definition keys_distinct (G : list (string * list string)) : Prop :=
  NoDup (map (fun kv => FKey (fst kv)) G).

Lemma group_lines_absent (p : string) (G : list (string * list string)) :
  FKey p ∉ map (fun kv => FKey (fst kv)) G -> group_lines p G = [].
Proof.
  unfold group_lines. induction G as [|[k ls] G IH]; [done|].
  intros Hnot. cbn [map fst] in Hnot. cbn [List.find fst].
  apply not_elem_of_cons in Hnot as [Hne Hnot].
  assert (FString_eq k p = false) as ->
    by (apply FString_eq_neq; intros E; apply Hne; by rewrite E).
  by apply IH.
Qed.

Lemma existsb_key_false (p : string) (G : list (string * list string)) :
  existsb (fun kv => FString_eq (fst kv) p) G = false ->
  FKey p ∉ map (fun kv => FKey (fst kv)) G.
Proof.
  induction G as [|[k ls] G IH]; cbn [existsb map fst].
  - intros _. apply not_elem_of_nil.
  - intros [Hk HG]%orb_false_iff. apply not_elem_of_cons. split.
    + apply FString_eq_neq in Hk. intros E. apply Hk. by rewrite E.
    + by apply IH.
Qed.

Lemma update_first_keys (p line : string) (G : list (string * list string)) :
  map (fun kv => FKey (fst kv))
      (update_first (fun kv => FString_eq (fst kv) p)
                    (fun kv => (fst kv, snd kv ++ [line])) G)
  = map (fun kv => FKey (fst kv)) G.
Proof.
  induction G as [|[k ls] G IH]; [done|]. cbn [update_first fst].
  destruct (FString_eq k p); cbn [map fst]; [done | by rewrite IH].
Qed.

Lemma update_first_group_lines (p q line : string)
    (G : list (string * list string)) :
  group_lines q
    (update_first (fun kv => FString_eq (fst kv) p)
                  (fun kv => (fst kv, snd kv ++ [line])) G)
  = if FString_eq p q
       && existsb (fun kv => FString_eq (fst kv) p) G
    then group_lines q G ++ [line] else group_lines q G.
Proof.
  unfold group_lines. induction G as [|[k ls] G IH].
  - cbn. by rewrite andb_false_r.
  - cbn [update_first existsb fst snd].
    destruct (FString_eq k p) eqn:Ekp.
    + apply FString_eq_FKey in Ekp. cbn [List.find fst snd orb].
      rewrite andb_true_r, (FString_eq_congr_l q k p Ekp).
      by destruct (FString_eq p q).
    + cbn [List.find fst snd orb].
      destruct (FString_eq k q) eqn:Ekq.
      * assert (FString_eq p q = false) as ->; [|done].
        apply FString_eq_neq. apply FString_eq_neq in Ekp.
        apply FString_eq_FKey in Ekq. congruence.
      * exact IH.
Qed.

Lemma group_lines_app_new (q k : string) (G : list (string * list string)) :
  group_lines q (G ++ [(k, [])]) = group_lines q G.
Proof.
  unfold group_lines. induction G as [|[k' ls] G IH]; simpl.
  - by destruct (FString_eq k q).
  - by destruct (FString_eq k' q).
Qed.

Lemma AddToFileGroups_spec (G : list (string * list string))
    (e : FULMFileWriteEntry) :
  keys_distinct G ->
  keys_distinct (AddToFileGroups G e)
  /\ forall q, group_lines q (AddToFileGroups G e)
               = group_lines q G
                 ++ (if FString_eq (write_FilePath e) q
                     then [write_LogLine e] else []).
Proof.
  intros Hd. unfold AddToFileGroups.
  set (p := write_FilePath e). set (line := write_LogLine e).
  destruct (existsb (fun kv => FString_eq (fst kv) p) G) eqn:Ex; cbn [negb].
  - split.
    + unfold keys_distinct. by rewrite update_first_keys.
    + intros q. rewrite update_first_group_lines, Ex, andb_true_r.
      destruct (FString_eq p q); [done | by rewrite app_nil_r].
  - split.
    + unfold keys_distinct. rewrite update_first_keys, map_app.
      cbn [map fst]. apply NoDup_app. split; [exact Hd|]. split.
      * intros x Hx Hx'. apply list_elem_of_singleton in Hx'. subst x.
        by apply (existsb_key_false p G Ex).
      * apply NoDup_singleton.
    + intros q. rewrite update_first_group_lines, group_lines_app_new.
      rewrite existsb_app. cbn [existsb fst].
      rewrite FString_eq_refl, orb_true_r, andb_true_r.
      destruct (FString_eq p q); [done | by rewrite app_nil_r].
Qed.

Lemma fold_AddToFileGroups (Batch : list FULMFileWriteEntry) :
  forall G : list (string * list string),
    keys_distinct G ->
    keys_distinct (fold_left AddToFileGroups Batch G)
    /\ forall q, group_lines q (fold_left AddToFileGroups Batch G)
                 = group_lines q G ++ lines_for q Batch.
Proof.
  induction Batch as [|e Batch IH]; intros G Hd; cbn [fold_left].
  - split; [done|]. intros q. unfold lines_for. cbn. by rewrite app_nil_r.
  - destruct (AddToFileGroups_spec G e Hd) as [Hd1 Hl1].
    destruct (IH _ Hd1) as [Hd2 Hl2]. split; [done|].
    intros q. rewrite Hl2, Hl1, <- app_assoc. f_equal.
    unfold lines_for. cbn [List.filter].
    by destruct (FString_eq (write_FilePath e) q).
Qed.

(** *** The writes of a batch *)

Section WriterProperties.

Variable CreateFileWriter : string -> bool.
Variable IsError : string -> bool.

(** The archive of [p] is open. *)
Definition is_open (p : string) (w : FULMFileWriter) : bool :=
  existsb (fun k => FString_eq k p) (OpenFiles w).

(** The archive of [p] is open, or the file can be opened under every
    spelling of [p]; and the contrary. *)
Definition can_write (p : string) (w : FULMFileWriter) : Prop :=
  is_open p w = true
  \/ forall q, FString_eq q p = true -> CreateFileWriter q = true.

Definition cannot_write (p : string) (w : FULMFileWriter) : Prop :=
  is_open p w = false
  /\ forall q, FString_eq q p = true -> CreateFileWriter q = false.

Lemma is_open_congr (p k : string) (w : FULMFileWriter) :
  FKey p = FKey k -> is_open p w = is_open k w.
Proof.
  intros E. unfold is_open. induction (OpenFiles w) as [|x l IH]; [done|].
  cbn [existsb]. by rewrite IH, (FString_eq_congr_r x p k E).
Qed.

Lemma WriteToFile_spec (k content : string) (w : FULMFileWriter) :
  let w' := WriteToFile CreateFileWriter IsError k content w in
  BatchSize w' = BatchSize w /\ WriteQueue w' = WriteQueue w
  /\ (forall p, is_open p w = true -> is_open p w' = true)
  /\ (forall p, FKey p <> FKey k -> is_open p w' = is_open p w)
  /\ (is_open k w || CreateFileWriter k = true ->
      Serialized w' = Serialized w ++ [(k, content)])
  /\ (is_open k w || CreateFileWriter k = false ->
      Serialized w' = Serialized w /\ OpenFiles w' = OpenFiles w).
Proof.
  cbn zeta. unfold WriteToFile, GetOrCreateFile.
  fold (is_open k w).
  destruct (is_open k w) eqn:Eo; cbn [fst snd negb orb].
  - destruct (IsError k); cbn; by repeat split.
  - destruct (CreateFileWriter k) eqn:Ec; cbn [fst snd negb].
    + unfold is_open in *.
      assert (forall p,
                existsb (fun x => FString_eq x p) (OpenFiles w) = true ->
                existsb (fun x => FString_eq x p) (OpenFiles w ++ [k]) = true)
        as Hmono.
      { intros p Hp. by rewrite existsb_app, Hp. }
      assert (forall p, FKey p <> FKey k ->
                existsb (fun x => FString_eq x p) (OpenFiles w ++ [k])
                = existsb (fun x => FString_eq x p) (OpenFiles w)) as Hother.
      { intros p Hp. rewrite existsb_app. cbn [existsb].
        assert (FString_eq k p = false) as ->.
        { apply FString_eq_neq. intros E. apply Hp. by rewrite E. }
        by rewrite !orb_false_r. }
      destruct (IsError k); cbn;
        (split; [done|]); (split; [done|]); (split; [exact Hmono|]);
        (split; [exact Hother|]); by split.
    + cbn. by repeat split.
Qed.

Lemma serialized_to_cons (p k c : string) (calls : list (string * string)) :
  serialized_to p ((k, c) :: calls)
  = if FString_eq k p then c +:+ serialized_to p calls
    else serialized_to p calls.
Proof.
  unfold serialized_to. cbn [List.filter fst].
  by destruct (FString_eq k p).
Qed.

Lemma group_lines_cons (p k : string) (ls : list string)
    (G : list (string * list string)) :
  group_lines p ((k, ls) :: G)
  = if FString_eq k p then ls else group_lines p G.
Proof. unfold group_lines. cbn [List.find fst]. by destruct (FString_eq k p). Qed.

Lemma write_groups (G : list (string * list string)) :
  forall w : FULMFileWriter,
    keys_distinct G ->
    let w' :=
      fold_left
        (fun w0 FileGroup =>
           WriteToFile CreateFileWriter IsError (fst FileGroup)
                       (CombinedContent (snd FileGroup)) w0)
        G w in
    BatchSize w' = BatchSize w /\ WriteQueue w' = WriteQueue w
    /\ exists calls,
         Serialized w' = Serialized w ++ calls
         /\ (forall p, can_write p w ->
               serialized_to p calls = CombinedContent (group_lines p G))
         /\ (forall p, cannot_write p w ->
               serialized_to p calls = EmptyString).
Proof.
  induction G as [|[k ls] G IH]; intros w Hd; cbn zeta; cbn [fold_left].
  { split; [done|]. split; [done|]. exists []. rewrite app_nil_r.
    by repeat split. }
  unfold keys_distinct in Hd. cbn [map fst] in Hd.
  apply NoDup_cons in Hd as [Hk Hd].
  cbn [fst snd].
  destruct (WriteToFile_spec k (CombinedContent ls) w)
    as (Hb & Hq & Hmono & Hother & Hyes & Hno).
  set (w1 := WriteToFile CreateFileWriter IsError k (CombinedContent ls) w)
    in *.
  destruct (IH w1 Hd) as (Hb' & Hq' & calls' & Hser & Hcan & Hcannot).
  split; [congruence|]. split; [congruence|].
  assert (forall p, can_write p w -> can_write p w1) as Hcan1.
  { intros p [Ho|Hc]; [left; by apply Hmono | by right]. }
  destruct (is_open k w || CreateFileWriter k) eqn:Ew.
  - (* the group is written *)
    specialize (Hyes eq_refl).
    exists ((k, CombinedContent ls) :: calls'). split.
    { rewrite Hser, Hyes, <- app_assoc. done. }
    split.
    + intros p Hp. rewrite serialized_to_cons, group_lines_cons.
      rewrite (Hcan p (Hcan1 p Hp)).
      destruct (FString_eq k p) eqn:Ekp; [|done].
      apply FString_eq_FKey in Ekp.
      rewrite group_lines_absent by (by rewrite <- Ekp).
      apply string_app_nil_r.
    + intros p [Ho Hc]. rewrite serialized_to_cons.
      destruct (FString_eq k p) eqn:Ekp.
      * exfalso. rewrite (Hc k Ekp), orb_false_r in Ew.
        apply FString_eq_FKey in Ekp.
        rewrite (is_open_congr k p w Ekp) in Ew. congruence.
      * apply Hcannot. split; [|done].
        apply FString_eq_neq in Ekp.
        rewrite Hother; [done|]. intros E. apply Ekp. by rewrite E.
  - (* the file cannot be opened *)
    destruct (Hno eq_refl) as [Hsame Hopen].
    apply orb_false_iff in Ew as [Eo Ec].
    assert (forall p, is_open p w1 = is_open p w) as Hopen1
      by (intros p; unfold is_open; by rewrite Hopen).
    exists calls'. split; [by rewrite Hser, Hsame|]. split.
    + intros p Hp. rewrite group_lines_cons, (Hcan p (Hcan1 p Hp)).
      destruct (FString_eq k p) eqn:Ekp; [|done].
      exfalso. destruct Hp as [Ho|Hc].
      * apply FString_eq_FKey in Ekp.
        rewrite <- (is_open_congr k p w Ekp) in Ho. congruence.
      * rewrite (Hc k Ekp) in Ec. done.
    + intros p [Ho Hc]. apply Hcannot. split; [by rewrite Hopen1 | done].
Qed.

(** One pass over the write queue takes the first [BatchSize] entries
    (none when the size is not positive) and, for every file, whatever
    the letter case of its path in the entries, sends to its archive the
    lines that the batch has for it, in the order of the batch and each
    followed by a line feed, when the archive is open or can be opened;
    nothing at all when it cannot.  At shutdown [Run] makes one such
    pass: the entries beyond one batch stay in the queue and are never
    written. *)
Theorem ProcessWriteQueue_writes_each_file_its_lines_in_order
    (WriteTimeMicros : Z) (w : FULMFileWriter) :
  let n := Z.to_nat (BatchSize w) in
  let Batch := take n (WriteQueue w) in
  let w' := ProcessWriteQueue CreateFileWriter IsError WriteTimeMicros w in
  WriteQueue w' = drop n (WriteQueue w)
  /\ BatchSize w' = BatchSize w
  /\ (exists calls,
        Serialized w' = Serialized w ++ calls
        /\ (forall p, can_write p w ->
              serialized_to p calls = CombinedContent (lines_for p Batch))
        /\ (forall p, cannot_write p w ->
              serialized_to p calls = EmptyString))
  /\ WriteQueue (Run CreateFileWriter IsError [] WriteTimeMicros w)
     = drop n (WriteQueue w)
  /\ Serialized (Run CreateFileWriter IsError [] WriteTimeMicros w)
     = Serialized w'.
Proof.
  cbn zeta.
  set (n := Z.to_nat (BatchSize w)).
  set (w' := ProcessWriteQueue CreateFileWriter IsError WriteTimeMicros w).
  assert (WriteQueue w' = drop n (WriteQueue w)
          /\ BatchSize w' = BatchSize w
          /\ exists calls,
               Serialized w' = Serialized w ++ calls
               /\ (forall p, can_write p w ->
                     serialized_to p calls
                     = CombinedContent (lines_for p (take n (WriteQueue w))))
               /\ (forall p, cannot_write p w ->
                     serialized_to p calls = EmptyString)) as H.
  { unfold w', ProcessWriteQueue. fold n.
    destruct (WriteQueue w) as [|e q] eqn:Eq.
    { rewrite Eq, drop_nil, take_nil. split; [done|]. split; [done|].
      exists []. rewrite app_nil_r. by repeat split. }
    set (Batch := take n (e :: q)).
    set (w1 := with_write_queue (drop n (e :: q)) w).
    destruct (0 <? Z.of_nat (length Batch)) eqn:El.
    - unfold ProcessBatch.
      destruct (fold_AddToFileGroups Batch [] (NoDup_nil_2 : keys_distinct []))
        as [Hd Hl].
      destruct (write_groups (fold_left AddToFileGroups Batch []) w1 Hd)
        as (Hb & Hq & calls & Hser & Hcan & Hcannot).
      cbn [WriteQueue BatchSize Serialized with_file_diagnostics].
      split; [exact Hq|]. split; [exact Hb|].
      exists calls. split; [exact Hser|]. split.
      + intros p Hp. rewrite (Hcan p Hp), Hl. done.
      + exact Hcannot.
    - apply Z.ltb_ge in El.
      assert (Batch = []) as Hnil by (destruct Batch; [done | simpl in El; lia]).
      split; [done|]. split; [done|]. exists []. rewrite app_nil_r.
      rewrite Hnil. by repeat split. }
  destruct H as (H1 & H2 & H3).
  split; [exact H1|]. split; [exact H2|]. split; [exact H3|].
  cbn [Run]. fold w'. by split.
Qed.

End WriterProperties.


(** ** The cache of channel states behind [ULM_LOG] *)

Import ULMLogMacros.

Lemma IsValidVerbosity_true (v : EULMVerbosity) : IsValidVerbosity v = true.
Proof. by destruct v. Qed.

(** A thread that uses [ULM_LOG] for a channel that is not registered,
    and that it has not cached, logs nothing and caches the miss.  When
    the channel is then registered in the same registry and would admit
    the severity, [ULM_LOG] of that thread still logs nothing and leaves
    its cache as it is as long as the clock is at most five seconds past
    the last flush of the cache; the first use after that flushes the
    cache and hands the message to [ULMLogMessage]. *)
Theorem ULM_LOG_keeps_a_miss_for_five_seconds
    (Ptr : Z) (t0 Seconds0 : Q) (ctx0 : CallContext)
    (g0 g1 : FULMGlobals) (reg0 reg1 : FULMChannelRegistry)
    (st : FULMChannelState) (ch : string) (v : EULMVerbosity)
    (Format : option string) (Msg0 : string) (FileName0 : option string)
    (LineNumber0 : Z) (c0 : FThreadCache) :
  IsValidChannel ch = true -> IsValidFormat Format = true ->
  GULMChannelRegistry g0 = Some reg0 -> GetChannelState ch reg0 = None ->
  ChannelStateCache c0 !! FKey ch = None ->
  GULMChannelRegistry g1 = Some reg1 -> GetChannelState ch reg1 = Some st ->
  bEffectiveEnabled st = true ->
  verbosity_lt v (EffectiveMinVerbosity st) = false ->
  let r0 := ULM_LOG Ptr t0 Seconds0 ctx0 ch v Format Msg0 FileName0
                    LineNumber0 (g0, c0) in
  let c1 := snd r0 in
  fst r0 = g0
  /\ (LastRegistryPtr c0 <> Some Ptr -> LastCacheFlush c1 = t0)
  /\ (forall (t Seconds : Q) (ctx : CallContext) (Msg : string)
             (FileName : option string) (LineNumber : Z),
        (t - LastCacheFlush c1 <= 5)%Q ->
        ULM_LOG Ptr t Seconds ctx ch v Format Msg FileName LineNumber
                (g1, c1)
        = (g1, c1))
  /\ (forall (t Seconds : Q) (ctx : CallContext) (Msg : string)
             (FileName : option string) (LineNumber : Z),
        (5 < t - LastCacheFlush c1)%Q ->
        fst (ULM_LOG Ptr t Seconds ctx ch v Format Msg FileName LineNumber
                     (g1, c1))
        = ULMLogMessage Seconds ctx ch v Msg FileName LineNumber g1).
Proof.
  intros Hch Hfmt Hg0 Hreg0 Hc0 Hg1 Hreg1 Hen Hv. cbn zeta.
  unfold ULM_LOG. rewrite Hch, Hfmt, IsValidVerbosity_true. cbn [andb fst snd].
  rewrite Hg0, Hg1. cbn [fmap option_fmap option_map].
  set (flush0 := negb (bool_decide (Some Ptr = LastRegistryPtr c0))
                 || Qlt_bool 5 (t0 - LastCacheFlush c0)).
  (* the first use *)
  assert (GetCachedChannelState t0 (Some (Ptr, reg0)) ch
            FCachedChannelState_default c0
          = (false, FCachedChannelState_default,
             mkThreadCache
               (<[FKey ch := FCachedChannelState_default]>
                  (if flush0 then ∅ else ChannelStateCache c0))
               (if flush0 then t0 else LastCacheFlush c0)
               (Some Ptr))) as Hfirst.
  { unfold GetCachedChannelState. cbn [fmap option_fmap option_map fst].
    fold flush0. destruct flush0 eqn:Ef.
    - cbn [ChannelStateCache LastCacheFlush LastRegistryPtr].
      by rewrite lookup_empty, Hreg0.
    - rewrite Hc0, Hreg0. do 2 f_equal.
      unfold flush0 in Ef. apply orb_false_iff in Ef as [Ep _].
      apply negb_false_iff, bool_decide_eq_true in Ep. done. }
  rewrite Hfirst. cbn [fst snd andb].
  set (c1 := mkThreadCache _ _ (Some Ptr)).
  split; [done|]. split.
  { intros Hptr. unfold c1. cbn [LastCacheFlush].
    assert (flush0 = true) as ->; [|done].
    unfold flush0. apply orb_true_iff. left. apply negb_true_iff.
    apply bool_decide_eq_false. congruence. }
  split.
  - intros t Seconds ctx Msg FileName LineNumber Ht.
    assert (GetCachedChannelState t (Some (Ptr, reg1)) ch
              FCachedChannelState_default c1
            = (false, FCachedChannelState_default, c1)) as ->; [|done].
    unfold GetCachedChannelState. cbn [fmap option_fmap option_map fst].
    assert (negb (bool_decide (Some Ptr = LastRegistryPtr c1))
            || Qlt_bool 5 (t - LastCacheFlush c1) = false) as ->.
    { apply orb_false_iff. split.
      - apply negb_false_iff, bool_decide_eq_true. done.
      - by apply Qlt_bool_false. }
    unfold c1 at 1. cbn [ChannelStateCache]. by rewrite lookup_insert_eq.
  - intros t Seconds ctx Msg FileName LineNumber Ht.
    unfold GetCachedChannelState. cbn [fmap option_fmap option_map fst].
    assert (negb (bool_decide (Some Ptr = LastRegistryPtr c1))
            || Qlt_bool 5 (t - LastCacheFlush c1) = true) as ->.
    { apply orb_true_iff. right. by apply Qlt_bool_iff. }
    cbn [ChannelStateCache]. rewrite lookup_empty, Hreg1.
    cbn [fst snd FCachedChannelState_of cached_bEnabled cached_MinVerbosity].
    by rewrite Hen, Hv.
Qed.

(** The theorem on ["Gameplay"], asked for at second 1 in a subsystem
    that has only ["Default"], and registered afterwards: the message at
    second 3 is not logged. *)
Lemma ULM_LOG_keeps_a_miss_for_five_seconds_witness :
  let g0 := mkGlobals (Some fresh_subsystem) [] in
  let r0 := ULM_LOG 1 1 1 call_at_second_1 "Gameplay" Message (Some "%s"%string)
                    "m" None 0 (g0, FThreadCache_new) in
  fst r0 = g0
  /\ ULM_LOG 1 3 3 call_at_second_1 "Gameplay" Message (Some "%s"%string)
             "m" None 0 (gameplay_globals, snd r0)
     = (gameplay_globals, snd r0).
Proof.
  cbn zeta.
  destruct (GULMChannelRegistry gameplay_globals) as [reg1|] eqn:Hg1;
    [|by vm_compute in Hg1].
  destruct (GetChannelState "Gameplay" reg1) as [st|] eqn:Hst.
  2: { vm_compute in Hg1. injection Hg1 as <-. by vm_compute in Hst. }
  destruct (ULM_LOG_keeps_a_miss_for_five_seconds
              1 1 1 call_at_second_1 (mkGlobals (Some fresh_subsystem) [])
              gameplay_globals FULMChannelRegistry_new reg1 st "Gameplay"
              Message (Some "%s"%string) "m" None 0 FThreadCache_new)
    as (H1 & H2 & H3 & _).
  - reflexivity.
  - reflexivity.
  - reflexivity.
  - vm_compute. reflexivity.
  - reflexivity.
  - exact Hg1.
  - exact Hst.
  - vm_compute in Hg1. injection Hg1 as <-. vm_compute in Hst.
    by injection Hst as <-.
  - vm_compute in Hg1. injection Hg1 as <-. vm_compute in Hst.
    by injection Hst as <-.
  - split; [exact H1|]. apply H3.
    rewrite H2; [|discriminate]. vm_compute. discriminate.
Defined.


(** ** The retention cleanup ([FULMRetentionManager::PerformCleanup]) *)

Import ULMRetention.

(** The parts of the name of a rotated file, and its date read back. *)
Lemma RotatedFileName_parts (ch : string) (D : FDateTime) (idx : Z) :
  plain_name ch = true -> valid_date D -> 0 <= idx ->
  let date := ToString_Ymd D in
  ParseIntoArray (RotatedFileName ch D idx) "_"
  = ["ULM"%string; ch; date; Printf_0d 3 idx +:+ ".json"]
  /\ String.length date = 8%nat
  /\ Atoi (substring 0 4 date) = Year D
  /\ Atoi (substring 4 2 date) = Month D
  /\ Atoi (substring 6 2 date) = Day D.
Proof.
  intros [Hne Hch]%andb_true_iff (HY & HM & HD) Hidx.
  apply negb_true_iff in Hne. cbn zeta.
  unfold RotatedFileName, ToString_Ymd.
  destruct (Printf_0d_spec 4 (Year D)) as (HYd & HYa & HYl); [lia|].
  destruct (Printf_0d_spec 2 (Month D)) as (HMd & HMa & HMl); [lia|].
  destruct (Printf_0d_spec 2 (Day D)) as (HDd & HDa & HDl); [lia|].
  destruct (Printf_0d_spec 3 idx) as (HId & _ & _); [lia|].
  specialize (HYl ltac:(lia) ltac:(simpl; lia)).
  specialize (HMl ltac:(lia) ltac:(simpl; lia)).
  specialize (HDl ltac:(lia) ltac:(simpl; lia)).
  set (Ys := Printf_0d 4 (Year D)) in *.
  set (Ms := Printf_0d 2 (Month D)) in *.
  set (Ds := Printf_0d 2 (Day D)) in *.
  set (Is := Printf_0d 3 idx) in *.
  clearbody Ys Ms Ds Is.
  pose proof (fun s => digits_no (fun c => Ascii.eqb c "_") s
                         (fun c H => proj1 (is_digit_plain c H))) as Hnu.
  assert (all_chars (fun c => negb (Ascii.eqb c "_")) ch = true) as Hch'.
  { revert Hch. apply all_chars_impl. intros c H.
    by apply andb_true_iff in H as [-> _]. }
  change (Ys ++ Ms ++ Ds)%string with (Ys +:+ Ms +:+ Ds).
  set (date := Ys +:+ Ms +:+ Ds).
  assert (all_chars (fun c => negb (Ascii.eqb c "_")) date = true) as Hdate.
  { unfold date. by rewrite !all_chars_app, !Hnu. }
  assert (String.length date = 8%nat) as Hlen.
  { unfold date. rewrite !string_app_length. lia. }
  set (last := Is +:+ ".json").
  assert (all_chars (fun c => negb (Ascii.eqb c "_")) last = true) as Hlast.
  { unfold last. by rewrite all_chars_app, Hnu. }
  assert (IsEmpty last = false) as Hlastne by (unfold last; by destruct Is).
  assert (IsEmpty date = false) as Hdatene by (by destruct date).
  split; [|split; [exact Hlen|]].
  - unfold ParseIntoArray.
    change (split_on "_" _ "")
      with (split_on "_"
              ("ULM" +:+ String "_"
                 (ch +:+ String "_" (date +:+ String "_" last))) "").
    rewrite split_on_part by done.
    rewrite split_on_part by done.
    rewrite split_on_part by done.
    rewrite split_on_last by done.
    change ("" +:+ "ULM") with "ULM". change ("" +:+ ch) with ch.
    change ("" +:+ date) with date. change ("" +:+ last) with last.
    by rewrite Hne, Hdatene, Hlastne.
  - split; [|split].
    + unfold date. rewrite <- HYl at 1. by rewrite substring_prefix.
    + unfold date. rewrite <- HYl at 1.
      rewrite <- (Nat.add_0_r (String.length Ys)), substring_skip.
      rewrite <- HMl at 1. by rewrite substring_prefix.
    + unfold date. change 6%nat with (4 + 2)%nat. rewrite <- HYl at 1.
      rewrite substring_skip. rewrite <- HMl at 1.
      rewrite <- (Nat.add_0_r (String.length Ms)), substring_skip.
      rewrite <- HDl at 1. by rewrite substring_all.
Qed.

Lemma EndsWith_app (a suffix : string) :
  IsEmpty suffix = false -> EndsWith (a +:+ suffix) suffix = true.
Proof.
  intros Hne. unfold EndsWith. rewrite Hne, string_app_length. cbn [negb].
  assert ((String.length suffix <=? String.length a + String.length suffix)%nat
          = true) as -> by (apply Nat.leb_le; lia).
  replace (String.length a + String.length suffix - String.length suffix)%nat
    with (String.length a + 0)%nat by lia.
  by rewrite substring_skip, substring_all, FString_eq_refl.
Qed.

Section RetentionProperties.

Variable DayNumber : Z -> Z -> Z -> Z.
Variable GetTimeStamp : string -> Z.
Variable FileSize : string -> Z.
Variable Delete : string -> bool.
Variable NowAt : string -> Z.

(** A file with the name of a rotated file is a log file, and its date is
    the midnight of the day in its name. *)
Lemma rotated_file_is_dated (ch base : string) (D : FDateTime) (idx : Z) :
  plain_name ch = true -> valid_date D -> 0 <= idx ->
  let p := PathAppend base (RotatedFileName ch D idx) in
  IsLogFile p = true
  /\ GetFileCreationDate DayNumber GetTimeStamp p
     = DayNumber (Year D) (Month D) (Day D) * TicksPerDay.
Proof.
  intros Hch HD Hidx p.
  destruct (RotatedFileName_no_slash ch D idx Hch HD Hidx) as [Hne Hns].
  destruct (RotatedFileName_parts ch D idx Hch HD Hidx)
    as (Hparts & Hlen & HY & HM & HDay).
  unfold IsLogFile, GetFileCreationDate, p.
  rewrite (GetCleanFilename_PathAppend base _ Hne Hns). split.
  - apply andb_true_iff. split.
    { unfold StartsWith, RotatedFileName.
      change (String.length "ULM_") with (String.length "ULM_"%string).
      change ("ULM_" ++ ch ++ "_" ++ ToString_Ymd D ++ "_"
              ++ Printf_0d 3 idx ++ ".json")%string
        with ("ULM_" +:+ (ch +:+ ("_" +:+ (ToString_Ymd D
                +:+ ("_" +:+ (Printf_0d 3 idx +:+ ".json")))))).
      by rewrite substring_prefix. }
    unfold RotatedFileName.
    change ("ULM_" ++ ch ++ "_" ++ ToString_Ymd D ++ "_"
            ++ Printf_0d 3 idx ++ ".json")%string
      with ("ULM_" +:+ (ch +:+ ("_" +:+ (ToString_Ymd D
              +:+ ("_" +:+ (Printf_0d 3 idx +:+ ".json")))))).
    rewrite <- !string_app_assoc. by apply EndsWith_app.
  - rewrite Hparts, Hlen. cbn [Nat.eqb].
    unfold Left, Right. rewrite Hlen. cbn [Nat.sub].
    by rewrite HY, HM, HDay.
Qed.

Lemma DeleteExpiredFiles_Deleted (Files : list string)
    (m : FULMRetentionManager) :
  Deleted (snd (DeleteExpiredFiles FileSize Delete Files m))
  = Deleted m ++ List.filter Delete Files.
Proof.
  unfold DeleteExpiredFiles.
  set (step := fun (acc : Z * Z * bool * list string) FilePath' => _).
  assert (forall acc,
            snd (fold_left step Files acc)
            = snd acc ++ List.filter Delete Files) as Hfold.
  { induction Files as [|f Files IH]; intros [[[n b] ok] del]; cbn [fold_left].
    - cbn. by rewrite app_nil_r.
    - rewrite IH. cbn [List.filter]. unfold step.
      destruct (Delete f); cbn [snd]; [by rewrite <- app_assoc | done]. }
  specialize (Hfold (0, 0, true, Deleted m)).
  destruct (fold_left step Files (0, 0, true, Deleted m))
    as [[[n b] ok] del].
  cbn [snd Deleted] in *. exact Hfold.
Qed.

(** A cleanup with a retention of [R] days deletes nothing when [R] is
    not positive; otherwise what it deletes are paths of the directory
    listing under the base path that end in a file name starting with
    [ULM_] and ending with [.json], whose date lies more than [R] days
    before the clock and whose deletion succeeds.  A file with the name
    of a rotated file for a plain channel and the day [D] is deleted if
    and only if it is listed, [R] is positive, the midnight of [D] is
    more than [R] days before the reading of the clock for that file, and
    its deletion succeeds: whether the file is the active one of its
    channel plays no part. *)
Theorem PerformCleanup_deletes_only_expired_log_files
    (LogFiles : list string) (BaseLogPath : string) (Now : Z)
    (m : FULMRetentionManager) :
  let R := RetentionDays (RetentionConfig m) in
  let m' := PerformCleanup DayNumber GetTimeStamp FileSize Delete NowAt
                           LogFiles BaseLogPath Now m in
  exists removed : list string,
    Deleted m' = Deleted m ++ removed
    /\ (R <= 0 -> removed = [])
    /\ (forall p, In p removed ->
          In p (map (PathAppend BaseLogPath) LogFiles)
          /\ IsLogFile p = true /\ Delete p = true
          /\ GetFileCreationDate DayNumber GetTimeStamp p
             < NowAt p - R * TicksPerDay)
    /\ (forall (ch : string) (D : FDateTime) (idx : Z),
          plain_name ch = true -> valid_date D -> 0 <= idx ->
          let p := PathAppend BaseLogPath (RotatedFileName ch D idx) in
          In p removed
          <-> In p (map (PathAppend BaseLogPath) LogFiles)
              /\ 0 < R /\ Delete p = true
              /\ DayNumber (Year D) (Month D) (Day D) * TicksPerDay
                 < NowAt p - R * TicksPerDay).
Proof.
  cbn zeta. unfold PerformCleanup.
  set (R := RetentionDays (RetentionConfig m)).
  destruct (R <=? 0) eqn:ER; [apply Z.leb_le in ER | apply Z.leb_gt in ER].
  { exists []. rewrite app_nil_r. split; [done|]. split; [done|].
    split; [by intros p []|].
    intros ch D idx _ _ _. split; [by intros [] | intros (_ & H & _); lia]. }
  set (Expired := GetExpiredFiles DayNumber GetTimeStamp NowAt LogFiles
                                  BaseLogPath m).
  exists (List.filter Delete Expired). split.
  { destruct (0 <? Z.of_nat (length Expired)) eqn:El; cbn [Deleted].
    - apply DeleteExpiredFiles_Deleted.
    - apply Z.ltb_ge in El.
      assert (Expired = []) as -> by (destruct Expired; [done | simpl in El; lia]).
      by rewrite app_nil_r. }
  split; [lia|].
  assert (forall p, In p (List.filter Delete Expired)
                    <-> In p (map (PathAppend BaseLogPath) LogFiles)
                        /\ IsLogFile p = true /\ Delete p = true
                        /\ GetFileCreationDate DayNumber GetTimeStamp p
                           < NowAt p - R * TicksPerDay) as Hin.
  { intros p. unfold Expired, GetExpiredFiles.
    rewrite !filter_In, andb_true_iff. unfold IsFileExpired. fold R.
    rewrite Z.ltb_lt. tauto. }
  split; [intros p Hp; by apply Hin|].
  intros ch D idx Hch HD Hidx.
  destruct (rotated_file_is_dated ch BaseLogPath D idx Hch HD Hidx)
    as [Hlog Hdate].
  rewrite Hin, Hlog, Hdate. split.
  - intros (H1 & _ & H3 & H4). done.
  - intros (H1 & _ & H3 & H4). done.
Qed.

End RetentionProperties.


(** ** The registration of the master list at startup *)

Lemma has_dot_FindLastChar (n : string) :
  has_dot n = false -> FindLastChar "." n = None.
Proof.
  induction n as [|c n IH]; [done|]. cbn [has_dot FindLastChar].
  intros [Hc Hn]%orb_false_iff. by rewrite (IH Hn), Hc.
Qed.

(** The registration of a name without a dot. *)
Lemma RegisterChannel_root (n : string) (cfg : FULMChannelConfig)
    (reg : FULMChannelRegistry) :
  IsEmpty n = false -> has_dot n = false ->
  ULMChannel.RegisterChannel n cfg reg
  = mkRegistry
      (<[FKey n := cfg]> (ChannelConfigs reg))
      (<[FKey n := UpdateEffectiveSettings cfg None
                     (set_parent "" FULMChannelState_default)]>
         (ChannelStates reg))
      (DefaultConfig reg).
Proof.
  intros Hne Hdot. unfold ULMChannel.RegisterChannel.
  cbn [RegisterChannel_fuel]. rewrite Hne.
  unfold ParseChannelHierarchy. rewrite (has_dot_FindLastChar n Hdot).
  cbn [fst IsEmpty negb andb].
  apply (UpdateChildChannels_no_children n _
           (UpdateEffectiveSettings cfg None
              (set_parent "" FULMChannelState_default))).
  - simpl. apply lookup_insert_eq.
  - by destruct (UpdateEffectiveSettings_hierarchy cfg None
                   (set_parent "" FULMChannelState_default)) as [_ ->].
Qed.

(** What the names [names] are after a run of registrations with [cfg]:
    registered with [cfg], with a list of entries; the other names are as
    they were. *)
Definition registered_with (cfg : FULMChannelConfig) (names : list string)
    (s s' : UULMSubsystem) : Prop :=
  exists reg reg',
    ChannelRegistry s = Some reg /\ ChannelRegistry s' = Some reg'
    /\ (forall n, n ∈ names ->
          ChannelConfigs reg' !! FKey n = Some cfg
          /\ is_Some (ChannelStates reg' !! FKey n)
          /\ is_Some (LogEntries s' !! FKey n))
    /\ (forall k, k ∉ map FKey names ->
          ChannelConfigs reg' !! k = ChannelConfigs reg !! k
          /\ ChannelStates reg' !! k = ChannelStates reg !! k
          /\ LogEntries s' !! k = LogEntries s !! k).

Lemma fold_RegisterChannel (cfg : FULMChannelConfig) (names : list string) :
  Forall (fun n => IsChannelInMasterList n = true /\ has_dot n = false
                   /\ IsEmpty n = false) names ->
  forall (s : UULMSubsystem) (reg : FULMChannelRegistry),
    ChannelRegistry s = Some reg ->
    registered_with cfg names s
      (fold_left (fun s' n => RegisterChannel n cfg s') names s).
Proof.
  induction 1 as [|n names (Hm & Hdot & Hne) _ IH]; intros s reg Hreg.
  { exists reg, reg. split; [done|]. split; [done|]. split; [|done].
    intros m Hm. by apply elem_of_nil in Hm. }
  cbn [fold_left].
  set (reg1 := ULMChannel.RegisterChannel n cfg reg).
  set (s1 := RegisterChannel n cfg s).
  assert (ChannelRegistry s1 = Some reg1
          /\ is_Some (LogEntries s1 !! FKey n)
          /\ forall k, k <> FKey n -> LogEntries s1 !! k = LogEntries s !! k)
    as (Hreg1 & Hent1 & Hother1).
  { unfold s1, RegisterChannel. rewrite Hm, Hreg. cbn [negb].
    fold reg1. cbn [LogEntries with_registry].
    destruct (LogEntries s !! FKey n) as [l|] eqn:El.
    - cbn [ChannelRegistry with_registry LogEntries]. rewrite El. by eauto.
    - cbn [ChannelRegistry with_registry with_entries LogEntries].
      rewrite lookup_insert_eq. split; [done|]. split; [eauto|].
      intros k Hk. by rewrite lookup_insert_ne. }
  assert (reg1 = mkRegistry
                   (<[FKey n := cfg]> (ChannelConfigs reg))
                   (<[FKey n := UpdateEffectiveSettings cfg None
                                  (set_parent "" FULMChannelState_default)]>
                      (ChannelStates reg))
                   (DefaultConfig reg)) as Hreg1'
    by (by apply RegisterChannel_root).
  destruct (IH s1 reg1 Hreg1) as (r & reg' & Hr & Hreg' & Hin & Hout).
  assert (r = reg1) as -> by congruence.
  exists reg, reg'. split; [done|]. split; [done|]. split.
  - intros m Hm'. destruct (decide (m ∈ names)) as [Hmn|Hmn].
    { by apply Hin. }
    apply elem_of_cons in Hm' as [->|Hm']; [|done].
    assert (FKey n ∉ map FKey names \/ FKey n ∈ map FKey names) as [Hk|Hk]
      by (destruct (decide (FKey n ∈ map FKey names)); tauto).
    + destruct (Hout (FKey n) Hk) as (Hc & Hs & He).
      rewrite Hc, Hs, He, Hreg1'. cbn. rewrite !lookup_insert_eq.
      split; [done|]. split; [eauto | done].
    + apply list_elem_of_fmap in Hk as (m' & Hk & Hm'').
      destruct (Hin m' Hm'') as (Hc & Hs & He).
      rewrite Hk. done.
  - intros k Hk. cbn [map] in Hk. apply not_elem_of_cons in Hk as [Hkn Hk].
    destruct (Hout k Hk) as (Hc & Hs & He).
    rewrite Hc, Hs, He, Hreg1'. cbn.
    rewrite !lookup_insert_ne by done. split; [done|]. split; [done|].
    by apply Hother1.
Qed.

(** [ULMLogMessage] registers nothing and changes no configuration and no
    stored entry. *)
Lemma ULMLogMessage_keeps_registration (Seconds : Q) (ctx : CallContext)
    (ch : string) (v : EULMVerbosity) (Msg : string) (F : option string)
    (L : Z) (g : FULMGlobals) (s : UULMSubsystem)
    (reg : FULMChannelRegistry) :
  GULMSubsystem g = Some s -> ChannelRegistry s = Some reg ->
  exists s' reg',
    GULMSubsystem (ULMLogMessage Seconds ctx ch v Msg F L g) = Some s'
    /\ ChannelRegistry s' = Some reg'
    /\ ChannelConfigs reg' = ChannelConfigs reg
    /\ (forall k, is_Some (ChannelStates reg' !! k)
                  <-> is_Some (ChannelStates reg !! k))
    /\ LogEntries s' = LogEntries s.
Proof.
  intros Hs Hreg.
  assert (forall t r,
            ChannelConfigs (snd (CanChannelLog ch v t r)) = ChannelConfigs r
            /\ forall k, is_Some (ChannelStates (snd (CanChannelLog ch v t r))
                                  !! k)
                         <-> is_Some (ChannelStates r !! k)) as Hcan.
  { intros t r. unfold CanChannelLog, GetChannelState.
    destruct (ChannelStates r !! FKey ch) as [st|] eqn:Est; cbn; [|done].
    split; [done|]. intros k. destruct (decide (FKey ch = k)) as [<-|Hne].
    - rewrite lookup_insert_eq, Est. split; eauto.
    - by rewrite lookup_insert_ne. }
  assert (forall (s0 : UULMSubsystem) r,
            ChannelRegistry s0 = Some r ->
            exists r',
              ChannelRegistry (StoreLogEntryInternal ctx Msg ch v s0)
              = Some r'
              /\ ChannelConfigs r' = ChannelConfigs r
              /\ (forall k, is_Some (ChannelStates r' !! k)
                            <-> is_Some (ChannelStates r !! k))
              /\ LogEntries (StoreLogEntryInternal ctx Msg ch v s0)
                 = LogEntries s0) as Hstore.
  { intros s0 r Hr. unfold StoreLogEntryInternal. rewrite Hr.
    cbn [fst snd]. destruct (Hcan (ctx_Seconds ctx) r) as [Hc Hd].
    exists (snd (CanChannelLog ch v (ctx_Seconds ctx) r)).
    destruct (negb _); [done|]. destruct (MAX_QUEUE_SIZE <=? _); [done|].
    by destruct (ctx_EnqueueSucceeds ctx). }
  unfold ULMLogMessage, GULMChannelRegistry. rewrite Hs, Hreg.
  destruct (Hcan Seconds reg) as [Hc Hd].
  destruct (negb (fst (CanChannelLog ch v Seconds reg))).
  - exists (with_registry (Some (snd (CanChannelLog ch v Seconds reg))) s),
      (snd (CanChannelLog ch v Seconds reg)). done.
  - destruct (Hstore
                (with_registry (Some (snd (CanChannelLog ch v Seconds reg))) s)
                (snd (CanChannelLog ch v Seconds reg)) eq_refl)
      as (r' & Hr' & Hc' & Hd' & He').
    eexists _, r'. split; [reflexivity|]. split; [exact Hr'|].
    split; [congruence|]. split; [|exact He'].
    intros k. by rewrite Hd', Hd.
Qed.

Lemma fold_ULMLogMessage_keeps_registration (clock : nat -> Q * CallContext)
    (msgs : list (string * string)) :
  forall (i : nat) (g : FULMGlobals) (s : UULMSubsystem)
         (reg : FULMChannelRegistry),
    GULMSubsystem g = Some s -> ChannelRegistry s = Some reg ->
    exists s' reg',
      GULMSubsystem
        (snd (fold_left
                (fun (acc : nat * FULMGlobals) (m : string * string) =>
                   (S (fst acc),
                    ULMLogMessage (fst (clock (fst acc)))
                                  (snd (clock (fst acc)))
                                  (fst m) Message (snd m) None 0 (snd acc)))
                msgs (i, g))) = Some s'
      /\ ChannelRegistry s' = Some reg'
      /\ ChannelConfigs reg' = ChannelConfigs reg
      /\ (forall k, is_Some (ChannelStates reg' !! k)
                    <-> is_Some (ChannelStates reg !! k))
      /\ LogEntries s' = LogEntries s.
Proof.
  induction msgs as [|m msgs IH]; intros i g s reg Hs Hreg; cbn [fold_left].
  { exists s, reg. done. }
  cbn [fst snd].
  destruct (ULMLogMessage_keeps_registration
              (fst (clock i)) (snd (clock i)) (fst m) Message (snd m) None 0
              g s reg Hs Hreg) as (s1 & reg1 & Hs1 & Hreg1 & Hc1 & Hd1 & He1).
  destruct (IH (S i) _ s1 reg1 Hs1 Hreg1) as (s' & reg' & H1 & H2 & H3 & H4 & H5).
  exists s', reg'. split; [done|]. split; [done|]. split; [congruence|].
  split; [|congruence]. intros k. by rewrite H4, Hd1.
Qed.

(** The startup registration, for a subsystem with a registry and the
    default channel configuration [cfg] of the settings: afterwards each
    of the eleven channels of the master list other than ["Custom"] is
    registered with [cfg] and has its list of entries, whatever the
    eleven messages at the end did; ["Custom"] is registered only when it
    was before, and when it is not, a message to it is dropped by
    [ULMLogMessage] without a line in the output log and without a place
    in the queue. *)
Theorem RegisterAllChannelsFromMasterList_leaves_out_Custom
    (cfg : FULMChannelConfig) (clock : nat -> Q * CallContext)
    (g : FULMGlobals) (s : UULMSubsystem) (reg : FULMChannelRegistry) :
  GULMSubsystem g = Some s -> ChannelRegistry s = Some reg ->
  let g' := RegisterAllChannelsFromMasterList (Some cfg) clock g in
  exists s' reg',
    GULMSubsystem g' = Some s' /\ ChannelRegistry s' = Some reg'
    /\ (forall m, In m ULM_CHANNEL_LIST -> m <> "Custom"%string ->
          IsChannelRegistered m reg' = true
          /\ GetChannelConfig m reg' = cfg
          /\ is_Some (LogEntries s' !! FKey m))
    /\ IsChannelRegistered "Custom" reg' = IsChannelRegistered "Custom" reg
    /\ (IsChannelRegistered "Custom" reg = false ->
        forall Seconds ctx v Msg F L,
          ULMLogMessage Seconds ctx "Custom" v Msg F L g' = g').
Proof.
  intros Hs Hreg g'.
  set (names := List.filter (fun n => negb (String.eqb n "Custom"))
                            ULM_CHANNEL_LIST).
  assert (RegisterMasterListChannels cfg s
          = fold_left (fun s' n => RegisterChannel n cfg s') names s) as Hfold.
  { unfold RegisterMasterListChannels, names.
    generalize ULM_CHANNEL_LIST, s. clear.
    induction l as [|n l IH]; intros s0; [done|].
    cbn [fold_left List.filter].
    destruct (negb (String.eqb n "Custom")); cbn [fold_left]; apply IH. }
  destruct (fold_RegisterChannel cfg names
              ltac:(unfold names; vm_compute; repeat constructor) s reg Hreg)
    as (r & reg1 & Hr & Hreg1 & Hin & Hout).
  assert (r = reg) as -> by congruence.
  rewrite <- Hfold in Hreg1, Hin, Hout.
  set (s1 := RegisterMasterListChannels cfg s) in *.
  destruct (fold_ULMLogMessage_keeps_registration clock RegistrationMessages
              O (mkGlobals (Some s1) (OutputLog g)) s1 reg1 eq_refl Hreg1)
    as (s' & reg' & Hs' & Hreg' & Hc' & Hd' & He').
  assert (GULMSubsystem g' = Some s') as Hg'.
  { unfold g', RegisterAllChannelsFromMasterList. rewrite Hs. exact Hs'. }
  exists s', reg'. split; [exact Hg'|]. split; [exact Hreg'|].
  assert (FKey "Custom" ∉ map FKey names) as Hcustom.
  { unfold names. vm_compute. intros H.
    repeat (apply elem_of_cons in H as [H|H]; [discriminate H|]).
    by apply elem_of_nil in H. }
  split; [|split].
  - intros m Hm Hmc.
    assert (m ∈ names) as Hmn.
    { unfold names. apply list_elem_of_In, filter_In. split; [done|].
      apply negb_true_iff, String.eqb_neq. done. }
    destruct (Hin m Hmn) as (Hc & Hst & He).
    split; [|split].
    + unfold IsChannelRegistered. apply bool_decide_eq_true. by apply Hd'.
    + unfold GetChannelConfig. by rewrite Hc', Hc.
    + by rewrite He'.
  - destruct (Hout _ Hcustom) as (_ & Hst & _).
    unfold IsChannelRegistered.
    apply bool_decide_ext. by rewrite Hd', Hst.
  - intros Hno Seconds ctx v Msg F L.
    assert (ChannelStates reg' !! FKey "Custom" = None) as Hnone.
    { destruct (Hout _ Hcustom) as (_ & Hst & _).
      apply bool_decide_eq_false in Hno.
      destruct (ChannelStates reg' !! FKey "Custom") eqn:E; [|done].
      exfalso. apply Hno. rewrite <- Hst. apply Hd'. by rewrite E. }
    unfold ULMLogMessage, GULMChannelRegistry. rewrite Hg', Hreg'.
    unfold CanChannelLog, GetChannelState. rewrite Hnone. cbn [fst snd negb].
    destruct g' as [sub out]. cbn in Hg'. subst sub. cbn [OutputLog].
    f_equal. f_equal. destruct s'. cbn in Hreg'. by subst.
Qed.

(** The theorem on the subsystem as [Initialize] leaves it before the
    registration, with the default channel configuration. *)
Lemma RegisterAllChannelsFromMasterList_leaves_out_Custom_witness :
  let g' := RegisterAllChannelsFromMasterList
              (Some FULMChannelConfig_default)
              (fun _ => (1%Q, call_at_second_1))
              (mkGlobals (Some fresh_subsystem) []) in
  ULMLogMessage 2 call_at_second_1 "Custom" Critical "m" None 0 g' = g'.
Proof.
  destruct (RegisterAllChannelsFromMasterList_leaves_out_Custom
              FULMChannelConfig_default (fun _ => (1%Q, call_at_second_1))
              (mkGlobals (Some fresh_subsystem) []) fresh_subsystem
              FULMChannelRegistry_new eq_refl eq_refl)
    as (s' & reg' & _ & _ & _ & _ & Hdrop).
  apply Hdrop. vm_compute. reflexivity.
Defined.


(** ** The performance tiers of the settings *)

Import ULMSettings.

(** The ten properties that [DoesCurrentConfigMatchTier] compares. *)
Definition same_compared (a b : UULMSettings) : Prop :=
  MemoryBudgetMB b = MemoryBudgetMB a
  /\ bFileLoggingEnabled b = bFileLoggingEnabled a
  /\ MaxQueueSize b = MaxQueueSize a
  /\ QueueHealthThreshold b = QueueHealthThreshold a
  /\ BatchProcessingSize b = BatchProcessingSize a
  /\ MemoryTrimThreshold b = MemoryTrimThreshold a
  /\ MaxFileSizeBytes (RotationConfig b) = MaxFileSizeBytes (RotationConfig a)
  /\ RetentionDays (RotationConfig b) = RetentionDays (RotationConfig a)
  /\ MinVerbosity (DefaultChannelConfig b)
     = MinVerbosity (DefaultChannelConfig a)
  /\ MaxLogEntries (DefaultChannelConfig b)
     = MaxLogEntries (DefaultChannelConfig a).

(** One of the eight compared properties that are not thresholds has
    another value. *)
Definition differs_in_a_compared_value (a b : UULMSettings) : Prop :=
  MemoryBudgetMB b <> MemoryBudgetMB a
  \/ bFileLoggingEnabled b <> bFileLoggingEnabled a
  \/ MaxQueueSize b <> MaxQueueSize a
  \/ BatchProcessingSize b <> BatchProcessingSize a
  \/ MaxFileSizeBytes (RotationConfig b) <> MaxFileSizeBytes (RotationConfig a)
  \/ RetentionDays (RotationConfig b) <> RetentionDays (RotationConfig a)
  \/ MinVerbosity (DefaultChannelConfig b)
     <> MinVerbosity (DefaultChannelConfig a)
  \/ MaxLogEntries (DefaultChannelConfig b)
     <> MaxLogEntries (DefaultChannelConfig a).

Lemma DoesCurrentConfigMatchTier_same (T : EULMPerformanceTier)
    (a b : UULMSettings) :
  same_compared a b ->
  DoesCurrentConfigMatchTier T b = DoesCurrentConfigMatchTier T a.
Proof.
  intros (H1 & H2 & H3 & H4 & H5 & H6 & H7 & H8 & H9 & H10).
  unfold DoesCurrentConfigMatchTier.
  by rewrite H1, H2, H3, H4, H5, H6, H7, H8, H9, H10.
Qed.

Lemma verbosity_eqb_neq (a b : EULMVerbosity) :
  a <> b -> verbosity_eqb a b = false.
Proof. by destruct a, b. Qed.

Lemma eqb_true_neq (b c : bool) : b <> c -> Bool.eqb b c = false.
Proof. by destruct b, c. Qed.

(** The settings after a tier [T] other than [Custom] has been chosen
    and applied: of the four tiers, the settings match [T] and [Custom]
    only, so the table of [DoesCurrentConfigMatchTier] agrees with the
    three [Apply...Tier] functions and tells the tiers apart; a change
    notification leaves the tier.  After an edit that keeps the ten
    compared properties, whatever it does to the others, the tier stays
    [T]; after an edit that gives another value to one of the compared
    properties that are not thresholds, the notification for that
    property switches the tier to [Custom]. *)
Theorem tier_label_follows_the_compared_properties
    (s : UULMSettings) (T : EULMPerformanceTier) :
  T <> Custom ->
  let s' := ApplyPerformanceTierInternal (set_PerformanceTier T s) in
  PerformanceTier s' = T
  /\ (forall T', DoesCurrentConfigMatchTier T' s' = true
                 <-> T' = T \/ T' = Custom)
  /\ (forall name, SwitchToCustomTierIfNeeded name s' = s')
  /\ (forall (s2 : UULMSettings) (name : string),
        PerformanceTier s2 = T -> same_compared s' s2 ->
        SwitchToCustomTierIfNeeded name s2 = s2)
  /\ (forall (s2 : UULMSettings) (name : string),
        PerformanceTier s2 = T -> differs_in_a_compared_value s' s2 ->
        FString_eq name "PerformanceTier" = false ->
        PerformanceTier (SwitchToCustomTierIfNeeded name s2) = Custom).
Proof.
  intros HT s'.
  assert (PerformanceTier s' = T) as Htier by (unfold s'; by destruct T).
  assert (forall T', DoesCurrentConfigMatchTier T' s' = true
                     <-> T' = T \/ T' = Custom) as Hmatch.
  { intros T'. unfold s'.
    destruct T, T'; try done; vm_compute; split; intros H;
      try discriminate H; try reflexivity; try (by left); try (by right);
      destruct H as [H|H]; discriminate H. }
  assert (forall s2 name,
            PerformanceTier s2 = T ->
            DoesCurrentConfigMatchTier T s2 = true ->
            SwitchToCustomTierIfNeeded name s2 = s2) as Hkeep.
  { intros s2 name H2 Hm. unfold SwitchToCustomTierIfNeeded.
    rewrite H2. destruct T; try done;
      destruct (FString_eq name "PerformanceTier"); try done;
      by rewrite Hm. }
  assert (DoesCurrentConfigMatchTier T s' = true) as Hself
    by (apply Hmatch; by left).
  split; [exact Htier|]. split; [exact Hmatch|].
  split; [intros name; by apply Hkeep|]. split.
  - intros s2 name H2 Hsame. apply Hkeep; [done|].
    by rewrite (DoesCurrentConfigMatchTier_same T s' s2 Hsame).
  - intros s2 name H2 Hdiff Hname.
    assert (DoesCurrentConfigMatchTier T s2 = false) as Hno.
    { unfold s' in Hdiff. unfold differs_in_a_compared_value in Hdiff.
      destruct T; try done; cbn in Hdiff; unfold DoesCurrentConfigMatchTier;
        destruct Hdiff as [H|[H|[H|[H|[H|[H|[H|H]]]]]]];
        first
          [ apply Z.eqb_neq in H
          | apply eqb_true_neq in H
          | apply verbosity_eqb_neq in H ];
        rewrite H; by rewrite ?andb_false_r. }
    destruct T; try done; unfold SwitchToCustomTierIfNeeded;
      by rewrite H2, Hname, Hno.
Qed.

(** Settings before any tier is applied. *)
Definition blank_settings : UULMSettings :=
  mkSettings Custom false false "" 0 0 0 0 0 0
    (mkJSONConfig false false false false [])
    FULMRotationConfig_default FULMChannelConfig_default false 0 0 false.

(** The theorem on the production tier: the settings match it, and a
    memory budget of 26 MB switches them to [Custom]. *)
Lemma tier_label_follows_the_compared_properties_witness :
  let s' := ApplyPerformanceTierInternal
              (set_PerformanceTier Production blank_settings) in
  DoesCurrentConfigMatchTier Production s' = true
  /\ PerformanceTier
       (SwitchToCustomTierIfNeeded "MemoryBudgetMB"
          (mkSettings (PerformanceTier s') (settings_bEnabled s')
             (bFileLoggingEnabled s') (CustomLogDirectory s')
             (MaxQueueSize s') (QueueHealthThreshold s')
             (BatchProcessingSize s') 26 (MemoryTrimThreshold s')
             (EmergencyTrimPercentage s') (JSONConfig s') (RotationConfig s')
             (DefaultChannelConfig s') (bAutoRegisterChannels s')
             (FileWriterFlushInterval s') (ThreadSleepTimeMs s')
             (bEnableSystemHealthMonitoring s')))
     = Custom.
Proof.
  destruct (tier_label_follows_the_compared_properties
              blank_settings Production)
    as (_ & Hmatch & _ & _ & Hswitch); [discriminate|].
  split; [apply Hmatch; by left|].
  apply Hswitch; [reflexivity | left; vm_compute; discriminate | reflexivity].
Defined.


(** ** Structured logs ([FULMStructuredLog]) *)

Import ULMStructuredLog.

(** What a program does with a structured log between its construction
    and its destruction. *)
Inductive StructuredOp :=
| SAdd (Key Value : string)
| SCommit (Seconds : Q) (ctx : CallContext).

Definition structured_step (ThisFile : string) (ThisLine : Z)
    (st : FULMStructuredLog * FULMGlobals) (op : StructuredOp)
  : FULMStructuredLog * FULMGlobals :=
  match op with
  | SAdd Key Value => (Add Key Value (fst st), snd st)
  | SCommit Seconds ctx => Commit ThisFile ThisLine Seconds ctx st
  end.

(** The fields added before the first [Commit], and the clocks of that
    [Commit] ([final] when there is none). *)
Fixpoint adds_before_commit (ops : list StructuredOp)
  : list (string * string) :=
  match ops with
  | [] => []
  | SAdd Key Value :: rest => (Key, Value) :: adds_before_commit rest
  | SCommit _ _ :: _ => []
  end.

Fixpoint commit_clock (ops : list StructuredOp) (final : Q * CallContext)
  : Q * CallContext :=
  match ops with
  | [] => final
  | SAdd _ _ :: rest => commit_clock rest final
  | SCommit Seconds ctx :: _ => (Seconds, ctx)
  end.

(** The value of the key [q] in a list of fields, and the last value
    added for it. *)
Definition field_value (q : string) (m : list (string * string))
  : option string :=
  snd <$> List.find (fun kv => FString_eq (fst kv) q) m.

Definition last_added (q : string) (adds : list (string * string))
    (before : option string) : option string :=
  fold_left
    (fun acc kv => if FString_eq (fst kv) q then Some (snd kv) else acc)
    adds before.

Lemma Emplace_field_value (q Key Value : string)
    (m : list (string * string)) :
  field_value q (Emplace Key Value m)
  = if FString_eq Key q then Some Value else field_value q m.
Proof.
  unfold Emplace, field_value.
  induction m as [|[k v] m IH]; cbn [existsb update_first app List.find fst].
  - by destruct (FString_eq Key q).
  - destruct (FString_eq k Key) eqn:Ek; cbn [orb List.find fst].
    + apply FString_eq_FKey in Ek.
      rewrite (FString_eq_congr_l q k Key Ek).
      by destruct (FString_eq Key q).
    + destruct (existsb (fun kv => FString_eq (fst kv) Key) m) eqn:Ex;
        cbn [List.find fst app].
      * destruct (FString_eq k q) eqn:Ekq; [|exact IH].
        assert (FString_eq Key q = false) as ->; [|done].
        apply FString_eq_neq. apply FString_eq_neq in Ek.
        apply FString_eq_FKey in Ekq. congruence.
      * destruct (FString_eq k q) eqn:Ekq; [|exact IH].
        assert (FString_eq Key q = false) as ->; [|done].
        apply FString_eq_neq. apply FString_eq_neq in Ek.
        apply FString_eq_FKey in Ekq. congruence.
Qed.

Lemma Emplace_keys (Key Value : string) (m : list (string * string)) :
  NoDup (map (fun kv => FKey (fst kv)) m) ->
  NoDup (map (fun kv => FKey (fst kv)) (Emplace Key Value m)).
Proof.
  intros Hd. unfold Emplace.
  destruct (existsb (fun kv => FString_eq (fst kv) Key) m) eqn:Ex.
  - assert (map (fun kv => FKey (fst kv))
              (update_first (fun kv => FString_eq (fst kv) Key)
                            (fun _ => (Key, Value)) m)
            = map (fun kv => FKey (fst kv)) m) as ->; [|done].
    clear. induction m as [|[k v] m IH]; [done|].
    cbn [update_first fst]. destruct (FString_eq k Key) eqn:Ek; cbn [map fst].
    + apply FString_eq_FKey in Ek. by rewrite Ek.
    + by rewrite IH.
  - rewrite map_app. cbn [map fst]. apply NoDup_app. split; [exact Hd|].
    split; [|apply NoDup_singleton].
    intros x Hx Hx'. apply list_elem_of_singleton in Hx'. subst x.
    clear Hd. induction m as [|[k v] m IH]; [by apply elem_of_nil in Hx|].
    cbn [existsb fst] in Ex. apply orb_false_iff in Ex as [Ek Ex].
    cbn [map fst] in Hx. apply elem_of_cons in Hx as [Hx|Hx].
    + apply FString_eq_neq in Ek. congruence.
    + by apply IH.
Qed.

Lemma fold_Add_spec (adds : list (string * string)) :
  forall l : FULMStructuredLog,
    let l' := fold_left (fun l0 kv => Add (fst kv) (snd kv) l0) adds l in
    log_ChannelName l' = log_ChannelName l
    /\ log_Verbosity l' = log_Verbosity l
    /\ log_FileName l' = log_FileName l
    /\ log_LineNumber l' = log_LineNumber l
    /\ log_FunctionName l' = log_FunctionName l
    /\ bCommitted l' = bCommitted l
    /\ (NoDup (map (fun kv => FKey (fst kv)) (Fields l)) ->
        NoDup (map (fun kv => FKey (fst kv)) (Fields l')))
    /\ (forall q, field_value q (Fields l')
                  = last_added q adds (field_value q (Fields l))).
Proof.
  induction adds as [|[k v] adds IH]; intros l; cbn zeta; cbn [fold_left].
  { by repeat split. }
  destruct (IH (Add k v l)) as (H1 & H2 & H3 & H4 & H5 & H6 & H7 & H8).
  cbn [fst snd] in *.
  split; [exact H1|]. split; [exact H2|]. split; [exact H3|].
  split; [exact H4|]. split; [exact H5|]. split; [exact H6|]. split.
  - intros Hd. apply H7. cbn [Add Fields]. by apply Emplace_keys.
  - intros q. rewrite H8. unfold last_added. cbn [fold_left Add Fields fst snd].
    by rewrite Emplace_field_value.
Qed.

Section StructuredLog.

Variable ThisFile : string.
Variable ThisLine : Z.

Lemma committed_stays (ops : list StructuredOp) :
  forall (l : FULMStructuredLog) (g : FULMGlobals),
    bCommitted l = true ->
    let st := fold_left (structured_step ThisFile ThisLine) ops (l, g) in
    bCommitted (fst st) = true /\ snd st = g.
Proof.
  induction ops as [|[k v|t c] ops IH]; intros l g Hc; cbn zeta;
    cbn [fold_left structured_step fst snd].
  - done.
  - by apply IH.
  - unfold Commit. cbn [fst]. rewrite Hc. by apply IH.
Qed.

(** A structured log is handed to [ULMLogMessage] exactly once between
    its construction and the end of its destructor: by the first
    [Commit], or by the destructor when there was none.  The message is
    built from the fields added before that moment, those added later
    being lost; among them every key stands once, whatever its letter
    case, with the value that was added last for it. *)
Theorem structured_log_is_logged_exactly_once
    (ch : string) (v : EULMVerbosity) (file : string) (line : Z)
    (fn : string) (ops : list StructuredOp) (Seconds : Q)
    (ctx : CallContext) (g : FULMGlobals) :
  let l0 := FULMStructuredLog_new ch v file line fn in
  let adds := adds_before_commit ops in
  let l1 := fold_left (fun l kv => Add (fst kv) (snd kv) l) adds l0 in
  let clock := commit_clock ops (Seconds, ctx) in
  Destroy ThisFile ThisLine Seconds ctx
          (fold_left (structured_step ThisFile ThisLine) ops (l0, g))
  = ULMLogMessage (fst clock) (snd clock) ch v (FinalMessage l1)
      (Some (if IsEmpty file then ThisFile else file))
      (if 0 <? line then line else ThisLine) g
  /\ NoDup (map (fun kv => FKey (fst kv)) (Fields l1))
  /\ (forall q, field_value q (Fields l1) = last_added q adds None).
Proof.
  cbn zeta. split.
  - set (l0 := FULMStructuredLog_new ch v file line fn).
    assert (forall (ops0 : list StructuredOp) (l : FULMStructuredLog),
              bCommitted l = false ->
              let l1 := fold_left (fun l kv => Add (fst kv) (snd kv) l)
                                  (adds_before_commit ops0) l in
              let clock := commit_clock ops0 (Seconds, ctx) in
              Destroy ThisFile ThisLine Seconds ctx
                (fold_left (structured_step ThisFile ThisLine) ops0 (l, g))
              = ULMLogMessage (fst clock) (snd clock)
                  (log_ChannelName l) (log_Verbosity l) (FinalMessage l1)
                  (Some (if IsEmpty (log_FileName l) then ThisFile
                         else log_FileName l))
                  (if 0 <? log_LineNumber l then log_LineNumber l
                   else ThisLine) g) as Hgen.
    { induction ops0 as [|[k w|t c] ops0 IH]; intros l Hc; cbn zeta;
        cbn [fold_left structured_step adds_before_commit commit_clock
             fst snd].
      - unfold Destroy, Commit. cbn [fst snd]. by rewrite Hc.
      - rewrite (IH (Add k w l) Hc). done.
      - unfold Commit. cbn [fst snd]. rewrite Hc.
        destruct (committed_stays ops0
                    (mkStructuredLog (log_ChannelName l) (log_Verbosity l)
                       (log_FileName l) (log_LineNumber l)
                       (log_FunctionName l) (Fields l) true)
                    (ULMLogMessage t c (log_ChannelName l) (log_Verbosity l)
                       (FinalMessage l)
                       (Some (if IsEmpty (log_FileName l) then ThisFile
                              else log_FileName l))
                       (if 0 <? log_LineNumber l then log_LineNumber l
                        else ThisLine) g) eq_refl) as [Hc' Hg'].
        unfold Destroy. rewrite Hc'. cbn [negb]. exact Hg'. }
    exact (Hgen ops l0 eq_refl).
  - destruct (fold_Add_spec (adds_before_commit ops)
                (FULMStructuredLog_new ch v file line fn))
      as (_ & _ & _ & _ & _ & _ & Hd & Hv).
    split; [apply Hd; apply NoDup_nil_2 | exact Hv].
Qed.

End StructuredLog.
